(** * A shallow embedding of the browser [Buffer] implementation (src/index.js)

    The source file holds two editions of the same design, each a
    self-contained IIFE that installs [Buffer]:

    - the first edition, lines 1-2467, which leans on the host for base64
      ([atob]/[btoa]);
    - the second edition, lines 2467-4960, which carries its own base64
      codec and a rewritten search routine.

    Functions whose text is the same in both editions are embedded once, at
    top level; functions that differ are embedded per edition in the modules
    [Ed1] and [Ed2].

    Conventions of the embedding:
    - a JavaScript string is the list of its UTF-16 code units ([list Z],
      every unit in [0, 65535]);
    - a [Uint8Array]/[Buffer] is the list of its elements ([list Z], every
      element in [0, 255]); an element store converts with ToUint8 and is
      ignored outside the array, an element load outside the array yields
      [undefined] ([None]);
    - JavaScript numbers are modelled on their integer values ([Z]); an
      optional argument is an [option], [None] standing for [undefined];
      the one number that need not be an integer, the answer of the first
      edition's search in 16-bit units, is a rational ([Q]);
    - a method that mutates [this] is a computation in the monad [M], which
      threads the buffer and stops at the first exception, keeping the
      buffer as it was at the [throw]. *)

From Stdlib Require Import ZArith Lia String Ascii.
From Stdlib Require QArith Qcanon.
From stdpp Require Import base list numbers.
Local Open Scope Z_scope.

(** ** Host semantics *)

(** UTF-16 code units of a string, and buffer contents. *)
Abbreviation jsstring := (list Z) (only parsing).
Abbreviation bytes := (list Z) (only parsing).

(** The code units of an ASCII literal, to write [str "fffefd"]. *)
Fixpoint str (s : string) : jsstring :=
  match s with
  | EmptyString => []
  | String c r => Z.of_N (N_of_ascii c) :: str r
  end.

(** ECMAScript integer conversions. *)
Definition ToUint8 (v : Z) : Z := v mod 256.
Definition ToUint16 (v : Z) : Z := v mod 65536.
Definition ToUint32 (v : Z) : Z := v mod 2 ^ 32.
Definition ToInt32 (v : Z) : Z := (v + 2 ^ 31) mod 2 ^ 32 - 2 ^ 31.

(** [a >>> n], [a >> n], [a << n], [a & b], [a | b] on numbers. *)
Definition ushr (a n : Z) : Z := Z.shiftr (ToUint32 a) n.
Definition sshr (a n : Z) : Z := Z.shiftr (ToInt32 a) n.
Definition shl (a n : Z) : Z := ToInt32 (Z.shiftl (ToInt32 a) n).
Definition band (a b : Z) : Z := ToInt32 (Z.land (ToInt32 a) (ToInt32 b)).
Definition bor (a b : Z) : Z := ToInt32 (Z.lor (ToInt32 a) (ToInt32 b)).

(** [s.charCodeAt(i)]; [None] is NaN. *)
Definition charCodeAt (s : jsstring) (i : Z) : option Z :=
  if decide (0 <= i) then s !! Z.to_nat i else None.

(** [String.fromCharCode(c)] yields the one unit ToUint16(c). *)
Definition fromCharCode (c : Z) : Z := ToUint16 c.

(** [buf[i]] as an rvalue; [None] is [undefined]. *)
Definition elem_get (buf : bytes) (i : Z) : option Z :=
  if decide (0 <= i) then buf !! Z.to_nat i else None.

(** [buf[i] = v] on a typed array, as a pure update. *)
Definition elem_put (buf : bytes) (i v : Z) : bytes :=
  if decide (0 <= i) then <[Z.to_nat i := ToUint8 v]> buf else buf.

(** [buf.length] *)
Definition len (buf : list Z) : Z := Z.of_nat (length buf).

(** Exceptions. The [ERR_*] constructors are the helper functions of the
    source (lines 25-218 and 2491-2636); each returns a [RangeError] or a
    [TypeError], see [error_class]. [RangeError_raw] and [TypeError_raw] are
    the codecs' direct [throw new RangeError(...)]; [ReferenceError] is what
    the host raises when an unbound identifier is read. *)
Inductive exn :=
| ERR_OUT_OF_RANGE (name : string)
| ERR_BUFFER_OUT_OF_BOUNDS
| ERR_INVALID_BUFFER_SIZE (s : string)
| ERR_INVALID_ARG_TYPE (name : string)
| ERR_UNKNOWN_ENCODING
| RangeError_raw (msg : string)
| TypeError_raw (msg : string)
| ReferenceError (ident : string).

Inductive js_class := RangeError | TypeError | ReferenceErrorClass.

Definition error_class (e : exn) : js_class :=
  match e with
  | ERR_OUT_OF_RANGE _ | ERR_BUFFER_OUT_OF_BOUNDS
  | ERR_INVALID_BUFFER_SIZE _ | RangeError_raw _ => RangeError
  | ERR_INVALID_ARG_TYPE _ | ERR_UNKNOWN_ENCODING | TypeError_raw _ => TypeError
  | ReferenceError _ => ReferenceErrorClass
  end.

(** Computations on [this]: the buffer is threaded, an exception ends the
    computation and leaves the buffer as mutated so far. *)
Definition M (A : Type) : Type := bytes -> bytes * (exn + A).

#[global] Instance M_ret : MRet M := fun A a buf => (buf, inr a).
#[global] Instance M_bind : MBind M := fun A B f m buf =>
  match m buf with
  | (buf', inl e) => (buf', inl e)
  | (buf', inr a) => f a buf'
  end.

Definition throw {A : Type} (e : exn) : M A := fun buf => (buf, inl e).
Definition this_length : M Z := fun buf => (buf, inr (len buf)).
Definition load (i : Z) : M (option Z) := fun buf => (buf, inr (elem_get buf i)).
Definition store (i v : Z) : M unit := fun buf => (elem_put buf i v, inr tt).

(** ** Bounds and numeric validation (lines 238-257, 1555-1592; the same
    text at 2654-2673, 2865-2897) *)

(** [validateNumber(value, name, min, max)] on a value that is a number. *)
Definition validateNumber (value : Z) (name : string) (min max : option Z) : M unit :=
  if from_option (Z.ltb value) false min || from_option (Z.gtb value) false max
  then throw (ERR_OUT_OF_RANGE name)
  else mret tt.

(** [validateInteger(value, name, min, max)] on an integer-valued number. *)
Definition MIN_SAFE_INTEGER : Z := - (2 ^ 53 - 1).
Definition MAX_SAFE_INTEGER : Z := 2 ^ 53 - 1.

Definition validateInteger (value : Z) (name : string) (min max : option Z) : M unit :=
  if bool_decide (value < default MIN_SAFE_INTEGER min
                  \/ value > default MAX_SAFE_INTEGER max)
  then throw (ERR_OUT_OF_RANGE name)
  else mret tt.

(** [boundsError(value, length, type)]: every path throws. [value] is an
    integer here, so the "an integer" branch is not taken. *)
Definition boundsError {A : Type} (value length : Z) (type : option string) : M A :=
  if decide (length < 0) then throw ERR_BUFFER_OUT_OF_BOUNDS
  else throw (ERR_OUT_OF_RANGE (default "offset"%string type)).

Definition checkBounds (offset byteLength : Z) : M unit :=
  validateNumber offset "offset" None None;;
  first ← load offset;
  last ← load (offset + byteLength);
  if bool_decide (first = None \/ last = None)
  then n ← this_length; boundsError offset (n - (byteLength + 1)) None
  else mret tt.

Definition checkInt (value min max offset byteLength : Z) : M unit :=
  if bool_decide (value > max \/ value < min)
  then throw (ERR_OUT_OF_RANGE "value")
  else checkBounds offset byteLength.

(** ** Numeric accessors (lines 1751-1758, 2085-2402; the same text at
    3055-3062, 3388-3703) *)

Definition readUInt8 (offset : option Z) : M Z :=
  let offset := default 0 offset in
  validateNumber offset "offset" None None;;
  val ← load offset;
  match val with
  | None => n ← this_length; boundsError offset (n - 1) None
  | Some v => mret v
  end.

Definition writeBigU_Int64LE (value offset min max : Z) : M Z :=
  checkInt value min max offset 7;;
  let lo := Z.land value 0xffffffff in
  store offset lo;;
  let lo := sshr lo 8 in
  store (offset + 1) lo;;
  let lo := sshr lo 8 in
  store (offset + 2) lo;;
  let lo := sshr lo 8 in
  store (offset + 3) lo;;
  let hi := Z.land (Z.shiftr value 32) 0xffffffff in
  store (offset + 4) hi;;
  let hi := sshr hi 8 in
  store (offset + 5) hi;;
  let hi := sshr hi 8 in
  store (offset + 6) hi;;
  let hi := sshr hi 8 in
  store (offset + 7) hi;;
  mret (offset + 8).

Definition writeBigU_Int64BE (value offset min max : Z) : M Z :=
  checkInt value min max offset 7;;
  let lo := Z.land value 0xffffffff in
  store (offset + 7) lo;;
  let lo := sshr lo 8 in
  store (offset + 6) lo;;
  let lo := sshr lo 8 in
  store (offset + 5) lo;;
  let lo := sshr lo 8 in
  store (offset + 4) lo;;
  let hi := Z.land (Z.shiftr value 32) 0xffffffff in
  store (offset + 3) hi;;
  let hi := sshr hi 8 in
  store (offset + 2) hi;;
  let hi := sshr hi 8 in
  store (offset + 1) hi;;
  let hi := sshr hi 8 in
  store offset hi;;
  mret (offset + 8).

Definition writeU_Int48LE (value offset min max : Z) : M Z :=
  checkInt value min max offset 5;;
  let newVal := value / 2 ^ 32 in
  store offset value;;
  let value := ushr value 8 in
  store (offset + 1) value;;
  let value := ushr value 8 in
  store (offset + 2) value;;
  let value := ushr value 8 in
  store (offset + 3) value;;
  store (offset + 4) newVal;;
  store (offset + 5) (ushr newVal 8);;
  mret (offset + 6).

Definition writeU_Int40LE (value offset min max : Z) : M Z :=
  checkInt value min max offset 4;;
  let newVal := value in
  store offset value;;
  let value := ushr value 8 in
  store (offset + 1) value;;
  let value := ushr value 8 in
  store (offset + 2) value;;
  let value := ushr value 8 in
  store (offset + 3) value;;
  store (offset + 4) (newVal / 2 ^ 32);;
  mret (offset + 5).

Definition writeU_Int32LE (value offset min max : Z) : M Z :=
  checkInt value min max offset 3;;
  store offset value;;
  let value := ushr value 8 in
  store (offset + 1) value;;
  let value := ushr value 8 in
  store (offset + 2) value;;
  let value := ushr value 8 in
  store (offset + 3) value;;
  mret (offset + 4).

Definition writeU_Int24LE (value offset min max : Z) : M Z :=
  checkInt value min max offset 2;;
  store offset value;;
  let value := ushr value 8 in
  store (offset + 1) value;;
  let value := ushr value 8 in
  store (offset + 2) value;;
  mret (offset + 3).

Definition writeU_Int16LE (value offset min max : Z) : M Z :=
  checkInt value min max offset 1;;
  store offset value;;
  store (offset + 1) (ushr value 8);;
  mret (offset + 2).

Definition writeU_Int8 (value offset min max : Z) : M Z :=
  validateNumber offset "offset" None None;;
  if bool_decide (value > max \/ value < min)
  then throw (ERR_OUT_OF_RANGE "value")
  else
    cur ← load offset;
    (if bool_decide (cur = None)
     then n ← this_length; boundsError offset (n - 1) None
     else mret tt);;
    store offset value;;
    mret (offset + 1).

Definition writeU_Int48BE (value offset min max : Z) : M Z :=
  checkInt value min max offset 5;;
  let newVal := value / 2 ^ 32 in
  store offset (ushr newVal 8);;
  store (offset + 1) newVal;;
  let offset := offset + 2 in
  store (offset + 3) value;;
  let value := ushr value 8 in
  store (offset + 2) value;;
  let value := ushr value 8 in
  store (offset + 1) value;;
  let value := ushr value 8 in
  store offset value;;
  mret (offset + 4).

Definition writeU_Int40BE (value offset min max : Z) : M Z :=
  checkInt value min max offset 4;;
  store offset (value / 2 ^ 32);;
  let offset := offset + 1 in
  store (offset + 3) value;;
  let value := ushr value 8 in
  store (offset + 2) value;;
  let value := ushr value 8 in
  store (offset + 1) value;;
  let value := ushr value 8 in
  store offset value;;
  mret (offset + 4).

Definition writeU_Int32BE (value offset min max : Z) : M Z :=
  checkInt value min max offset 3;;
  store (offset + 3) value;;
  let value := ushr value 8 in
  store (offset + 2) value;;
  let value := ushr value 8 in
  store (offset + 1) value;;
  let value := ushr value 8 in
  store offset value;;
  mret (offset + 4).

Definition writeU_Int24BE (value offset min max : Z) : M Z :=
  checkInt value min max offset 2;;
  store (offset + 2) value;;
  let value := ushr value 8 in
  store (offset + 1) value;;
  let value := ushr value 8 in
  store offset value;;
  mret (offset + 3).

Definition writeU_Int16BE (value offset min max : Z) : M Z :=
  checkInt value min max offset 1;;
  store offset (ushr value 8);;
  store (offset + 1) value;;
  mret (offset + 2).

(** The public writers. [offset = 0] is the default of the fixed-width
    methods; [writeUIntLE] and its three siblings take it as given. *)
Definition writeBigUInt64LE (value : Z) (offset : option Z) : M Z :=
  writeBigU_Int64LE value (default 0 offset) 0 0xffffffffffffffff.
Definition writeBigUInt64BE (value : Z) (offset : option Z) : M Z :=
  writeBigU_Int64BE value (default 0 offset) 0 0xffffffffffffffff.
Definition writeBigInt64LE (value : Z) (offset : option Z) : M Z :=
  writeBigU_Int64LE value (default 0 offset) (- 0x8000000000000000) 0x7fffffffffffffff.
Definition writeBigInt64BE (value : Z) (offset : option Z) : M Z :=
  writeBigU_Int64BE value (default 0 offset) (- 0x8000000000000000) 0x7fffffffffffffff.

Definition writeUIntLE (value offset byteLength : Z) : M Z :=
  if decide (byteLength = 6) then writeU_Int48LE value offset 0 0xffffffffffff
  else if decide (byteLength = 5) then writeU_Int40LE value offset 0 0xffffffffff
  else if decide (byteLength = 3) then writeU_Int24LE value offset 0 0xffffff
  else if decide (byteLength = 4) then writeU_Int32LE value offset 0 0xffffffff
  else if decide (byteLength = 2) then writeU_Int16LE value offset 0 0xffff
  else if decide (byteLength = 1) then writeU_Int8 value offset 0 0xff
  else boundsError byteLength 6 (Some "byteLength"%string).

Definition writeUIntBE (value offset byteLength : Z) : M Z :=
  if decide (byteLength = 6) then writeU_Int48BE value offset 0 0xffffffffffff
  else if decide (byteLength = 5) then writeU_Int40BE value offset 0 0xffffffffff
  else if decide (byteLength = 3) then writeU_Int24BE value offset 0 0xffffff
  else if decide (byteLength = 4) then writeU_Int32BE value offset 0 0xffffffff
  else if decide (byteLength = 2) then writeU_Int16BE value offset 0 0xffff
  else if decide (byteLength = 1) then writeU_Int8 value offset 0 0xff
  else boundsError byteLength 6 (Some "byteLength"%string).

Definition writeIntLE (value offset byteLength : Z) : M Z :=
  if decide (byteLength = 6) then writeU_Int48LE value offset (- 0x800000000000) 0x7fffffffffff
  else if decide (byteLength = 5) then writeU_Int40LE value offset (- 0x8000000000) 0x7fffffffff
  else if decide (byteLength = 3) then writeU_Int24LE value offset (- 0x800000) 0x7fffff
  else if decide (byteLength = 4) then writeU_Int32LE value offset (- 0x80000000) 0x7fffffff
  else if decide (byteLength = 2) then writeU_Int16LE value offset (- 0x8000) 0x7fff
  else if decide (byteLength = 1) then writeU_Int8 value offset (- 0x80) 0x7f
  else boundsError byteLength 6 (Some "byteLength"%string).

Definition writeIntBE (value offset byteLength : Z) : M Z :=
  if decide (byteLength = 6) then writeU_Int48BE value offset (- 0x800000000000) 0x7fffffffffff
  else if decide (byteLength = 5) then writeU_Int40BE value offset (- 0x8000000000) 0x7fffffffff
  else if decide (byteLength = 3) then writeU_Int24BE value offset (- 0x800000) 0x7fffff
  else if decide (byteLength = 4) then writeU_Int32BE value offset (- 0x80000000) 0x7fffffff
  else if decide (byteLength = 2) then writeU_Int16BE value offset (- 0x8000) 0x7fff
  else if decide (byteLength = 1) then writeU_Int8 value offset (- 0x80) 0x7f
  else boundsError byteLength 6 (Some "byteLength"%string).

Definition writeUInt32LE (value : Z) (offset : option Z) : M Z :=
  writeU_Int32LE value (default 0 offset) 0 0xffffffff.
Definition writeUInt16LE (value : Z) (offset : option Z) : M Z :=
  writeU_Int16LE value (default 0 offset) 0 0xffff.
Definition writeUInt8 (value : Z) (offset : option Z) : M Z :=
  writeU_Int8 value (default 0 offset) 0 0xff.
Definition writeUInt32BE (value : Z) (offset : option Z) : M Z :=
  writeU_Int32BE value (default 0 offset) 0 0xffffffff.
Definition writeUInt16BE (value : Z) (offset : option Z) : M Z :=
  writeU_Int16BE value (default 0 offset) 0 0xffff.
Definition writeInt32LE (value : Z) (offset : option Z) : M Z :=
  writeU_Int32LE value (default 0 offset) (- 0x80000000) 0x7fffffff.
Definition writeInt16LE (value : Z) (offset : option Z) : M Z :=
  writeU_Int16LE value (default 0 offset) (- 0x8000) 0x7fff.
Definition writeInt8 (value : Z) (offset : option Z) : M Z :=
  writeU_Int8 value (default 0 offset) (- 0x80) 0x7f.
Definition writeInt32BE (value : Z) (offset : option Z) : M Z :=
  writeU_Int32BE value (default 0 offset) (- 0x80000000) 0x7fffffff.
Definition writeInt16BE (value : Z) (offset : option Z) : M Z :=
  writeU_Int16BE value (default 0 offset) (- 0x8000) 0x7fff.

(** The family of integer writers, to quantify over all of them at once.
    [call w value offset] is the method call [buf.w(value, offset)], with
    the byte length as third argument for the variable-width methods. *)
Inductive int_writer :=
| WriteUInt8 | WriteUInt16LE | WriteUInt16BE | WriteUInt32LE | WriteUInt32BE
| WriteInt8 | WriteInt16LE | WriteInt16BE | WriteInt32LE | WriteInt32BE
| WriteUIntLE (byteLength : Z) | WriteUIntBE (byteLength : Z)
| WriteIntLE (byteLength : Z) | WriteIntBE (byteLength : Z)
| WriteBigUInt64LE | WriteBigUInt64BE | WriteBigInt64LE | WriteBigInt64BE.

Definition call (w : int_writer) (value offset : Z) : M Z :=
  match w with
  | WriteUInt8 => writeUInt8 value (Some offset)
  | WriteUInt16LE => writeUInt16LE value (Some offset)
  | WriteUInt16BE => writeUInt16BE value (Some offset)
  | WriteUInt32LE => writeUInt32LE value (Some offset)
  | WriteUInt32BE => writeUInt32BE value (Some offset)
  | WriteInt8 => writeInt8 value (Some offset)
  | WriteInt16LE => writeInt16LE value (Some offset)
  | WriteInt16BE => writeInt16BE value (Some offset)
  | WriteInt32LE => writeInt32LE value (Some offset)
  | WriteInt32BE => writeInt32BE value (Some offset)
  | WriteUIntLE n => writeUIntLE value offset n
  | WriteUIntBE n => writeUIntBE value offset n
  | WriteIntLE n => writeIntLE value offset n
  | WriteIntBE n => writeIntBE value offset n
  | WriteBigUInt64LE => writeBigUInt64LE value (Some offset)
  | WriteBigUInt64BE => writeBigUInt64BE value (Some offset)
  | WriteBigInt64LE => writeBigInt64LE value (Some offset)
  | WriteBigInt64BE => writeBigInt64BE value (Some offset)
  end.

(** Width in bytes and signedness of a writer, and the range of integers
    representable at that width and signedness. *)
Definition width (w : int_writer) : Z :=
  match w with
  | WriteUInt8 | WriteInt8 => 1
  | WriteUInt16LE | WriteUInt16BE | WriteInt16LE | WriteInt16BE => 2
  | WriteUInt32LE | WriteUInt32BE | WriteInt32LE | WriteInt32BE => 4
  | WriteUIntLE n | WriteUIntBE n | WriteIntLE n | WriteIntBE n => n
  | WriteBigUInt64LE | WriteBigUInt64BE | WriteBigInt64LE | WriteBigInt64BE => 8
  end.

Definition signed (w : int_writer) : bool :=
  match w with
  | WriteInt8 | WriteInt16LE | WriteInt16BE | WriteInt32LE | WriteInt32BE
  | WriteIntLE _ | WriteIntBE _ | WriteBigInt64LE | WriteBigInt64BE => true
  | _ => false
  end.

Definition representable (w : int_writer) (value : Z) : Prop :=
  if signed w
  then - 2 ^ (8 * width w - 1) <= value < 2 ^ (8 * width w - 1)
  else 0 <= value < 2 ^ (8 * width w).

Definition in_bounds (buf : bytes) (offset width : Z) : Prop :=
  0 <= offset /\ offset + width <= len buf.

(** ** Loops

    [for (let i = start; k iterations; i += step) body(i)]. The counted
    loops of the source run over integers with a positive step, so the
    number of iterations is known when the loop is entered. *)
Fixpoint for_count (n : nat) (i step : Z) (body : Z -> M unit) : M unit :=
  match n with
  | O => mret tt
  | S n' => body i;; for_count n' (i + step) step body
  end.

(** [for (let i = start; i < bound; i += step) body(i)], [step > 0]. *)
Definition for_lt (start bound step : Z) (body : Z -> M unit) : M unit :=
  for_count (Z.to_nat ((bound - start + step - 1) / step)) start step body.

(** The window [this[start], ..., this[end - 1]] of a buffer. *)
Definition window (buf : bytes) (start end_ : Z) : bytes :=
  take (Z.to_nat (end_ - start)) (drop (Z.to_nat start) buf).

(** The guard that opens every [xxxSlice(start, end)] (for instance lines
    947-950): a [RangeError] unless [0 <= start <= length] and
    [end <= length]; an [end] below [start] is raised to [start]. The
    result is the window to decode. *)
Definition slice_window (buf : bytes) (start end_ : option Z) : exn + bytes :=
  let start := default 0 start in
  let end_ := default (len buf) end_ in
  if decide (start < 0 \/ start > len buf \/ end_ > len buf)
  then inl (RangeError_raw "Index out of range")
  else
    let end_ := if decide (end_ < start) then start else end_ in
    inr (window buf start end_).

(** The guard that opens every [xxxWrite(string, offset, length)] of the
    codecs (for instance lines 874-880), with the default [length] handed
    in by the codec: it throws on a negative [offset] or [length] or an
    [offset] past the end, and returns [offset] and the [length] argument. *)
Definition write_guard (offset : option Z) (length : option Z) (dflt : Z) : M (Z * Z) :=
  let offset := default 0 offset in
  let length := default dflt length in
  if decide (offset < 0) then throw (RangeError_raw "Index out of range")
  else
    n ← this_length;
    if decide (offset > n) then throw (RangeError_raw "offset is outside of buffer bounds")
    else if decide (length < 0) then throw (RangeError_raw "Index out of range")
    else mret (offset, length).

(** ** UTF-8 (lines 838-1011; the same text at 2689-2706, 3790-3930) *)

Definition isLeadSurrogate (codePoint : Z) : bool := band codePoint 0xfc00 =? 0xd800.
Definition isTrailSurrogate (codePoint : Z) : bool := band codePoint 0xfc00 =? 0xdc00.

Fixpoint byteLengthUtf8_loop (rest : jsstring) (previous : option Z) (byteLength : Z) : Z :=
  match rest with
  | [] => byteLength
  | c :: rest' =>
    let byteLength :=
      if decide (c <= 0x7f) then byteLength + 1
      else if decide (c <= 0x7ff) then byteLength + 2
      else if decide (c <= 0xffff) then
        match previous with
        | Some p => if isLeadSurrogate p && isTrailSurrogate c
                    then byteLength + 1 else byteLength + 3
        | None => byteLength + 3
        end
      else byteLength + 4 in
    byteLengthUtf8_loop rest' (Some c) byteLength
  end.

Definition byteLengthUtf8 (string : jsstring) : Z := byteLengthUtf8_loop string None 0.

(** The three stores of U+FFFD. *)
Definition put_replacement (offset : Z) : M unit :=
  store offset 0xEF;; store (offset + 1) 0xBF;; store (offset + 2) 0xBD.

(** The loop of [utf8Write] over the code units still to come; [rest' = []]
    is the source's [i + 1 === string.length]. [length -= k] happens before
    its test, also when the test fails. *)
Fixpoint utf8Write_loop (rest : jsstring) (offset length written : Z) (lead : option Z)
    {struct rest} : M Z :=
  match rest with
  | [] => mret written
  | code :: rest' =>
    let encode (code offset length written : Z) : M Z :=
      if decide (code < 0x80) then
        let length := length - 1 in
        if decide (length < 0) then mret written
        else
          store offset code;;
          utf8Write_loop rest' (offset + 1) length (written + 1) None
      else if decide (code < 0x800) then
        let length := length - 2 in
        if decide (length < 0) then mret written
        else
          store offset (bor (sshr code 0x6) 0xC0);;
          store (offset + 1) (bor (band code 0x3F) 0x80);;
          utf8Write_loop rest' (offset + 2) length (written + 2) None
      else if decide (code < 0x10000) then
        let length := length - 3 in
        if decide (length < 0) then mret written
        else
          store offset (bor (sshr code 0xC) 0xE0);;
          store (offset + 1) (bor (band (sshr code 0x6) 0x3F) 0x80);;
          store (offset + 2) (bor (band code 0x3F) 0x80);;
          utf8Write_loop rest' (offset + 3) length (written + 3) None
      else if decide (code < 0x110000) then
        let length := length - 4 in
        if decide (length < 0) then mret written
        else
          store offset (bor (sshr code 0x12) 0xF0);;
          store (offset + 1) (bor (band (sshr code 0xC) 0x3F) 0x80);;
          store (offset + 2) (bor (band (sshr code 0x6) 0x3F) 0x80);;
          store (offset + 3) (bor (band code 0x3F) 0x80);;
          utf8Write_loop rest' (offset + 4) length (written + 4) None
      else utf8Write_loop rest' offset length written None in
    if decide (code > 0xD7FF /\ code < 0xE000) then
      match lead with
      | None =>
        if decide (code > 0xDBFF \/ rest' = []) then
          let length := length - 3 in
          if decide (length > -1) then
            put_replacement offset;;
            utf8Write_loop rest' (offset + 3) length (written + 3) None
          else utf8Write_loop rest' offset length written None
        else utf8Write_loop rest' offset length written (Some code)
      | Some l =>
        if decide (code < 0xDC00) then
          let length := length - 3 in
          if decide (length > -1) then
            put_replacement offset;;
            utf8Write_loop rest' (offset + 3) length (written + 3) (Some code)
          else utf8Write_loop rest' offset length written (Some code)
        else
          encode (0x10000 + shl (band l 0x3ff) 10 + band code 0x3ff)
                 offset length written
      end
    else
      match lead with
      | Some _ =>
        let length := length - 3 in
        if decide (length > -1) then
          put_replacement offset;;
          encode code (offset + 3) length (written + 3)
        else encode code offset length written
      | None => encode code offset length written
      end
  end.

Definition utf8Write (string : jsstring) (offset length : option Z) : M Z :=
  '(offset, length) ← write_guard offset length (byteLengthUtf8 string);
  n ← this_length;
  let length := Z.min (Z.min (n - offset) (byteLengthUtf8 string)) length in
  utf8Write_loop string offset length 0 None.

(** What [utf8Slice] appends for a decoded [code]: one unit, or the two
    units computed by lines 1003-1008 when [code > 0xFFFF]. *)
Definition utf8_units (code : Z) : jsstring :=
  if decide (code > 0xFFFF) then
    let code := code - 0x10000 in
    [fromCharCode (0xd800 + band (sshr (code - 0x10000) 10) 0x3ff);
     fromCharCode (0xdc00 + band code 0x3ff)]
  else [fromCharCode code].

(** The loop of [utf8Slice] over the bytes from [i] to [end]; [i + k <= end]
    is "at least [k] bytes left". A byte that opens no valid sequence gives
    U+FFFD and is stepped over alone. *)
Fixpoint utf8Slice_loop (w : bytes) : jsstring :=
  match w with
  | [] => []
  | first :: w1 =>
    let invalid := 0xFFFD :: utf8Slice_loop w1 in
    if decide (first <= 0xBF) then
      if decide (first < 0x80) then utf8_units first ++ utf8Slice_loop w1
      else invalid
    else if decide (first <= 0xDF) then
      match w1 with
      | second :: w2 =>
        if decide (band second 0xC0 = 0x80) then
          let tmp := bor (shl (band first 0x1F) 0x6) (band second 0x3F) in
          if decide (tmp > 0x7F) then utf8_units tmp ++ utf8Slice_loop w2
          else invalid
        else invalid
      | _ => invalid
      end
    else if decide (first <= 0xEF) then
      match w1 with
      | second :: third :: w3 =>
        if decide (band second 0xC0 = 0x80 /\ band third 0xC0 = 0x80) then
          let tmp := bor (bor (shl (band first 0xF) 0xC) (shl (band second 0x3F) 0x6))
                         (band third 0x3F) in
          if decide (tmp > 0x7FF /\ (tmp < 0xD800 \/ tmp > 0xDFFF))
          then utf8_units tmp ++ utf8Slice_loop w3
          else invalid
        else invalid
      | _ => invalid
      end
    else
      match w1 with
      | second :: third :: fourth :: w4 =>
        if decide (band second 0xC0 = 0x80 /\ band third 0xC0 = 0x80
                   /\ band fourth 0xC0 = 0x80) then
          let tmp := bor (bor (bor (shl (band first 0xF) 0x12) (shl (band second 0x3F) 0xC))
                              (shl (band third 0x3F) 0x6))
                         (band fourth 0x3F) in
          if decide (tmp > 0xFFFF /\ tmp < 0x110000)
          then utf8_units tmp ++ utf8Slice_loop w4
          else invalid
        else invalid
      | _ => invalid
      end
  end.

Definition utf8Slice (buf : bytes) (start end_ : option Z) : exn + jsstring :=
  match slice_window buf start end_ with
  | inl e => inl e
  | inr w => inr (utf8Slice_loop w)
  end.

(** ** Latin-1 (lines 1050-1077; the same text at 3965-3987) *)

(** [for (i = 0; i < length; ++i) this[offset++] = string.charCodeAt(i) & mask],
    the loop shared by [latin1Write] and [asciiWrite]. [NaN & mask] is 0. *)
Definition write_masked (string : jsstring) (offset length mask : Z) : M unit :=
  for_lt 0 length 1 (fun i =>
    store (offset + i) (band (default 0 (charCodeAt string i)) mask)).

Definition latin1Write (string : jsstring) (offset length : option Z) : M Z :=
  let offset := default 0 offset in
  let length := default (len string) length in
  if decide (offset < 0 \/ length < 0) then throw (RangeError_raw "Index out of range")
  else
    n ← this_length;
    if decide (offset > n) then throw (RangeError_raw "offset is outside of buffer bounds")
    else
      let length := Z.min (Z.min (n - offset) (len string)) length in
      write_masked string offset length 0xFF;;
      mret length.

Definition latin1Slice (buf : bytes) (start end_ : option Z) : exn + jsstring :=
  match slice_window buf start end_ with
  | inl e => inl e
  | inr w => inr (map fromCharCode w)
  end.

(** ** Host functions used by both editions *)

(** [Number.prototype.toString(16)] on a byte, and [padStart(2, '0')]. *)
Definition hex_digit (d : Z) : Z := if decide (d < 10) then 48 + d else 87 + d.
Definition toString16 (v : Z) : jsstring :=
  if decide (v < 16) then [hex_digit v] else [hex_digit (v / 16); hex_digit (v mod 16)].
Definition padStart2 (s : jsstring) : jsstring :=
  replicate (2 - length s)%nat 48 ++ s.

(** White space and line terminators, as [trim] and [parseInt] strip them. *)
Definition is_js_space (c : Z) : bool :=
  bool_decide (c ∈ [9; 10; 11; 12; 13; 32; 160; 0x1680; 0x2028; 0x2029;
                   0x202F; 0x205F; 0x3000; 0xFEFF] \/ 0x2000 <= c <= 0x200A).

Fixpoint trimStart (s : jsstring) : jsstring :=
  match s with
  | c :: r => if is_js_space c then trimStart r else s
  | [] => []
  end.
Definition trim (s : jsstring) : jsstring := reverse (trimStart (reverse (trimStart s))).

(** [parseInt(s, 16)]; [None] is NaN. *)
Definition hex_value (c : Z) : option Z :=
  if decide (48 <= c <= 57) then Some (c - 48)
  else if decide (97 <= c <= 102) then Some (c - 87)
  else if decide (65 <= c <= 70) then Some (c - 55)
  else None.

Fixpoint parse_digits16 (s : jsstring) (acc : option Z) : option Z :=
  match s with
  | c :: r =>
    match hex_value c with
    | Some d => parse_digits16 r (Some (default 0 acc * 16 + d))
    | None => acc
    end
  | [] => acc
  end.

Definition parseInt16 (s : jsstring) : option Z :=
  let s := trimStart s in
  let '(sign, s) := match s with
                    | 45 :: r => (-1, r)
                    | 43 :: r => (1, r)
                    | _ => (1, s)
                    end in
  let s := match s with
           | 48 :: 120 :: r | 48 :: 88 :: r => r
           | _ => s
           end in
  Z.mul sign <$> parse_digits16 s None.

(** [string.slice(from, to)] for [0 <= from <= to]. *)
Definition string_slice (s : jsstring) (from to : Z) : jsstring :=
  take (Z.to_nat (to - from)) (drop (Z.to_nat from) s).

(** [%TypedArray%.prototype.fill(value, start, end)] (ECMAScript 23.2.3.9):
    both bounds are taken relative to the end when negative and clamped to
    the array, then every element from [k] up to [final] is set. *)
Definition relative_index (n i : Z) : Z :=
  if decide (i < 0) then Z.max (n + i) 0 else Z.min i n.

Definition TypedArray_fill (value start end_ : Z) : M unit :=
  n ← this_length;
  let k := relative_index n start in
  let final := relative_index n end_ in
  for_lt k final 1 (fun i => store i value).

(** [%TypedArray%.prototype.indexOf(searchElement, fromIndex)] and
    [lastIndexOf] (ECMAScript 23.2.3.17, 23.2.3.20), with [fromIndex]
    given. *)
Fixpoint find_up (w : bytes) (v i : Z) : Z :=
  match w with
  | [] => -1
  | b :: r => if decide (b = v) then i else find_up r v (i + 1)
  end.

Definition TypedArray_indexOf (buf : bytes) (searchElement fromIndex : Z) : Z :=
  let n := len buf in
  if decide (n = 0 \/ fromIndex >= n) then -1
  else
    let k := if decide (fromIndex >= 0) then fromIndex else Z.max (n + fromIndex) 0 in
    find_up (drop (Z.to_nat k) buf) searchElement k.

Fixpoint find_down (buf : bytes) (v : Z) (n : nat) : Z :=
  match n with
  | O => -1
  | S k => if decide (buf !! k = Some v) then Z.of_nat k else find_down buf v k
  end.

Definition TypedArray_lastIndexOf (buf : bytes) (searchElement fromIndex : Z) : Z :=
  let n := len buf in
  if decide (n = 0) then -1
  else
    let k := if decide (fromIndex >= 0) then Z.min fromIndex (n - 1) else n + fromIndex in
    find_down buf searchElement (Z.to_nat (k + 1)).

(** [swap(b, n, m)] (lines 1505-1509 and 4919-4923). *)
Definition swap (n m : Z) : M unit :=
  i ← load n;
  bm ← load m;
  store n (default 0 bm);;
  store m (default 0 i).

(** The descriptor of one encoding in [encodingOps] (lines 1177-1227 and
    4487-4577). *)
Record EncodingOps := {
  ops_byteLength : jsstring -> Z;
  ops_write : jsstring -> Z -> Z -> M Z;
  ops_slice : bytes -> Z -> Z -> exn + jsstring
}.

(** [Buffer.prototype.toString(encoding, start, end)] (lines 1434-1464 and
    4647-4674) with the encoding resolved to its descriptor; [None] is the
    call without an encoding. *)
Definition toString (buf : bytes) (ops : option EncodingOps) (start end_ : option Z)
    : exn + jsstring :=
  let n := len buf in
  let start := default 0 start in
  if decide (start > 0 /\ start >= n) then inr []
  else
    let start := if decide (start <= 0) then 0 else ToInt32 start in
    let end_ := match end_ with
                | None => n
                | Some e => if decide (e > n) then n else ToInt32 e
                end in
    if decide (end_ <= start) then inr []
    else
      match ops with
      | None => utf8Slice buf (Some start) (Some end_)
      | Some o => ops_slice o buf start end_
      end.

(** The needle of a search: a number, a string with the descriptor of its
    encoding, or a byte sequence. *)
Inductive needle :=
| NNumber (val : Z)
| NString (val : jsstring) (ops : EncodingOps)
| NBytes (val : bytes).

(** The treatment of [byteOffset] that opens [bidirectionalIndexOf] (lines
    1349-1362 and 4737-4746): clamped to the int32 range; [undefined]
    becomes NaN and then the start ([dir]) or the end of the buffer. *)
Definition search_offset (buf : bytes) (byteOffset : option Z) (dir : bool) : Z :=
  match byteOffset with
  | None => if dir then 0 else len buf
  | Some o =>
    if decide (o > 0x7fffffff) then 0x7fffffff
    else if decide (o < - 0x80000000) then - 0x80000000
    else o
  end.

(** What the host does when a function body reads an identifier that no
    enclosing scope binds. *)
Definition unbound {A : Type} (ident : string) : M A := throw (ReferenceError ident).


(** ** Encoding names

    The keys of [encodingOps] (lines 1177-1227 and 4487-4577), to say which
    descriptor [getEncodingOps] returns. *)
Inductive encoding_key :=
| Kutf8 | Kucs2 | Kutf16le | Klatin1 | Kascii | Kbase64 | Kbase64url | Khex.

(** ** Integer reads (lines 1595-2014; the same text at 2899-3317)

    An element load can yield [undefined], and arithmetic on [undefined]
    yields NaN, so the number that a read computes is an [option Z], [None]
    standing for NaN. A bit operation takes NaN for 0. *)
Definition num_add (x y : option Z) : option Z :=
  match x, y with
  | Some a, Some b => Some (a + b)
  | _, _ => None
  end.
Definition num_mul (x : option Z) (k : Z) : option Z :=
  match x with
  | Some a => Some (a * k)
  | None => None
  end.
Definition int_of (x : option Z) : Z := default 0 x.

Infix "+?" := num_add (at level 50, left associativity).
Infix "*?" := num_mul (at level 40, left associativity).

(** [BigInt(x)] on a number: NaN is refused with a [RangeError]. *)
Definition BigInt (x : option Z) : M Z :=
  match x with
  | Some v => mret v
  | None => throw (RangeError_raw "The number NaN cannot be converted to a BigInt")
  end.

(** The prologue of every read of [byteLength] bytes: the first and the
    last element of the window are loaded, and a missing one is a bounds
    error. *)
Definition read_ends (offset byteLength : Z) : M (option Z * option Z) :=
  validateNumber offset "offset" None None;;
  first ← load offset;
  last ← load (offset + (byteLength - 1));
  if bool_decide (first = None \/ last = None)
  then n ← this_length; boundsError offset (n - byteLength) None
  else mret (first, last).

Definition readBigUInt64LE (offset : option Z) : M Z :=
  let offset := default 0 offset in
  '(first, last) ← read_ends offset 8;
  b1 ← load (offset + 1);
  b2 ← load (offset + 2);
  b3 ← load (offset + 3);
  let lo := first +? b1 *? 2 ^ 8 +? b2 *? 2 ^ 16 +? b3 *? 2 ^ 24 in
  b4 ← load (offset + 4);
  b5 ← load (offset + 5);
  b6 ← load (offset + 6);
  let hi := b4 +? b5 *? 2 ^ 8 +? b6 *? 2 ^ 16 +? last *? 2 ^ 24 in
  lo ← BigInt lo;
  hi ← BigInt hi;
  mret (lo + Z.shiftl hi 32).

Definition readBigUInt64BE (offset : option Z) : M Z :=
  let offset := default 0 offset in
  '(first, last) ← read_ends offset 8;
  b1 ← load (offset + 1);
  b2 ← load (offset + 2);
  b3 ← load (offset + 3);
  let hi := first *? 2 ^ 24 +? b1 *? 2 ^ 16 +? b2 *? 2 ^ 8 +? b3 in
  b4 ← load (offset + 4);
  b5 ← load (offset + 5);
  b6 ← load (offset + 6);
  let lo := b4 *? 2 ^ 24 +? b5 *? 2 ^ 16 +? b6 *? 2 ^ 8 +? last in
  hi ← BigInt hi;
  lo ← BigInt lo;
  mret (Z.shiftl hi 32 + lo).

Definition readBigInt64LE (offset : option Z) : M Z :=
  let offset := default 0 offset in
  '(first, last) ← read_ends offset 8;
  b4 ← load (offset + 4);
  b5 ← load (offset + 5);
  b6 ← load (offset + 6);
  let val := b4 +? b5 *? 2 ^ 8 +? b6 *? 2 ^ 16 +? Some (shl (int_of last) 24) in
  val ← BigInt val;
  b1 ← load (offset + 1);
  b2 ← load (offset + 2);
  b3 ← load (offset + 3);
  lo ← BigInt (first +? b1 *? 2 ^ 8 +? b2 *? 2 ^ 16 +? b3 *? 2 ^ 24);
  mret (Z.shiftl val 32 + lo).

Definition readBigInt64BE (offset : option Z) : M Z :=
  let offset := default 0 offset in
  '(first, last) ← read_ends offset 8;
  b1 ← load (offset + 1);
  b2 ← load (offset + 2);
  b3 ← load (offset + 3);
  let val := Some (shl (int_of first) 24) +? b1 *? 2 ^ 16 +? b2 *? 2 ^ 8 +? b3 in
  val ← BigInt val;
  b4 ← load (offset + 4);
  b5 ← load (offset + 5);
  b6 ← load (offset + 6);
  lo ← BigInt (b4 *? 2 ^ 24 +? b5 *? 2 ^ 16 +? b6 *? 2 ^ 8 +? last);
  mret (Z.shiftl val 32 + lo).

Definition readUInt48LE (offset : option Z) : M (option Z) :=
  let offset := default 0 offset in
  '(first, last) ← read_ends offset 6;
  b1 ← load (offset + 1);
  b2 ← load (offset + 2);
  b3 ← load (offset + 3);
  b4 ← load (offset + 4);
  mret (first +? b1 *? 2 ^ 8 +? b2 *? 2 ^ 16 +? b3 *? 2 ^ 24
        +? (b4 +? last *? 2 ^ 8) *? 2 ^ 32).

Definition readUInt40LE (offset : option Z) : M (option Z) :=
  let offset := default 0 offset in
  '(first, last) ← read_ends offset 5;
  b1 ← load (offset + 1);
  b2 ← load (offset + 2);
  b3 ← load (offset + 3);
  mret (first +? b1 *? 2 ^ 8 +? b2 *? 2 ^ 16 +? b3 *? 2 ^ 24 +? last *? 2 ^ 32).

Definition readUInt32LE (offset : option Z) : M (option Z) :=
  let offset := default 0 offset in
  '(first, last) ← read_ends offset 4;
  b1 ← load (offset + 1);
  b2 ← load (offset + 2);
  mret (first +? b1 *? 2 ^ 8 +? b2 *? 2 ^ 16 +? last *? 2 ^ 24).

Definition readUInt24LE (offset : option Z) : M (option Z) :=
  let offset := default 0 offset in
  '(first, last) ← read_ends offset 3;
  b1 ← load (offset + 1);
  mret (first +? b1 *? 2 ^ 8 +? last *? 2 ^ 16).

Definition readUInt16LE (offset : option Z) : M (option Z) :=
  let offset := default 0 offset in
  '(first, last) ← read_ends offset 2;
  mret (first +? last *? 2 ^ 8).

Definition readUInt48BE (offset : option Z) : M (option Z) :=
  let offset := default 0 offset in
  '(first, last) ← read_ends offset 6;
  b1 ← load (offset + 1);
  b2 ← load (offset + 2);
  b3 ← load (offset + 3);
  b4 ← load (offset + 4);
  mret ((first *? 2 ^ 8 +? b1) *? 2 ^ 32
        +? b2 *? 2 ^ 24 +? b3 *? 2 ^ 16 +? b4 *? 2 ^ 8 +? last).

Definition readUInt40BE (offset : option Z) : M (option Z) :=
  let offset := default 0 offset in
  '(first, last) ← read_ends offset 5;
  b1 ← load (offset + 1);
  b2 ← load (offset + 2);
  b3 ← load (offset + 3);
  mret (first *? 2 ^ 32 +? b1 *? 2 ^ 24 +? b2 *? 2 ^ 16 +? b3 *? 2 ^ 8 +? last).

Definition readUInt32BE (offset : option Z) : M (option Z) :=
  let offset := default 0 offset in
  '(first, last) ← read_ends offset 4;
  b1 ← load (offset + 1);
  b2 ← load (offset + 2);
  mret (first *? 2 ^ 24 +? b1 *? 2 ^ 16 +? b2 *? 2 ^ 8 +? last).

Definition readUInt24BE (offset : option Z) : M (option Z) :=
  let offset := default 0 offset in
  '(first, last) ← read_ends offset 3;
  b1 ← load (offset + 1);
  mret (first *? 2 ^ 16 +? b1 *? 2 ^ 8 +? last).

Definition readUInt16BE (offset : option Z) : M (option Z) :=
  let offset := default 0 offset in
  '(first, last) ← read_ends offset 2;
  mret (first *? 2 ^ 8 +? last).

(** [val | (val & 2 ** (bits - 1)) * k], the sign extension of the signed
    reads; [k] is [0x1fffffe], [0x1fffe] or [0x1fe]. *)
Definition extend_sign (val : option Z) (bit k : Z) : Z :=
  bor (int_of val) (band (int_of val) bit * k).

Definition readInt48LE (offset : option Z) : M (option Z) :=
  let offset := default 0 offset in
  '(first, last) ← read_ends offset 6;
  b4 ← load (offset + 4);
  let val := b4 +? last *? 2 ^ 8 in
  b1 ← load (offset + 1);
  b2 ← load (offset + 2);
  b3 ← load (offset + 3);
  mret (Some (extend_sign val (2 ^ 15) 0x1fffe * 2 ^ 32)
        +? first +? b1 *? 2 ^ 8 +? b2 *? 2 ^ 16 +? b3 *? 2 ^ 24).

Definition readInt40LE (offset : option Z) : M (option Z) :=
  let offset := default 0 offset in
  '(first, last) ← read_ends offset 5;
  b1 ← load (offset + 1);
  b2 ← load (offset + 2);
  b3 ← load (offset + 3);
  mret (Some (extend_sign last (2 ^ 7) 0x1fffffe * 2 ^ 32)
        +? first +? b1 *? 2 ^ 8 +? b2 *? 2 ^ 16 +? b3 *? 2 ^ 24).

Definition readInt32LE (offset : option Z) : M (option Z) :=
  let offset := default 0 offset in
  '(first, last) ← read_ends offset 4;
  b1 ← load (offset + 1);
  b2 ← load (offset + 2);
  mret (first +? b1 *? 2 ^ 8 +? b2 *? 2 ^ 16 +? Some (shl (int_of last) 24)).

Definition readInt24LE (offset : option Z) : M (option Z) :=
  let offset := default 0 offset in
  '(first, last) ← read_ends offset 3;
  b1 ← load (offset + 1);
  let val := first +? b1 *? 2 ^ 8 +? last *? 2 ^ 16 in
  mret (Some (extend_sign val (2 ^ 23) 0x1fe)).

Definition readInt16LE (offset : option Z) : M (option Z) :=
  let offset := default 0 offset in
  '(first, last) ← read_ends offset 2;
  let val := first +? last *? 2 ^ 8 in
  mret (Some (extend_sign val (2 ^ 15) 0x1fffe)).

Definition readInt8 (offset : option Z) : M Z :=
  let offset := default 0 offset in
  validateNumber offset "offset" None None;;
  val ← load offset;
  match val with
  | None => n ← this_length; boundsError offset (n - 1) None
  | Some _ => mret (extend_sign val (2 ^ 7) 0x1fffffe)
  end.

Definition readInt48BE (offset : option Z) : M (option Z) :=
  let offset := default 0 offset in
  '(first, last) ← read_ends offset 6;
  b1 ← load (offset + 1);
  let val := b1 +? first *? 2 ^ 8 in
  b2 ← load (offset + 2);
  b3 ← load (offset + 3);
  b4 ← load (offset + 4);
  mret (Some (extend_sign val (2 ^ 15) 0x1fffe * 2 ^ 32)
        +? b2 *? 2 ^ 24 +? b3 *? 2 ^ 16 +? b4 *? 2 ^ 8 +? last).

Definition readInt40BE (offset : option Z) : M (option Z) :=
  let offset := default 0 offset in
  '(first, last) ← read_ends offset 5;
  b1 ← load (offset + 1);
  b2 ← load (offset + 2);
  b3 ← load (offset + 3);
  mret (Some (extend_sign first (2 ^ 7) 0x1fffffe * 2 ^ 32)
        +? b1 *? 2 ^ 24 +? b2 *? 2 ^ 16 +? b3 *? 2 ^ 8 +? last).

Definition readInt32BE (offset : option Z) : M (option Z) :=
  let offset := default 0 offset in
  '(first, last) ← read_ends offset 4;
  b1 ← load (offset + 1);
  b2 ← load (offset + 2);
  mret (Some (shl (int_of first) 24) +? b1 *? 2 ^ 16 +? b2 *? 2 ^ 8 +? last).

Definition readInt24BE (offset : option Z) : M (option Z) :=
  let offset := default 0 offset in
  '(first, last) ← read_ends offset 3;
  b1 ← load (offset + 1);
  let val := first *? 2 ^ 16 +? b1 *? 2 ^ 8 +? last in
  mret (Some (extend_sign val (2 ^ 23) 0x1fe)).

Definition readInt16BE (offset : option Z) : M (option Z) :=
  let offset := default 0 offset in
  '(first, last) ← read_ends offset 2;
  let val := first *? 2 ^ 8 +? last in
  mret (Some (extend_sign val (2 ^ 15) 0x1fffe)).

(** ** UTF-16LE (lines 1013-1048; the same text at 3932-3963)

    [ucs2Write] stores the units still to come two bytes at a time while
    [length] has room for two more; [ucs2Slice] reads the window two bytes
    at a time while two are left. *)
Fixpoint ucs2Write_loop (rest : jsstring) (offset length written : Z) : M Z :=
  match rest with
  | [] => mret written
  | c :: rest' =>
    let length := length - 2 in
    if decide (length < 0) then mret written
    else
      store offset (band c 0xFF);;
      store (offset + 1) (sshr c 8);;
      ucs2Write_loop rest' (offset + 2) length (written + 2)
  end.

Definition ucs2Write (string : jsstring) (offset length : option Z) : M Z :=
  '(offset, length) ← write_guard offset length (len string * 2);
  n ← this_length;
  let length := Z.min (Z.min (n - offset) (len string * 2)) length in
  ucs2Write_loop string offset length 0.

Fixpoint ucs2Slice_loop (w : bytes) : jsstring :=
  match w with
  | lo :: hi :: w' => fromCharCode (shl hi 8 + lo) :: ucs2Slice_loop w'
  | _ => []
  end.

Definition ucs2Slice (buf : bytes) (start end_ : option Z) : exn + jsstring :=
  match slice_window buf start end_ with
  | inl e => inl e
  | inr w => inr (ucs2Slice_loop w)
  end.

(** ** Views over shared memory

    [copy], [concat] and [subarray] work on several buffers at once, and
    these may share their bytes: a [Uint8Array] is the window
    [byteOffset, byteOffset + length) of an [ArrayBuffer], and two views of
    one [ArrayBuffer] may overlap. The heap is the list of the
    [ArrayBuffer]s allocated so far, a view names its [ArrayBuffer] by its
    position in the heap. The host is taken to have the memory that an
    allocation asks for. *)
Record view := {
  view_buffer : nat;
  view_byteOffset : Z;
  view_length : Z
}.

Abbreviation heap := (list (list Z)) (only parsing).

(** Computations on the heap; an exception ends the computation. *)
Definition H (A : Type) : Type := heap -> heap * (exn + A).

#[global] Instance H_ret : MRet H := fun A a h => (h, inr a).
#[global] Instance H_bind : MBind H := fun A B f m h =>
  match m h with
  | (h', inl e) => (h', inl e)
  | (h', inr a) => f a h'
  end.

Definition raise {A : Type} (e : exn) : H A := fun h => (h, inl e).

(** The bytes of an [ArrayBuffer], and the elements of a view. *)
Definition memory (h : heap) (b : nat) : bytes := default [] (h !! b).

Definition contents (h : heap) (v : view) : bytes :=
  window (memory h (view_buffer v)) (view_byteOffset v)
         (view_byteOffset v + view_length v).

(** [data] stored in [ArrayBuffer] [b] from byte [offset] on. *)
Definition write_memory (h : heap) (b : nat) (offset : Z) (data : bytes) : heap :=
  alter (fun mem => take (Z.to_nat offset) mem ++ data
                    ++ drop (Z.to_nat offset + length data) mem) b h.

(** A method of the single-buffer part, run on the elements of a view. *)
Definition on_view {A : Type} (v : view) (m : M A) : H A := fun h =>
  let '(buf, r) := m (contents h v) in
  (write_memory h (view_buffer v) (view_byteOffset v) buf, r).

(** A validation, which looks at no buffer. *)
Definition check (m : M unit) : H unit := fun h => (h, (m []).2).

(** [new Uint8Array(buffer, byteOffset, length)] (ECMAScript 23.2.5.1.3):
    a [RangeError] unless the window lies in the [ArrayBuffer]. *)
Definition new_Uint8Array (buffer : nat) (byteOffset length : Z) : H view := fun h =>
  if decide (byteOffset < 0 \/ length < 0 \/ byteOffset + length > len (memory h buffer))
  then (h, inl (RangeError_raw "Invalid typed array length"))
  else (h, inr {| view_buffer := buffer; view_byteOffset := byteOffset;
                  view_length := length |}).

(** [new FastBuffer(size)], and [new FastBuffer()] as [new_FastBuffer 0]:
    a view of all of a fresh [ArrayBuffer] of zeros. *)
Definition new_FastBuffer (size : Z) : H view := fun h =>
  if decide (size < 0) then (h, inl (RangeError_raw "Invalid typed array length"))
  else (h ++ [replicate (Z.to_nat size) 0],
        inr {| view_buffer := length h; view_byteOffset := 0; view_length := size |}).

(** [%TypedArray%.prototype.set(source, targetOffset)] with a typed array
    as source (ECMAScript 23.2.3.26): the elements of the source are read
    before any is stored, so that overlapping views are copied as if
    through a temporary. *)
Definition TypedArray_set (target source : view) (targetOffset : Z) : H unit := fun h =>
  if decide (targetOffset < 0 \/ view_length source + targetOffset > view_length target)
  then (h, inl (RangeError_raw "offset is out of bounds"))
  else (write_memory h (view_buffer target) (view_byteOffset target + targetOffset)
                     (contents h source), inr tt).

(** [v[i]] as an rvalue and the store [v[i] = x], on the elements of a
    view as the heap has them at that moment; and a counted loop on the
    heap: [n] iterations are left, [i] is the loop variable. *)
Definition view_load (v : view) (i : Z) : H (option Z) := fun h =>
  (h, inr (elem_get (contents h v) i)).

Definition view_store (v : view) (i x : Z) : H unit := on_view v (store i x).

Fixpoint heap_loop (n : nat) (i : Z) (body : Z -> H unit) : H unit :=
  match n with
  | O => mret tt
  | S n' => body i;; heap_loop n' (i + 1) body
  end.

(** ** [toInteger], [_copyActual] (lines 616-624, 668-683; the same text
    at 4186-4193, 4231-4246) *)

Definition toInteger (n defaultVal : Z) : Z :=
  if decide (MIN_SAFE_INTEGER <= n /\ n <= MAX_SAFE_INTEGER) then n else defaultVal.

Definition _copyActual (source target : view) (targetStart sourceStart sourceEnd : Z)
    : H Z :=
  let sourceEnd := if decide (sourceEnd - sourceStart > view_length target - targetStart)
                   then sourceStart + view_length target - targetStart
                   else sourceEnd in
  let nb := sourceEnd - sourceStart in
  let sourceLen := view_length source - sourceStart in
  let nb := if decide (nb > sourceLen) then sourceLen else nb in
  source ← (if decide (sourceStart ≠ 0 \/ sourceEnd < view_length source)
            then new_Uint8Array (view_buffer source) (view_byteOffset source + sourceStart) nb
            else mret source);
  TypedArray_set target source targetStart;;
  mret nb.

(** [allocate] (lines 610-614 and 4351-4355). *)
Definition allocate (size : Z) : H view :=
  if decide (size <= 0) then new_FastBuffer 0 else new_FastBuffer size.

(** The loops of [concat] (lines 751-757, 763-773; the same text at
    4456-4460, 4464-4470). *)
Definition total_length (list : list view) : Z :=
  foldl (fun length buf =>
           if decide (view_length buf ≠ 0) then length + view_length buf else length)
        0 list.

Fixpoint concat_loop (list : list view) (buffer : view) (pos : Z) : H Z :=
  match list with
  | [] => mret pos
  | buf :: rest =>
    nb ← _copyActual buf buffer pos 0 (view_length buf);
    concat_loop rest buffer (pos + nb)
  end.

(** ** [adjustOffset], [subarray], [slice] (lines 1476-1503; the same text
    at 4894-4917). An [undefined] offset is NaN under [Math.trunc], which
    fails every comparison and ends in the last line. *)
Definition adjustOffset (offset : option Z) (length : Z) : Z :=
  match offset with
  | Some offset =>
    if decide (offset = 0) then 0
    else if decide (offset < 0) then
      let offset := offset + length in
      if decide (offset > 0) then offset else 0
    else if decide (offset < length) then offset
    else length
  | None => 0
  end.

Definition subarray (this : view) (start end_ : option Z) : H view :=
  let srcLength := view_length this in
  let start := adjustOffset start srcLength in
  let end_ := match end_ with
              | Some _ => adjustOffset end_ srcLength
              | None => srcLength
              end in
  let newLength := if decide (end_ > start) then end_ - start else 0 in
  new_Uint8Array (view_buffer this) (view_byteOffset this + start) newLength.

Definition slice (this : view) (start end_ : option Z) : H view :=
  subarray this start end_.
(** * First edition (lines 1-2467) *)
Module Ed1.

(** [_fill] (lines 522-582) for a [value] that is a number; the branch
    for string and buffer values is not embedded. *)
Definition _fill (value : Z) (offset end_ : option Z) : M unit :=
  match offset with
  | None => n ← this_length; TypedArray_fill value 0 n
  | Some offset =>
    validateInteger offset "offset" None None;;
    n ← this_length;
    end_ ← match end_ with
           | None => mret n
           | Some e => validateInteger e "end" (Some 0) (Some n);; mret e
           end;
    if decide (offset >= end_) then mret tt
    else TypedArray_fill value offset end_
  end.

Definition fill (value : Z) (offset end_ : option Z) : M unit := _fill value offset end_.

(** [_compare] (lines 693-707). *)
Fixpoint _compare_loop (buf1 buf2 : bytes) : Z :=
  match buf1, buf2 with
  | c1 :: r1, c2 :: r2 =>
    if decide (c1 < c2) then -1
    else if decide (c1 > c2) then 1
    else _compare_loop r1 r2
  | _, _ => 0
  end.

Definition _compare (buf1 buf2 : bytes) : Z :=
  if decide (len buf1 < len buf2) then -1
  else if decide (len buf1 > len buf2) then 1
  else _compare_loop buf1 buf2.

(** [Buffer.compare] (lines 709-722); [buf1 === buf2] is object identity,
    which implies equal contents. *)
Definition compare (buf1 buf2 : bytes) : Z := _compare buf1 buf2.

(** [equals] (lines 724-737). *)
Definition equals (this otherBuffer : bytes) : bool :=
  if decide (len this ≠ len otherBuffer) then false
  else bool_decide (len this = 0) || bool_decide (_compare this otherBuffer = 0).

(** [asciiWrite] and [asciiSlice] (lines 809-836). *)
Definition asciiWrite (string : jsstring) (offset length : option Z) : M Z :=
  let offset := default 0 offset in
  let length := default (len string) length in
  if decide (offset < 0 \/ length < 0) then throw (RangeError_raw "Index out of range")
  else
    n ← this_length;
    if decide (offset > n) then throw (RangeError_raw "offset is outside of buffer bounds")
    else
      let length := Z.min (Z.min (n - offset) (len string)) length in
      write_masked string offset length 0xFF;;
      mret length.

Definition asciiSlice (buf : bytes) (start end_ : option Z) : exn + jsstring :=
  match slice_window buf start end_ with
  | inl e => inl e
  | inr w => inr (map (fun b => fromCharCode (band b 0x7F)) w)
  end.

(** [hexWrite] (lines 1142-1164): [n] iterations are left, [i] is the
    loop variable that is returned. *)
Fixpoint hexWrite_loop (n : nat) (string : jsstring) (i offset : Z) : M Z :=
  match n with
  | O => mret i
  | S n' =>
    match parseInt16 (string_slice string (i * 2) (i * 2 + 1)) with
    | None => mret i
    | Some code => store offset code;; hexWrite_loop n' string (i + 1) (offset + 1)
    end
  end.

Definition hexWrite (string : jsstring) (offset length : option Z) : M Z :=
  '(offset, length) ← write_guard offset length (ushr (len string) 1);
  n ← this_length;
  let length := Z.min (Z.min (n - offset) (ushr (len string) 1)) length in
  hexWrite_loop (Z.to_nat length) string 0 offset.

(** [hexSlice] (lines 1166-1175). *)
Definition hexSlice (buf : bytes) (start end_ : option Z) : exn + jsstring :=
  match slice_window buf start end_ with
  | inl e => inl e
  | inr w => inr (concat (map toString16 w))
  end.

Definition hex : EncodingOps := {|
  ops_byteLength := fun string => ushr (len string) 1;
  ops_write := fun string offset len => hexWrite string (Some offset) (Some len);
  ops_slice := fun buf start end_ => hexSlice buf (Some start) (Some end_)
|}.

(** [base64Write] (lines 1090-1106) over the host's [atob], which is not
    part of the source and is taken as a parameter. The default [length]
    is [base64ByteLength(string)] with its second argument missing, that
    is [(NaN * 3) >>> 2 = 0]. *)
Definition base64ByteLength (str : jsstring) (bytes : Z) : Z :=
  let bytes := if decide (charCodeAt str (bytes - 1) = Some 0x3D) then bytes - 1 else bytes in
  let bytes := if decide (bytes > 1 /\ charCodeAt str (bytes - 1) = Some 0x3D)
               then bytes - 1 else bytes in
  ushr (bytes * 3) 2.

Definition base64Write (atob : jsstring -> exn + jsstring)
    (string : jsstring) (offset length : option Z) : M Z :=
  '(offset, length) ← write_guard offset length 0;
  n ← this_length;
  let length := Z.min (Z.min (n - offset) (base64ByteLength string (len string))) length in
  match atob (trim string) with
  | inl e => throw e
  | inr decoded => latin1Write decoded (Some offset) (Some length)
  end.

(** [fromString] (lines 334-352) with the encoding resolved. *)
Definition fromString (string : jsstring) (ops : EncodingOps) : exn + bytes :=
  if decide (string = []) then inr []
  else
    let ret := replicate (Z.to_nat (ops_byteLength ops string)) 0 in
    match ops_write ops string 0 (len ret) ret with
    | (_, inl e) => inl e
    | (ret, inr _) => inr ret
    end.

(** [arrayIndexOf] (lines 1278-1335), over the host's [toLowerCase].
    With an encoding whose lower-case form is a name of UTF-16, [indexSize]
    is 2 and the source halves [arrLength], [valLength] and [byteOffset],
    so that its [i] and [foundIndex] can be halves of integers. The model
    keeps every position and length multiplied by [indexSize], that is in
    bytes: [i] below is the source's [i * indexSize], "no candidate" is
    [-1 * indexSize], one step is [indexSize], [arrLength] is [len arr]
    and [valLength] is [len val]. A result is the source's number again.

    [read] (lines 1296-1302): an element, or the unit that [readUInt16BE]
    reads, which raises outside the buffer and never gives NaN. [None] is
    [undefined]. *)
Section Search.
Variable toLowerCase : jsstring -> jsstring.

Definition read (indexSize : Z) (buf : bytes) (i : Z) : exn + option Z :=
  if decide (indexSize = 1) then inr (elem_get buf i)
  else snd (readUInt16BE (Some i) buf).

(** The number [i / indexSize]. *)
Definition in_units (i indexSize : Z) : QArith_base.Q :=
  Qreduction.Qred (QArith_base.Qmake i (Z.to_pos indexSize)).

(** The forward loop (lines 1305-1318) steps [i] back after a partial
    match; [fuel] bounds its iterations and [None] is "out of fuel". It
    returns [foundIndex * indexSize]. *)
Fixpoint arrayIndexOf_forward (fuel : nat) (indexSize : Z) (arr val : bytes)
    (i foundIndex : Z) : exn + option Z :=
  if decide (i < len arr) then
    match fuel with
    | O => inr None
    | S fuel' =>
      match read indexSize arr i with
      | inl e => inl e
      | inr a =>
        match read indexSize val
                (if decide (foundIndex = -1 * indexSize) then 0 else i - foundIndex) with
        | inl e => inl e
        | inr v =>
          if decide (a = v) then
            let foundIndex := if decide (foundIndex = -1 * indexSize) then i
                              else foundIndex in
            if decide (i - foundIndex + indexSize = len val) then inr (Some foundIndex)
            else arrayIndexOf_forward fuel' indexSize arr val (i + indexSize) foundIndex
          else
            let i := if decide (foundIndex ≠ -1 * indexSize) then i - (i - foundIndex)
                     else i in
            arrayIndexOf_forward fuel' indexSize arr val (i + indexSize) (-1 * indexSize)
        end
      end
    end
  else inr (Some (-1)).

(** The inner loop of the backward search (lines 1324-1329): [n]
    iterations are left, [j] is the loop variable; it leaves at the first
    mismatch. *)
Fixpoint arrayIndexOf_found (n : nat) (indexSize : Z) (arr val : bytes) (i j : Z)
    : exn + bool :=
  match n with
  | O => inr true
  | S k =>
    match read indexSize arr (i + j) with
    | inl e => inl e
    | inr a =>
      match read indexSize val j with
      | inl e => inl e
      | inr v =>
        if decide (a ≠ v) then inr false
        else arrayIndexOf_found k indexSize arr val i (j + indexSize)
      end
    end
  end.

(** The backward loop (lines 1322-1333): [n] iterations are left, [i] is
    the loop variable. It returns [i], not [i * indexSize]. *)
Fixpoint arrayIndexOf_backward (n : nat) (indexSize : Z) (arr val : bytes) (i : Z)
    : exn + option QArith_base.Q :=
  match n with
  | O => inr (Some (QArith_base.inject_Z (-1)))
  | S k =>
    match arrayIndexOf_found (Z.to_nat ((len val + indexSize - 1) / indexSize))
                             indexSize arr val i 0 with
    | inl e => inl e
    | inr true => inr (Some (in_units i indexSize))
    | inr false => arrayIndexOf_backward k indexSize arr val (i - indexSize)
    end
  end.

Definition arrayIndexOf (fuel : nat) (arr val : bytes) (byteOffset : Z)
    (encoding : option jsstring) (dir : bool) : exn + option QArith_base.Q :=
  let wide := match encoding with
              | Some encoding =>
                let encoding := toLowerCase encoding in
                bool_decide (encoding = str "ucs2" \/ encoding = str "ucs-2"
                             \/ encoding = str "utf16le" \/ encoding = str "utf-16le")
              | None => false
              end in
  if wide && bool_decide (len arr < 2 \/ len val < 2)
  then inr (Some (QArith_base.inject_Z (-1)))
  else
    let indexSize := if wide then 2 else 1 in
    if dir then
      match arrayIndexOf_forward fuel indexSize arr val byteOffset (-1 * indexSize) with
      | inl e => inl e
      | inr r => inr (QArith_base.inject_Z <$> r)
      end
    else
      let byteOffset := if decide (byteOffset + len val > len arr)
                        then len arr - len val else byteOffset in
      arrayIndexOf_backward (Z.to_nat (byteOffset / indexSize + 1))
                            indexSize arr val byteOffset.

(** [bidirectionalIndexOf] (lines 1346-1378) and the methods on it. For a
    string needle, [ops] is the descriptor that [Buffer.from] finds for
    [encoding]; a needle of bytes is a [Buffer]. *)
Definition bidirectionalIndexOf (fuel : nat) (buffer : bytes) (val : needle)
    (byteOffset : option Z) (encoding : option jsstring) (dir : bool)
    : exn + option QArith_base.Q :=
  let byteOffset := search_offset buffer byteOffset dir in
  match val with
  | NNumber v =>
    inr (Some (QArith_base.inject_Z
                 (if dir then TypedArray_indexOf buffer (band v 0xFF) byteOffset
                  else TypedArray_lastIndexOf buffer (band v 0xFF) byteOffset)))
  | NString s ops =>
    match fromString s ops with
    | inl e => inl e
    | inr v => arrayIndexOf fuel buffer v byteOffset encoding dir
    end
  | NBytes v => arrayIndexOf fuel buffer v byteOffset encoding dir
  end.

Definition indexOf (fuel : nat) (this : bytes) (val : needle) (byteOffset : option Z)
    (encoding : option jsstring) :=
  bidirectionalIndexOf fuel this val byteOffset encoding true.
Definition lastIndexOf (fuel : nat) (this : bytes) (val : needle) (byteOffset : option Z)
    (encoding : option jsstring) :=
  bidirectionalIndexOf fuel this val byteOffset encoding false.

End Search.

(** [swap16], [swap32], [swap64] (lines 1511-1539). No enclosing scope of
    the first edition binds [len]. *)
Definition swap16 : M unit :=
  len ← unbound "len";
  if decide (Z.rem len 2 ≠ 0) then throw (ERR_INVALID_BUFFER_SIZE "16-bits")
  else for_lt 0 len 2 (fun i => swap i (i + 1)).

Definition swap32 : M unit :=
  len ← unbound "len";
  if decide (Z.rem len 4 ≠ 0) then throw (ERR_INVALID_BUFFER_SIZE "32-bits")
  else for_lt 0 len 4 (fun i => swap i (i + 3);; swap (i + 1) (i + 2)).

Definition swap64 : M unit :=
  len ← unbound "len";
  if decide (Z.rem len 8 ≠ 0) then throw (ERR_INVALID_BUFFER_SIZE "64-bits")
  else for_lt 0 len 8 (fun i =>
         swap i (i + 7);; swap (i + 1) (i + 6);;
         swap (i + 2) (i + 5);; swap (i + 3) (i + 4)).

(** The branch of [_fill] (lines 522-579) for a [value] that is a
    [Buffer], which [_fill] above leaves out. The body of its loop,
    [buf[i + start] = val[i % value.length]], reads [start], which no
    enclosing scope declares, before it reads or stores an element. *)
Definition _fill_buffer (buf value : view) (offset end_ : option Z) : H unit :=
  let n := view_length buf in
  range ← match offset with
          | None => mret (Some (0, n))
          | Some offset =>
            check (validateInteger offset "offset" None None);;
            end_ ← match end_ with
                   | None => mret n
                   | Some e => check (validateInteger e "end" (Some 0) (Some n));; mret e
                   end;
            if decide (offset >= end_) then mret None else mret (Some (offset, end_))
          end;
  match range with
  | None => mret tt
  | Some (offset, end_) =>
    heap_loop (Z.to_nat (end_ - offset)) 0 (fun i => raise (ReferenceError "start"))
  end.

(** The descriptors of the other encodings in [encodingOps] (lines
    1177-1227). *)
Definition utf8 : EncodingOps := {|
  ops_byteLength := byteLengthUtf8;
  ops_write := fun string offset len => utf8Write string (Some offset) (Some len);
  ops_slice := fun buf start end_ => utf8Slice buf (Some start) (Some end_)
|}.

Definition utf16le : EncodingOps := {|
  ops_byteLength := fun string => len string * 2;
  ops_write := fun string offset len => ucs2Write string (Some offset) (Some len);
  ops_slice := fun buf start end_ => ucs2Slice buf (Some start) (Some end_)
|}.

Definition latin1 : EncodingOps := {|
  ops_byteLength := fun string => len string;
  ops_write := fun string offset len => latin1Write string (Some offset) (Some len);
  ops_slice := fun buf start end_ => latin1Slice buf (Some start) (Some end_)
|}.

Definition ascii : EncodingOps := {|
  ops_byteLength := fun string => len string;
  ops_write := fun string offset len => asciiWrite string (Some offset) (Some len);
  ops_slice := fun buf start end_ => asciiSlice buf (Some start) (Some end_)
|}.

(** [normalizeEncoding], [slowCases], [getEncodingOps], [isEncoding]
    (lines 464-520, 1228-1277, 739-742) on a string; the host's
    [String.prototype.toLowerCase] is a parameter. A [switch] that is left
    by [break] or finds no [case] ends the function, which returns
    [undefined] ([None]); the argument [None] of [normalizeEncoding] is
    [undefined] or [null]. *)
Section Names.
Variable toLowerCase : jsstring -> jsstring.

Definition slowCases (enc : jsstring) : option jsstring :=
  if decide (len enc = 4) then
    if decide (enc = str "UTF8") then Some (str "utf8")
    else if decide (enc = str "ucs2" \/ enc = str "UCS2") then Some (str "utf16le")
    else
      let enc := toLowerCase enc in
      if decide (enc = str "utf8") then Some (str "utf8")
      else if decide (enc = str "ucs2") then Some (str "utf16le")
      else None
  else if decide (len enc = 3) then
    if decide (enc = str "hex" \/ enc = str "HEX" \/ toLowerCase enc = str "hex")
    then Some (str "hex")
    else None
  else if decide (len enc = 5) then
    if decide (enc = str "ascii") then Some (str "ascii")
    else if decide (enc = str "ucs-2") then Some (str "utf16le")
    else if decide (enc = str "UTF-8") then Some (str "utf8")
    else if decide (enc = str "ASCII") then Some (str "ascii")
    else if decide (enc = str "UCS-2") then Some (str "utf16le")
    else
      let enc := toLowerCase enc in
      if decide (enc = str "utf-8") then Some (str "utf8")
      else if decide (enc = str "ascii") then Some (str "ascii")
      else if decide (enc = str "ucs-2") then Some (str "utf16le")
      else None
  else if decide (len enc = 6) then
    if decide (enc = str "base64") then Some (str "base64")
    else if decide (enc = str "latin1" \/ enc = str "binary") then Some (str "latin1")
    else if decide (enc = str "BASE64") then Some (str "base64")
    else if decide (enc = str "LATIN1" \/ enc = str "BINARY") then Some (str "latin1")
    else
      let enc := toLowerCase enc in
      if decide (enc = str "base64") then Some (str "base64")
      else if decide (enc = str "latin1" \/ enc = str "binary") then Some (str "latin1")
      else None
  else if decide (len enc = 7) then
    if decide (enc = str "utf16le" \/ enc = str "UTF16LE"
               \/ toLowerCase enc = str "utf16le")
    then Some (str "utf16le")
    else None
  else if decide (len enc = 8) then
    if decide (enc = str "utf-16le" \/ enc = str "UTF-16LE"
               \/ toLowerCase enc = str "utf-16le")
    then Some (str "utf16le")
    else None
  else if decide (len enc = 9) then
    if decide (enc = str "base64url" \/ enc = str "BASE64URL"
               \/ toLowerCase enc = str "base64url")
    then Some (str "base64url")
    else None
  else if decide (enc = str "") then Some (str "utf8")
  else None.

Definition normalizeEncoding (enc : option jsstring) : option jsstring :=
  match enc with
  | None => Some (str "utf8")
  | Some enc =>
    if decide (enc = str "utf8" \/ enc = str "utf-8") then Some (str "utf8")
    else slowCases enc
  end.

Definition isEncoding (encoding : jsstring) : bool :=
  bool_decide (len encoding ≠ 0) && bool_decide (normalizeEncoding (Some encoding) ≠ None).

Definition getEncodingOps (encoding : jsstring) : option encoding_key :=
  if decide (len encoding = 4) then
    if decide (encoding = str "utf8") then Some Kutf8
    else if decide (encoding = str "ucs2") then Some Kucs2
    else
      let encoding := toLowerCase encoding in
      if decide (encoding = str "utf8") then Some Kutf8
      else if decide (encoding = str "ucs2") then Some Kucs2
      else None
  else if decide (len encoding = 5) then
    if decide (encoding = str "utf-8") then Some Kutf8
    else if decide (encoding = str "ascii") then Some Kascii
    else if decide (encoding = str "ucs-2") then Some Kucs2
    else
      let encoding := toLowerCase encoding in
      if decide (encoding = str "utf-8") then Some Kutf8
      else if decide (encoding = str "ascii") then Some Kascii
      else if decide (encoding = str "ucs-2") then Some Kucs2
      else None
  else if decide (len encoding = 7) then
    if decide (encoding = str "utf16le" \/ toLowerCase encoding = str "utf16le")
    then Some Kutf16le
    else None
  else if decide (len encoding = 8) then
    if decide (encoding = str "utf-16le" \/ toLowerCase encoding = str "utf-16le")
    then Some Kutf16le
    else None
  else if decide (len encoding = 6) then
    if decide (encoding = str "latin1" \/ encoding = str "binary") then Some Klatin1
    else if decide (encoding = str "base64") then Some Kbase64
    else
      let encoding := toLowerCase encoding in
      if decide (encoding = str "latin1" \/ encoding = str "binary") then Some Klatin1
      else if decide (encoding = str "base64") then Some Kbase64
      else None
  else if decide (len encoding = 3) then
    if decide (encoding = str "hex" \/ toLowerCase encoding = str "hex") then Some Khex
    else None
  else if decide (len encoding = 9) then
    if decide (encoding = str "base64url" \/ toLowerCase encoding = str "base64url")
    then Some Kbase64url
    else None
  else None.

End Names.

(** [readUIntLE], [readUIntBE], [readIntLE], [readIntBE] (lines 1671-1688,
    1760-1777, 1840-1857, 1932-1949). The readers of 3, 5 and 6 bytes are
    called by their bare names, which the first edition binds nowhere: it
    installs them as methods of the prototype only. *)
Definition readUIntLE (offset : option Z) (byteLength : Z) : M (option Z) :=
  match offset with
  | None => throw (ERR_INVALID_ARG_TYPE "offset")
  | Some _ =>
    if decide (byteLength = 6) then unbound "readUInt48LE"
    else if decide (byteLength = 5) then unbound "readUInt40LE"
    else if decide (byteLength = 3) then unbound "readUInt24LE"
    else if decide (byteLength = 4) then readUInt32LE offset
    else if decide (byteLength = 2) then readUInt16LE offset
    else if decide (byteLength = 1) then v ← readUInt8 offset; mret (Some v)
    else boundsError byteLength 6 (Some "byteLength"%string)
  end.

Definition readUIntBE (offset : option Z) (byteLength : Z) : M (option Z) :=
  match offset with
  | None => throw (ERR_INVALID_ARG_TYPE "offset")
  | Some _ =>
    if decide (byteLength = 6) then unbound "readUInt48BE"
    else if decide (byteLength = 5) then unbound "readUInt40BE"
    else if decide (byteLength = 3) then unbound "readUInt24BE"
    else if decide (byteLength = 4) then readUInt32BE offset
    else if decide (byteLength = 2) then readUInt16BE offset
    else if decide (byteLength = 1) then v ← readUInt8 offset; mret (Some v)
    else boundsError byteLength 6 (Some "byteLength"%string)
  end.

Definition readIntLE (offset : option Z) (byteLength : Z) : M (option Z) :=
  match offset with
  | None => throw (ERR_INVALID_ARG_TYPE "offset")
  | Some _ =>
    if decide (byteLength = 6) then unbound "readInt48LE"
    else if decide (byteLength = 5) then unbound "readInt40LE"
    else if decide (byteLength = 3) then unbound "readInt24LE"
    else if decide (byteLength = 4) then readInt32LE offset
    else if decide (byteLength = 2) then readInt16LE offset
    else if decide (byteLength = 1) then v ← readInt8 offset; mret (Some v)
    else boundsError byteLength 6 (Some "byteLength"%string)
  end.

Definition readIntBE (offset : option Z) (byteLength : Z) : M (option Z) :=
  match offset with
  | None => throw (ERR_INVALID_ARG_TYPE "offset")
  | Some _ =>
    if decide (byteLength = 6) then unbound "readInt48BE"
    else if decide (byteLength = 5) then unbound "readInt40BE"
    else if decide (byteLength = 3) then unbound "readInt24BE"
    else if decide (byteLength = 4) then readInt32BE offset
    else if decide (byteLength = 2) then readInt16BE offset
    else if decide (byteLength = 1) then v ← readInt8 offset; mret (Some v)
    else boundsError byteLength 6 (Some "byteLength"%string)
  end.

(** [_copy], [copy] (lines 626-687): the check of [sourceStart] against
    the length of the source comes after the early [return 0]. *)
Definition _copy (source target : view) (targetStart sourceStart sourceEnd : option Z)
    : H Z :=
  targetStart ← match targetStart with
                | None => mret 0
                | Some targetStart =>
                  let targetStart := toInteger targetStart 0 in
                  if decide (targetStart < 0) then raise (ERR_OUT_OF_RANGE "targetStart")
                  else mret targetStart
                end;
  sourceStart ← match sourceStart with
                | None => mret 0
                | Some sourceStart =>
                  let sourceStart := toInteger sourceStart 0 in
                  if decide (sourceStart < 0) then raise (ERR_OUT_OF_RANGE "sourceStart")
                  else mret sourceStart
                end;
  sourceEnd ← match sourceEnd with
              | None => mret (view_length source)
              | Some sourceEnd =>
                let sourceEnd := toInteger sourceEnd 0 in
                if decide (sourceEnd < 0) then raise (ERR_OUT_OF_RANGE "sourceEnd")
                else mret sourceEnd
              end;
  if decide (targetStart >= view_length target \/ sourceStart >= sourceEnd) then mret 0
  else if decide (sourceStart > view_length source)
  then raise (ERR_OUT_OF_RANGE "sourceStart")
  else _copyActual source target targetStart sourceStart sourceEnd.

Definition copy (this target : view) (targetStart sourceStart sourceEnd : option Z) : H Z :=
  _copy this target targetStart sourceStart sourceEnd.

(** [Buffer.allocUnsafe], [Buffer.concat] (lines 605-608, 745-784). *)
Definition allocUnsafe (size : Z) : H view :=
  check (validateNumber size "size" None None);;
  allocate size.

Definition concat (list : list view) (length : option Z) : H view :=
  if decide (Z.of_nat (Datatypes.length list) = 0) then new_FastBuffer 0
  else
    length ← match length with
             | None => mret (total_length list)
             | Some length => check (validateInteger length "length" None None);;
                              mret length
             end;
    buffer ← allocUnsafe length;
    pos ← concat_loop list buffer 0;
    (if decide (pos < length) then on_view buffer (TypedArray_fill 0 pos length)
     else mret tt);;
    mret buffer.

End Ed1.

(** * Second edition (lines 2467-4960) *)
Module Ed2.

(** [validateOffset] (lines 2680-2681). *)
Definition validateOffset (value : Z) (name : string) (min max : option Z) : M unit :=
  validateInteger value name (Some (default 0 min)) (Some (default MAX_SAFE_INTEGER max)).

(** [normalizeCompareVal], [_compare], [compareOffset] (lines 2708-2754).
    [compare_loop n i] is the loop [for (; i !== len; ++i)] with [n]
    iterations left; [None] is "fell through". A comparison [a > b] with
    [undefined] on either side is false. *)
Definition normalizeCompareVal (val aLen bLen : Z) : Z :=
  if decide (val = 0) then
    if decide (aLen > bLen) then 1
    else if decide (aLen < bLen) then -1
    else val
  else if decide (val > 0) then 1 else -1.

Fixpoint compare_loop (n : nat) (source target : bytes) (sourceStart targetStart i : Z)
    : option Z :=
  match n with
  | O => None
  | S n' =>
    let a := elem_get source (i + sourceStart) in
    let b := elem_get target (i + targetStart) in
    if decide (a ≠ b) then
      match a, b with
      | Some a, Some b => if decide (a > b) then Some 1 else Some (-1)
      | _, _ => Some (-1)
      end
    else compare_loop n' source target sourceStart targetStart (i + 1)
  end.

Definition _compare (source target : bytes) : Z :=
  let sourceLen := len source in
  let targetLen := len target in
  let len := Z.min sourceLen targetLen in
  match compare_loop (Z.to_nat len) source target 0 0 0 with
  | Some r => r
  | None => normalizeCompareVal 0 sourceLen targetLen
  end.

Definition compareOffset (source target : bytes)
    (targetStart sourceStart targetEnd sourceEnd : Z) : Z :=
  let sourceLen := sourceEnd - sourceStart in
  let targetLen := targetEnd - targetStart in
  let len := Z.min (Z.min sourceLen targetLen) (len source - sourceStart) in
  match compare_loop (Z.to_nat len) source target sourceStart targetStart 0 with
  | Some r => r
  | None => normalizeCompareVal 0 sourceLen targetLen
  end.

(** [Buffer.compare] (lines 4431-4442) and [Buffer.prototype.compare]
    (lines 4699-4732); [ranges = None] is the call with one argument. *)
Definition compare_static (buf1 buf2 : bytes) : Z := _compare buf1 buf2.

Definition compare (this target : bytes)
    (ranges : option (option Z * option Z * option Z * option Z)) : exn + Z :=
  match ranges with
  | None => inr (_compare this target)
  | Some (targetStart, targetEnd, sourceStart, sourceEnd) =>
    let check (v : option Z) (name : string) (max : option Z) (dflt : Z) : M Z :=
      match v with
      | None => mret dflt
      | Some x => validateOffset x name None max;; mret x
      end in
    let checks : M (Z * Z * Z * Z) :=
      targetStart ← check targetStart "targetStart"%string None 0;
      targetEnd ← check targetEnd "targetEnd"%string (Some (len target)) (len target);
      sourceStart ← check sourceStart "sourceStart"%string None 0;
      sourceEnd ← check sourceEnd "sourceEnd"%string (Some (len this)) (len this);
      mret (targetStart, targetEnd, sourceStart, sourceEnd) in
    match checks this with
    | (_, inl e) => inl e
    | (_, inr (targetStart, targetEnd, sourceStart, sourceEnd)) =>
      if decide (sourceStart >= sourceEnd)
      then inr (if decide (targetStart >= targetEnd) then 0 else -1)
      else if decide (targetStart >= targetEnd) then inr 1
      else inr (compareOffset this target targetStart sourceStart targetEnd sourceEnd)
    end
  end.

(** [equals] (lines 4676-4688). *)
Definition equals (this otherBuffer : bytes) : bool :=
  if decide (len this ≠ len otherBuffer) then false
  else bool_decide (len this = 0) || bool_decide (_compare this otherBuffer = 0).

(** [indexOfBuffer] (lines 2756-2811). [bidirectionalIndexOf] hands it
    the numeric [encodingVal], which [normalizeEncoding] sends to
    [undefined], so [indexSize] is 1 on every call from [indexOf] and
    [lastIndexOf]; the branch for 'utf16le' is not embedded. Each loop
    iteration takes one unit of [fuel]; [None] is "out of fuel". *)
Fixpoint forward_scan (fuel : nat) (buffer val : bytes) (i : Z) : option (Z * Z) :=
  if decide (i ≠ len buffer - len val) then
    match fuel with
    | O => None
    | S fuel' =>
      if decide (elem_get buffer i = elem_get val 0) then Some (i, i)
      else forward_scan fuel' buffer val (i + 1)
    end
  else Some (i, -1).

Fixpoint forward_check (fuel : nat) (buffer val : bytes) (i j foundIndex : Z) : option Z :=
  if decide (j ≠ len val) then
    match fuel with
    | O => None
    | S fuel' =>
      if decide (elem_get buffer (i + j) ≠ elem_get val j) then Some (-1)
      else forward_check fuel' buffer val i (j + 1) foundIndex
    end
  else Some foundIndex.

Fixpoint backward_match (fuel : nat) (buffer val : bytes) (i j : Z) : option bool :=
  if decide (j ≠ len val) then
    match fuel with
    | O => None
    | S fuel' =>
      if decide (elem_get buffer (i + j) ≠ elem_get val j) then Some false
      else backward_match fuel' buffer val i (j + 1)
    end
  else Some true.

Fixpoint backward_scan (fuel : nat) (buffer val : bytes) (i : Z) : option Z :=
  if decide (i ≠ 0) then
    match fuel with
    | O => None
    | S fuel' =>
      found ← backward_match fuel' buffer val i 0;
      if found : bool then Some (i * 1)
      else backward_scan fuel' buffer val (i - 1)
    end
  else Some (-1).

Definition indexOfBuffer (fuel : nat) (buffer val : bytes) (byteOffset : Z) (dir : bool)
    : option Z :=
  if dir then
    '(i, foundIndex) ← forward_scan fuel buffer val byteOffset;
    if decide (foundIndex >= 0) then
      foundIndex ← forward_check fuel buffer val i 1 foundIndex;
      if decide (foundIndex >= 0) then Some (foundIndex * 1) else Some (-1)
    else Some (-1)
  else
    let byteOffset := if decide (byteOffset + len val > len buffer)
                      then len buffer - len val else byteOffset in
    backward_scan fuel buffer val byteOffset.

(** [asciiSlice] and [asciiWrite] (lines 3766-3788). *)
Definition asciiSlice (buf : bytes) (start end_ : option Z) : exn + jsstring :=
  match slice_window buf start end_ with
  | inl e => inl e
  | inr w => inr (map (fun b => fromCharCode (band b 0x7f)) w)
  end.

Definition asciiWrite (string : jsstring) (offset length : option Z) : M Z :=
  let offset := default 0 offset in
  let length := default (len string) length in
  if decide (offset < 0 \/ length < 0) then throw (RangeError_raw "Index out of range")
  else
    n ← this_length;
    if decide (offset > n) then throw (RangeError_raw "offset is outside of buffer bounds")
    else
      let length := Z.min (Z.min (n - offset) (len string)) length in
      write_masked string offset length 0xFF;;
      mret length.

(** The base64 decoding table and [base64Decode] (lines 3997-4009,
    4040-4103). *)
Definition kBase64DecMap : list Z := [
  0; 0; 0; 0; 0; 0; 0; 0; 0; 0; 0; 0;
  0; 0; 0; 0; 0; 0; 0; 0; 0; 0; 0; 0;
  0; 0; 0; 0; 0; 0; 0; 0; 0; 0; 0; 0;
  0; 0; 0; 0; 0; 0; 0; 0x3E; 0; 0; 0; 0x3F;
  0x34; 0x35; 0x36; 0x37; 0x38; 0x39; 0x3A; 0x3B; 0x3C; 0x3D; 0; 0;
  0; 0; 0; 0; 0; 0; 0x01; 0x02; 0x03; 0x04; 0x05; 0x06;
  0x07; 0x08; 0x09; 0x0A; 0x0B; 0x0C; 0x0D; 0x0E; 0x0F; 0x10; 0x11; 0x12;
  0x13; 0x14; 0x15; 0x16; 0x17; 0x18; 0x19; 0; 0; 0; 0; 0;
  0; 0x1A; 0x1B; 0x1C; 0x1D; 0x1E; 0x1F; 0x20; 0x21; 0x22; 0x23; 0x24;
  0x25; 0x26; 0x27; 0x28; 0x29; 0x2A; 0x2B; 0x2C; 0x2D; 0x2E; 0x2F; 0x30;
  0x31; 0x32; 0x33; 0; 0; 0; 0; 0
].

(** ['0' <= ch && ch <= '9' || ... || ch == '+' || ch == '/'] and the
    white space that the scan steps over. *)
Definition is_symbol (ch : Z) : bool :=
  bool_decide (48 <= ch <= 57 \/ 65 <= ch <= 90 \/ 97 <= ch <= 122 \/ ch = 43 \/ ch = 47).
Definition is_skipped (ch : Z) : bool :=
  bool_decide (ch <= 32 /\ (ch = 32 \/ ch = 10 \/ ch = 9 \/ ch = 13 \/ ch = 12)).

(** [out[i] = v] on the plain array [out]; the decoder stores at the end
    of the array or inside it. [out[i]] under a shift is 0 when
    [undefined]. *)
Definition array_put (out : list Z) (i v : Z) : list Z :=
  if decide (i < len out) then <[Z.to_nat i := v]> out
  else out ++ replicate (Z.to_nat (i - len out)) 0 ++ [v].
Definition array_get (out : list Z) (i : Z) : Z := default 0 (elem_get out i).

Record scan_state := {
  scan_out : list Z;
  scan_equalsSignCount : Z;
  scan_outLength : Z;
  scan_hadError : bool
}.

(** The validating scan, lines 4048-4069. *)
Fixpoint base64Decode_scan (data : jsstring) (out : list Z)
    (equalsSignCount outLength : Z) : scan_state :=
  match data with
  | [] => Build_scan_state out equalsSignCount outLength false
  | ch :: rest =>
    if decide (ch = 61) then
      let equalsSignCount := equalsSignCount + 1 in
      if decide (equalsSignCount > 2)
      then Build_scan_state out equalsSignCount outLength true
      else base64Decode_scan rest out equalsSignCount outLength
    else if is_symbol ch then
      if decide (equalsSignCount ≠ 0)
      then Build_scan_state out equalsSignCount outLength true
      else base64Decode_scan rest
             (array_put out outLength (default 0 (elem_get kBase64DecMap ch)))
             equalsSignCount (outLength + 1)
    else if is_skipped ch then base64Decode_scan rest out equalsSignCount outLength
    else Build_scan_state out equalsSignCount outLength true
  end.

(** The loop over whole groups, lines 4088-4094; it stops on its own
    within [outLength] iterations (lemma [decode_groups_exits]). *)
Fixpoint decode_groups (fuel : nat) (out : list Z) (sidx didx outLength : Z)
    : list Z * Z * Z :=
  if decide (didx < outLength - 2) then
    match fuel with
    | O => (out, sidx, didx)
    | S fuel' =>
      let out := array_put out didx
        (bor (band (shl (array_get out sidx) 2) 255)
             (band (sshr (array_get out (sidx + 1)) 4) 3)) in
      let out := array_put out (didx + 1)
        (bor (band (shl (array_get out (sidx + 1)) 4) 255)
             (band (sshr (array_get out (sidx + 2)) 2) 15)) in
      let out := array_put out (didx + 2)
        (bor (band (shl (array_get out (sidx + 2)) 6) 255)
             (band (array_get out (sidx + 3)) 63)) in
      decode_groups fuel' out (sidx + 4) (didx + 3) outLength
    end
  else (out, sidx, didx).

Definition base64Decode (data : jsstring) : jsstring :=
  if decide (len data = 0) then []
  else
    let st := base64Decode_scan data [] 0 0 in
    let out := scan_out st in
    let equalsSignCount := scan_equalsSignCount st in
    let outLength := scan_outLength st in
    let out := if decide (outLength < len out) then take (Z.to_nat outLength) out else out in
    if scan_hadError st then []
    else if decide (outLength = 0) then
      (if decide (equalsSignCount = 0) then map fromCharCode out else [])
    else if decide (equalsSignCount ≠ 0 /\ Z.rem (outLength + equalsSignCount) 4 ≠ 0) then []
    else if decide (Z.rem outLength 4 = 1) then []
    else
      let outLength := outLength - (outLength + 3) / 4 in
      if decide (outLength = 0) then []
      else
        let '(out, sidx, didx) :=
          if decide (outLength > 1)
          then decode_groups (Z.to_nat outLength) out 0 0 outLength
          else (out, 0, 0) in
        let out :=
          if decide (didx < outLength) then
            let out := array_put out didx
              (bor (band (shl (array_get out sidx) 2) 255)
                   (band (sshr (array_get out (sidx + 1)) 4) 3)) in
            let didx := didx + 1 in
            if decide (didx < outLength) then
              array_put out didx
                (bor (band (shl (array_get out (sidx + 1)) 4) 255)
                     (band (sshr (array_get out (sidx + 2)) 2) 15))
            else out
          else out in
        let out := if decide (outLength < len out) then take (Z.to_nat outLength) out else out in
        map fromCharCode out.

(** [base64ByteLength] (lines 4478-4485, the text of lines 1079-1088). *)
Definition base64ByteLength := Ed1.base64ByteLength.

(** [base64Write] (lines 4113-4121). The first [replace] keeps the units
    in [A-Za-z0-9+/=]; the second, whose pattern is anchored at the end of
    the input, removes everything from the first ['='] on. *)
Definition keep_alphabet (s : jsstring) : jsstring :=
  filter (fun c => is_symbol c = true \/ c = 61) s.
Fixpoint cut_at_equals (s : jsstring) : jsstring :=
  match s with
  | [] => []
  | c :: r => if decide (c = 61) then [] else c :: cut_at_equals r
  end.

Definition base64Write (string : jsstring) (offset length : option Z) : M Z :=
  let offset := default 0 offset in
  let length := default (base64ByteLength string (len string)) length in
  if decide (offset < 0 \/ length < 0) then throw (RangeError_raw "Index out of range")
  else
    n ← this_length;
    if decide (offset > n) then throw (RangeError_raw "offset is outside of buffer bounds")
    else
      latin1Write (base64Decode (cut_at_equals (keep_alphabet (trim string))))
                  (Some offset) None.

(** [hexSlice] and [hexWrite] (lines 4131-4157); the loop returns [i] on
    an unparseable slice and [length] at its end. *)
Definition hexSlice (buf : bytes) (start end_ : option Z) : exn + jsstring :=
  match slice_window buf start end_ with
  | inl e => inl e
  | inr w => inr (concat (map (fun b => padStart2 (toString16 b)) w))
  end.

Fixpoint hexWrite_loop (n : nat) (string : jsstring) (i offset length : Z) : M Z :=
  match n with
  | O => mret length
  | S n' =>
    match parseInt16 (string_slice string (i * 2) (i * 2 + 1)) with
    | None => mret i
    | Some code => store offset code;; hexWrite_loop n' string (i + 1) (offset + 1) length
    end
  end.

Definition hexWrite (string : jsstring) (offset length : option Z) : M Z :=
  let offset := default 0 offset in
  let length := default (ushr (len string) 1) length in
  if decide (offset < 0 \/ length < 0) then throw (RangeError_raw "Index out of range")
  else
    n ← this_length;
    if decide (offset > n) then throw (RangeError_raw "offset is outside of buffer bounds")
    else
      let length := Z.min (Z.min (n - offset) (ushr (len string) 1)) length in
      hexWrite_loop (Z.to_nat length) string 0 offset length.

Definition hex : EncodingOps := {|
  ops_byteLength := fun string => ushr (len string) 1;
  ops_write := fun string offset len => hexWrite string (Some offset) (Some len);
  ops_slice := fun buf start end_ => hexSlice buf (Some start) (Some end_)
|}.

Definition latin1 : EncodingOps := {|
  ops_byteLength := fun string => len string;
  ops_write := fun string offset len => latin1Write string (Some offset) (Some len);
  ops_slice := fun buf start end_ => latin1Slice buf (Some start) (Some end_)
|}.

(** The base64 encoding table, [base64Encode] and [base64Slice] (lines
    3989-3996, 4011-4038, 4105-4111). The first loop takes the units three
    at a time while at least three are left. *)
Definition kBase64EncMap : list Z := [
  0x41; 0x42; 0x43; 0x44; 0x45; 0x46; 0x47; 0x48; 0x49; 0x4A; 0x4B;
  0x4C; 0x4D; 0x4E; 0x4F; 0x50; 0x51; 0x52; 0x53; 0x54; 0x55; 0x56;
  0x57; 0x58; 0x59; 0x5A; 0x61; 0x62; 0x63; 0x64; 0x65; 0x66; 0x67;
  0x68; 0x69; 0x6A; 0x6B; 0x6C; 0x6D; 0x6E; 0x6F; 0x70; 0x71; 0x72;
  0x73; 0x74; 0x75; 0x76; 0x77; 0x78; 0x79; 0x7A; 0x30; 0x31; 0x32;
  0x33; 0x34; 0x35; 0x36; 0x37; 0x38; 0x39; 0x2B; 0x2F
].
Definition enc (i : Z) : Z := default 0 (elem_get kBase64EncMap i).

Fixpoint base64Encode_loop (data : jsstring) : list Z :=
  match data with
  | c0 :: c1 :: c2 :: rest =>
    enc (band (sshr c0 2) 63)
    :: enc (bor (band (sshr c1 4) 15) (band (shl c0 4) 63))
    :: enc (bor (band (sshr c2 6) 3) (band (shl c1 2) 63))
    :: enc (band c2 63)
    :: base64Encode_loop rest
  | [c0; c1] =>
    [enc (band (sshr c0 2) 63);
     enc (bor (band (sshr c1 4) 15) (band (shl c0 4) 63));
     enc (band (shl c1 2) 63)]
  | [c0] => [enc (band (sshr c0 2) 63); enc (band (shl c0 4) 63)]
  | [] => []
  end.

Definition base64Encode (data : jsstring) : jsstring :=
  let out := base64Encode_loop data in
  map fromCharCode (out ++ replicate ((4 - length out mod 4) mod 4)%nat 0x3D).

Definition base64Slice (buf : bytes) (start end_ : option Z) : exn + jsstring :=
  match slice_window buf start end_ with
  | inl e => inl e
  | inr _ =>
    let start := default 0 start in
    let end_ := default (len buf) end_ in
    let end_ := if decide (end_ < start) then start else end_ in
    match toString buf (Some latin1) (Some start) (Some end_) with
    | inl e => inl e
    | inr s => inr (base64Encode s)
    end
  end.

Definition base64 : EncodingOps := {|
  ops_byteLength := fun string => base64ByteLength string (len string);
  ops_write := fun string offset len => base64Write string (Some offset) (Some len);
  ops_slice := fun buf start end_ => base64Slice buf (Some start) (Some end_)
|}.

(** [fromStringFast] and [fromString] (lines 4357-4381) with the encoding
    resolved to its descriptor. *)
Definition fromStringFast (string : jsstring) (ops : EncodingOps) : exn + bytes :=
  let length := ops_byteLength ops string in
  let b := replicate (Z.to_nat length) 0 in
  match ops_write ops string 0 length b with
  | (_, inl e) => inl e
  | (b, inr actual) =>
    if decide (actual ≠ length) then inr (take (Z.to_nat actual) b) else inr b
  end.

Definition fromString (string : jsstring) (ops : EncodingOps) : exn + bytes :=
  if decide (len string = 0) then inr [] else fromStringFast string ops.

(** [bidirectionalIndexOf] (lines 4734-4773) and the methods on it. *)
Definition bidirectionalIndexOf (fuel : nat) (buffer : bytes) (val : needle)
    (byteOffset : option Z) (dir : bool) : exn + option Z :=
  let byteOffset := search_offset buffer byteOffset dir in
  match val with
  | NNumber v =>
    inr (Some (if dir then TypedArray_indexOf buffer (ToUint32 v) byteOffset
               else TypedArray_lastIndexOf buffer (ToUint32 v) byteOffset))
  | NString s ops =>
    match fromString s ops with
    | inl e => inl e
    | inr v => inr (indexOfBuffer fuel buffer v byteOffset dir)
    end
  | NBytes v => inr (indexOfBuffer fuel buffer v byteOffset dir)
  end.

Definition indexOf (fuel : nat) (this : bytes) (val : needle) (byteOffset : option Z) :=
  bidirectionalIndexOf fuel this val byteOffset true.
Definition lastIndexOf (fuel : nat) (this : bytes) (val : needle) (byteOffset : option Z) :=
  bidirectionalIndexOf fuel this val byteOffset false.

(** [_fill] (lines 4791-4849) for a [value] that is a number; the branch
    for string and buffer values is not embedded. [byteLen] is the size
    of the [ArrayBuffer] behind [buf], which is at least [buf.length]. *)
Definition _fill (byteLen : Z) (value : Z) (offset end_ : option Z) : M unit :=
  n ← this_length;
  range ← match offset with
          | None => mret (Some (0, n))
          | Some offset =>
            validateOffset offset "offset" None None;;
            end_ ← match end_ with
                   | None => mret n
                   | Some e => validateOffset e "end" (Some 0) (Some n);; mret e
                   end;
            if decide (offset >= end_) then mret None else mret (Some (offset, end_))
          end;
  match range with
  | None => mret tt
  | Some (offset, end_) =>
    let fillLength := end_ - offset in
    if decide (offset > end_ \/ fillLength + offset > byteLen)
    then throw ERR_BUFFER_OUT_OF_BOUNDS
    else TypedArray_fill value offset end_
  end.

Definition fill (byteLen : Z) (value : Z) (offset end_ : option Z) : M unit :=
  _fill byteLen value offset end_.

(** [swap16], [swap32], [swap64] (lines 4925-4956). *)
Definition swap16 : M unit :=
  len ← this_length;
  if decide (Z.rem len 2 ≠ 0) then throw (ERR_INVALID_BUFFER_SIZE "16-bits")
  else for_lt 0 len 2 (fun i => swap i (i + 1)).

Definition swap32 : M unit :=
  len ← this_length;
  if decide (Z.rem len 4 ≠ 0) then throw (ERR_INVALID_BUFFER_SIZE "32-bits")
  else for_lt 0 len 4 (fun i => swap i (i + 3);; swap (i + 1) (i + 2)).

Definition swap64 : M unit :=
  len ← this_length;
  if decide (Z.rem len 8 ≠ 0) then throw (ERR_INVALID_BUFFER_SIZE "64-bits")
  else for_lt 0 len 8 (fun i =>
         swap i (i + 7);; swap (i + 1) (i + 6);;
         swap (i + 2) (i + 5);; swap (i + 3) (i + 4)).

(** The branch of [_fill] (lines 4791-4849) for a [value] that is a
    [Buffer], which [_fill] above leaves out:
    [for (i = 0; i !== fillLength; ++i) buf[offset++] = value[i % value.length]].
    A [Buffer] is not copied: each iteration reads [value] from the memory
    as the iterations before it have left it, and [value] may be a view of
    the memory that [buf] is a view of. For an empty [value] the index is
    NaN and the element [undefined], which is stored as 0. *)
Definition _fill_buffer (buf value : view) (offset end_ : option Z) : H unit :=
  let n := view_length buf in
  range ← match offset with
          | None => mret (Some (0, n))
          | Some offset =>
            check (validateOffset offset "offset" None None);;
            end_ ← match end_ with
                   | None => mret n
                   | Some e => check (validateOffset e "end" (Some 0) (Some n));; mret e
                   end;
            if decide (offset >= end_) then mret None else mret (Some (offset, end_))
          end;
  match range with
  | None => mret tt
  | Some (offset, end_) =>
    let fillLength := end_ - offset in
    heap_loop (Z.to_nat fillLength) 0 (fun i =>
      x ← (if decide (view_length value = 0) then mret None
           else view_load value (Z.rem i (view_length value)));
      view_store buf (offset + i) (default 0 x))
  end.

(** [base64urlSlice], [base64urlWrite] (lines 4123-4129): the three
    [replace] calls of the one and the two of the other. *)
Definition base64urlSlice (buf : bytes) (start end_ : option Z) : exn + jsstring :=
  match base64Slice buf start end_ with
  | inl e => inl e
  | inr s =>
    inr (filter (fun c => c ≠ 61)
           (map (fun c => if decide (c = 47) then 95 else c)
              (map (fun c => if decide (c = 43) then 45 else c) s)))
  end.

Definition base64urlWrite (string : jsstring) (offset length : option Z) : M Z :=
  let offset := default 0 offset in
  let length := default (base64ByteLength string (len string)) length in
  base64Write (map (fun c => if decide (c = 95) then 47 else c)
                 (map (fun c => if decide (c = 45) then 43 else c) string))
              (Some offset) (Some length).

(** The descriptors of the other encodings in [encodingOps] (lines
    4487-4577). *)
Definition utf8 : EncodingOps := {|
  ops_byteLength := byteLengthUtf8;
  ops_write := fun string offset len => utf8Write string (Some offset) (Some len);
  ops_slice := fun buf start end_ => utf8Slice buf (Some start) (Some end_)
|}.

Definition utf16le : EncodingOps := {|
  ops_byteLength := fun string => len string * 2;
  ops_write := fun string offset len => ucs2Write string (Some offset) (Some len);
  ops_slice := fun buf start end_ => ucs2Slice buf (Some start) (Some end_)
|}.

Definition ascii : EncodingOps := {|
  ops_byteLength := fun string => len string;
  ops_write := fun string offset len => asciiWrite string (Some offset) (Some len);
  ops_slice := fun buf start end_ => asciiSlice buf (Some start) (Some end_)
|}.

Definition base64url : EncodingOps := {|
  ops_byteLength := fun string => base64ByteLength string (len string);
  ops_write := fun string offset len => base64urlWrite string (Some offset) (Some len);
  ops_slice := fun buf start end_ => base64urlSlice buf (Some start) (Some end_)
|}.

(** [normalizeEncoding], [slowCases], [isEncoding] (lines 2813-2840,
    4444-4447) on a string, over the host's [toLowerCase]; and
    [getEncodingOps] (lines 4578-4597), which compares the name as it is
    given. *)
Section Names.
Variable toLowerCase : jsstring -> jsstring.

Definition slowCases (enc : jsstring) : option jsstring :=
  let enc := toLowerCase enc in
  if decide (enc = str "" \/ enc = str "utf8" \/ enc = str "utf-8") then Some (str "utf8")
  else if decide (enc = str "ucs2" \/ enc = str "ucs-2" \/ enc = str "utf16le"
                  \/ enc = str "utf-16le") then Some (str "utf16le")
  else if decide (enc = str "latin1" \/ enc = str "binary") then Some (str "latin1")
  else if decide (enc = str "ascii" \/ enc = str "base64" \/ enc = str "base64url"
                  \/ enc = str "hex") then Some enc
  else None.

Definition normalizeEncoding (enc : option jsstring) : option jsstring :=
  match enc with
  | None => Some (str "utf8")
  | Some enc =>
    if decide (enc = str "utf8" \/ enc = str "utf-8") then Some (str "utf8")
    else slowCases enc
  end.

Definition isEncoding (encoding : jsstring) : bool :=
  bool_decide (len encoding ≠ 0) && bool_decide (normalizeEncoding (Some encoding) ≠ None).

End Names.

Definition getEncodingOps (encoding : jsstring) : option encoding_key :=
  if decide (encoding = str "utf8" \/ encoding = str "utf-8") then Some Kutf8
  else if decide (encoding = str "ucs2" \/ encoding = str "ucs-2"
                  \/ encoding = str "utf16le" \/ encoding = str "utf-16le")
  then Some Kutf16le
  else if decide (encoding = str "binary" \/ encoding = str "latin1") then Some Klatin1
  else if decide (encoding = str "ascii") then Some Kascii
  else if decide (encoding = str "base64") then Some Kbase64
  else if decide (encoding = str "base64url") then Some Kbase64url
  else if decide (encoding = str "hex") then Some Khex
  else None.

(** The descriptor behind a key, and [Buffer.from(value, encoding)] for a
    string [value] (lines 4265-4267, 4366-4381); [encoding = None] is a
    call without an encoding. *)
Definition encodingOps (key : encoding_key) : EncodingOps :=
  match key with
  | Kutf8 => utf8
  | Kucs2 | Kutf16le => utf16le
  | Klatin1 => latin1
  | Kascii => ascii
  | Kbase64 => base64
  | Kbase64url => base64url
  | Khex => hex
  end.

Definition from (value : jsstring) (encoding : option jsstring) : exn + bytes :=
  match encoding with
  | Some encoding =>
    if decide (len encoding = 0) then
      if decide (len value = 0) then inr [] else fromStringFast value utf8
    else
      match getEncodingOps encoding with
      | None => inl ERR_UNKNOWN_ENCODING
      | Some key => if decide (len value = 0) then inr [] else fromStringFast value (encodingOps key)
      end
  | None => if decide (len value = 0) then inr [] else fromStringFast value utf8
  end.

(** [readUIntLE], [readUIntBE], [readIntLE], [readIntBE] (lines 2975-2992,
    3064-3081, 3144-3161, 3236-3253) over the readers of 3, 5 and 6 bytes,
    which the second edition declares as functions. *)
Definition readUIntLE (offset : option Z) (byteLength : Z) : M (option Z) :=
  match offset with
  | None => throw (ERR_INVALID_ARG_TYPE "offset")
  | Some _ =>
    if decide (byteLength = 6) then readUInt48LE offset
    else if decide (byteLength = 5) then readUInt40LE offset
    else if decide (byteLength = 3) then readUInt24LE offset
    else if decide (byteLength = 4) then readUInt32LE offset
    else if decide (byteLength = 2) then readUInt16LE offset
    else if decide (byteLength = 1) then v ← readUInt8 offset; mret (Some v)
    else boundsError byteLength 6 (Some "byteLength"%string)
  end.

Definition readUIntBE (offset : option Z) (byteLength : Z) : M (option Z) :=
  match offset with
  | None => throw (ERR_INVALID_ARG_TYPE "offset")
  | Some _ =>
    if decide (byteLength = 6) then readUInt48BE offset
    else if decide (byteLength = 5) then readUInt40BE offset
    else if decide (byteLength = 3) then readUInt24BE offset
    else if decide (byteLength = 4) then readUInt32BE offset
    else if decide (byteLength = 2) then readUInt16BE offset
    else if decide (byteLength = 1) then v ← readUInt8 offset; mret (Some v)
    else boundsError byteLength 6 (Some "byteLength"%string)
  end.

Definition readIntLE (offset : option Z) (byteLength : Z) : M (option Z) :=
  match offset with
  | None => throw (ERR_INVALID_ARG_TYPE "offset")
  | Some _ =>
    if decide (byteLength = 6) then readInt48LE offset
    else if decide (byteLength = 5) then readInt40LE offset
    else if decide (byteLength = 3) then readInt24LE offset
    else if decide (byteLength = 4) then readInt32LE offset
    else if decide (byteLength = 2) then readInt16LE offset
    else if decide (byteLength = 1) then v ← readInt8 offset; mret (Some v)
    else boundsError byteLength 6 (Some "byteLength"%string)
  end.

Definition readIntBE (offset : option Z) (byteLength : Z) : M (option Z) :=
  match offset with
  | None => throw (ERR_INVALID_ARG_TYPE "offset")
  | Some _ =>
    if decide (byteLength = 6) then readInt48BE offset
    else if decide (byteLength = 5) then readInt40BE offset
    else if decide (byteLength = 3) then readInt24BE offset
    else if decide (byteLength = 4) then readInt32BE offset
    else if decide (byteLength = 2) then readInt16BE offset
    else if decide (byteLength = 1) then v ← readInt8 offset; mret (Some v)
    else boundsError byteLength 6 (Some "byteLength"%string)
  end.

(** [_copy], [copy] (lines 4195-4229, 4642-4645). *)
Definition _copy (source target : view) (targetStart sourceStart sourceEnd : option Z)
    : H Z :=
  targetStart ← match targetStart with
                | None => mret 0
                | Some targetStart =>
                  let targetStart := toInteger targetStart 0 in
                  if decide (targetStart < 0) then raise (ERR_OUT_OF_RANGE "targetStart")
                  else mret targetStart
                end;
  sourceStart ← match sourceStart with
                | None => mret 0
                | Some sourceStart =>
                  let sourceStart := toInteger sourceStart 0 in
                  if decide (sourceStart < 0 \/ sourceStart > view_length source)
                  then raise (ERR_OUT_OF_RANGE "sourceStart")
                  else mret sourceStart
                end;
  sourceEnd ← match sourceEnd with
              | None => mret (view_length source)
              | Some sourceEnd =>
                let sourceEnd := toInteger sourceEnd 0 in
                if decide (sourceEnd < 0) then raise (ERR_OUT_OF_RANGE "sourceEnd")
                else mret sourceEnd
              end;
  if decide (targetStart >= view_length target \/ sourceStart >= sourceEnd) then mret 0
  else _copyActual source target targetStart sourceStart sourceEnd.

Definition copy (this target : view) (targetStart sourceStart sourceEnd : option Z) : H Z :=
  _copy this target targetStart sourceStart sourceEnd.

(** [Buffer.allocUnsafe], [Buffer.concat] (lines 4341-4344, 4450-4476). *)
Definition allocUnsafe (size : Z) : H view :=
  check (validateNumber size "size" (Some 0) (Some MAX_SAFE_INTEGER));;
  allocate size.

Definition concat (list : list view) (length : option Z) : H view :=
  if decide (Z.of_nat (Datatypes.length list) = 0) then new_FastBuffer 0
  else
    length ← match length with
             | None => mret (total_length list)
             | Some length => check (validateOffset length "length" None None);;
                              mret length
             end;
    buffer ← allocUnsafe length;
    pos ← concat_loop list buffer 0;
    (if decide (pos < length) then on_view buffer (TypedArray_fill 0 pos length)
     else mret tt);;
    mret buffer.

End Ed2.

(** * Notions used to state the properties *)

(** Every element of a buffer is a byte. *)
Definition wf_bytes (buf : bytes) : Prop := Forall (fun b => 0 <= b < 256) buf.

(** The index that trades places with [j] when every group of [g]
    consecutive bytes is reversed. *)
Definition mirror (g j : Z) : Z := g * (j / g) + (g - 1 - j mod g).

(** The range that [_fill] works on: the whole buffer when [offset] is
    missing, from [offset] to the end when only [end] is missing. *)
Definition fill_range (buf : bytes) (offset end_ : option Z) : Z * Z :=
  match offset with
  | None => (0, len buf)
  | Some o => (o, default (len buf) end_)
  end.

(** Every unit of a string is a UTF-16 code unit. *)
Definition wf_string (s : jsstring) : Prop := Forall (fun c => 0 <= c < 65536) s.

(** The inputs that base64 decoding rejects, class by class: a unit that
    is neither a symbol of the alphabet, nor padding, nor skipped white
    space; more than two padding characters; a symbol after padding; a
    count of symbols that leaves one over modulo 4, or that with the
    padding present does not fill up to a multiple of 4. *)
Definition count_pad (data : jsstring) : Z := len (filter (fun c => c = 61) data).
Definition count_symbols (data : jsstring) : Z :=
  len (filter (fun c => Ed2.is_symbol c = true) data).
Definition foreign (ch : Z) : Prop :=
  ch <> 61 /\ Ed2.is_symbol ch = false /\ Ed2.is_skipped ch = false.

Inductive malformed (data : jsstring) : Prop :=
| out_of_alphabet : Exists foreign data -> malformed data
| too_much_padding : 2 < count_pad data -> malformed data
| interleaved_padding (l1 l2 l3 : jsstring) (c : Z) :
    data = l1 ++ 61 :: l2 ++ c :: l3 -> Ed2.is_symbol c = true -> malformed data
| inconsistent_length :
    count_symbols data mod 4 = 1
    \/ (0 < count_pad data /\ (count_symbols data + count_pad data) mod 4 <> 0) ->
    malformed data.

(** What one pass of a swap loop does to a group of [g] bytes at [i]. *)
Definition reverses_group (g : Z) (body : Z -> M unit) : Prop :=
  forall (i : Z) (buf : bytes),
    wf_bytes buf -> 0 <= i -> i + g <= len buf ->
    exists buf', body i buf = (buf', inr tt)
                 /\ len buf' = len buf /\ wf_bytes buf'
                 /\ forall j, elem_get buf' j
                              = if decide (i <= j < i + g)
                                then elem_get buf (2 * i + g - 1 - j)
                                else elem_get buf j.

(** A code unit that is a code point by itself: any unit that is not a
    surrogate. *)
Definition bmp_scalar (c : Z) : Prop := 0 <= c < 0xD800 \/ 0xE000 <= c < 0x10000.

(** The bytes that [utf8Write] stores for such a unit (lines 915-932), as
    they read back from the buffer. *)
Definition utf8_bytes (c : Z) : bytes :=
  if decide (c < 0x80) then [ToUint8 c]
  else if decide (c < 0x800) then
    [ToUint8 (bor (sshr c 0x6) 0xC0); ToUint8 (bor (band c 0x3F) 0x80)]
  else
    [ToUint8 (bor (sshr c 0xC) 0xE0);
     ToUint8 (bor (band (sshr c 0x6) 0x3F) 0x80);
     ToUint8 (bor (band c 0x3F) 0x80)].

(** The needle [val] occurs in [arr] at the start position [i]. *)
Definition occurs_at (arr val : bytes) (i : Z) : Prop :=
  0 <= i /\ i + len val <= len arr
  /\ forall j, 0 <= j < len val -> elem_get arr (i + j) = elem_get val j.

(** [r] is the answer of a forward search from [byteOffset]: the lowest
    start position from [byteOffset] on at which the needle occurs, or -1
    when there is none. *)
Definition first_occurrence (arr val : bytes) (byteOffset r : Z) : Prop :=
  (r = -1 /\ forall s, byteOffset <= s -> ~ occurs_at arr val s)
  \/ (byteOffset <= r /\ occurs_at arr val r
      /\ forall s, byteOffset <= s < r -> ~ occurs_at arr val s).

(** [r] is the answer of a backward search from [byteOffset]: the highest
    start position up to [byteOffset] at which the needle occurs, or -1. *)
Definition last_occurrence (arr val : bytes) (byteOffset r : Z) : Prop :=
  (r = -1 /\ forall s, s <= byteOffset -> ~ occurs_at arr val s)
  \/ (r <= byteOffset /\ occurs_at arr val r
      /\ forall s, r < s <= byteOffset -> ~ occurs_at arr val s).

(** An [encoding] argument under which the search of the first edition
    compares bytes: none, or a name whose lower-case form is not one of
    the names of UTF-16. *)
Definition byte_units (toLowerCase : jsstring -> jsstring) (encoding : option jsstring)
    : Prop :=
  match encoding with
  | None => True
  | Some encoding =>
    ~ (toLowerCase encoding = str "ucs2" \/ toLowerCase encoding = str "ucs-2"
       \/ toLowerCase encoding = str "utf16le" \/ toLowerCase encoding = str "utf-16le")
  end.

(** [Buffer.from(s, encoding)] holds the bytes [bs] and
    [buf.toString(encoding)] gives [s] back, in both editions; [ops1] and
    [ops2] are the descriptors of the encoding in the two editions. *)
Definition round_trips (ops1 ops2 : EncodingOps) (s : jsstring) (bs : bytes) : Prop :=
  Ed1.fromString s ops1 = inr bs /\ Ed2.fromString s ops2 = inr bs
  /\ toString bs (Some ops1) None None = inr s
  /\ toString bs (Some ops2) None None = inr s.

(** The 6-bit groups of a byte string, in the order in which base64 takes
    them from each group of three bytes; a last group of one or two bytes
    gives two or three 6-bit groups, filled up with zero bits. *)
Fixpoint sextets (data : bytes) : list Z :=
  match data with
  | c0 :: c1 :: c2 :: rest =>
    c0 / 4 :: c0 mod 4 * 16 + c1 / 16 :: c1 mod 16 * 4 + c2 / 64 :: c2 mod 64
    :: sextets rest
  | [c0; c1] => [c0 / 4; c0 mod 4 * 16 + c1 / 16; c1 mod 16 * 4]
  | [c0] => [c0 / 4; c0 mod 4 * 16]
  | [] => []
  end.

(** The padding that fills [n] symbols up to a multiple of four. *)
Definition padding (n : nat) : list Z := replicate ((4 - n mod 4) mod 4)%nat 0x3D.

(** A state of the decoder's array on its way from the 6-bit groups of
    [s] to the bytes of [s]: the entries below [d] are bytes of [s], the
    entries from [e] on are still 6-bit groups. *)
Definition decoding (s out : list Z) (d e : Z) : Prop :=
  len out = len (sextets s)
  /\ (forall j, 0 <= j < d -> Ed2.array_get out j = Ed2.array_get s j)
  /\ (forall j, e <= j -> Ed2.array_get out j = Ed2.array_get (sextets s) j).

(** What [toLowerCase] does on a string of ASCII units, and the host
    function that is assumed to do it. *)
Definition ascii_lower (s : jsstring) : jsstring :=
  map (fun c => if decide (65 <= c <= 90) then c + 32 else c) s.

Definition lowers_ascii (toLowerCase : jsstring -> jsstring) : Prop :=
  forall s, Forall (fun c => 0 <= c < 128) s -> toLowerCase s = ascii_lower s.

(** The table of encoding names: the canonical name and the descriptor
    that belong to a name written in lower case. *)
Definition canonical_name (name : jsstring) : option jsstring :=
  if decide (name = str "" \/ name = str "utf8" \/ name = str "utf-8")
  then Some (str "utf8")
  else if decide (name = str "ucs2" \/ name = str "ucs-2" \/ name = str "utf16le"
                  \/ name = str "utf-16le")
  then Some (str "utf16le")
  else if decide (name = str "latin1" \/ name = str "binary") then Some (str "latin1")
  else if decide (name = str "ascii") then Some (str "ascii")
  else if decide (name = str "base64") then Some (str "base64")
  else if decide (name = str "base64url") then Some (str "base64url")
  else if decide (name = str "hex") then Some (str "hex")
  else None.

Definition named_key (name : jsstring) : option encoding_key :=
  if decide (name = str "utf8" \/ name = str "utf-8") then Some Kutf8
  else if decide (name = str "ucs2" \/ name = str "ucs-2") then Some Kucs2
  else if decide (name = str "utf16le" \/ name = str "utf-16le") then Some Kutf16le
  else if decide (name = str "latin1" \/ name = str "binary") then Some Klatin1
  else if decide (name = str "ascii") then Some Kascii
  else if decide (name = str "base64") then Some Kbase64
  else if decide (name = str "base64url") then Some Kbase64url
  else if decide (name = str "hex") then Some Khex
  else None.

(** The read method that goes with each integer writer (for the
    variable-width methods, the ones of the second edition). *)
Definition read_back (w : int_writer) (offset : Z) : M (option Z) :=
  match w with
  | WriteUInt8 => v ← readUInt8 (Some offset); mret (Some v)
  | WriteUInt16LE => readUInt16LE (Some offset)
  | WriteUInt16BE => readUInt16BE (Some offset)
  | WriteUInt32LE => readUInt32LE (Some offset)
  | WriteUInt32BE => readUInt32BE (Some offset)
  | WriteInt8 => v ← readInt8 (Some offset); mret (Some v)
  | WriteInt16LE => readInt16LE (Some offset)
  | WriteInt16BE => readInt16BE (Some offset)
  | WriteInt32LE => readInt32LE (Some offset)
  | WriteInt32BE => readInt32BE (Some offset)
  | WriteUIntLE n => Ed2.readUIntLE (Some offset) n
  | WriteUIntBE n => Ed2.readUIntBE (Some offset) n
  | WriteIntLE n => Ed2.readIntLE (Some offset) n
  | WriteIntBE n => Ed2.readIntBE (Some offset) n
  | WriteBigUInt64LE => v ← readBigUInt64LE (Some offset); mret (Some v)
  | WriteBigUInt64BE => v ← readBigUInt64BE (Some offset); mret (Some v)
  | WriteBigInt64LE => v ← readBigInt64LE (Some offset); mret (Some v)
  | WriteBigInt64BE => v ← readBigInt64BE (Some offset); mret (Some v)
  end.


(** The byte length of a variable-width method is from 1 to 6. *)
Definition valid_width (w : int_writer) : Prop :=
  match w with
  | WriteUIntLE n | WriteUIntBE n | WriteIntLE n | WriteIntBE n => 1 <= n <= 6
  | _ => True
  end.

Definition big_endian (w : int_writer) : bool :=
  match w with
  | WriteUInt16BE | WriteUInt32BE | WriteInt16BE | WriteInt32BE
  | WriteUIntBE _ | WriteIntBE _ | WriteBigUInt64BE | WriteBigInt64BE => true
  | _ => false
  end.

(** The number that a sequence of bytes spells, least significant byte
    first, and the [n] low bytes of an integer in that order (its two's
    complement when it is negative). *)
Fixpoint le_value (bs : list Z) : Z :=
  match bs with
  | [] => 0
  | b :: r => b + 256 * le_value r
  end.

Fixpoint le_digits (n : nat) (v : Z) : list Z :=
  match n with
  | O => []
  | S n' => v mod 256 :: le_digits n' (v / 256)
  end.

(** The integer that the bytes [bs] hold in the format of [w], and the
    bytes that hold [v] in that format. *)
Definition value_of (w : int_writer) (bs : list Z) : Z :=
  let u := le_value (if big_endian w then reverse bs else bs) in
  if signed w && bool_decide (2 ^ (8 * len bs - 1) <= u) then u - 2 ^ (8 * len bs) else u.

Definition bytes_of (w : int_writer) (v : Z) : list Z :=
  let ds := le_digits (Z.to_nat (width w)) v in
  if big_endian w then reverse ds else ds.

(** The UTF-16LE bytes of a string: the low byte of each unit, then its
    high byte. *)
Definition ucs2_bytes (s : jsstring) : bytes :=
  concat (map (fun c => [c mod 256; c / 256]) s).

(** Unicode scalar values, and their encoding forms UTF-16 and UTF-8 as
    the Unicode Standard defines them (chapter 3, tables 3-5 and 3-6). *)
Definition scalar_value (cp : Z) : Prop := 0 <= cp < 0xD800 \/ 0xE000 <= cp < 0x110000.

Definition utf16_units (cp : Z) : jsstring :=
  if decide (cp < 0x10000) then [cp]
  else [0xD800 + (cp - 0x10000) / 0x400; 0xDC00 + (cp - 0x10000) mod 0x400].

Definition utf8_encoding (cp : Z) : bytes :=
  if decide (cp < 0x80) then [cp]
  else if decide (cp < 0x800) then [0xC0 + cp / 0x40; 0x80 + cp mod 0x40]
  else if decide (cp < 0x10000) then
    [0xE0 + cp / 0x1000; 0x80 + cp / 0x40 mod 0x40; 0x80 + cp mod 0x40]
  else
    [0xF0 + cp / 0x40000; 0x80 + cp / 0x1000 mod 0x40;
     0x80 + cp / 0x40 mod 0x40; 0x80 + cp mod 0x40].

(** [buf'] is [buf] with the bytes [bs] stored from [offset] on. *)
Definition stored (buf buf' : bytes) (offset : Z) (bs : bytes) : Prop :=
  len buf' = len buf
  /\ forall j, elem_get buf' j
               = if decide (offset <= j < offset + len bs)
                 then elem_get bs (j - offset) else elem_get buf j.

(** A view names an [ArrayBuffer] of the heap and lies within it. *)
Definition wf_view (h : heap) (v : view) : Prop :=
  (view_buffer v < length h)%nat
  /\ 0 <= view_byteOffset v /\ 0 <= view_length v
  /\ view_byteOffset v + view_length v <= len (memory h (view_buffer v)).

(** [data] cut or filled up with zeros to [n] elements. *)
Definition fit (n : Z) (data : bytes) : bytes :=
  take (Z.to_nat n) (data ++ replicate (Z.to_nat n - length data) 0).

(** The index of [subarray] and [slice]: counted from the end when
    negative, and kept within the buffer. *)
Definition clamp_index (n : Z) (i : option Z) (dflt : Z) : Z :=
  match i with
  | None => dflt
  | Some i => if decide (i < 0) then Z.max 0 (n + i) else Z.min i n
  end.

(** What a call of [copy] may do: return a count of bytes that both views
    have, having touched the bytes of the target view only, or raise
    [ERR_OUT_OF_RANGE] with the heap as it was. *)
Definition copy_outcome (h : heap) (this target : view) (r : heap * (exn + Z)) : Prop :=
  match r with
  | (h', inl e) => h' = h /\ exists name, e = ERR_OUT_OF_RANGE name
  | (h', inr nb) =>
    0 <= nb <= view_length target /\ nb <= view_length this
    /\ length h' = length h
    /\ forall b i,
         ~ (b = view_buffer target
            /\ view_byteOffset target <= i < view_byteOffset target + view_length target) ->
         elem_get (memory h' b) i = elem_get (memory h b) i
  end.

(** * Properties *)

(** ** Element access *)

Lemma len_nonneg (l : list Z) : 0 <= len l.
Proof. unfold len. lia. Qed.

Lemma len_cons (x : Z) (l : list Z) : len (x :: l) = 1 + len l.
Proof. unfold len. cbn [length]. lia. Qed.

Lemma elem_get_None (buf : bytes) (i : Z) :
  elem_get buf i = None <-> i < 0 \/ len buf <= i.
Proof.
  unfold elem_get, len. destruct (decide (0 <= i)) as [H|H].
  - rewrite lookup_ge_None. lia.
  - split; [lia | reflexivity].
Qed.

Lemma elem_get_Some (buf : bytes) (i : Z) :
  0 <= i < len buf -> exists v, elem_get buf i = Some v.
Proof.
  intros H. destruct (elem_get buf i) as [v|] eqn:E; [eauto|].
  apply elem_get_None in E. lia.
Qed.

Lemma len_elem_put (buf : bytes) (i v : Z) : len (elem_put buf i v) = len buf.
Proof.
  unfold elem_put, len. destruct (decide (0 <= i)); [|reflexivity].
  now rewrite length_insert.
Qed.

Lemma elem_get_put_ne (buf : bytes) (i j v : Z) :
  i <> j -> elem_get (elem_put buf i v) j = elem_get buf j.
Proof.
  intros H. unfold elem_get, elem_put.
  destruct (decide (0 <= j)); [|reflexivity].
  destruct (decide (0 <= i)); [|reflexivity].
  apply list_lookup_insert_ne. lia.
Qed.

Lemma elem_get_put_eq (buf : bytes) (i v : Z) :
  0 <= i < len buf -> elem_get (elem_put buf i v) i = Some (ToUint8 v).
Proof.
  intros H. unfold elem_get, elem_put, len in *.
  destruct (decide (0 <= i)); [|lia].
  apply list_lookup_insert_eq. lia.
Qed.

(** ** Integer writes *)

(** Unfolds the monad and its primitive computations. *)
Ltac mstep :=
  cbv beta iota delta [mbind M_bind mret M_ret load store this_length throw
                       validateNumber boundsError from_option id orb].

(** [checkInt] either throws and leaves the buffer alone, or passes, and it
    passes exactly on a value within [min, max] and a window in bounds. *)
Lemma checkInt_spec (value min max offset byteLength : Z) (buf : bytes) :
  0 <= byteLength ->
  (min <= value <= max /\ 0 <= offset /\ offset + byteLength < len buf
   /\ checkInt value min max offset byteLength buf = (buf, inr tt))
  \/ ((value < min \/ max < value \/ offset < 0 \/ len buf <= offset + byteLength)
      /\ exists e, checkInt value min max offset byteLength buf = (buf, inl e)).
Proof.
  intros Hb. unfold checkInt.
  destruct (bool_decide (value > max \/ value < min)) eqn:Hv.
  - apply bool_decide_eq_true in Hv. right. split; [lia|]. eexists. reflexivity.
  - apply bool_decide_eq_false in Hv.
    unfold checkBounds. mstep.
    destruct (bool_decide (elem_get buf offset = None
                            \/ elem_get buf (offset + byteLength) = None)) eqn:Ho.
    + apply bool_decide_eq_true in Ho. right. split.
      * rewrite !elem_get_None in Ho. lia.
      * destruct (decide (len buf - (byteLength + 1) < 0)); eexists; reflexivity.
    + apply bool_decide_eq_false in Ho. left.
      rewrite !elem_get_None in Ho. repeat split; try lia.
Qed.

Lemma checkInt_reject (value min max offset byteLength : Z) (buf : bytes) :
  0 <= byteLength ->
  value < min \/ max < value \/ offset < 0 \/ len buf <= offset + byteLength ->
  exists e, checkInt value min max offset byteLength buf = (buf, inl e).
Proof.
  intros Hb H. destruct (checkInt_spec value min max offset byteLength buf Hb)
    as [(? & ? & ? & _)|[_ He]]; [lia | exact He].
Qed.

Lemma bind_reject {A B : Type} (m : M A) (k : A -> M B) (buf : bytes) (e : exn) :
  m buf = (buf, inl e) -> (m ≫= k) buf = (buf, inl e).
Proof. intros H. unfold mbind, M_bind. now rewrite H. Qed.

(** The one-byte writer checks by itself. *)
Lemma writeU_Int8_reject (value offset min max : Z) (buf : bytes) :
  value < min \/ max < value \/ offset < 0 \/ len buf <= offset ->
  exists e, writeU_Int8 value offset min max buf = (buf, inl e).
Proof.
  intros H. unfold writeU_Int8. mstep.
  destruct (bool_decide (value > max \/ value < min)) eqn:Hv.
  - eexists. reflexivity.
  - apply bool_decide_eq_false in Hv. mstep.
    destruct (bool_decide (elem_get buf offset = None)) eqn:Ho.
    + destruct (decide (len buf - 1 < 0)); eexists; reflexivity.
    + apply bool_decide_eq_false in Ho. rewrite elem_get_None in Ho. lia.
Qed.

Ltac reject_by_checkInt :=
  match goal with
  | |- exists e, (checkInt ?v ?mn ?mx ?o ?b ≫= ?k) ?buf = _ =>
    let e := fresh "e" in let He := fresh "He" in
    destruct (checkInt_reject v mn mx o b buf) as [e He];
    [lia | lia | exists e; apply bind_reject; exact He]
  end.

(** C5. For every fixed-width integer writer (unsigned and signed, 1 to 6
    bytes, and the 64-bit BigInt writers), a value outside the range
    representable at the writer's width and signedness, or a window
    [offset, offset + width) that is not within the buffer, makes the call
    raise an error and leaves the buffer exactly as it was. *)
Theorem int_write_rejected_leaves_buffer
    (w : int_writer) (value offset : Z) (buf : bytes) :
  ~ representable w value \/ ~ in_bounds buf offset (width w) ->
  exists e, call w value offset buf = (buf, inl e).
Proof.
  unfold representable, in_bounds. intros H.
  destruct w; cbn [signed width call] in *;
    unfold writeUInt8, writeUInt16LE, writeUInt16BE, writeUInt32LE, writeUInt32BE,
      writeInt8, writeInt16LE, writeInt16BE, writeInt32LE, writeInt32BE,
      writeBigUInt64LE, writeBigUInt64BE, writeBigInt64LE, writeBigInt64BE,
      writeUIntLE, writeUIntBE, writeIntLE, writeIntBE;
    cbv beta iota delta [from_option id];
    repeat match goal with
           | |- context [decide (?n = ?k)] =>
             destruct (decide (n = k)); [subst n|]
           end;
    try (apply writeU_Int8_reject; lia);
    try (unfold writeU_Int16LE, writeU_Int16BE, writeU_Int24LE, writeU_Int24BE,
           writeU_Int32LE, writeU_Int32BE, writeU_Int40LE, writeU_Int40BE,
           writeU_Int48LE, writeU_Int48BE, writeBigU_Int64LE, writeBigU_Int64BE;
         reject_by_checkInt);
    try (unfold boundsError, throw; cbn; eexists; reflexivity).
Qed.

Lemma int_write_rejected_witness :
  exists e, call WriteUInt32LE 0x100000000 0 [1; 2; 3; 4] = ([1; 2; 3; 4], inl e).
Proof.
  apply int_write_rejected_leaves_buffer.
  left. unfold representable. cbn. lia.
Defined.

Lemma bind_accept {A B : Type} (m : M A) (k : A -> M B) (buf : bytes) (a : A) :
  m buf = (buf, inr a) -> (m ≫= k) buf = k a buf.
Proof. intros H. unfold mbind, M_bind. now rewrite H. Qed.

Lemma checkInt_accept (value min max offset byteLength : Z) (buf : bytes) :
  0 <= byteLength ->
  min <= value <= max -> 0 <= offset -> offset + byteLength < len buf ->
  checkInt value min max offset byteLength buf = (buf, inr tt).
Proof.
  intros Hb Hv Ho Hl. destruct (checkInt_spec value min max offset byteLength buf Hb)
    as [(_ & _ & _ & H)|[H _]]; [exact H | lia].
Qed.

(** The converse of the rejection: a representable value and a window in
    bounds are accepted, the call returns the offset past the window and
    the buffer keeps its length. *)
Lemma int_write_accepts (w : int_writer) (value offset : Z) (buf : bytes) :
  (match w with
   | WriteUIntLE n | WriteUIntBE n | WriteIntLE n | WriteIntBE n => 1 <= n <= 6
   | _ => True
   end) ->
  representable w value -> in_bounds buf offset (width w) ->
  exists buf', call w value offset buf = (buf', inr (offset + width w))
               /\ len buf' = len buf.
Proof.
  unfold representable, in_bounds. intros Hn Hv Ho.
  destruct w; cbn [signed width call] in *;
    unfold writeUInt8, writeUInt16LE, writeUInt16BE, writeUInt32LE, writeUInt32BE,
      writeInt8, writeInt16LE, writeInt16BE, writeInt32LE, writeInt32BE,
      writeBigUInt64LE, writeBigUInt64BE, writeBigInt64LE, writeBigInt64BE,
      writeUIntLE, writeUIntBE, writeIntLE, writeIntBE;
    cbv beta iota delta [from_option id];
    repeat match goal with
           | |- context [decide (?n = ?k)] =>
             destruct (decide (n = k)); [subst n|]
           end;
    try lia;
    try (unfold writeU_Int16LE, writeU_Int16BE, writeU_Int24LE, writeU_Int24BE,
           writeU_Int32LE, writeU_Int32BE, writeU_Int40LE, writeU_Int40BE,
           writeU_Int48LE, writeU_Int48BE, writeBigU_Int64LE, writeBigU_Int64BE;
         rewrite bind_accept with (a := tt) by (apply checkInt_accept; lia);
         mstep; eexists; split;
         [f_equal; f_equal; lia | now rewrite ?len_elem_put]).
  all: unfold writeU_Int8; mstep;
    (rewrite bool_decide_eq_false_2 by lia); mstep;
    destruct (elem_get_Some buf offset) as [v Hg]; [lia|]; rewrite Hg;
    (rewrite bool_decide_eq_false_2 by discriminate); mstep;
    eexists; split; [reflexivity | apply len_elem_put].
Qed.

(** An integer write that raises has not touched the buffer. *)
Lemma writeU_Int8_atomic (value offset min max : Z) (buf buf' : bytes) (e : exn) :
  writeU_Int8 value offset min max buf = (buf', inl e) -> buf' = buf.
Proof.
  unfold writeU_Int8. mstep.
  destruct (bool_decide (value > max \/ value < min)); mstep; [congruence|].
  destruct (bool_decide (elem_get buf offset = None)); mstep.
  - destruct (decide (len buf - 1 < 0)); congruence.
  - discriminate.
Qed.

Ltac atomic_by_checkInt H :=
  match type of H with
  | (checkInt ?v ?mn ?mx ?o ?b ≫= ?k) ?buf = _ =>
    let Hc := fresh "Hc" in
    destruct (checkInt_spec v mn mx o b buf) as [(_ & _ & _ & Hc)|[_ [? Hc]]];
    [lia
    | rewrite (bind_accept _ _ _ tt Hc) in H;
      cbv beta iota delta [mbind M_bind mret M_ret store] in H; discriminate H
    | rewrite (bind_reject _ _ _ _ Hc) in H; congruence]
  end.

Lemma int_write_error_is_atomic
    (w : int_writer) (value offset : Z) (buf buf' : bytes) (e : exn) :
  call w value offset buf = (buf', inl e) -> buf' = buf.
Proof.
  intros H.
  destruct w; cbn [call] in H;
    unfold writeUInt8, writeUInt16LE, writeUInt16BE, writeUInt32LE, writeUInt32BE,
      writeInt8, writeInt16LE, writeInt16BE, writeInt32LE, writeInt32BE,
      writeBigUInt64LE, writeBigUInt64BE, writeBigInt64LE, writeBigInt64BE,
      writeUIntLE, writeUIntBE, writeIntLE, writeIntBE in H;
    cbv beta iota delta [from_option id] in H;
    repeat match type of H with
           | context [decide (?n = ?k)] => destruct (decide (n = k)); [subst n|]
           end;
    try (apply writeU_Int8_atomic in H; exact H);
    try (unfold writeU_Int16LE, writeU_Int16BE, writeU_Int24LE, writeU_Int24BE,
           writeU_Int32LE, writeU_Int32BE, writeU_Int40LE, writeU_Int40BE,
           writeU_Int48LE, writeU_Int48BE, writeBigU_Int64LE, writeBigU_Int64BE in H;
         atomic_by_checkInt H);
    try (unfold boundsError, throw in H; destruct (decide (6 < 0)); [lia|]; congruence).
Qed.

(** ** Boundary behaviour of [readUInt8] and [writeUInt32LE] *)

Lemma readUInt8_in_range (buf : bytes) (offset v : Z) :
  elem_get buf offset = Some v -> readUInt8 (Some offset) buf = (buf, inr v).
Proof. intros H. unfold readUInt8. mstep. now rewrite H. Qed.

(** Reading one past the last byte raises a [RangeError] on every buffer,
    the empty one included. *)
Lemma readUInt8_at_length (buf : bytes) :
  exists e, readUInt8 (Some (len buf)) buf = (buf, inl e) /\ error_class e = RangeError.
Proof.
  unfold readUInt8. mstep.
  assert (elem_get buf (len buf) = None) as -> by (apply elem_get_None; lia).
  mstep. destruct (decide (len buf - 1 < 0)); eexists; split; reflexivity.
Qed.

(** C6. On a buffer of length n > 0, [readUInt8(n - 1)] returns the last
    byte and [readUInt8(n)] raises the out-of-range [RangeError]. At an
    offset whose four bytes are in bounds, [writeUInt32LE(0xFFFFFFFF)]
    succeeds, sets exactly those four bytes to 0xFF and returns the offset
    past them, and [writeUInt32LE(0x100000000)] raises the out-of-range
    error for its value and leaves the buffer as it was. *)
Theorem boundary_read_and_write (buf wbuf : bytes) (offset : Z) :
  0 < len buf ->
  in_bounds wbuf offset 4 ->
  (exists v, elem_get buf (len buf - 1) = Some v
             /\ readUInt8 (Some (len buf - 1)) buf = (buf, inr v))
  /\ readUInt8 (Some (len buf)) buf = (buf, inl (ERR_OUT_OF_RANGE "offset"))
  /\ (exists wbuf',
         writeUInt32LE 0xFFFFFFFF (Some offset) wbuf = (wbuf', inr (offset + 4))
         /\ len wbuf' = len wbuf
         /\ forall i, elem_get wbuf' i
                      = if decide (offset <= i < offset + 4) then Some 0xFF
                        else elem_get wbuf i)
  /\ writeUInt32LE 0x100000000 (Some offset) wbuf = (wbuf, inl (ERR_OUT_OF_RANGE "value")).
Proof.
  unfold in_bounds. intros Hn [Ho1 Ho2]. split; [|split; [|split]].
  - destruct (elem_get_Some buf (len buf - 1)) as [v Hv]; [lia|].
    exists v. split; [exact Hv | now apply readUInt8_in_range].
  - unfold readUInt8. mstep.
    assert (elem_get buf (len buf) = None) as -> by (apply elem_get_None; lia).
    mstep. destruct (decide (len buf - 1 < 0)); [lia | reflexivity].
  - unfold writeUInt32LE, writeU_Int32LE. cbv beta iota delta [from_option id].
    rewrite bind_accept with (a := tt) by (apply checkInt_accept; lia).
    mstep. eexists. split; [reflexivity|]. split; [now rewrite !len_elem_put|].
    intros i.
    change (ToUint8 4294967295) with 255.
    destruct (decide (offset <= i < offset + 4)) as [Hi|Hi].
    + assert (i = offset \/ i = offset + 1 \/ i = offset + 2 \/ i = offset + 3)
        as [-> | [-> | [-> | ->]]] by lia;
        repeat (rewrite elem_get_put_ne by lia);
        (rewrite elem_get_put_eq by (rewrite ?len_elem_put; lia));
        reflexivity.
    + now rewrite !elem_get_put_ne by lia.
  - unfold writeUInt32LE, writeU_Int32LE, checkInt. cbv beta iota delta [from_option id].
    reflexivity.
Qed.

Lemma boundary_read_and_write_witness :
  (exists v, elem_get [7; 8; 9] (len [7; 8; 9] - 1) = Some v
             /\ readUInt8 (Some (len [7; 8; 9] - 1)) [7; 8; 9] = ([7; 8; 9], inr v))
  /\ readUInt8 (Some (len [7; 8; 9])) [7; 8; 9] = ([7; 8; 9], inl (ERR_OUT_OF_RANGE "offset"))
  /\ (exists wbuf',
         writeUInt32LE 0xFFFFFFFF (Some 1) [0; 0; 0; 0; 0] = (wbuf', inr (1 + 4))
         /\ len wbuf' = len [0; 0; 0; 0; 0]
         /\ forall i, elem_get wbuf' i
                      = if decide (1 <= i < 1 + 4) then Some 0xFF
                        else elem_get [0; 0; 0; 0; 0] i)
  /\ writeUInt32LE 0x100000000 (Some 1) [0; 0; 0; 0; 0]
     = ([0; 0; 0; 0; 0], inl (ERR_OUT_OF_RANGE "value")).
Proof.
  apply (boundary_read_and_write [7; 8; 9] [0; 0; 0; 0; 0] 1).
  - unfold len. simpl. lia.
  - unfold in_bounds, len. simpl. lia.
Defined.

(** ** [fill] *)

Lemma bytes_ext (a b : bytes) :
  (forall i, elem_get a i = elem_get b i) -> a = b.
Proof.
  intros H. apply list_eq. intros i. specialize (H (Z.of_nat i)).
  unfold elem_get in H. destruct (decide (0 <= Z.of_nat i)); [|lia].
  now rewrite Nat2Z.id in H.
Qed.

(** The loop of the host's [fill]: [n] stores of [value] from index [i] on. *)
Lemma fill_loop_spec (n : nat) (value : Z) :
  forall (i : Z) (buf : bytes), 0 <= i ->
  exists buf', for_count n i 1 (fun j => store j value) buf = (buf', inr tt)
               /\ len buf' = len buf
               /\ forall j, elem_get buf' j
                            = if decide (i <= j < i + Z.of_nat n /\ j < len buf)
                              then Some (ToUint8 value) else elem_get buf j.
Proof.
  induction n as [|n IH]; intros i buf Hi.
  - exists buf. cbn. repeat split. intros j.
    destruct (decide _); [lia | reflexivity].
  - cbn [for_count]. unfold mbind, M_bind.
    change (store i value buf) with (elem_put buf i value, @inr exn unit tt).
    cbv beta iota.
    destruct (IH (i + 1) (elem_put buf i value)) as (buf' & Hrun & Hlen & Hget); [lia|].
    exists buf'. rewrite Hrun. split; [reflexivity|].
    rewrite len_elem_put in *. split; [exact Hlen|].
    intros j. rewrite Hget.
    destruct (decide (i + 1 <= j < i + 1 + Z.of_nat n /\ j < len buf));
      destruct (decide (i <= j < i + Z.of_nat (S n) /\ j < len buf));
      try lia; try reflexivity.
    + assert (j = i) as -> by lia. apply elem_get_put_eq. lia.
    + destruct (decide (j = i)) as [->|Hne]; [|apply elem_get_put_ne; lia].
      transitivity (@None Z); [|symmetry]; apply elem_get_None;
        rewrite ?len_elem_put; lia.
Qed.

Lemma TypedArray_fill_spec (value start end_ : Z) (buf : bytes) :
  0 <= start -> 0 <= end_ <= len buf ->
  exists buf', TypedArray_fill value start end_ buf = (buf', inr tt)
               /\ len buf' = len buf
               /\ forall j, elem_get buf' j
                            = if decide (start <= j < end_)
                              then Some (ToUint8 value) else elem_get buf j.
Proof.
  intros Hs He. unfold TypedArray_fill, for_lt, relative_index. mstep.
  destruct (decide (start < 0)); [lia|]. destruct (decide (end_ < 0)); [lia|].
  rewrite (Z.min_l end_) by lia.
  replace (end_ - Z.min start (len buf) + 1 - 1) with (end_ - Z.min start (len buf)) by lia.
  rewrite Z.div_1_r.
  destruct (fill_loop_spec (Z.to_nat (end_ - Z.min start (len buf))) value
              (Z.min start (len buf)) buf) as (buf' & Hrun & Hlen & Hget); [lia|].
  exists buf'. split; [exact Hrun|]. split; [exact Hlen|].
  intros j. rewrite Hget.
  destruct (decide (start <= j < end_));
    match goal with |- context [decide ?P] => destruct (decide P) end;
    try reflexivity; lia.
Qed.

(** C10. [fill] with a numeric value over a validated range (an [offset]
    that is a non-negative safe integer, an [end] between 0 and the length)
    succeeds in both editions with the same result: it keeps the length,
    leaves every byte at an index outside [offset, end) as it was, sets the
    bytes inside to the value modulo 256, and changes nothing at all when
    [offset >= end]. *)
Theorem fill_frame (value : Z) (offset end_ : option Z) (buf : bytes) (byteLen : Z) :
  from_option (fun o => 0 <= o <= MAX_SAFE_INTEGER) True offset ->
  from_option (fun e => 0 <= e <= len buf) True end_ ->
  len buf <= byteLen ->
  exists buf',
    Ed1.fill value offset end_ buf = (buf', inr tt)
    /\ Ed2.fill byteLen value offset end_ buf = (buf', inr tt)
    /\ len buf' = len buf
    /\ (forall i, ~ (fill_range buf offset end_).1 <= i < (fill_range buf offset end_).2 ->
                  elem_get buf' i = elem_get buf i)
    /\ (forall i, (fill_range buf offset end_).1 <= i < (fill_range buf offset end_).2 ->
                  elem_get buf' i = Some (ToUint8 value))
    /\ ((fill_range buf offset end_).1 >= (fill_range buf offset end_).2 -> buf' = buf).
Proof.
  intros Ho He Hb.
  assert (Hrange : 0 <= (fill_range buf offset end_).1
                   /\ 0 <= (fill_range buf offset end_).2 <= len buf).
  { unfold fill_range, len in *. destruct offset, end_; cbn [from_option fst snd id] in *; lia. }
  destruct Hrange as [Hr1 Hr2].
  assert (Hrun : forall buf',
             TypedArray_fill value (fill_range buf offset end_).1
               (fill_range buf offset end_).2 buf = (buf', inr tt) ->
             (fill_range buf offset end_).1 < (fill_range buf offset end_).2
             \/ offset = None ->
             Ed1.fill value offset end_ buf = (buf', inr tt)
             /\ Ed2.fill byteLen value offset end_ buf = (buf', inr tt)).
  { intros buf' Hf Hlt.
    unfold Ed1.fill, Ed2.fill, Ed1._fill, Ed2._fill, Ed2.validateOffset, validateInteger.
    unfold fill_range in *. unfold MAX_SAFE_INTEGER, MIN_SAFE_INTEGER in *.
    destruct offset as [o|]; cbn [from_option fst snd] in *.
    - destruct Hlt as [Hlt|Hlt]; [|discriminate].
      destruct end_ as [e|]; cbn [from_option fst snd id] in *; mstep;
        repeat (rewrite bool_decide_eq_false_2 by lia; mstep);
        (destruct (decide (o >= _)); [lia|]); mstep;
        (destruct (decide (_ \/ _)); [lia|]);
        rewrite Hf; split; reflexivity.
    - mstep. destruct (decide (_ \/ _)); [lia|]. rewrite Hf. split; reflexivity. }
  destruct (decide ((fill_range buf offset end_).1 < (fill_range buf offset end_).2
                    \/ offset = None)) as [Hlt|Hge].
  - destruct (TypedArray_fill_spec value _ _ buf Hr1 Hr2) as (buf' & Hf & Hlen & Hget).
    exists buf'. destruct (Hrun buf' Hf Hlt) as [H1 H2].
    split; [exact H1|]. split; [exact H2|]. split; [exact Hlen|].
    split; [|split].
    + intros i Hi. rewrite Hget. destruct (decide _); [lia | reflexivity].
    + intros i Hi. rewrite Hget. destruct (decide _); [reflexivity | lia].
    + intros Hempty. apply bytes_ext. intros i. rewrite Hget.
      destruct (decide _); [lia | reflexivity].
  - exists buf. destruct offset as [o|]; [|tauto].
    assert (Hoe : o >= default (len buf) end_) by (unfold fill_range in Hge; cbn in *; lia).
    unfold Ed1.fill, Ed2.fill, Ed1._fill, Ed2._fill, Ed2.validateOffset, validateInteger.
    unfold fill_range in *. unfold MAX_SAFE_INTEGER, MIN_SAFE_INTEGER in *.
    destruct end_ as [e|]; cbn [from_option fst snd id] in *; mstep;
      repeat (rewrite bool_decide_eq_false_2 by lia; mstep);
      (destruct (decide (o >= _)); [|lia]); mstep;
      repeat split; try reflexivity; intros; lia.
Qed.

Lemma fill_frame_witness :
  exists buf',
    Ed1.fill 300 (Some 1) (Some 3) [1; 2; 3; 4; 5] = (buf', inr tt)
    /\ Ed2.fill 5 300 (Some 1) (Some 3) [1; 2; 3; 4; 5] = (buf', inr tt)
    /\ len buf' = len [1; 2; 3; 4; 5]
    /\ (forall i, ~ (fill_range [1; 2; 3; 4; 5] (Some 1) (Some 3)).1 <= i
                    < (fill_range [1; 2; 3; 4; 5] (Some 1) (Some 3)).2 ->
                  elem_get buf' i = elem_get [1; 2; 3; 4; 5] i)
    /\ (forall i, (fill_range [1; 2; 3; 4; 5] (Some 1) (Some 3)).1 <= i
                  < (fill_range [1; 2; 3; 4; 5] (Some 1) (Some 3)).2 ->
                  elem_get buf' i = Some (ToUint8 300))
    /\ ((fill_range [1; 2; 3; 4; 5] (Some 1) (Some 3)).1
        >= (fill_range [1; 2; 3; 4; 5] (Some 1) (Some 3)).2 -> buf' = [1; 2; 3; 4; 5]).
Proof.
  apply (fill_frame 300 (Some 1) (Some 3) [1; 2; 3; 4; 5] 5).
  - cbn. unfold MAX_SAFE_INTEGER. lia.
  - cbn. unfold len. simpl. lia.
  - unfold len. simpl. lia.
Defined.

(** ** Byte-order swaps *)

(** C8, the code at work: in the first edition [swap16], [swap32] and
    [swap64] read the unbound identifier [len] before anything else, so
    every call raises a [ReferenceError], whatever the length: a two-byte
    buffer is not swapped, and a three-byte buffer does not get the
    invalid-buffer-size error. *)
Theorem first_edition_swap_raises (buf : bytes) :
  Ed1.swap16 buf = (buf, inl (ReferenceError "len"))
  /\ Ed1.swap32 buf = (buf, inl (ReferenceError "len"))
  /\ Ed1.swap64 buf = (buf, inl (ReferenceError "len"))
  /\ Ed1.swap16 [1; 2] <> ([2; 1], inr tt)
  /\ Ed1.swap16 [1; 2; 3] <> ([1; 2; 3], inl (ERR_INVALID_BUFFER_SIZE "16-bits")).
Proof. repeat split; intros H; discriminate H. Qed.

(** What holds of every element holds of the element read. *)
Lemma wf_elem_get_gen (P : Z -> Prop) (buf : bytes) (i v : Z) :
  Forall P buf -> elem_get buf i = Some v -> P v.
Proof.
  unfold elem_get. intros Hwf H.
  destruct (decide (0 <= i)); [|discriminate].
  rewrite Forall_lookup in Hwf. exact (Hwf _ _ H).
Qed.

Lemma wf_elem_get (buf : bytes) (i v : Z) :
  wf_bytes buf -> elem_get buf i = Some v -> 0 <= v < 256.
Proof. apply wf_elem_get_gen. Qed.

Lemma wf_elem_put (buf : bytes) (i v : Z) : wf_bytes buf -> wf_bytes (elem_put buf i v).
Proof.
  unfold wf_bytes, elem_put. intros Hwf. destruct (decide (0 <= i)); [|exact Hwf].
  destruct (decide (Z.to_nat i < length buf)%nat) as [Hlt|Hge].
  - apply Forall_insert; [exact Hwf|]. unfold ToUint8.
    apply Z.mod_pos_bound. lia.
  - rewrite list_insert_ge by lia. exact Hwf.
Qed.

(** [swap(b, n, m)] on two indices in bounds exchanges the two bytes. *)
Lemma swap_spec (n m : Z) (buf : bytes) :
  wf_bytes buf -> 0 <= n < len buf -> 0 <= m < len buf -> n <> m ->
  exists buf', swap n m buf = (buf', inr tt)
               /\ len buf' = len buf /\ wf_bytes buf'
               /\ forall j, elem_get buf' j
                            = if decide (j = n) then elem_get buf m
                              else if decide (j = m) then elem_get buf n
                              else elem_get buf j.
Proof.
  intros Hwf Hn Hm Hne. unfold swap. mstep.
  destruct (elem_get_Some buf n Hn) as [vn Hvn].
  destruct (elem_get_Some buf m Hm) as [vm Hvm].
  rewrite Hvn, Hvm. cbn [from_option id].
  eexists. split; [reflexivity|]. split; [now rewrite !len_elem_put|].
  split; [now do 2 apply wf_elem_put|].
  intros j. destruct (decide (j = n)) as [->|Hjn]; [|destruct (decide (j = m)) as [->|Hjm]].
  - rewrite elem_get_put_ne by lia. rewrite elem_get_put_eq by lia.
    f_equal. unfold ToUint8. apply Z.mod_small. eauto using wf_elem_get.
  - rewrite elem_get_put_eq by (rewrite len_elem_put; lia).
    f_equal. unfold ToUint8. apply Z.mod_small. eauto using wf_elem_get.
  - now rewrite !elem_get_put_ne by lia.
Qed.

Ltac use_swap_spec buf n m :=
  let b := fresh "b" in let Hr := fresh "Hr" in let Hl := fresh "Hl" in
  let Hw := fresh "Hw" in let Hg := fresh "Hg" in
  destruct (swap_spec n m buf) as (b & Hr & Hl & Hw & Hg);
  [assumption | lia | lia | lia |];
  unfold mbind, M_bind; rewrite Hr; cbv beta iota.

Lemma reverses_group_2 : reverses_group 2 (fun i => swap i (i + 1)).
Proof.
  intros i buf Hwf Hi Hlen.
  destruct (swap_spec i (i + 1) buf) as (b & Hr & Hl & Hw & Hg); [assumption|lia..|].
  exists b. repeat split; try assumption.
  intros j. rewrite Hg. repeat destruct (decide _); try lia; f_equal; lia.
Qed.

Lemma reverses_group_4 :
  reverses_group 4 (fun i => swap i (i + 3);; swap (i + 1) (i + 2)).
Proof.
  intros i buf Hwf Hi Hlen.
  use_swap_spec buf i (i + 3).
  destruct (swap_spec (i + 1) (i + 2) b) as (b' & Hr' & Hl' & Hw' & Hg');
    [assumption|lia..|].
  exists b'. split; [exact Hr'|]. split; [lia|]. split; [assumption|].
  intros j. rewrite Hg', !Hg. repeat destruct (decide _); try lia; f_equal; lia.
Qed.

Lemma reverses_group_8 :
  reverses_group 8 (fun i => swap i (i + 7);; swap (i + 1) (i + 6);;
                             swap (i + 2) (i + 5);; swap (i + 3) (i + 4)).
Proof.
  intros i buf Hwf Hi Hlen.
  use_swap_spec buf i (i + 7).
  use_swap_spec b (i + 1) (i + 6).
  use_swap_spec b0 (i + 2) (i + 5).
  destruct (swap_spec (i + 3) (i + 4) b1) as (b' & Hr' & Hl' & Hw' & Hg');
    [assumption|lia..|].
  exists b'. split; [exact Hr'|]. split; [lia|]. split; [assumption|].
  intros j. rewrite Hg', !Hg1, !Hg0, !Hg.
  repeat destruct (decide _); try lia; f_equal; lia.
Qed.

(** The index that trades places with [j] when groups of [g] bytes are
    reversed. *)
Lemma mirror_in_group (g k j : Z) :
  0 < g -> g * k <= j < g * k + g -> mirror g j = 2 * (g * k) + g - 1 - j.
Proof.
  intros Hg Hj. unfold mirror.
  assert (j mod g = j - g * k) as Hm.
  { symmetry. apply Z.mod_unique_pos with (q := k); lia. }
  pose proof (Z.div_mod j g ltac:(lia)). lia.
Qed.

Lemma mirror_same_group (g k j : Z) :
  0 < g -> g * k <= j < g * k + g -> g * k <= mirror g j < g * k + g.
Proof. intros Hg Hj. rewrite (mirror_in_group g k j) by lia. lia. Qed.

(** A swap loop over [n] groups from the group boundary [g * k] reverses
    each of them and nothing else. *)
Lemma swap_loop_spec (g : Z) (body : Z -> M unit) :
  0 < g -> reverses_group g body ->
  forall (n : nat) (k : Z) (buf : bytes),
    wf_bytes buf -> 0 <= k -> g * k + g * Z.of_nat n <= len buf ->
    exists buf', for_count n (g * k) g body buf = (buf', inr tt)
                 /\ len buf' = len buf
                 /\ forall j, elem_get buf' j
                              = if decide (g * k <= j < g * k + g * Z.of_nat n)
                                then elem_get buf (mirror g j)
                                else elem_get buf j.
Proof.
  intros Hg Hbody. induction n as [|n IH]; intros k buf Hwf Hk Hlen.
  - exists buf. cbn. repeat split. intros j. destruct (decide _); [lia | reflexivity].
  - cbn [for_count]. unfold mbind, M_bind.
    destruct (Hbody (g * k) buf) as (b & Hr & Hl & Hw & Hget); [assumption|lia..|].
    rewrite Hr. cbv beta iota.
    replace (g * k + g) with (g * (k + 1)) by lia.
    destruct (IH (k + 1) b) as (b' & Hr' & Hl' & Hget'); [assumption|lia..|].
    exists b'. split; [exact Hr'|]. split; [lia|].
    intros j. rewrite Hget'.
    destruct (decide (g * (k + 1) <= j < g * (k + 1) + g * Z.of_nat n)) as [Hin|Hout].
    + destruct (decide _); [|lia].
      assert (exists q, k + 1 <= q /\ g * q <= j < g * q + g) as (q & Hq1 & Hq2).
      { exists (j / g). pose proof (Z.div_mod j g ltac:(lia)).
        pose proof (Z.mod_pos_bound j g Hg).
        split; [|lia]. apply Z.div_le_lower_bound; lia. }
      pose proof (mirror_same_group g q j Hg Hq2).
      rewrite Hget. destruct (decide _); [nia | reflexivity].
    + rewrite Hget. destruct (decide (g * k <= j < g * k + g)) as [Hfirst|Hnot].
      * destruct (decide _); [|lia]. f_equal. symmetry. apply mirror_in_group; lia.
      * destruct (decide _); [lia | reflexivity].
Qed.

(** The second edition does what the claim says: with a length that is a
    multiple of the group size every group of 2, 4 or 8 bytes is reversed
    in place; with any other length the call raises the
    invalid-buffer-size error and the buffer is as before. *)
Theorem second_edition_swap_spec (buf : bytes) :
  wf_bytes buf ->
  forall (g : Z) (swapN : M unit) (bits : string),
    (g, swapN, bits) ∈ [(2, Ed2.swap16, "16-bits"%string);
                        (4, Ed2.swap32, "32-bits"%string);
                        (8, Ed2.swap64, "64-bits"%string)] ->
    if decide (len buf mod g = 0)
    then exists buf', swapN buf = (buf', inr tt)
                      /\ len buf' = len buf
                      /\ forall j, 0 <= j < len buf ->
                                   elem_get buf' j = elem_get buf (mirror g j)
    else swapN buf = (buf, inl (ERR_INVALID_BUFFER_SIZE bits)).
Proof.
  intros Hwf g swapN bits Hin.
  assert (Hlen : 0 <= len buf) by (unfold len; lia).
  assert (Hcases : (g = 2 /\ swapN = Ed2.swap16 /\ bits = "16-bits"%string)
                   \/ (g = 4 /\ swapN = Ed2.swap32 /\ bits = "32-bits"%string)
                   \/ (g = 8 /\ swapN = Ed2.swap64 /\ bits = "64-bits"%string)).
  { rewrite !elem_of_cons in Hin. rewrite elem_of_nil in Hin.
    destruct Hin as [H|[H|[H|[]]]]; injection H as -> -> ->; tauto. }
  assert (Hcount : forall g', 0 < g' -> len buf mod g' = 0 ->
            g' * Z.of_nat (Z.to_nat ((len buf - 0 + g' - 1) / g')) = len buf).
  { intros g' Hg' Hm. pose proof (Z.div_mod (len buf) g' ltac:(lia)) as Hdm.
    replace ((len buf - 0 + g' - 1) / g') with (len buf / g')
      by (apply Z.div_unique with (r := g' - 1); lia).
    rewrite Z2Nat.id by (apply Z.div_pos; lia). lia. }
  destruct Hcases as [(-> & -> & ->)|[(-> & -> & ->)|(-> & -> & ->)]];
    unfold Ed2.swap16, Ed2.swap32, Ed2.swap64; mstep;
    rewrite Z.rem_mod_nonneg by lia;
    (destruct (decide (len buf mod _ = 0)) as [Hm|Hm];
     [destruct (decide (_ <> 0)); [lia|] | destruct (decide (_ <> 0)); [reflexivity|lia]]);
    unfold for_lt.
  - specialize (Hcount 2 ltac:(lia) Hm).
    destruct (swap_loop_spec 2 _ ltac:(lia) reverses_group_2
                (Z.to_nat ((len buf - 0 + 2 - 1) / 2)) 0 buf Hwf ltac:(lia))
      as (b & Hr & Hl & Hget); [lia|].
    exists b. split; [exact Hr|]. split; [exact Hl|].
    intros j Hj. rewrite Hget. destruct (decide _); [reflexivity | lia].
  - specialize (Hcount 4 ltac:(lia) Hm).
    destruct (swap_loop_spec 4 _ ltac:(lia) reverses_group_4
                (Z.to_nat ((len buf - 0 + 4 - 1) / 4)) 0 buf Hwf ltac:(lia))
      as (b & Hr & Hl & Hget); [lia|].
    exists b. split; [exact Hr|]. split; [exact Hl|].
    intros j Hj. rewrite Hget. destruct (decide _); [reflexivity | lia].
  - specialize (Hcount 8 ltac:(lia) Hm).
    destruct (swap_loop_spec 8 _ ltac:(lia) reverses_group_8
                (Z.to_nat ((len buf - 0 + 8 - 1) / 8)) 0 buf Hwf ltac:(lia))
      as (b & Hr & Hl & Hget); [lia|].
    exists b. split; [exact Hr|]. split; [exact Hl|].
    intros j Hj. rewrite Hget. destruct (decide _); [reflexivity | lia].
Qed.

(** ** The ASCII codec *)

Lemma ToInt32_small (x : Z) : - 2 ^ 31 <= x < 2 ^ 31 -> ToInt32 x = x.
Proof. intros H. unfold ToInt32. rewrite Z.mod_small; lia. Qed.

(** [c & (2^n - 1)] on a non-negative int32 is the bit-wise and of the
    integers, and is below [2^n]. *)
Lemma band_ones (c n : Z) :
  0 <= c < 2 ^ 31 -> 0 <= n <= 31 ->
  band c (Z.ones n) = Z.land c (Z.ones n) /\ 0 <= Z.land c (Z.ones n) < 2 ^ n.
Proof.
  intros Hc Hn. unfold band.
  assert (0 <= Z.ones n < 2 ^ 31) as Ho.
  { rewrite Z.ones_equiv. pose proof (Z.pow_pos_nonneg 2 n ltac:(lia) ltac:(lia)).
    pose proof (Z.pow_le_mono_r 2 n 31 ltac:(lia) ltac:(lia)). lia. }
  rewrite (ToInt32_small c), (ToInt32_small (Z.ones n)) by lia.
  rewrite Z.land_ones by lia.
  pose proof (Z.mod_pos_bound c (2 ^ n) ltac:(lia)).
  pose proof (Z.pow_le_mono_r 2 n 31 ltac:(lia) ltac:(lia)).
  split; [apply ToInt32_small|]; lia.
Qed.

Lemma wf_charCodeAt (s : jsstring) (i : Z) :
  wf_string s -> 0 <= i < len s -> exists c, charCodeAt s i = Some c /\ 0 <= c < 65536.
Proof.
  intros Hwf Hi. destruct (elem_get_Some s i Hi) as [c Hc].
  exists c. split; [exact Hc|]. exact (wf_elem_get_gen _ s i c Hwf Hc).
Qed.

(** A loop of stores at consecutive indices. *)
Lemma store_loop_spec (f : Z -> Z) (offset : Z) (n : nat) :
  forall (i : Z) (buf : bytes), 0 <= offset + i ->
  exists buf', for_count n i 1 (fun j => store (offset + j) (f j)) buf = (buf', inr tt)
               /\ len buf' = len buf
               /\ forall k, elem_get buf' k
                            = if decide (offset + i <= k < offset + i + Z.of_nat n
                                         /\ k < len buf)
                              then Some (ToUint8 (f (k - offset))) else elem_get buf k.
Proof.
  induction n as [|n IH]; intros i buf Hi.
  - exists buf. cbn. repeat split. intros k. destruct (decide _); [lia | reflexivity].
  - cbn [for_count]. unfold mbind, M_bind.
    change (store (offset + i) (f i) buf)
      with (elem_put buf (offset + i) (f i), @inr exn unit tt).
    cbv beta iota.
    destruct (IH (i + 1) (elem_put buf (offset + i) (f i)))
      as (buf' & Hrun & Hlen & Hget); [lia|].
    exists buf'. rewrite Hrun. split; [reflexivity|].
    rewrite len_elem_put in *. split; [exact Hlen|].
    intros k. rewrite Hget.
    destruct (decide (offset + (i + 1) <= k < offset + (i + 1) + Z.of_nat n
                      /\ k < len buf));
      destruct (decide (offset + i <= k < offset + i + Z.of_nat (S n) /\ k < len buf));
      try lia; try reflexivity.
    + assert (k = offset + i) as -> by lia.
      rewrite elem_get_put_eq by lia. do 3 f_equal. lia.
    + destruct (decide (k = offset + i)) as [->|Hne]; [|apply elem_get_put_ne; lia].
      transitivity (@None Z); [|symmetry]; apply elem_get_None;
        rewrite ?len_elem_put; lia.
Qed.

(** The write loop shared by the one-byte codecs: position [offset + i]
    receives the low bits of unit [i] selected by the mask [2^n - 1]. *)
Lemma write_masked_spec (s : jsstring) (offset length n : Z) (buf : bytes) :
  wf_string s -> 0 <= n <= 8 ->
  0 <= offset -> 0 <= length -> length <= len s -> offset + length <= len buf ->
  exists buf', write_masked s offset length (Z.ones n) buf = (buf', inr tt)
               /\ len buf' = len buf
               /\ (forall i, 0 <= i < length ->
                     exists c, charCodeAt s i = Some c
                               /\ elem_get buf' (offset + i) = Some (Z.land c (Z.ones n)))
               /\ (forall k, ~ offset <= k < offset + length ->
                     elem_get buf' k = elem_get buf k).
Proof.
  intros Hwf Hn Ho Hl Hls Hlb. unfold write_masked, for_lt.
  replace ((length - 0 + 1 - 1) / 1) with length by (rewrite Z.div_1_r; lia).
  destruct (store_loop_spec (fun i => band (default 0 (charCodeAt s i)) (Z.ones n))
              offset (Z.to_nat length) 0 buf) as (buf' & Hrun & Hlen & Hget); [lia|].
  exists buf'. split; [exact Hrun|]. split; [exact Hlen|]. split.
  - intros i Hi. destruct (wf_charCodeAt s i Hwf) as (c & Hc & Hcr); [lia|].
    exists c. split; [exact Hc|]. rewrite Hget. destruct (decide _); [|lia].
    replace (offset + i - offset) with i by lia. rewrite Hc. cbn [from_option id].
    destruct (band_ones c n) as [Hb Hr]; [lia..|].
    rewrite Hb. f_equal. unfold ToUint8. apply Z.mod_small.
    pose proof (Z.pow_le_mono_r 2 n 8 ltac:(lia) ltac:(lia)). lia.
  - intros k Hk. rewrite Hget. destruct (decide _); [lia | reflexivity].
Qed.

Lemma elem_get_window (buf : bytes) (start end_ i : Z) :
  0 <= start -> end_ <= len buf -> 0 <= i < end_ - start ->
  elem_get (window buf start end_) i = elem_get buf (start + i).
Proof.
  intros Hs He Hi. unfold window, elem_get.
  destruct (decide (0 <= i)); [|lia]. destruct (decide (0 <= start + i)); [|lia].
  rewrite lookup_take_lt by lia. rewrite lookup_drop. f_equal. lia.
Qed.

Lemma len_window (buf : bytes) (start end_ : Z) :
  0 <= start <= end_ -> end_ <= len buf -> len (window buf start end_) = end_ - start.
Proof.
  intros Hs He. unfold window, len in *. rewrite length_take, length_drop. lia.
Qed.

Lemma slice_window_in_range (buf : bytes) (start end_ : Z) :
  0 <= start <= end_ -> end_ <= len buf ->
  slice_window buf (Some start) (Some end_) = inr (window buf start end_).
Proof.
  intros Hs He. unfold slice_window. cbn [from_option id].
  destruct (decide _); [lia|]. destruct (decide _); [lia | reflexivity].
Qed.

(** C9 as stated fails: written with the ASCII codec, the unit 0xE9 is
    stored as the byte 0xE9 in both editions, not as 0xE9 & 0x7F = 0x69. *)
Lemma asciiWrite_keeps_bit_7 :
  Ed1.asciiWrite [0xE9] None None [0] = ([0xE9], inr 1)
  /\ Ed2.asciiWrite [0xE9] None None [0] = ([0xE9], inr 1)
  /\ Z.land 0xE9 0x7F = 0x69
  /\ ~ (forall (s : jsstring) (buf buf' : bytes) (n i c : Z),
          Ed2.asciiWrite s None None buf = (buf', inr n) ->
          0 <= i < n -> charCodeAt s i = Some c ->
          elem_get buf' i = Some (Z.land c 0x7F)).
Proof.
  repeat split.
  intros H. specialize (H [0xE9] [0] [0xE9] 1 0 0xE9 eq_refl ltac:(lia) eq_refl).
  discriminate H.
Qed.

(** C9, amended. In both editions [asciiWrite] stores
    [s.charCodeAt(i) & 0xFF], the low eight bits, at each position it
    writes and leaves the other positions alone, and [asciiSlice] returns
    for each byte [b] of the range the character with code [b & 0x7F]. *)
Theorem ascii_write_8_bit_slice_7_bit
    (s : jsstring) (offset length : option Z) (buf : bytes) (start end_ : Z) :
  wf_string s -> wf_bytes buf ->
  0 <= default 0 offset <= len buf -> 0 <= default (len s) length ->
  0 <= start <= end_ -> end_ <= len buf ->
  (exists buf',
      let o := default 0 offset in
      let n := Z.min (Z.min (len buf - o) (len s)) (default (len s) length) in
      Ed1.asciiWrite s offset length buf = (buf', inr n)
      /\ Ed2.asciiWrite s offset length buf = (buf', inr n)
      /\ (forall i, 0 <= i < n ->
            exists c, charCodeAt s i = Some c
                      /\ elem_get buf' (o + i) = Some (Z.land c 0xFF))
      /\ (forall k, ~ o <= k < o + n -> elem_get buf' k = elem_get buf k))
  /\ (exists r,
        Ed1.asciiSlice buf (Some start) (Some end_) = inr r
        /\ Ed2.asciiSlice buf (Some start) (Some end_) = inr r
        /\ len r = end_ - start
        /\ forall i, 0 <= i < end_ - start ->
             exists b, elem_get buf (start + i) = Some b
                       /\ charCodeAt r i = Some (Z.land b 0x7F)).
Proof.
  intros Hs Hb Ho Hl Hse He. split.
  - set (o := default 0 offset) in *.
    set (n := Z.min (Z.min (len buf - o) (len s)) (default (len s) length)).
    assert (Hlen : 0 <= len s) by (unfold len; lia).
    destruct (write_masked_spec s o n 8 buf) as (buf' & Hrun & _ & Hin & Hout);
      try assumption; try lia.
    exists buf'. cbv zeta. fold o. fold n.
    unfold Ed1.asciiWrite, Ed2.asciiWrite. fold o.
    destruct (decide _); [lia|].
    cbv beta iota delta [mbind M_bind mret M_ret this_length throw].
    destruct (decide _); [lia|].
    fold n. change 255 with (Z.ones 8). rewrite Hrun.
    repeat split; assumption.
  - unfold Ed1.asciiSlice, Ed2.asciiSlice.
    rewrite slice_window_in_range by lia.
    eexists. split; [reflexivity|]. split; [reflexivity|].
    split.
    + unfold len. rewrite length_map. apply len_window; lia.
    + intros i Hi. destruct (elem_get_Some buf (start + i)) as [b Hgb]; [lia|].
      exists b. split; [exact Hgb|].
      pose proof (wf_elem_get buf _ _ Hb Hgb) as Hbr.
      unfold charCodeAt. destruct (decide (0 <= i)); [|lia].
      rewrite list_lookup_fmap.
      pose proof (elem_get_window buf start end_ i ltac:(lia) He Hi) as Hw.
      unfold elem_get at 1 in Hw. destruct (decide (0 <= i)); [|lia].
      rewrite Hw, Hgb. cbn [fmap option_fmap option_map].
      f_equal. change 127 with (Z.ones 7).
      destruct (band_ones b 7) as [Hband Hr]; [lia..|].
      rewrite Hband. unfold fromCharCode, ToUint16. apply Z.mod_small.
      change (2 ^ 7) with 128 in Hr. lia.
Qed.

Lemma ascii_write_8_bit_slice_7_bit_witness :
  (exists buf',
      let o := default 0 (Some 1) in
      let n := Z.min (Z.min (len [0; 0; 0] - o) (len [0xE9; 0x41])) (default (len [0xE9; 0x41]) None) in
      Ed1.asciiWrite [0xE9; 0x41] (Some 1) None [0; 0; 0] = (buf', inr n)
      /\ Ed2.asciiWrite [0xE9; 0x41] (Some 1) None [0; 0; 0] = (buf', inr n)
      /\ (forall i, 0 <= i < n ->
            exists c, charCodeAt [0xE9; 0x41] i = Some c
                      /\ elem_get buf' (o + i) = Some (Z.land c 0xFF))
      /\ (forall k, ~ o <= k < o + n -> elem_get buf' k = elem_get [0; 0; 0] k))
  /\ (exists r,
        Ed1.asciiSlice [0; 0; 0] (Some 0) (Some 2) = inr r
        /\ Ed2.asciiSlice [0; 0; 0] (Some 0) (Some 2) = inr r
        /\ len r = 2 - 0
        /\ forall i, 0 <= i < 2 - 0 ->
             exists b, elem_get [0; 0; 0] (0 + i) = Some b
                       /\ charCodeAt r i = Some (Z.land b 0x7F)).
Proof.
  apply (ascii_write_8_bit_slice_7_bit [0xE9; 0x41] (Some 1) None [0; 0; 0] 0 2).
  - repeat constructor; lia.
  - repeat constructor; lia.
  - cbn. unfold len. simpl. lia.
  - cbn. unfold len. simpl. lia.
  - lia.
  - unfold len. simpl. lia.
Defined.

(** ** Bit operations on small non-negative numbers *)

Lemma land_disjoint (q b k : Z) :
  0 <= k -> 0 <= b < 2 ^ k -> Z.land (q * 2 ^ k) b = 0.
Proof.
  intros Hk Hb. apply Z.bits_inj'. intros n Hn.
  rewrite Z.land_spec, Z.bits_0.
  destruct (Z.lt_ge_cases n k) as [Hlt|Hge].
  - rewrite Z.mul_pow2_bits_low by lia. reflexivity.
  - destruct (decide (b = 0)) as [->|Hb0].
    + rewrite Z.bits_0. apply andb_false_r.
    + rewrite (Z.bits_above_log2 b n); [apply andb_false_r | lia |].
      assert (Z.log2 b < k) by (apply Z.log2_lt_pow2; lia). lia.
Qed.

Lemma lor_disjoint (q b k : Z) :
  0 <= k -> 0 <= b < 2 ^ k -> Z.lor (q * 2 ^ k) b = q * 2 ^ k + b.
Proof.
  intros Hk Hb. pose proof (Z.add_lor_land (q * 2 ^ k) b) as H.
  rewrite land_disjoint in H by assumption. lia.
Qed.

(** [a | b] is [a + b] when [a] is a multiple of [2^k] and [b] is below
    [2^k]. *)
Lemma bor_disjoint (q b k : Z) :
  0 <= k -> 0 <= q -> 0 <= b < 2 ^ k -> q * 2 ^ k + b < 2 ^ 31 ->
  bor (q * 2 ^ k) b = q * 2 ^ k + b.
Proof.
  intros Hk Hq Hb Hs. unfold bor.
  assert (0 <= q * 2 ^ k) by (apply Z.mul_nonneg_nonneg; lia).
  rewrite (ToInt32_small (q * 2 ^ k)), (ToInt32_small b) by lia.
  rewrite lor_disjoint by assumption. apply ToInt32_small. lia.
Qed.

Lemma sshr_small (c k : Z) : 0 <= c < 2 ^ 31 -> 0 <= k -> sshr c k = c / 2 ^ k.
Proof.
  intros Hc Hk. unfold sshr. rewrite ToInt32_small by lia.
  apply Z.shiftr_div_pow2. lia.
Qed.

Lemma shl_small (c k : Z) :
  0 <= c -> 0 <= k -> c * 2 ^ k < 2 ^ 31 -> shl c k = c * 2 ^ k.
Proof.
  intros Hc Hk Hs. unfold shl.
  assert (c < 2 ^ 31).
  { pose proof (Z.pow_pos_nonneg 2 k ltac:(lia) Hk). nia. }
  rewrite (ToInt32_small c) by lia. rewrite Z.shiftl_mul_pow2 by lia.
  apply ToInt32_small. pose proof (Z.pow_pos_nonneg 2 k ltac:(lia) Hk). nia.
Qed.

Lemma band_low (c n : Z) :
  0 <= c < 2 ^ 31 -> 0 <= n <= 31 -> band c (Z.ones n) = c mod 2 ^ n.
Proof.
  intros Hc Hn. destruct (band_ones c n Hc Hn) as [-> _].
  apply Z.land_ones. lia.
Qed.

(** A statement about all numbers below [n], checked by running it. *)
Lemma check_below (n : nat) (f : Z -> bool) :
  forallb f (map Z.of_nat (seq 0 n)) = true ->
  forall x, 0 <= x < Z.of_nat n -> f x = true.
Proof.
  intros H x Hx. rewrite forallb_forall in H. apply H.
  apply in_map_iff. exists (Z.to_nat x). split; [lia|].
  apply in_seq. lia.
Qed.

(** The continuation byte [0x80 | x] carries the mark 10xxxxxx and the
    six bits [x]. *)
Lemma continuation_byte (x : Z) :
  0 <= x < 64 ->
  band (ToUint8 (bor x 0x80)) 0xC0 = 0x80 /\ band (ToUint8 (bor x 0x80)) 0x3F = x.
Proof.
  intros Hx.
  assert (forallb (fun x => bool_decide (band (ToUint8 (bor x 0x80)) 0xC0 = 0x80
                           /\ band (ToUint8 (bor x 0x80)) 0x3F = x)) (map Z.of_nat (seq 0 64)) = true)
    as Hall by (vm_compute; reflexivity).
  pose proof (check_below _ _ Hall x ltac:(lia)) as H. cbv beta in H.
  now apply bool_decide_eq_true in H.
Qed.

(** The lead bytes [0xC0 | m] and [0xE0 | h]. *)
Lemma lead_byte_2 (m : Z) :
  0 <= m < 32 ->
  192 <= ToUint8 (bor m 0xC0) <= 0xDF /\ band (ToUint8 (bor m 0xC0)) 0x1F = m.
Proof.
  intros Hm.
  assert (forallb (fun m => bool_decide (192 <= ToUint8 (bor m 0xC0) <= 0xDF
                           /\ band (ToUint8 (bor m 0xC0)) 0x1F = m)) (map Z.of_nat (seq 0 32)) = true)
    as Hall by (vm_compute; reflexivity).
  pose proof (check_below _ _ Hall m ltac:(lia)) as H. cbv beta in H.
  now apply bool_decide_eq_true in H.
Qed.

Lemma lead_byte_3 (h : Z) :
  0 <= h < 16 ->
  224 <= ToUint8 (bor h 0xE0) <= 0xEF /\ band (ToUint8 (bor h 0xE0)) 0xF = h.
Proof.
  intros Hh.
  assert (forallb (fun h => bool_decide (224 <= ToUint8 (bor h 0xE0) <= 0xEF
                           /\ band (ToUint8 (bor h 0xE0)) 0xF = h)) (map Z.of_nat (seq 0 16)) = true)
    as Hall by (vm_compute; reflexivity).
  pose proof (check_below _ _ Hall h ltac:(lia)) as H. cbv beta in H.
  now apply bool_decide_eq_true in H.
Qed.

(** ** UTF-8 without surrogates *)

Lemma band_3F (c : Z) : 0 <= c < 2 ^ 31 -> band c 0x3F = c mod 64.
Proof. intros Hc. exact (band_low c 6 Hc ltac:(lia)). Qed.

Lemma utf8_units_bmp (c : Z) : 0 <= c < 0x10000 -> utf8_units c = [c].
Proof.
  intros Hc. unfold utf8_units. destruct (decide _); [lia|].
  unfold fromCharCode, ToUint16. now rewrite Z.mod_small by lia.
Qed.

(** The two bytes of a unit from 0x80 to 0x7FF pass the tests of the
    two-byte branch of [utf8Slice] and reassemble to the unit. *)
Lemma two_byte_fields (c : Z) :
  0x80 <= c < 0x800 ->
  let first := ToUint8 (bor (sshr c 0x6) 0xC0) in
  let second := ToUint8 (bor (band c 0x3F) 0x80) in
  ~ first <= 0xBF /\ first <= 0xDF /\ band second 0xC0 = 0x80
  /\ bor (shl (band first 0x1F) 0x6) (band second 0x3F) = c.
Proof.
  intros Hc. cbv zeta.
  rewrite sshr_small, band_3F by lia. change (2 ^ 6) with 64.
  pose proof (Z.div_mod c 64 ltac:(lia)) as Hdm.
  pose proof (Z.mod_pos_bound c 64 ltac:(lia)) as Hl.
  assert (0 <= c / 64 < 32) as Hm
    by (split; [apply Z.div_pos; lia | apply Z.div_lt_upper_bound; lia]).
  destruct (lead_byte_2 (c / 64) Hm) as [Hf1 Hf2].
  destruct (continuation_byte (c mod 64) Hl) as [Hs1 Hs2].
  rewrite Hf2, Hs2. repeat split; try lia; try assumption.
  rewrite shl_small by lia.
  rewrite (bor_disjoint (c / 64) (c mod 64) 6) by lia. lia.
Qed.

(** The three bytes of a unit from 0x800 on pass the tests of the
    three-byte branch, up to the test on surrogates, and reassemble to the
    unit. *)
Lemma three_byte_fields (c : Z) :
  0x800 <= c < 0x10000 ->
  let first := ToUint8 (bor (sshr c 0xC) 0xE0) in
  let second := ToUint8 (bor (band (sshr c 0x6) 0x3F) 0x80) in
  let third := ToUint8 (bor (band c 0x3F) 0x80) in
  ~ first <= 0xBF /\ ~ first <= 0xDF /\ first <= 0xEF
  /\ band second 0xC0 = 0x80 /\ band third 0xC0 = 0x80
  /\ bor (bor (shl (band first 0xF) 0xC) (shl (band second 0x3F) 0x6))
         (band third 0x3F) = c.
Proof.
  intros Hc. cbv zeta.
  rewrite !sshr_small by lia. change (2 ^ 6) with 64. change (2 ^ 12) with 4096.
  assert (0 <= c / 64 < 1024) as Hq
    by (split; [apply Z.div_pos; lia | apply Z.div_lt_upper_bound; lia]).
  rewrite !band_3F by lia.
  pose proof (Z.div_mod c 64 ltac:(lia)) as Hdm.
  pose proof (Z.mod_pos_bound c 64 ltac:(lia)) as Hl.
  pose proof (Z.div_mod (c / 64) 64 ltac:(lia)) as Hdm'.
  pose proof (Z.mod_pos_bound (c / 64) 64 ltac:(lia)) as Hm.
  assert (c / 4096 = c / 64 / 64) as Hh by (rewrite Z.div_div by lia; reflexivity).
  assert (0 <= c / 4096 < 16) as Hhr
    by (split; [apply Z.div_pos; lia | apply Z.div_lt_upper_bound; lia]).
  destruct (lead_byte_3 (c / 4096) Hhr) as [Hf1 Hf2].
  destruct (continuation_byte ((c / 64) mod 64) Hm) as [Hs1 Hs2].
  destruct (continuation_byte (c mod 64) Hl) as [Ht1 Ht2].
  rewrite Hf2, Hs2, Ht2. repeat split; try lia; try assumption.
  rewrite !shl_small by lia.
  rewrite (bor_disjoint (c / 4096) ((c / 64) mod 64 * 2 ^ 6) 12) by lia.
  replace (c / 4096 * 2 ^ 12 + (c / 64) mod 64 * 2 ^ 6)
    with ((c / 4096 * 64 + (c / 64) mod 64) * 2 ^ 6) by lia.
  rewrite (bor_disjoint _ (c mod 64) 6) by lia. lia.
Qed.

(** Decoding the bytes of one unit gives the unit and goes on behind them. *)
Lemma utf8Slice_unit (c : Z) (rest : bytes) :
  bmp_scalar c -> utf8Slice_loop (utf8_bytes c ++ rest) = c :: utf8Slice_loop rest.
Proof.
  intros Hc. unfold bmp_scalar in Hc. unfold utf8_bytes.
  destruct (decide (c < 0x80)); [|destruct (decide (c < 0x800))].
  - unfold ToUint8. rewrite Z.mod_small by lia. cbn [app utf8Slice_loop].
    destruct (decide _); [|lia]. destruct (decide _); [|lia].
    now rewrite utf8_units_bmp by lia.
  - destruct (two_byte_fields c ltac:(lia)) as (H1 & H2 & H3 & H4).
    cbn [app utf8Slice_loop].
    destruct (decide _); [contradiction|]. destruct (decide _); [|contradiction].
    destruct (decide _); [|contradiction]. rewrite H4.
    destruct (decide _); [|lia]. now rewrite utf8_units_bmp by lia.
  - destruct (three_byte_fields c ltac:(lia)) as (H1 & H2 & H3 & H4 & H5 & H6).
    cbn [app utf8Slice_loop].
    destruct (decide _); [contradiction|]. destruct (decide _); [contradiction|].
    destruct (decide _); [|contradiction].
    destruct (decide _) as [_|Hn]; [|exfalso; apply Hn; split; assumption].
    rewrite H6. destruct (decide _); [|lia]. now rewrite utf8_units_bmp by lia.
Qed.

Lemma utf8Slice_units (s : jsstring) :
  Forall bmp_scalar s -> utf8Slice_loop (concat (map utf8_bytes s)) = s.
Proof.
  induction 1 as [|c s Hc _ IH]; [reflexivity|].
  cbn [map concat]. rewrite utf8Slice_unit by assumption. now rewrite IH.
Qed.

Lemma land_shifted_mask (c k n : Z) :
  0 <= k -> 0 <= n ->
  Z.land c (Z.shiftl (Z.ones n) k) = Z.shiftl (Z.land (Z.shiftr c k) (Z.ones n)) k.
Proof.
  intros Hk Hn. apply Z.bits_inj'. intros i Hi.
  rewrite Z.land_spec, !Z.shiftl_spec by lia.
  destruct (Z.lt_ge_cases i k) as [Hlt|Hge].
  - rewrite !(Z.testbit_neg_r _ (i - k)) by lia. apply andb_false_r.
  - rewrite Z.land_spec, Z.shiftr_spec by lia. do 2 f_equal. lia.
Qed.

(** A unit that is not a surrogate is no trail surrogate. *)
Lemma isTrailSurrogate_bmp (c : Z) : bmp_scalar c -> isTrailSurrogate c = false.
Proof.
  unfold bmp_scalar. intros Hc. unfold isTrailSurrogate, band.
  rewrite (ToInt32_small c) by lia. change (ToInt32 0xfc00) with (Z.shiftl (Z.ones 6) 10).
  rewrite land_shifted_mask by lia.
  rewrite Z.land_ones, Z.shiftr_div_pow2, Z.shiftl_mul_pow2 by lia.
  change (2 ^ 10) with 1024. change (2 ^ 6) with 64.
  assert (0 <= c / 1024 < 64) as Hq
    by (split; [apply Z.div_pos; lia | apply Z.div_lt_upper_bound; lia]).
  rewrite (Z.mod_small (c / 1024)) by lia.
  rewrite ToInt32_small by lia.
  apply Z.eqb_neq. intros H.
  pose proof (Z.div_mod c 1024 ltac:(lia)). pose proof (Z.mod_pos_bound c 1024 ltac:(lia)).
  lia.
Qed.

Lemma len_app (a b : list Z) : len (a ++ b) = len a + len b.
Proof. unfold len. rewrite length_app. lia. Qed.

Lemma len_utf8_bytes (c : Z) :
  len (utf8_bytes c) = if decide (c < 0x80) then 1 else if decide (c < 0x800) then 2 else 3.
Proof. unfold utf8_bytes. repeat destruct (decide _); reflexivity. Qed.

(** [byteLengthUtf8] counts the bytes of the units. *)
Lemma byteLengthUtf8_loop_scalars (s : jsstring) :
  Forall bmp_scalar s ->
  forall previous byteLength,
    byteLengthUtf8_loop s previous byteLength
    = byteLength + len (concat (map utf8_bytes s)).
Proof.
  induction 1 as [|c s Hc _ IH]; intros previous byteLength.
  - cbn. unfold len. cbn. lia.
  - cbn [byteLengthUtf8_loop map concat]. rewrite IH, len_app, len_utf8_bytes.
    pose proof (isTrailSurrogate_bmp c Hc) as Ht. unfold bmp_scalar in Hc.
    repeat destruct (decide _); try lia;
      destruct previous; rewrite ?Ht, ?andb_false_r; lia.
Qed.

(** Writing one more group of bytes in front: what is known of the buffer
    after the first bytes and of the final buffer combine. *)
Lemma written_prefix (bs rest : bytes) (buf buf1 buf' : bytes) (offset : Z) :
  0 <= offset ->
  len buf1 = len buf ->
  (forall j, j < offset -> elem_get buf1 j = elem_get buf j) ->
  (forall k, 0 <= k < len bs -> elem_get buf1 (offset + k) = elem_get bs k) ->
  len buf' = len buf1 ->
  (forall j, j < offset + len bs -> elem_get buf' j = elem_get buf1 j) ->
  (forall k, 0 <= k < len rest ->
             elem_get buf' (offset + len bs + k) = elem_get rest k) ->
  len buf' = len buf
  /\ (forall j, j < offset -> elem_get buf' j = elem_get buf j)
  /\ (forall k, 0 <= k < len (bs ++ rest) ->
                elem_get buf' (offset + k) = elem_get (bs ++ rest) k).
Proof.
  intros Ho Hl1 Hf1 Hc1 Hl' Hf' Hc'. pose proof (len_nonneg bs) as Hbs.
  split; [lia|]. split.
  - intros j Hj. rewrite Hf' by lia. apply Hf1. lia.
  - intros k Hk. rewrite len_app in Hk.
    destruct (decide (k < len bs)) as [Hlt|Hge].
    + rewrite Hf' by lia. rewrite Hc1 by lia.
      unfold elem_get, len in *. destruct (decide (0 <= k)); [|lia].
      symmetry. apply lookup_app_l. lia.
    + replace (offset + k) with (offset + len bs + (k - len bs)) by lia.
      rewrite Hc' by lia. unfold elem_get, len in *.
      destruct (decide (0 <= k - _)); [|lia]. destruct (decide (0 <= k)); [|lia].
      rewrite lookup_app_r by lia. f_equal. lia.
Qed.

(** [utf8Write] on units that are not surrogates, with room for all of
    them: the bytes of the units are stored one after the other from
    [offset], and the buffer before [offset] is as it was. *)
Lemma utf8Write_loop_scalars (s : jsstring) :
  Forall bmp_scalar s ->
  forall (offset length written : Z) (buf : bytes),
    0 <= offset ->
    len (concat (map utf8_bytes s)) <= length ->
    offset + len (concat (map utf8_bytes s)) <= len buf ->
    exists buf',
      utf8Write_loop s offset length written None buf
      = (buf', inr (written + len (concat (map utf8_bytes s))))
      /\ len buf' = len buf
      /\ (forall j, j < offset -> elem_get buf' j = elem_get buf j)
      /\ (forall k, 0 <= k < len (concat (map utf8_bytes s)) ->
                    elem_get buf' (offset + k) = elem_get (concat (map utf8_bytes s)) k).
Proof.
  induction 1 as [|c s Hc Hs IH]; intros offset length written buf Ho Hlen Hfit.
  - exists buf. cbn [utf8Write_loop map concat]. unfold mret, M_ret.
    change (len []) with 0. rewrite Z.add_0_r.
    repeat split; try reflexivity. intros k Hk. lia.
  - cbn [map concat] in *. rewrite len_app in Hlen, Hfit.
    pose proof (len_nonneg (concat (map utf8_bytes s))) as Hrest.
    pose proof (len_utf8_bytes c) as Hlc.
    unfold bmp_scalar in Hc. cbn [utf8Write_loop].
    destruct (decide (c > 0xD7FF /\ c < 0xE000)); [lia|].
    unfold utf8_bytes in *.
    destruct (decide (c < 0x80)); [|destruct (decide (c < 0x800))].
    + destruct (decide (length - 1 < 0)); [lia|].
      unfold mbind, M_bind, store. cbv beta iota.
      destruct (IH (offset + 1) (length - 1) (written + 1) (elem_put buf offset c))
        as (buf' & Hrun & Hl' & Hf' & Hc'); [lia | lia | rewrite len_elem_put; lia |].
      exists buf'. rewrite Hrun. split; [do 2 f_equal; rewrite len_app; lia|].
      apply (written_prefix _ _ buf (elem_put buf offset c) buf' offset);
        [exact Ho | | | | exact Hl' | exact Hf' | exact Hc'].
      * apply len_elem_put.
      * intros j Hj. apply elem_get_put_ne. lia.
      * intros k Hk. assert (k = 0) as -> by lia.
        rewrite Z.add_0_r, elem_get_put_eq by lia. reflexivity.
    + destruct (decide (length - 2 < 0)); [lia|].
      unfold mbind, M_bind, store. cbv beta iota.
      set (b0 := bor (sshr c 6) 192) in *. set (b1 := bor (band c 63) 128) in *.
      destruct (IH (offset + 2) (length - 2) (written + 2)
                  (elem_put (elem_put buf offset b0) (offset + 1) b1))
        as (buf' & Hrun & Hl' & Hf' & Hc');
        [lia | lia | rewrite !len_elem_put; lia |].
      exists buf'. rewrite Hrun. split; [do 2 f_equal; rewrite len_app; lia|].
      apply (written_prefix _ _ buf
               (elem_put (elem_put buf offset b0) (offset + 1) b1) buf' offset);
        [exact Ho | | | | exact Hl' | exact Hf' | exact Hc'].
      * now rewrite !len_elem_put.
      * intros j Hj. now rewrite !elem_get_put_ne by lia.
      * intros k Hk.
        assert (k = 0 \/ k = 1) as [-> | ->] by lia.
        -- rewrite Z.add_0_r, elem_get_put_ne, elem_get_put_eq by lia. reflexivity.
        -- rewrite elem_get_put_eq by (rewrite len_elem_put; lia). reflexivity.
    + destruct (decide (c < 0x10000)); [|lia].
      destruct (decide (length - 3 < 0)); [lia|].
      unfold mbind, M_bind, store. cbv beta iota.
      set (b0 := bor (sshr c 12) 224) in *.
      set (b1 := bor (band (sshr c 6) 63) 128) in *.
      set (b2 := bor (band c 63) 128) in *.
      destruct (IH (offset + 3) (length - 3) (written + 3)
                  (elem_put (elem_put (elem_put buf offset b0) (offset + 1) b1)
                            (offset + 2) b2))
        as (buf' & Hrun & Hl' & Hf' & Hc');
        [lia | lia | rewrite !len_elem_put; lia |].
      exists buf'. rewrite Hrun. split; [do 2 f_equal; rewrite len_app; lia|].
      apply (written_prefix _ _ buf
               (elem_put (elem_put (elem_put buf offset b0) (offset + 1) b1)
                         (offset + 2) b2) buf' offset);
        [exact Ho | | | | exact Hl' | exact Hf' | exact Hc'].
      * now rewrite !len_elem_put.
      * intros j Hj. now rewrite !elem_get_put_ne by lia.
      * intros k Hk.
        assert (k = 0 \/ k = 1 \/ k = 2) as [-> | [-> | ->]] by lia.
        -- rewrite Z.add_0_r, !elem_get_put_ne, elem_get_put_eq by lia. reflexivity.
        -- rewrite elem_get_put_ne, elem_get_put_eq by (rewrite ?len_elem_put; lia).
           reflexivity.
        -- rewrite elem_get_put_eq by (rewrite !len_elem_put; lia). reflexivity.
Qed.

Lemma window_content (buf bs : bytes) (offset : Z) :
  0 <= offset -> offset + len bs <= len buf ->
  (forall k, 0 <= k < len bs -> elem_get buf (offset + k) = elem_get bs k) ->
  window buf offset (offset + len bs) = bs.
Proof.
  intros Ho Hfit Hc. apply bytes_ext. intros i.
  pose proof (len_nonneg bs).
  destruct (decide (0 <= i < len bs)) as [Hi|Hi].
  - rewrite elem_get_window by lia. apply Hc. lia.
  - transitivity (@None Z); [|symmetry]; apply elem_get_None;
      rewrite ?len_window by lia; lia.
Qed.

(** Where the round trip of C1 does hold: a string without surrogates,
    written with [utf8Write] at an offset with room for all its bytes, is
    read back unchanged by [utf8Slice] over the bytes written. *)
Theorem utf8_round_trip_without_surrogates
    (s : jsstring) (offset : Z) (buf : bytes) :
  Forall bmp_scalar s ->
  0 <= offset -> offset + byteLengthUtf8 s <= len buf ->
  exists buf',
    utf8Write s (Some offset) None buf = (buf', inr (byteLengthUtf8 s))
    /\ utf8Slice buf' (Some offset) (Some (offset + byteLengthUtf8 s)) = inr s.
Proof.
  intros Hs Ho Hfit. unfold byteLengthUtf8 in *.
  rewrite byteLengthUtf8_loop_scalars in * by assumption. rewrite Z.add_0_l in *.
  pose proof (len_nonneg (concat (map utf8_bytes s))) as Hbs.
  destruct (utf8Write_loop_scalars s Hs offset (len (concat (map utf8_bytes s))) 0 buf)
    as (buf' & Hrun & Hl & _ & Hc); [lia..|].
  exists buf'. split.
  - unfold utf8Write, write_guard. cbn [from_option id]. unfold byteLengthUtf8.
    rewrite byteLengthUtf8_loop_scalars by assumption. rewrite Z.add_0_l.
    destruct (decide _); [lia|].
    cbv beta iota delta [mbind M_bind mret M_ret this_length throw].
    destruct (decide _); [lia|]. destruct (decide _); [lia|].
    replace (Z.min (Z.min (len buf - offset) (len (concat (map utf8_bytes s))))
                   (len (concat (map utf8_bytes s))))
      with (len (concat (map utf8_bytes s))) by lia.
    rewrite Hrun. do 2 f_equal.
  - unfold utf8Slice. rewrite slice_window_in_range by lia.
    rewrite window_content by (assumption || lia).
    now rewrite utf8Slice_units.
Qed.

Lemma utf8_round_trip_without_surrogates_witness :
  exists buf',
    utf8Write [0x68; 0xE9; 0x20AC] (Some 1) None [0; 0; 0; 0; 0; 0; 0; 0]
    = (buf', inr (byteLengthUtf8 [0x68; 0xE9; 0x20AC]))
    /\ utf8Slice buf' (Some 1) (Some (1 + byteLengthUtf8 [0x68; 0xE9; 0x20AC]))
       = inr [0x68; 0xE9; 0x20AC].
Proof.
  apply (utf8_round_trip_without_surrogates [0x68; 0xE9; 0x20AC] 1 [0; 0; 0; 0; 0; 0; 0; 0]).
  - repeat constructor; unfold bmp_scalar; lia.
  - lia.
  - vm_compute. discriminate.
Defined.

(** ** [compare] *)

(** C4, the code at work: the first edition's [_compare] decides by length
    before it looks at any byte. [5] against [1, 2] differs at position 0
    with 5 > 1, and neither buffer is a prefix of the other, yet the result
    is -1; the second edition answers 1 on the same input. *)
Theorem first_edition_compare_by_length :
  Ed1._compare [5] [1; 2] = -1
  /\ Ed1.compare [5] [1; 2] = -1
  /\ Ed1._compare [1; 2] [5] = 1
  /\ Ed2._compare [5] [1; 2] = 1
  /\ Ed2.compare [5] [1; 2] None = inr 1.
Proof. repeat split. Qed.

Lemma compare_loop_None (source target : bytes) (n : nat) :
  forall i : Z,
    Ed2.compare_loop n source target 0 0 i = None
    <-> forall j, i <= j < i + Z.of_nat n -> elem_get source j = elem_get target j.
Proof.
  induction n as [|n IH]; intros i; cbn [Ed2.compare_loop].
  - split; [intros _ j Hj; lia | reflexivity].
  - rewrite !Z.add_0_r. destruct (decide _) as [Hne|Heq].
    + split.
      * destruct (elem_get source i), (elem_get target i);
          try destruct (decide _); discriminate.
      * intros H. exfalso. apply Hne, H. lia.
    + apply dec_stable in Heq. rewrite IH. split; intros H j Hj.
      * destruct (decide (j = i)) as [->|]; [exact Heq | apply H; lia].
      * apply H. lia.
Qed.

Lemma compare_loop_first_difference (source target : bytes) (n : nat) :
  forall (i d x y : Z),
    i <= d < i + Z.of_nat n ->
    (forall j, i <= j < d -> elem_get source j = elem_get target j) ->
    elem_get source d = Some x -> elem_get target d = Some y -> x <> y ->
    Ed2.compare_loop n source target 0 0 i = Some (if decide (x < y) then -1 else 1).
Proof.
  induction n as [|n IH]; intros i d x y Hd Heq Hx Hy Hxy; [lia|].
  cbn [Ed2.compare_loop]. rewrite !Z.add_0_r.
  destruct (decide (i = d)) as [->|Hid].
  - rewrite Hx, Hy. destruct (decide _) as [_|Hn]; [|exfalso; apply Hn; congruence].
    destruct (decide (x > y)), (decide (x < y)); try reflexivity; lia.
  - destruct (decide _) as [Hne|_]; [exfalso; apply Hne, Heq; lia|].
    apply (IH (i + 1) d); try assumption; [lia|]. intros j Hj. apply Heq. lia.
Qed.

(** The second edition orders buffers lexicographically by unsigned byte:
    the first position where the bytes differ decides; when one buffer is a
    proper prefix of the other the shorter one is less; the result is 0
    exactly for equal buffers. *)
Theorem second_edition_compare_lexicographic (a b : bytes) :
  (forall d x y,
      (forall j, 0 <= j < d -> elem_get a j = elem_get b j) ->
      elem_get a d = Some x -> elem_get b d = Some y -> x <> y ->
      Ed2._compare a b = if decide (x < y) then -1 else 1)
  /\ (forall c, c <> [] -> Ed2._compare a (a ++ c) = -1 /\ Ed2._compare (a ++ c) a = 1)
  /\ (Ed2._compare a b = 0 <-> a = b)
  /\ Ed2.compare a b None = inr (Ed2._compare a b)
  /\ Ed2.compare_static a b = Ed2._compare a b.
Proof.
  assert (Hprefix : forall (p c : bytes) j,
             0 <= j < len p -> elem_get p j = elem_get (p ++ c) j).
  { intros p c j Hj. unfold elem_get, len in *. destruct (decide (0 <= j)); [|lia].
    symmetry. apply lookup_app_l. lia. }
  split; [|split; [|split; [|split; reflexivity]]].
  - intros d x y Heq Hx Hy Hxy. unfold Ed2._compare.
    assert (0 <= d < Z.min (len a) (len b)) as Hd.
    { assert (elem_get a d <> None) as Ha by congruence.
      assert (elem_get b d <> None) as Hb by congruence.
      rewrite elem_get_None in Ha, Hb. lia. }
    rewrite (compare_loop_first_difference a b _ 0 d x y); try assumption;
      [reflexivity | lia].
  - intros c Hc.
    assert (0 < len c) as Hlc by (unfold len; destruct c; [congruence | cbn; lia]).
    assert (len (a ++ c) = len a + len c) as Hl
      by (unfold len; rewrite length_app; lia).
    unfold Ed2._compare, Ed2.normalizeCompareVal. rewrite Hl. split.
    + destruct (Ed2.compare_loop _ a (a ++ c) 0 0 0) eqn:E.
      * exfalso. assert (Ed2.compare_loop (Z.to_nat (Z.min (len a) (len a + len c)))
                           a (a ++ c) 0 0 0 = None) as E'; [|congruence].
        apply compare_loop_None. intros j Hj. apply Hprefix. lia.
      * destruct (decide (0 = 0)); [|lia]. destruct (decide _); [lia|].
        destruct (decide _); [reflexivity | lia].
    + destruct (Ed2.compare_loop _ (a ++ c) a 0 0 0) eqn:E.
      * exfalso. assert (Ed2.compare_loop (Z.to_nat (Z.min (len a + len c) (len a)))
                           (a ++ c) a 0 0 0 = None) as E'; [|congruence].
        apply compare_loop_None. intros j Hj. symmetry. apply Hprefix. lia.
      * destruct (decide (0 = 0)); [|lia]. destruct (decide _); [reflexivity | lia].
  - unfold Ed2._compare, Ed2.normalizeCompareVal. split.
    + destruct (Ed2.compare_loop _ a b 0 0 0) as [r|] eqn:E.
      * intros ->. exfalso. revert E. generalize 0 at 3.
        generalize (Z.to_nat (Z.min (len a) (len b))).
        induction n as [|n IH]; intros i; cbn [Ed2.compare_loop]; [discriminate|].
        destruct (decide _); [|apply IH].
        destruct (elem_get a _), (elem_get b _); try destruct (decide _); discriminate.
      * destruct (decide (0 = 0)); [|lia].
        destruct (decide _); [discriminate|]. destruct (decide _); [discriminate|].
        intros _. apply bytes_ext. intros j.
        destruct (decide (0 <= j < len a)) as [Hj|Hj].
        -- apply compare_loop_None with (j := j) in E; [exact E | lia].
        -- transitivity (@None Z); [|symmetry]; apply elem_get_None; lia.
    + intros <-.
      assert (Ed2.compare_loop (Z.to_nat (Z.min (len a) (len a))) a a 0 0 0 = None) as ->
        by (apply compare_loop_None; reflexivity).
      destruct (decide (0 = 0)); [|lia]. destruct (decide _); [lia|].
      destruct (decide _); [lia | reflexivity].
Qed.

(** ** Base64 decoding *)

Lemma count_pad_cons (ch : Z) (data : jsstring) :
  count_pad (ch :: data) = (if decide (ch = 61) then 1 else 0) + count_pad data.
Proof.
  unfold count_pad. rewrite filter_cons. destruct (decide (ch = 61)).
  - apply len_cons.
  - lia.
Qed.

Lemma count_symbols_cons (ch : Z) (data : jsstring) :
  count_symbols (ch :: data)
  = (if Ed2.is_symbol ch then 1 else 0) + count_symbols data.
Proof.
  unfold count_symbols. rewrite filter_cons.
  destruct (Ed2.is_symbol ch); destruct (decide _); try congruence.
  - apply len_cons.
  - lia.
Qed.

Lemma pad_is_no_symbol : Ed2.is_symbol 61 = false.
Proof. reflexivity. Qed.

(** The scan stops with an error on each of the first three classes. *)
Lemma scan_foreign (data : jsstring) :
  forall out eq ol,
    Exists foreign data ->
    Ed2.scan_hadError (Ed2.base64Decode_scan data out eq ol) = true.
Proof.
  induction data as [|ch rest IH]; intros out eq ol H; [inversion H|].
  cbn [Ed2.base64Decode_scan].
  destruct (decide (ch = 61)) as [->|Hpad].
  - destruct (decide _); [reflexivity|]. apply IH.
    inversion H as [? ? Hf|]; [destruct Hf; congruence | assumption].
  - destruct (Ed2.is_symbol ch) eqn:Hsym.
    + destruct (decide _); [reflexivity|]. apply IH.
      inversion H as [? ? (_ & Hf & _)|]; [congruence | assumption].
    + destruct (Ed2.is_skipped ch) eqn:Hskip; [|reflexivity]. apply IH.
      inversion H as [? ? (_ & _ & Hf)|]; [congruence | assumption].
Qed.

Lemma scan_padding (data : jsstring) :
  forall out eq ol,
    2 < eq + count_pad data -> eq <= 2 ->
    Ed2.scan_hadError (Ed2.base64Decode_scan data out eq ol) = true.
Proof.
  induction data as [|ch rest IH]; intros out eq ol H Heq.
  - unfold count_pad, len in H. cbn in H. lia.
  - rewrite count_pad_cons in H. cbn [Ed2.base64Decode_scan].
    destruct (decide (ch = 61)) as [->|Hpad].
    + destruct (decide _); [reflexivity|]. apply IH; lia.
    + destruct (Ed2.is_symbol ch).
      * destruct (decide _); [reflexivity|]. apply IH; lia.
      * destruct (Ed2.is_skipped ch); [|reflexivity]. apply IH; lia.
Qed.

Lemma scan_symbol_after_padding (data : jsstring) :
  forall out eq ol,
    0 < eq -> Exists (fun c => Ed2.is_symbol c = true) data ->
    Ed2.scan_hadError (Ed2.base64Decode_scan data out eq ol) = true.
Proof.
  induction data as [|ch rest IH]; intros out eq ol Heq H; [inversion H|].
  cbn [Ed2.base64Decode_scan].
  destruct (decide (ch = 61)) as [->|Hpad].
  - destruct (decide _); [reflexivity|]. apply IH; [lia|].
    inversion H as [? ? Hs|]; [discriminate Hs | assumption].
  - destruct (Ed2.is_symbol ch) eqn:Hsym.
    + destruct (decide _); [reflexivity | lia].
    + destruct (Ed2.is_skipped ch); [|reflexivity]. apply IH; [lia|].
      inversion H; [congruence | assumption].
Qed.

Lemma scan_interleaved (l1 l2 l3 : jsstring) (c : Z) :
  Ed2.is_symbol c = true ->
  forall out eq ol,
    0 <= eq ->
    Ed2.scan_hadError (Ed2.base64Decode_scan (l1 ++ 61 :: l2 ++ c :: l3) out eq ol) = true.
Proof.
  intros Hc. induction l1 as [|ch rest IH]; intros out eq ol Heq.
  - cbn [app Ed2.base64Decode_scan]. destruct (decide (61 = 61)); [|congruence].
    destruct (decide _); [reflexivity|].
    apply scan_symbol_after_padding; [lia|].
    apply Exists_app. right. now constructor.
  - cbn [app Ed2.base64Decode_scan].
    destruct (decide (ch = 61)).
    + destruct (decide _); [reflexivity|]. apply IH. lia.
    + destruct (Ed2.is_symbol ch).
      * destruct (decide _); [reflexivity|]. now apply IH.
      * destruct (Ed2.is_skipped ch); [|reflexivity]. now apply IH.
Qed.

(** Without an error the scan has counted the symbols and the padding. *)
Lemma scan_counts (data : jsstring) :
  forall out eq ol,
    Ed2.scan_hadError (Ed2.base64Decode_scan data out eq ol) = false ->
    Ed2.scan_outLength (Ed2.base64Decode_scan data out eq ol) = ol + count_symbols data
    /\ Ed2.scan_equalsSignCount (Ed2.base64Decode_scan data out eq ol)
       = eq + count_pad data.
Proof.
  induction data as [|ch rest IH]; intros out eq ol.
  - cbn. unfold count_symbols, count_pad, len. cbn. lia.
  - rewrite count_symbols_cons, count_pad_cons. cbn [Ed2.base64Decode_scan].
    destruct (decide (ch = 61)) as [->|Hpad].
    + rewrite pad_is_no_symbol. destruct (decide _); [discriminate|].
      intros H. destruct (IH _ _ _ H). lia.
    + destruct (Ed2.is_symbol ch).
      * destruct (decide _); [discriminate|]. intros H. destruct (IH _ _ _ H). lia.
      * destruct (Ed2.is_skipped ch); [|discriminate].
        intros H. destruct (IH _ _ _ H). lia.
Qed.

Lemma count_symbols_nonneg (data : jsstring) : 0 <= count_symbols data.
Proof. apply len_nonneg. Qed.

Lemma count_pad_nonneg (data : jsstring) : 0 <= count_pad data.
Proof. apply len_nonneg. Qed.

(** Every rejected input decodes to the empty string. *)
Lemma base64Decode_malformed (data : jsstring) :
  malformed data -> Ed2.base64Decode data = [].
Proof.
  intros H. unfold Ed2.base64Decode.
  destruct (decide (len data = 0)); [reflexivity|]. cbv zeta.
  destruct (Ed2.scan_hadError (Ed2.base64Decode_scan data [] 0 0)) eqn:Herr;
    [reflexivity|].
  destruct (scan_counts data [] 0 0 Herr) as [Hol Heq]. rewrite Hol, Heq.
  pose proof (count_symbols_nonneg data) as Hn.
  pose proof (count_pad_nonneg data) as Hp.
  destruct H as [Hf | Hpad | l1 l2 l3 c -> Hc | Hl].
  - rewrite scan_foreign in Herr by assumption. discriminate.
  - rewrite scan_padding in Herr by lia. discriminate.
  - rewrite scan_interleaved in Herr by (assumption || lia). discriminate.
  - destruct (decide (0 + count_symbols _ = 0)) as [Hz|Hnz].
    + destruct (decide (0 + count_pad _ = 0)); [|reflexivity].
      exfalso. rewrite Z.add_0_l in Hz. rewrite Hz in Hl.
      destruct Hl as [Hl|[Hl _]]; [discriminate Hl | lia].
    + rewrite !Z.rem_mod_nonneg by lia. rewrite !Z.add_0_l.
      destruct (decide (_ /\ _)); [reflexivity|].
      destruct (decide (_ = 1)); [reflexivity|]. lia.
Qed.

(** The loop over whole groups leaves by its own test: the fuel it is
    given in [base64Decode] is never used up. *)
Lemma decode_groups_exits (fuel : nat) :
  forall (out : list Z) (sidx didx outLength : Z),
    outLength - 2 - didx <= 3 * Z.of_nat fuel ->
    ~ (Ed2.decode_groups fuel out sidx didx outLength).2 < outLength - 2.
Proof.
  induction fuel as [|fuel IH]; intros out sidx didx outLength Hfuel;
    cbn [Ed2.decode_groups]; destruct (decide _); cbn [snd]; try lia.
  apply IH. lia.
Qed.

(** The write loop of the one-byte codecs never raises. *)
Lemma write_masked_total (s : jsstring) (offset length mask : Z) (buf : bytes) :
  0 <= offset ->
  exists buf', write_masked s offset length mask buf = (buf', inr tt)
               /\ len buf' = len buf.
Proof.
  intros Ho. unfold write_masked, for_lt.
  destruct (store_loop_spec (fun i => band (default 0 (charCodeAt s i)) mask) offset
              (Z.to_nat ((length - 0 + 1 - 1) / 1)) 0 buf) as (buf' & Hrun & Hlen & _);
    [lia|].
  exists buf'. split; assumption.
Qed.

Lemma latin1Write_total (s : jsstring) (offset : Z) (buf : bytes) :
  0 <= offset <= len buf ->
  exists buf', latin1Write s (Some offset) None buf
               = (buf', inr (Z.min (Z.min (len buf - offset) (len s)) (len s)))
               /\ len buf' = len buf.
Proof.
  intros Ho. unfold latin1Write. cbn [from_option id].
  pose proof (len_nonneg s). destruct (decide _); [lia|].
  cbv beta iota delta [mbind M_bind mret M_ret this_length throw].
  destruct (decide _); [lia|].
  destruct (write_masked_total s offset (Z.min (Z.min (len buf - offset) (len s)) (len s))
              255 buf) as (buf' & Hrun & Hlen); [lia|].
  rewrite Hrun. exists buf'. split; [reflexivity | exact Hlen].
Qed.

Lemma ushr_nonneg (a n : Z) : 0 <= ushr a n.
Proof.
  unfold ushr, ToUint32. apply Z.shiftr_nonneg.
  apply Z.mod_pos_bound. lia.
Qed.

(** Decoding into a buffer never raises, whatever the string, as long as
    the offset is within the buffer. *)
Lemma base64Write_total (string : jsstring) (offset : Z) (buf : bytes) :
  0 <= offset <= len buf ->
  exists buf' n, Ed2.base64Write string (Some offset) None buf = (buf', inr n)
                 /\ len buf' = len buf.
Proof.
  intros Ho. unfold Ed2.base64Write. cbn [from_option id].
  pose proof (ushr_nonneg) as Hu.
  destruct (decide _) as [[|Hneg]|_]; [lia | |].
  { unfold Ed2.base64ByteLength, Ed1.base64ByteLength in Hneg.
    match type of Hneg with ushr ?a ?n < 0 => specialize (Hu a n) end. lia. }
  cbv beta iota delta [mbind M_bind mret M_ret this_length throw].
  destruct (decide _); [lia|].
  destruct (latin1Write_total
              (Ed2.base64Decode (Ed2.cut_at_equals (Ed2.keep_alphabet (trim string))))
              offset buf Ho) as (buf' & Hrun & Hlen).
  eauto.
Qed.

(** In the first edition the outcome of decoding is the host's: an
    exception of [atob] leaves [base64Write] as it is. *)
Lemma first_edition_base64Write_follows_atob
    (atob : jsstring -> exn + jsstring) (string : jsstring) (offset : Z)
    (buf : bytes) (e : exn) :
  0 <= offset <= len buf -> atob (trim string) = inl e ->
  Ed1.base64Write atob string (Some offset) None buf = (buf, inl e).
Proof.
  intros Ho Ha. unfold Ed1.base64Write, write_guard. cbn [from_option id].
  destruct (decide _); [lia|].
  cbv beta iota delta [mbind M_bind mret M_ret this_length throw].
  destruct (decide _); [lia|]. destruct (decide (0 < 0)); [lia|].
  now rewrite Ha.
Qed.

(** [base64Write] of the second edition cleans the string before it
    decodes: units outside the alphabet are dropped and the string is cut
    at its first padding character. A string that [base64Decode] rejects
    can so decode to bytes when it is written into a buffer. *)
Lemma second_edition_base64Write_cleans_input :
  Ed2.base64Decode (str "Zg=a") = []
  /\ Ed2.fromString (str "Zg=a") Ed2.base64 = inr (str "f")
  /\ Ed2.base64Decode (str "Zg!=") = []
  /\ Ed2.fromString (str "Zg!=") Ed2.base64 = inr (str "f").
Proof. repeat split; vm_compute; reflexivity. Qed.

(** The decoder of the second edition fails softly: every input of
    one of the rejected classes (a unit outside the alphabet, more than two
    padding characters, a symbol after padding, a length inconsistent
    modulo 4) decodes to the empty string; decoding into a buffer never
    raises, whatever the string; "Zg==" decodes to "f", "Zm8=" to "fo", and
    "Z===" to the empty result, both through [base64Decode] and through a
    buffer created from the string. *)
Theorem base64_decode_fails_softly :
  (forall data, malformed data -> Ed2.base64Decode data = [])
  /\ (forall string offset buf, 0 <= offset <= len buf ->
        exists buf' n, Ed2.base64Write string (Some offset) None buf = (buf', inr n))
  /\ Ed2.base64Decode (str "Zg==") = str "f"
  /\ Ed2.base64Decode (str "Zm8=") = str "fo"
  /\ Ed2.base64Decode (str "Z===") = []
  /\ Ed2.fromString (str "Zg==") Ed2.base64 = inr (str "f")
  /\ Ed2.fromString (str "Zm8=") Ed2.base64 = inr (str "fo")
  /\ Ed2.fromString (str "Z===") Ed2.base64 = inr [].
Proof.
  split; [exact base64Decode_malformed|]. split.
  - intros string offset buf Ho.
    destruct (base64Write_total string offset buf Ho) as (buf' & n & H & _). eauto.
  - repeat split; vm_compute; reflexivity.
Qed.

Lemma base64_decode_fails_softly_witness :
  malformed (str "Z===") /\ Ed2.base64Decode (str "Z===") = [].
Proof.
  assert (malformed (str "Z===")) as H.
  { apply too_much_padding. vm_compute. reflexivity. }
  split; [exact H|]. exact (proj1 base64_decode_fails_softly (str "Z===") H).
Defined.

(** C7, the code at work: the first edition has no decoder of its own;
    its [base64Write] hands the trimmed string to the host's [atob] and
    passes an exception of [atob] on (line 1104). "Z===" is no base64, and
    with an [atob] that refuses it the call raises, whatever the buffer,
    where the claim has an empty result and no error. The second edition,
    with its own decoder, writes nothing and returns 0 on the same call. *)
Theorem first_edition_base64Write_raises
    (atob : jsstring -> exn + jsstring) (e : exn) (buf : bytes) :
  atob (str "Z===") = inl e ->
  Ed1.base64Write atob (str "Z===") None None buf = (buf, inl e)
  /\ Ed2.base64Write (str "Z===") None None buf = (buf, inr 0)
  /\ Ed2.fromString (str "Z===") Ed2.base64 = inr [].
Proof.
  intros Ha. pose proof (len_nonneg buf) as Hlen. split; [|split].
  - unfold Ed1.base64Write, write_guard. cbn [default from_option id].
    destruct (decide (0 < 0)); [lia|].
    cbv beta iota delta [mbind M_bind mret M_ret this_length throw].
    destruct (decide (0 > len buf)); [lia|]. destruct (decide (0 < 0)); [lia|].
    change (trim (str "Z===")) with (str "Z==="). now rewrite Ha.
  - unfold Ed2.base64Write. cbn [default from_option id].
    assert (Ed2.base64ByteLength (str "Z===") (len (str "Z===")) = 1) as ->
      by (vm_compute; reflexivity).
    assert (Ed2.base64Decode (Ed2.cut_at_equals (Ed2.keep_alphabet (trim (str "Z==="))))
            = []) as -> by (vm_compute; reflexivity).
    destruct (decide (0 < 0 \/ 1 < 0)); [lia|].
    cbv beta iota delta [mbind M_bind mret M_ret this_length throw].
    destruct (decide (0 > len buf)); [lia|].
    unfold latin1Write. cbn [default from_option id]. change (len []) with 0.
    destruct (decide (0 < 0 \/ 0 < 0)); [lia|].
    cbv beta iota delta [mbind M_bind mret M_ret this_length throw].
    destruct (decide (0 > len buf)); [lia|].
    replace (Z.min (Z.min (len buf - 0) 0) 0) with 0 by lia. reflexivity.
  - vm_compute. reflexivity.
Qed.

Lemma first_edition_base64Write_raises_witness :
  Ed1.base64Write (fun _ => inl (TypeError_raw "InvalidCharacterError"))
                  (str "Z===") None None [0; 0; 0]
  = ([0; 0; 0], inl (TypeError_raw "InvalidCharacterError")).
Proof.
  exact (proj1 (first_edition_base64Write_raises
                  (fun _ => inl (TypeError_raw "InvalidCharacterError"))
                  (TypeError_raw "InvalidCharacterError") [0; 0; 0] eq_refl)).
Defined.

(** ** Search in the first edition *)

Lemma read_byte (buf : bytes) (i : Z) : Ed1.read 1 buf i = inr (elem_get buf i).
Proof. unfold Ed1.read. destruct (decide (1 = 1)); [reflexivity|lia]. Qed.

Lemma in_units_1 (i : Z) : Ed1.in_units i 1 = QArith_base.inject_Z i.
Proof. unfold Ed1.in_units. apply Qcanon.Qred_identity. cbn. apply Z.gcd_1_r. Qed.

(** The inner loop on bytes: it answers whether the needle agrees with
    the buffer from [j] on. *)
Lemma arrayIndexOf_found_spec (arr val : bytes) (i : Z) (n : nat) :
  forall j, 0 <= j -> Z.of_nat n = len val - j ->
  exists b, Ed1.arrayIndexOf_found n 1 arr val i j = inr b
    /\ (b = true <->
        forall k, j <= k < len val -> elem_get arr (i + k) = elem_get val k).
Proof.
  induction n as [|n IH]; intros j Hj Hn; cbn [Ed1.arrayIndexOf_found].
  - exists true. split; [reflexivity|]. split; [intros _ k Hk; lia | reflexivity].
  - rewrite !read_byte.
    destruct (decide (elem_get arr (i + j) ≠ elem_get val j)) as [Hne|Heq].
    + exists false. split; [reflexivity|]. split; [discriminate|].
      intros H. exfalso. apply Hne, H. lia.
    + destruct (IH (j + 1) ltac:(lia) ltac:(lia)) as (b & Hrun & Hb).
      exists b. split; [exact Hrun|]. rewrite Hb. split; intros H k Hk.
      * destruct (decide (k = j)) as [->|]; [|apply H; lia].
        destruct (decide (elem_get arr (i + j) = elem_get val j)); [assumption|contradiction].
      * apply H; lia.
Qed.

Lemma arrayIndexOf_found_occurs (arr val : bytes) (i : Z) :
  val <> [] -> 0 <= i ->
  exists b,
    Ed1.arrayIndexOf_found (Z.to_nat ((len val + 1 - 1) / 1)) 1 arr val i 0 = inr b
    /\ (b = true <-> occurs_at arr val i).
Proof.
  intros Hval Hi.
  assert (0 < len val) as Hlen by (unfold len; destruct val; [congruence | cbn; lia]).
  rewrite Z.add_simpl_r, Z.div_1_r.
  destruct (arrayIndexOf_found_spec arr val i (Z.to_nat (len val)) 0 ltac:(lia) ltac:(lia))
    as (b & Hrun & Hb).
  exists b. split; [exact Hrun|]. rewrite Hb. unfold occurs_at. split.
  - intros Hall. split; [exact Hi|]. split; [|exact Hall].
    specialize (Hall (len val - 1) ltac:(lia)).
    destruct (elem_get_Some val (len val - 1) ltac:(lia)) as [v Hv].
    rewrite Hv in Hall.
    assert (elem_get arr (i + (len val - 1)) <> None) as Hn by congruence.
    rewrite elem_get_None in Hn. lia.
  - intros (_ & _ & H). exact H.
Qed.

(** The backward loop on bytes returns the highest start position up to
    [i] at which the needle occurs. *)
Lemma arrayIndexOf_backward_spec (arr val : bytes) (n : nat) :
  val <> [] ->
  forall i, Z.of_nat n = Z.max 0 (i + 1) ->
  exists r, Ed1.arrayIndexOf_backward n 1 arr val i = inr (Some (QArith_base.inject_Z r))
            /\ last_occurrence arr val i r.
Proof.
  intros Hval. unfold last_occurrence.
  induction n as [|n IH]; intros i Hn; cbn [Ed1.arrayIndexOf_backward].
  - exists (-1). split; [reflexivity|]. left. split; [reflexivity|].
    intros s Hs [H0 _]. lia.
  - destruct (arrayIndexOf_found_occurs arr val i Hval ltac:(lia)) as (b & Hrun & Hb).
    rewrite Hrun. destruct b.
    + exists i. rewrite in_units_1. split; [reflexivity|]. right.
      split; [lia|]. split; [now apply Hb|]. intros s Hs. lia.
    + assert (~ occurs_at arr val i) as Hno.
      { intros Ho. apply Hb in Ho. discriminate. }
      destruct (IH (i - 1) ltac:(lia)) as (r & Hrun' & [[Hr Hnone]|(Hr & Hocc & Hnone)]);
        exists r; (split; [exact Hrun'|]).
      * left. split; [exact Hr|]. intros s Hs.
        destruct (decide (s = i)) as [->|]; [exact Hno | apply Hnone; lia].
      * right. split; [lia|]. split; [exact Hocc|]. intros s Hs.
        destruct (decide (s = i)) as [->|]; [exact Hno | apply Hnone; lia].
Qed.

(** The forward loop, from a state that its earlier iterations can have
    left: [fi] is -1, or the start of a partial match that reaches up to
    [i]; no occurrence starts between [byteOffset] and the candidate. With
    enough fuel the loop returns the first occurrence. *)
Lemma arrayIndexOf_forward_spec (arr val : bytes) (byteOffset : Z) (fuel : nat) :
  val <> [] -> 0 <= byteOffset ->
  forall i fi,
    let cand := if decide (fi = -1) then i else fi in
    byteOffset <= cand <= i ->
    (fi <> -1 ->
     fi < i /\ i - fi < len val
     /\ forall j, 0 <= j < i - fi -> elem_get arr (fi + j) = elem_get val j) ->
    (forall s, byteOffset <= s < cand -> ~ occurs_at arr val s) ->
    (len arr - cand) * (len val + 1) + (len val - (i - cand)) < Z.of_nat fuel ->
    exists r, Ed1.arrayIndexOf_forward fuel 1 arr val i fi = inr (Some r)
              /\ first_occurrence arr val byteOffset r.
Proof.
  intros Hval Hbo.
  assert (0 < len val) as Hlen by (unfold len; destruct val; [congruence | cbn; lia]).
  induction fuel as [|fuel IH]; intros i fi cand Hcand Hpart Hnone Hfuel;
    cbn [Ed1.arrayIndexOf_forward]; change (-1 * 1) with (-1);
    (destruct (decide (i < len arr)) as [Hi|Hi];
     [|exists (-1); split; [reflexivity|]; left; split; [reflexivity|];
       intros s Hs Ho; destruct (decide (s < cand)) as [Hlt|Hge];
       [exact (Hnone s (conj Hs Hlt) Ho)|];
       destruct Ho as (Ho1 & Ho2 & _); subst cand;
       destruct (decide (fi = -1)); [lia|];
       destruct (Hpart ltac:(assumption)) as (H1 & H2 & _); lia]).
  - exfalso. subst cand. destruct (decide (fi = -1)).
    + nia.
    + specialize (Hpart ltac:(assumption)). nia.
  - rewrite !read_byte.
    destruct (decide (elem_get arr i = elem_get val _)) as [Heq|Hne].
    + (* one more unit matches *)
      set (fi' := if decide (fi = -1) then i else fi) in *.
      assert (Hfi' : 0 <= fi' /\ byteOffset <= fi' <= i /\ i - fi' < len val
                     /\ (forall j, 0 <= j < i - fi' + 1 ->
                           elem_get arr (fi' + j) = elem_get val j)
                     /\ forall s, byteOffset <= s < fi' -> ~ occurs_at arr val s).
      { subst fi' cand. destruct (decide (fi = -1)) as [->|Hfi].
        - repeat split; try lia; [|exact Hnone].
          intros j Hj. assert (j = 0) as -> by lia. rewrite Z.add_0_r. exact Heq.
        - destruct (Hpart Hfi) as (H1 & H2 & H3).
          repeat split; try lia; [|exact Hnone].
          intros j Hj. destruct (decide (j = i - fi)) as [->|Hj'].
          + replace (fi + (i - fi)) with i by lia. exact Heq.
          + apply H3. lia. }
      destruct Hfi' as (Hf0 & Hf1 & Hf2 & Hf3 & Hf4).
      destruct (decide (i - fi' + 1 = len val)) as [Hfull|Hmore].
      * exists fi'. split; [reflexivity|]. right.
         split; [lia|]. split; [|exact Hf4].
         split; [lia|]. split; [lia|]. intros j Hj. apply Hf3. lia.
      * apply IH.
         -- destruct (decide (fi' = -1)); lia.
         -- intros _. split; [lia|]. split; [lia|].
            intros j Hj. apply Hf3. lia.
         -- destruct (decide (fi' = -1)); [lia|]. exact Hf4.
         -- destruct (decide (fi' = -1)); [lia|].
            subst cand fi'. destruct (decide (fi = -1)); nia.
    + (* a mismatch: the candidate is ruled out *)
      assert (Hno : ~ occurs_at arr val cand).
      { subst cand. intros (_ & _ & Ho). destruct (decide (fi = -1)) as [->|Hfi].
        - specialize (Ho 0 ltac:(lia)). rewrite Z.add_0_r in Ho. contradiction.
        - destruct (Hpart Hfi) as (H1 & H2 & _).
          specialize (Ho (i - fi) ltac:(lia)).
          replace (fi + (i - fi)) with i in Ho by lia. contradiction. }
      assert (Hstep : (if decide (fi <> -1) then i - (i - fi) else i) + 1 = cand + 1).
      { subst cand. destruct (decide (fi <> -1)), (decide (fi = -1)); lia. }
      rewrite Hstep. apply IH.
      * destruct (decide (-1 = -1)); lia.
      * intros H. congruence.
      * destruct (decide (-1 = -1)); [|lia]. intros s Hs.
         destruct (decide (s = cand)) as [->|]; [exact Hno | apply Hnone; lia].
      * destruct (decide (-1 = -1)); [|lia].
         assert (0 <= i - cand < len val) as Hd.
         { subst cand. destruct (decide (fi = -1)); [lia|].
           destruct (Hpart ltac:(assumption)). lia. }
         nia.
Qed.

Lemma first_occurrence_unique (arr val : bytes) (byteOffset r r' : Z) :
  first_occurrence arr val byteOffset r -> first_occurrence arr val byteOffset r' ->
  r = r'.
Proof.
  intros [[-> H1]|(H1 & H2 & H3)] [[-> H1']|(H1' & H2' & H3')].
  - reflexivity.
  - destruct (H1 r' H1' H2').
  - destruct (H1' r H1 H2).
  - destruct (decide (r < r')) as [Hlt|Hge].
    + destruct (H3' r (conj H1 Hlt) H2).
    + destruct (decide (r' < r)) as [Hlt'|Hge']; [|lia].
      destruct (H3 r' (conj H1' Hlt') H2').
Qed.

(** In the first edition, for a needle of one byte or more that is given
    as bytes, a start position that is an int32 and not negative, and no
    encoding or one that is not a name of UTF-16, [indexOf] returns the
    first occurrence from the position on (the loop ends within
    [(buf.length + 1) * (val.length + 1)] iterations) and [lastIndexOf]
    the last occurrence up to the position; each returns -1 exactly when
    there is no such occurrence. *)
Theorem first_edition_search_spec (toLowerCase : jsstring -> jsstring)
    (buf val : bytes) (byteOffset : Z) (encoding : option jsstring) :
  val <> [] -> 0 <= byteOffset <= 0x7fffffff -> byte_units toLowerCase encoding ->
  (exists r,
      first_occurrence buf val byteOffset r
      /\ forall fuel, (len buf + 1) * (len val + 1) <= Z.of_nat fuel ->
           Ed1.indexOf toLowerCase fuel buf (NBytes val) (Some byteOffset) encoding
           = inr (Some (QArith_base.inject_Z r)))
  /\ (exists r,
         last_occurrence buf val byteOffset r
         /\ forall fuel,
              Ed1.lastIndexOf toLowerCase fuel buf (NBytes val) (Some byteOffset) encoding
              = inr (Some (QArith_base.inject_Z r))).
Proof.
  intros Hval Hbo Henc.
  assert (0 < len val) as Hlen by (unfold len; destruct val; [congruence | cbn; lia]).
  pose proof (len_nonneg buf) as Hbuf.
  assert (Hoff : search_offset buf (Some byteOffset) true = byteOffset
                 /\ search_offset buf (Some byteOffset) false = byteOffset).
  { unfold search_offset. repeat destruct (decide _); lia. }
  destruct Hoff as [Hfw Hbw].
  assert (Hbytes : forall fuel dir,
            Ed1.arrayIndexOf toLowerCase fuel buf val byteOffset encoding dir
            = if dir then
                match Ed1.arrayIndexOf_forward fuel 1 buf val byteOffset (-1) with
                | inl e => inl e
                | inr r => inr (QArith_base.inject_Z <$> r)
                end
              else
                let from := if decide (byteOffset + len val > len buf)
                            then len buf - len val else byteOffset in
                Ed1.arrayIndexOf_backward (Z.to_nat (from + 1)) 1 buf val from).
  { intros fuel dir. unfold Ed1.arrayIndexOf.
    destruct encoding as [e|]; cbv zeta;
      [cbn [byte_units] in Henc; rewrite (bool_decide_eq_false_2 _ Henc)|];
      cbn [andb]; change (-1 * 1) with (-1); now rewrite Z.div_1_r. }
  assert (Hrun : forall fuel, (len buf + 1) * (len val + 1) <= Z.of_nat fuel ->
            exists r, Ed1.arrayIndexOf_forward fuel 1 buf val byteOffset (-1) = inr (Some r)
                      /\ first_occurrence buf val byteOffset r).
  { intros fuel Hfuel.
    apply (arrayIndexOf_forward_spec buf val byteOffset fuel Hval (proj1 Hbo)).
    - destruct (decide (-1 = -1)); lia.
    - intros H. congruence.
    - destruct (decide (-1 = -1)); [|lia]. intros s Hs. lia.
    - destruct (decide (-1 = -1)); [|lia]. nia. }
  split.
  - destruct (Hrun (Z.to_nat ((len buf + 1) * (len val + 1))) ltac:(lia)) as (r & _ & Hr).
    exists r. split; [exact Hr|]. intros fuel Hfuel.
    destruct (Hrun fuel Hfuel) as (r' & Hrun' & Hr').
    unfold Ed1.indexOf, Ed1.bidirectionalIndexOf.
    rewrite Hfw, Hbytes, Hrun'. cbn [fmap option_fmap option_map]. do 3 f_equal.
    exact (first_occurrence_unique _ _ _ _ _ Hr' Hr).
  - set (from := if decide (byteOffset + len val > len buf)
                 then len buf - len val else byteOffset).
    destruct (arrayIndexOf_backward_spec buf val (Z.to_nat (from + 1)) Hval from ltac:(lia))
      as (r & Hback & Hb).
    exists r. split; [|intros fuel; unfold Ed1.lastIndexOf, Ed1.bidirectionalIndexOf;
                       rewrite Hbw, Hbytes; exact Hback].
    assert (Hfrom : from <= byteOffset) by (subst from; destruct (decide _); lia).
    assert (Hlate : forall s, from < s <= byteOffset -> ~ occurs_at buf val s).
    { intros s Hs (Ho1 & Ho2 & _). subst from. destruct (decide _); lia. }
    destruct Hb as [[Hr Hnone]|(Hr & Hocc & Hnone)].
    + left. split; [exact Hr|]. intros s Hs.
      destruct (decide (s <= from)) as [Hle|Hgt]; [apply Hnone; exact Hle | apply Hlate; lia].
    + right. split; [lia|]. split; [exact Hocc|]. intros s Hs.
      destruct (decide (s <= from)) as [Hle|Hgt]; [apply Hnone; lia | apply Hlate; lia].
Qed.

Lemma first_edition_search_spec_witness :
  exists r,
    first_occurrence [0x61; 0x62; 0x62] [0x62] 1 r
    /\ forall fuel, (len [0x61; 0x62; 0x62] + 1) * (len [0x62] + 1) <= Z.of_nat fuel ->
         Ed1.indexOf ascii_lower fuel [0x61; 0x62; 0x62] (NBytes [0x62]) (Some 1)
                     (Some (str "Latin1"))
         = inr (Some (QArith_base.inject_Z r)).
Proof.
  refine (proj1 (first_edition_search_spec ascii_lower [0x61; 0x62; 0x62] [0x62] 1
                   (Some (str "Latin1")) ltac:(discriminate) ltac:(lia) _)).
  cbn [byte_units]. intros [H|[H|[H|H]]]; vm_compute in H; discriminate.
Defined.

(** With a name of UTF-16 as encoding the first edition searches in
    16-bit units, which it reads with [readUInt16BE]. A needle of one byte
    is never found; forwards the answer is a byte position, backwards it
    is the index in units (1 for the unit at byte 2, and one and a half
    for a unit at byte 3); on a buffer of odd length the forward search
    reads past the end and raises [ERR_OUT_OF_RANGE]. *)
Lemma first_edition_search_in_units :
  Ed1.lastIndexOf ascii_lower 4 [1; 2; 3] (NBytes [2]) None (Some (str "ucs2"))
  = inr (Some (QArith_base.inject_Z (-1)))
  /\ Ed1.lastIndexOf ascii_lower 4 [1; 2; 3] (NBytes [2]) None None
     = inr (Some (QArith_base.inject_Z 1))
  /\ Ed1.indexOf ascii_lower 4 [0; 0x61; 0; 0x62; 0; 0x63] (NBytes [0; 0x62]) (Some 0)
                 (Some (str "UCS-2"))
     = inr (Some (QArith_base.inject_Z 2))
  /\ Ed1.lastIndexOf ascii_lower 4 [0; 0x61; 0; 0x62; 0; 0x63] (NBytes [0; 0x62]) (Some 4)
                     (Some (str "utf16le"))
     = inr (Some (QArith_base.inject_Z 1))
  /\ Ed1.lastIndexOf ascii_lower 4 [0; 0x61; 0; 0x62; 0] (NBytes [0x62; 0]) (Some 4)
                     (Some (str "utf-16le"))
     = inr (Some (QArith_base.Qmake 3 2))
  /\ Ed1.indexOf ascii_lower 4 [0; 0x61; 0] (NBytes [0; 0x62]) (Some 0) (Some (str "ucs2"))
     = inl (ERR_OUT_OF_RANGE "offset").
Proof. repeat split; vm_compute; reflexivity. Qed.

(** ** UTF-8 *)

(** C1, the code at work: U+1F600 is the surrogate pair D83D DE00;
    [utf8Write] encodes it as F0 9F 98 80, and [utf8Slice] decodes these
    four bytes to DBFD DE00: line 1004 (and 3848) has already taken 0x10000
    off [code] when line 1005 (and 3849) takes it off again for the high
    surrogate. The same happens to U+10000. *)
Theorem utf8_round_trip_breaks_on_surrogate_pairs :
  utf8Write [0xD83D; 0xDE00] None None [0; 0; 0; 0] = ([0xF0; 0x9F; 0x98; 0x80], inr 4)
  /\ utf8Slice [0xF0; 0x9F; 0x98; 0x80] (Some 0) (Some 4) = inr [0xDBFD; 0xDE00]
  /\ [0xDBFD; 0xDE00] <> [0xD83D; 0xDE00]
  /\ utf8Write [0xD800; 0xDC00] None None [0; 0; 0; 0] = ([0xF0; 0x90; 0x80; 0x80], inr 4)
  /\ utf8Slice [0xF0; 0x90; 0x80; 0x80] (Some 0) (Some 4) = inr [0xDBC0; 0xDC00].
Proof. repeat split; try (vm_compute; reflexivity). discriminate. Qed.

(** ** Hex *)

(** C2, the code at work: [hexWrite] steps through the string two
    characters at a time but parses the slice [i * 2, i * 2 + 1), one
    character, so every byte it stores is a single hex digit. The bytes
    ff fe fd print as "fffefd" and come back from "fffefd" as 0f 0f 0f, in
    both editions; the first edition's [hexSlice] moreover prints a byte
    below 0x10 as one digit. *)
Theorem hex_round_trip_breaks :
  toString [0xff; 0xfe; 0xfd] (Some Ed2.hex) None None = inr (str "fffefd")
  /\ Ed2.fromString (str "fffefd") Ed2.hex = inr [0x0f; 0x0f; 0x0f]
  /\ Ed2.equals [0x0f; 0x0f; 0x0f] [0xff; 0xfe; 0xfd] = false
  /\ Ed2.hexWrite (str "fffefd") None None [0; 0; 0] = ([0x0f; 0x0f; 0x0f], inr 3)
  /\ toString [0xff; 0xfe; 0xfd] (Some Ed1.hex) None None = inr (str "fffefd")
  /\ Ed1.fromString (str "fffefd") Ed1.hex = inr [0x0f; 0x0f; 0x0f]
  /\ toString [0x0a; 0x01] (Some Ed1.hex) None None = inr (str "a1")
  /\ toString [0x0a; 0x01] (Some Ed2.hex) None None = inr (str "0a01").
Proof. repeat split; vm_compute; reflexivity. Qed.

(** ** Search *)

Lemma forward_scan_runs_on (fuel : nat) :
  forall i, 0 <= i -> Ed2.forward_scan fuel [0x62] [0x61; 0x62] i = None.
Proof.
  induction fuel as [|fuel IH]; intros i Hi; cbn [Ed2.forward_scan].
  - destruct (decide _) as [_|H]; [reflexivity|]. exfalso. apply H.
    unfold len. cbn. lia.
  - destruct (decide _) as [_|H]; [|exfalso; apply H; unfold len; cbn; lia].
    destruct (decide _) as [E|_]; [|apply IH; lia].
    exfalso. unfold elem_get in E. destruct (decide (0 <= i)); [|lia].
    destruct (Z.to_nat i) as [|[|k]]; cbn in E; discriminate.
Qed.

(** C3, the code at work: the forward loop of the second edition's
    [indexOfBuffer] runs while [i !== bufLen - valLen], so it never tries
    the last start position. A buffer searched for its own contents from
    offset 0 gives -1, not 0 (the first edition gives 0, whatever the host's
    [toLowerCase] is); with a needle
    longer than the buffer the loop test is never false, and the search
    does not return at all, for no amount of fuel; the backward loop runs
    while [i !== 0] and never tries position 0. *)
Theorem second_edition_indexOf_misses_matches :
  (forall (fuel : nat) (buf : bytes),
      Ed2.indexOf fuel buf (NBytes buf) (Some 0) = inr (Some (-1)))
  /\ (forall toLowerCase,
        Ed1.indexOf toLowerCase 2 [0x61; 0x62] (NBytes [0x61; 0x62]) (Some 0) None
        = inr (Some (QArith_base.inject_Z 0)))
  /\ (forall fuel : nat,
        Ed2.indexOf fuel [0x62] (NBytes [0x61; 0x62]) (Some 0) = inr None)
  /\ (forall toLowerCase,
        Ed1.indexOf toLowerCase 1 [0x62] (NBytes [0x61; 0x62]) (Some 0) None
        = inr (Some (QArith_base.inject_Z (-1))))
  /\ Ed2.indexOf 4 [0x61; 0x61; 0x62] (NBytes [0x61; 0x62]) (Some 0) = inr (Some (-1))
  /\ (forall toLowerCase,
        Ed1.indexOf toLowerCase 4 [0x61; 0x61; 0x62] (NBytes [0x61; 0x62]) (Some 0) None
        = inr (Some (QArith_base.inject_Z 1)))
  /\ Ed2.lastIndexOf 4 [0x61; 0x62; 0x63] (NBytes [0x61; 0x62]) None = inr (Some (-1))
  /\ (forall toLowerCase,
        Ed1.lastIndexOf toLowerCase 4 [0x61; 0x62; 0x63] (NBytes [0x61; 0x62]) None None
        = inr (Some (QArith_base.inject_Z 0))).
Proof.
  split; [|split; [intros; reflexivity|split; [|repeat split; intros; reflexivity]]].
  - intros fuel buf. unfold Ed2.indexOf, Ed2.bidirectionalIndexOf, Ed2.indexOfBuffer.
    cbn [search_offset]. do 2 (destruct (decide _); [lia|]).
    assert (Ed2.forward_scan fuel buf buf 0 = Some (0, -1)) as ->.
    { destruct fuel; cbn [Ed2.forward_scan];
        (destruct (decide _) as [H|_]; [exfalso; apply H; lia | reflexivity]). }
    reflexivity.
  - intros fuel. unfold Ed2.indexOf, Ed2.bidirectionalIndexOf, Ed2.indexOfBuffer.
    cbn [search_offset]. do 2 (destruct (decide _); [lia|]).
    now rewrite forward_scan_runs_on by lia.
Qed.

(** ** Integer reads *)

Lemma window_nil (buf : bytes) (start : Z) : window buf start start = [].
Proof. unfold window. now rewrite Z.sub_diag. Qed.

Lemma window_cons (buf : bytes) (start end_ : Z) :
  0 <= start < end_ -> end_ <= len buf ->
  exists b, elem_get buf start = Some b
            /\ window buf start end_ = b :: window buf (start + 1) end_.
Proof.
  intros Hs He. destruct (elem_get_Some buf start) as [b Hb]; [lia|].
  exists b. split; [exact Hb|]. unfold window, elem_get in *.
  destruct (decide (0 <= start)); [|lia].
  rewrite (drop_S _ _ _ Hb).
  replace (Z.to_nat (end_ - start)) with (S (Z.to_nat (end_ - (start + 1)))) by lia.
  cbn [take]. do 2 f_equal. f_equal. lia.
Qed.

(** The window of [n] bytes at [offset], element by element. *)
Lemma window_elems (buf : bytes) (n : nat) :
  wf_bytes buf ->
  forall offset, 0 <= offset -> offset + Z.of_nat n <= len buf ->
  exists bs, window buf offset (offset + Z.of_nat n) = bs
             /\ length bs = n
             /\ Forall (fun b => 0 <= b < 256) bs
             /\ forall k, (k < n)%nat -> elem_get buf (offset + Z.of_nat k) = bs !! k.
Proof.
  intros Hwf. induction n as [|n IH]; intros offset Ho Hl.
  - exists []. rewrite Z.add_0_r, window_nil. repeat split; [constructor|]. lia.
  - destruct (window_cons buf offset (offset + Z.of_nat (S n))) as (b & Hb & Hw); [lia..|].
    destruct (IH (offset + 1)) as (bs & Hbs & Hlen & Hall & Hget); [lia..|].
    exists (b :: bs). rewrite Hw.
    replace (offset + Z.of_nat (S n)) with (offset + 1 + Z.of_nat n) by lia.
    rewrite Hbs. split; [reflexivity|]. split; [cbn; lia|]. split.
    + constructor; [|exact Hall]. exact (wf_elem_get _ _ _ Hwf Hb).
    + intros [|k] Hk; cbn [lookup list_lookup].
      * now rewrite Z.add_0_r.
      * rewrite <- Hget by lia. f_equal. lia.
Qed.

Lemma read_ends_in (buf : bytes) (offset w a b : Z) :
  elem_get buf offset = Some a -> elem_get buf (offset + (w - 1)) = Some b ->
  read_ends offset w buf = (buf, inr (Some a, Some b)).
Proof.
  intros Ha Hb. unfold read_ends. mstep. rewrite Ha, Hb.
  rewrite bool_decide_eq_false_2; [reflexivity|]. intros [H|H]; discriminate.
Qed.

Lemma read_ends_out (buf : bytes) (offset w : Z) :
  1 <= w -> ~ in_bounds buf offset w ->
  exists e, read_ends offset w buf = (buf, inl e) /\ error_class e = RangeError.
Proof.
  intros Hw Hout. unfold read_ends, in_bounds in *. mstep.
  rewrite bool_decide_eq_true_2.
  - destruct (decide _); eexists; split; reflexivity.
  - rewrite !elem_get_None. lia.
Qed.

(** Sign extension, as the signed reads compute it. *)
Lemma land_bit (v k : Z) :
  0 <= k -> 0 <= v < 2 ^ (k + 1) ->
  Z.land v (2 ^ k) = if decide (v < 2 ^ k) then 0 else 2 ^ k.
Proof.
  intros Hk Hv. apply Z.bits_inj'. intros m Hm.
  rewrite Z.land_spec, Z.pow2_bits_eqb by lia.
  assert (Hpow : 2 ^ (k + 1) = 2 * 2 ^ k) by (rewrite Z.pow_add_r; lia).
  pose proof (Z.pow_pos_nonneg 2 k ltac:(lia) Hk) as Hpos.
  destruct (decide (v < 2 ^ k)) as [Hlt|Hge].
  - rewrite Z.bits_0. destruct (Z.eqb_spec k m) as [<-|]; [|apply andb_false_r].
    rewrite andb_true_r. destruct (decide (v = 0)) as [->|]; [apply Z.bits_0|].
    apply Z.bits_above_log2; [lia|]. apply Z.log2_lt_pow2; lia.
  - rewrite Z.pow2_bits_eqb by lia.
    destruct (Z.eqb_spec k m) as [<-|]; [|apply andb_false_r].
    rewrite andb_true_r. apply Z.testbit_true; [lia|].
    replace (v / 2 ^ k) with 1; [reflexivity|].
    apply Z.div_unique with (r := v - 2 ^ k); lia.
Qed.

Lemma extend_sign_spec (v n : Z) :
  1 <= n <= 24 -> 0 <= v < 2 ^ n ->
  extend_sign (Some v) (2 ^ (n - 1)) (2 ^ (33 - n) - 2)
  = if decide (v < 2 ^ (n - 1)) then v else v - 2 ^ n.
Proof.
  intros Hn Hv. unfold extend_sign, int_of. cbn [from_option id default].
  assert (Hp : 2 ^ n = 2 * 2 ^ (n - 1)).
  { replace n with (n - 1 + 1) at 1 by lia. rewrite Z.pow_add_r; lia. }
  pose proof (Z.pow_pos_nonneg 2 (n - 1) ltac:(lia) ltac:(lia)) as Hpos.
  pose proof (Z.pow_le_mono_r 2 n 24 ltac:(lia) ltac:(lia)) as Hle.
  change (2 ^ 24) with 16777216 in Hle.
  assert (Hband : band v (2 ^ (n - 1)) = if decide (v < 2 ^ (n - 1)) then 0 else 2 ^ (n - 1)).
  { unfold band. rewrite (ToInt32_small v), (ToInt32_small (2 ^ (n - 1)))
      by (change (2 ^ 31) with 2147483648; lia).
    rewrite land_bit by (replace (n - 1 + 1) with n by lia; lia).
    destruct (decide _); apply ToInt32_small; change (2 ^ 31) with 2147483648; lia. }
  rewrite Hband. destruct (decide (v < 2 ^ (n - 1))) as [Hlt|Hge].
  - rewrite Z.mul_0_l. unfold bor.
    rewrite (ToInt32_small v) by (change (2 ^ 31) with 2147483648; lia).
    change (ToInt32 0) with 0. rewrite Z.lor_0_r.
    apply ToInt32_small. change (2 ^ 31) with 2147483648. lia.
  - assert (Hm : 2 ^ (n - 1) * (2 ^ (33 - n) - 2) = 2 ^ 32 - 2 ^ n).
    { rewrite Z.mul_sub_distr_l, <- Z.pow_add_r by lia.
      replace (n - 1 + (33 - n)) with 32 by lia. lia. }
    rewrite Hm. unfold bor.
    rewrite (ToInt32_small v) by (change (2 ^ 31) with 2147483648; lia).
    assert (ToInt32 (2 ^ 32 - 2 ^ n) = (-1) * 2 ^ n) as ->.
    { unfold ToInt32. change (2 ^ 31) with 2147483648. change (2 ^ 32) with 4294967296.
      assert ((4294967296 - 2 ^ n + 2147483648) mod 4294967296 = 2147483648 - 2 ^ n) as E
        by (symmetry; apply Z.mod_unique with (q := 1); lia).
      rewrite E. lia. }
    rewrite Z.lor_comm, lor_disjoint by lia.
    rewrite ToInt32_small by (change (2 ^ 31) with 2147483648; lia). lia.
Qed.

Lemma shl_24_spec (b : Z) :
  0 <= b < 256 -> shl b 24 = if decide (b < 128) then b * 2 ^ 24 else b * 2 ^ 24 - 2 ^ 32.
Proof.
  intros Hb.
  assert (forallb (fun b => bool_decide
            (shl b 24 = if decide (b < 128) then b * 2 ^ 24 else b * 2 ^ 24 - 2 ^ 32))
            (map Z.of_nat (seq 0 256)) = true) as Hall by (vm_compute; reflexivity).
  pose proof (check_below _ _ Hall b ltac:(lia)) as H. cbv beta in H.
  now apply bool_decide_eq_true in H.
Qed.

Lemma extend_sign_8 (v : Z) :
  0 <= v < 256 ->
  extend_sign (Some v) 128 33554430 = if decide (v < 128) then v else v - 256.
Proof. intros H. exact (extend_sign_spec v 8 ltac:(lia) H). Qed.

Lemma extend_sign_16 (v : Z) :
  0 <= v < 65536 ->
  extend_sign (Some v) 32768 131070 = if decide (v < 32768) then v else v - 65536.
Proof. intros H. exact (extend_sign_spec v 16 ltac:(lia) H). Qed.

Lemma extend_sign_24 (v : Z) :
  0 <= v < 16777216 ->
  extend_sign (Some v) 8388608 510 = if decide (v < 8388608) then v else v - 16777216.
Proof. intros H. exact (extend_sign_spec v 24 ltac:(lia) H). Qed.

Lemma shl_24_byte (b : Z) :
  0 <= b < 256 ->
  shl b 24 = if decide (b < 128) then b * 16777216 else b * 16777216 - 4294967296.
Proof. exact (shl_24_spec b). Qed.

(** Replaces the closed powers of two and the closed conversions from
    [nat] by their values. *)
Ltac literals :=
  repeat match goal with
         | |- context [Z.of_nat ?n] =>
           let z := eval vm_compute in (Z.of_nat n) in
           progress change (Z.of_nat n) with z
         | |- context [Z.pow 2 ?e] =>
           let z := eval vm_compute in (Z.pow 2 e) in
           progress change (Z.pow 2 e) with z
         end.

(** Splits a window of known length into its elements, with the load of
    each one and its range. *)
Ltac explode_window Hwf Ho n :=
  let bs := fresh "bs" in
  let Hw := fresh "Hw" in
  let Hlen := fresh "Hlen" in
  let Hall := fresh "Hall" in
  let Hget := fresh "Hget" in
  match goal with
  | |- context [window ?buf ?offset _] =>
    destruct (window_elems buf n Hwf offset Ho ltac:(cbn; lia))
      as (bs & Hw & Hlen & Hall & Hget);
    let z := eval vm_compute in (Z.of_nat n) in
    change (Z.of_nat n) with z in Hw;
    rewrite Hw; clear Hw;
    repeat (destruct bs as [|? bs]; cbn [length] in Hlen; [lia|]);
    destruct bs; [|cbn [length] in Hlen; lia];
    repeat match type of Hall with
           | Forall _ (_ :: _) =>
             let Hb := fresh "Hb" in
             pose proof (Forall_inv Hall) as Hb; cbv beta in Hb;
             apply Forall_inv_tail in Hall
           end;
    clear Hall Hlen
  end.

Ltac loads Hget k :=
  let H := fresh "Hload" in
  pose proof (Hget k ltac:(lia)) as H;
  cbn [lookup list_lookup] in H;
  let z := eval vm_compute in (Z.of_nat k) in
  change (Z.of_nat k) with z in H;
  rewrite ?Z.add_0_r in H.

Ltac all_loads Hget n :=
  lazymatch n with
  | O => idtac
  | S ?k => loads Hget k; all_loads Hget k
  end.

Ltac unfold_readers :=
  unfold read_back, Ed2.readUIntLE, Ed2.readUIntBE, Ed2.readIntLE, Ed2.readIntBE;
  repeat match goal with
         | |- context [decide (?a = ?b)] => destruct (decide (a = b)); [try lia | try lia]
         end;
  unfold readUInt8, readUInt16LE, readUInt16BE, readUInt24LE, readUInt24BE,
    readUInt32LE, readUInt32BE, readUInt40LE, readUInt40BE, readUInt48LE, readUInt48BE,
    readInt8, readInt16LE, readInt16BE, readInt24LE, readInt24BE,
    readInt32LE, readInt32BE, readInt40LE, readInt40BE, readInt48LE, readInt48BE,
    readBigUInt64LE, readBigUInt64BE, readBigInt64LE, readBigInt64BE;
  cbn [default from_option id].

(** One reader on a window in bounds: the loads are replaced by the
    elements of the window, and what is left is arithmetic on bytes. *)
Ltac read_case Hwf Ho n :=
  explode_window Hwf Ho n;
  match goal with Hget : forall k : nat, _ |- _ => all_loads Hget n; clear Hget end;
  unfold_readers; mstep;
  try (erewrite read_ends_in by eassumption);
  repeat (progress (cbv beta iota zeta;
                    repeat match goal with
                           | H : elem_get _ _ = Some _ |- _ => rewrite H
                           end;
                    cbn [num_add num_mul int_of default from_option id];
                    unfold BigInt; mstep));
  do 3 f_equal;
  unfold value_of; cbn [big_endian signed andb reverse rev_append le_value len length];
  rewrite ?Z.shiftl_mul_pow2 by lia;
  literals;
  rewrite ?extend_sign_8, ?extend_sign_16, ?extend_sign_24, ?shl_24_byte by lia;
  repeat case_bool_decide; repeat destruct (decide _); lia.

(** On a window in bounds every integer read returns the number that the
    bytes of the window spell in the format of the method. *)
Lemma read_back_value (w : int_writer) (offset : Z) (buf : bytes) :
  wf_bytes buf -> valid_width w -> in_bounds buf offset (width w) ->
  read_back w offset buf
  = (buf, inr (Some (value_of w (window buf offset (offset + width w))))).
Proof.
  intros Hwf Hv [Ho Hl].
  destruct w; cbn [width valid_width] in *;
    try match goal with
        | H : 1 <= ?n <= 6 |- _ =>
          assert (n = 1 \/ n = 2 \/ n = 3 \/ n = 4 \/ n = 5 \/ n = 6) as Hn by lia;
          destruct Hn as [-> | [-> | [-> | [-> | [-> | ->]]]]]
        end;
    match goal with
    | |- context [window _ _ (_ + 1)] => read_case Hwf Ho 1%nat
    | |- context [window _ _ (_ + 2)] => read_case Hwf Ho 2%nat
    | |- context [window _ _ (_ + 3)] => read_case Hwf Ho 3%nat
    | |- context [window _ _ (_ + 4)] => read_case Hwf Ho 4%nat
    | |- context [window _ _ (_ + 5)] => read_case Hwf Ho 5%nat
    | |- context [window _ _ (_ + 6)] => read_case Hwf Ho 6%nat
    | |- context [window _ _ (_ + 8)] => read_case Hwf Ho 8%nat
    end.
Qed.

Ltac raise_range :=
  mstep; cbv beta iota zeta;
  repeat match goal with
         | |- context [decide (?a < ?b)] => destruct (decide (a < b))
         end;
  eexists; split; reflexivity.

(** Outside the buffer, or with a byte length that is not from 1 to 6,
    every integer read raises a [RangeError]. *)
Lemma read_back_out_of_bounds (w : int_writer) (offset : Z) (buf : bytes) :
  ~ valid_width w \/ ~ in_bounds buf offset (width w) ->
  exists e, read_back w offset buf = (buf, inl e) /\ error_class e = RangeError.
Proof.
  intros H.
  assert (Hone : ~ in_bounds buf offset 1 -> elem_get buf offset = None).
  { unfold in_bounds. intros Hout. apply elem_get_None. lia. }
  destruct w; cbn [width valid_width] in H;
    try match goal with
        | H : ~ 1 <= ?n <= 6 \/ _ |- _ =>
          destruct (decide (1 <= n <= 6)) as [Hn|Hn];
          [assert (n = 1 \/ n = 2 \/ n = 3 \/ n = 4 \/ n = 5 \/ n = 6) as Hn' by lia;
           destruct Hn' as [-> | [-> | [-> | [-> | [-> | ->]]]]]
          |]
        end;
    unfold_readers;
    try (destruct H as [H|H]; [tauto || lia |]);
    try match goal with
        | |- context [read_ends ?o ?k] =>
          let e := fresh "e" in
          let He := fresh "He" in
          let Hc := fresh "Hc" in
          destruct (read_ends_out buf o k ltac:(lia) H) as (e & He & Hc);
          mstep; rewrite He; exists e; split; [reflexivity | exact Hc]
        end;
    mstep; try (rewrite Hone by exact H); raise_range.
Qed.

(** ** Integer writes: the bytes stored *)

Lemma elem_get_put (buf : bytes) (i j v : Z) :
  0 <= i < len buf ->
  elem_get (elem_put buf i v) j = if decide (i = j) then Some (ToUint8 v) else elem_get buf j.
Proof.
  intros Hi. destruct (decide (i = j)) as [<-|Hne].
  - now apply elem_get_put_eq.
  - now apply elem_get_put_ne.
Qed.

Lemma window_ext (buf bs : bytes) (offset : Z) :
  0 <= offset -> offset + len bs <= len buf ->
  (forall k, (k < length bs)%nat -> elem_get buf (offset + Z.of_nat k) = bs !! k) ->
  window buf offset (offset + len bs) = bs.
Proof.
  intros Ho Hl Hget. unfold window, len in *.
  apply list_eq. intros k.
  destruct (decide (k < length bs)%nat) as [Hk|Hk].
  - rewrite lookup_take_lt by lia. rewrite lookup_drop.
    rewrite <- (Hget k Hk). unfold elem_get.
    destruct (decide (0 <= offset + Z.of_nat k)); [|lia]. f_equal. lia.
  - rewrite lookup_take_ge by lia. symmetry. apply lookup_ge_None. lia.
Qed.

(** The arithmetic of one stored byte. *)
Ltac byte_arith :=
  unfold ToUint8, ushr, sshr, ToUint32, ToInt32;
  change 4294967295 with (Z.ones 32);
  rewrite ?Z.land_ones by lia;
  rewrite ?Z.shiftr_div_pow2 by lia;
  literals;
  Z.div_mod_to_equations; lia.

Ltac stored_bytes :=
  intros [|[|[|[|[|[|[|[|k]]]]]]]] Hk; cbn [length] in Hk; try lia;
  cbn [lookup list_lookup]; literals; rewrite ?Z.add_0_r;
  repeat (rewrite elem_get_put by (rewrite ?len_elem_put; lia);
          destruct (decide _); [try lia | try lia]);
  try (f_equal; byte_arith).

(** One accepted internal writer: the buffer after the stores, its
    length, the bytes of the window and the bytes outside it. *)
Ltac write_case Hwf :=
  try (rewrite bind_accept with (a := tt) by (apply checkInt_accept; lia));
  mstep;
  eexists; split; [f_equal; f_equal; lia|];
  split; [now rewrite ?len_elem_put|];
  split; [repeat apply wf_elem_put; exact Hwf|];
  split;
  [ match goal with
    | |- window ?b ?o _ = ?bs =>
      let n := eval vm_compute in (len bs) in
      replace (o + n) with (o + len bs) by reflexivity;
      apply window_ext;
      [lia | rewrite ?len_elem_put; change (len bs) with n; lia | stored_bytes]
    end
  | intros k Hk; repeat (rewrite elem_get_put_ne by lia); reflexivity ].

Ltac literals_in H :=
  repeat match type of H with
         | context [Z.pow 2 ?e] =>
           let z := eval vm_compute in (Z.pow 2 e) in
           progress change (Z.pow 2 e) with z in H
         end.

(** An accepted write stores the bytes of the value in the format of the
    method, and nothing else. *)
Lemma call_bytes (w : int_writer) (value offset : Z) (buf : bytes) :
  wf_bytes buf -> valid_width w -> representable w value ->
  in_bounds buf offset (width w) ->
  exists buf', call w value offset buf = (buf', inr (offset + width w))
    /\ len buf' = len buf
    /\ wf_bytes buf'
    /\ window buf' offset (offset + width w) = bytes_of w value
    /\ forall k, ~ offset <= k < offset + width w -> elem_get buf' k = elem_get buf k.
Proof.
  unfold representable, in_bounds, bytes_of. intros Hwf Hn Hv [Ho Hl].
  destruct w; cbn [width valid_width signed big_endian call] in *;
    try match goal with
        | H : 1 <= ?n <= 6 |- _ =>
          assert (n = 1 \/ n = 2 \/ n = 3 \/ n = 4 \/ n = 5 \/ n = 6) as Hn' by lia;
          destruct Hn' as [-> | [-> | [-> | [-> | [-> | ->]]]]]
        end;
    literals_in Hv;
    unfold writeUInt8, writeUInt16LE, writeUInt16BE, writeUInt32LE, writeUInt32BE,
      writeInt8, writeInt16LE, writeInt16BE, writeInt32LE, writeInt32BE,
      writeBigUInt64LE, writeBigUInt64BE, writeBigInt64LE, writeBigInt64BE,
      writeUIntLE, writeUIntBE, writeIntLE, writeIntBE;
    cbv beta iota delta [from_option id default];
    repeat match goal with
           | |- context [decide (?a = ?b)] => destruct (decide (a = b)); [try lia | try lia]
           end;
    match goal with
    | |- context [Z.to_nat ?k] =>
      let n := eval vm_compute in (Z.to_nat k) in change (Z.to_nat k) with n
    end;
    cbn [le_digits reverse rev_append];
    unfold writeU_Int8, writeU_Int16LE, writeU_Int16BE, writeU_Int24LE, writeU_Int24BE,
      writeU_Int32LE, writeU_Int32BE, writeU_Int40LE, writeU_Int40BE,
      writeU_Int48LE, writeU_Int48BE, writeBigU_Int64LE, writeBigU_Int64BE;
    try (mstep; rewrite bool_decide_eq_false_2 by lia; mstep;
         destruct (elem_get_Some buf offset) as [v0 Hg]; [lia|]; rewrite Hg;
         rewrite bool_decide_eq_false_2 by discriminate);
    write_case Hwf.
Qed.

(** ** Integer reads and writes: the format and the round trip *)

Lemma le_value_digits (n : nat) (v : Z) :
  le_value (le_digits n v) = v mod 256 ^ Z.of_nat n.
Proof.
  revert v. induction n as [|n IH]; intros v; cbn [le_digits le_value].
  - now rewrite Z.mod_1_r.
  - rewrite IH, Nat2Z.inj_succ, Z.pow_succ_r by lia.
    rewrite Z.rem_mul_r; [lia | lia |].
    apply Z.pow_pos_nonneg; lia.
Qed.

Lemma length_le_digits (n : nat) (v : Z) : length (le_digits n v) = n.
Proof. revert v. induction n as [|n IH]; intros v; cbn; [reflexivity | now rewrite IH]. Qed.

Lemma width_range (w : int_writer) : valid_width w -> 1 <= width w <= 8.
Proof. destruct w; cbn; lia. Qed.

(** The bytes of a representable value spell that value. *)
Lemma value_of_bytes_of (w : int_writer) (v : Z) :
  valid_width w -> representable w v -> value_of w (bytes_of w v) = v.
Proof.
  intros Hw Hv. pose proof (width_range w Hw) as Hr.
  unfold value_of, bytes_of, representable in *.
  set (n := Z.to_nat (width w)).
  assert (Hlen : len (if big_endian w then reverse (le_digits n v) else le_digits n v)
                 = width w).
  { unfold len. destruct (big_endian w); rewrite ?length_reverse, length_le_digits;
      subst n; lia. }
  rewrite Hlen.
  assert (Hu : le_value (if big_endian w
                         then reverse (if big_endian w then reverse (le_digits n v)
                                       else le_digits n v)
                         else if big_endian w then reverse (le_digits n v)
                              else le_digits n v)
               = v mod 2 ^ (8 * width w)).
  { destruct (big_endian w); rewrite ?reverse_involutive, le_value_digits;
      subst n; rewrite Z2Nat.id by lia;
      change 256 with (2 ^ 8); now rewrite <- Z.pow_mul_r by lia. }
  rewrite Hu.
  assert (Hp : 2 ^ (8 * width w) = 2 * 2 ^ (8 * width w - 1)).
  { replace (8 * width w) with (8 * width w - 1 + 1) at 1 by lia.
    rewrite Z.pow_add_r; lia. }
  pose proof (Z.pow_pos_nonneg 2 (8 * width w - 1) ltac:(lia) ltac:(lia)) as Hpos.
  destruct (signed w); cbn [andb].
  - destruct (decide (0 <= v)) as [Hnn|Hneg].
    + rewrite Z.mod_small by lia. rewrite bool_decide_eq_false_2 by lia. reflexivity.
    + assert (v mod 2 ^ (8 * width w) = v + 2 ^ (8 * width w)) as ->
        by (symmetry; apply Z.mod_unique with (q := -1); lia).
      rewrite bool_decide_eq_true_2 by lia. lia.
  - apply Z.mod_small. lia.
Qed.

(** What an integer read returns: on a window in bounds, the number that
    the bytes of the window spell in the format of the method (byte order,
    width, two's complement for the signed methods); never NaN. *)
Theorem int_read_value (w : int_writer) (offset : Z) (buf : bytes) :
  wf_bytes buf -> valid_width w -> in_bounds buf offset (width w) ->
  read_back w offset buf
  = (buf, inr (Some (value_of w (window buf offset (offset + width w))))).
Proof. exact (read_back_value w offset buf). Qed.

Lemma int_read_value_witness :
  read_back WriteInt16BE 1 [0; 0xff; 0xfe; 0]
  = (([0; 0xff; 0xfe; 0] : bytes), inr (Some (-2))).
Proof.
  apply (int_read_value WriteInt16BE 1 [0; 0xff; 0xfe; 0]).
  - repeat constructor; lia.
  - exact I.
  - unfold in_bounds, len; cbn; lia.
Defined.

(** An integer read whose window is not within the buffer, or whose byte
    length is not from 1 to 6, raises a [RangeError]. *)
Theorem int_read_out_of_bounds (w : int_writer) (offset : Z) (buf : bytes) :
  ~ valid_width w \/ ~ in_bounds buf offset (width w) ->
  exists e, read_back w offset buf = (buf, inl e) /\ error_class e = RangeError.
Proof. exact (read_back_out_of_bounds w offset buf). Qed.

Lemma int_read_out_of_bounds_witness :
  exists e, read_back WriteUInt32LE 1 [1; 2; 3; 4] = (([1; 2; 3; 4] : bytes), inl e)
            /\ error_class e = RangeError.
Proof.
  apply (int_read_out_of_bounds WriteUInt32LE 1 [1; 2; 3; 4]).
  right. unfold in_bounds, len; cbn; lia.
Defined.

(** The format of an accepted integer write: the window receives the
    bytes of the value, least significant first for the LE methods and
    most significant first for the BE methods, in two's complement for a
    negative value; the call returns the offset past the window, and no
    byte outside the window changes. *)
Theorem int_write_bytes (w : int_writer) (value offset : Z) (buf : bytes) :
  wf_bytes buf -> valid_width w -> representable w value ->
  in_bounds buf offset (width w) ->
  exists buf', call w value offset buf = (buf', inr (offset + width w))
    /\ len buf' = len buf
    /\ window buf' offset (offset + width w) = bytes_of w value
    /\ forall k, ~ offset <= k < offset + width w -> elem_get buf' k = elem_get buf k.
Proof.
  intros Hwf Hn Hv Hb.
  destruct (call_bytes w value offset buf Hwf Hn Hv Hb) as (buf' & H1 & H2 & _ & H3 & H4).
  eauto.
Qed.

Lemma int_write_bytes_witness :
  exists buf', call WriteInt32BE (-2) 1 [7; 0; 0; 0; 0; 9] = (buf', inr (1 + 4))
    /\ len buf' = 6
    /\ window buf' 1 (1 + 4) = [0xff; 0xff; 0xff; 0xfe]
    /\ forall k, ~ 1 <= k < 1 + 4 -> elem_get buf' k = elem_get [7; 0; 0; 0; 0; 9] k.
Proof.
  apply (int_write_bytes WriteInt32BE (-2) 1 [7; 0; 0; 0; 0; 9]).
  - repeat constructor; lia.
  - exact I.
  - cbn. lia.
  - unfold in_bounds, len; cbn; lia.
Defined.

(** Round trip: after an accepted integer write, the read method of the
    same name returns the value written, at every width, byte order and
    signedness. *)
Theorem int_write_read_round_trip (w : int_writer) (value offset : Z) (buf : bytes) :
  wf_bytes buf -> valid_width w -> representable w value ->
  in_bounds buf offset (width w) ->
  exists buf', call w value offset buf = (buf', inr (offset + width w))
               /\ read_back w offset buf' = (buf', inr (Some value)).
Proof.
  intros Hwf Hn Hv Hb.
  destruct (call_bytes w value offset buf Hwf Hn Hv Hb)
    as (buf' & Hrun & Hlen & Hwf' & Hwin & _).
  exists buf'. split; [exact Hrun|].
  rewrite read_back_value; [| exact Hwf' | exact Hn |].
  - now rewrite Hwin, value_of_bytes_of.
  - unfold in_bounds in *. rewrite Hlen. exact Hb.
Qed.

Lemma int_write_read_round_trip_witness :
  exists buf', call (WriteIntLE 6) (-3) 2 [0; 0; 0; 0; 0; 0; 0; 0] = (buf', inr (2 + 6))
               /\ read_back (WriteIntLE 6) 2 buf' = (buf', inr (Some (-3))).
Proof.
  apply (int_write_read_round_trip (WriteIntLE 6) (-3) 2 [0; 0; 0; 0; 0; 0; 0; 0]).
  - repeat constructor; lia.
  - cbn. lia.
  - cbn. lia.
  - unfold in_bounds, len; cbn; lia.
Defined.



(** ** UTF-16LE *)

Lemma ucs2_unit_bytes (c : Z) :
  0 <= c < 65536 ->
  ToUint8 (band c 0xFF) = c mod 256 /\ ToUint8 (sshr c 8) = c / 256
  /\ 0 <= c mod 256 < 256 /\ 0 <= c / 256 < 256.
Proof.
  intros Hc. change 0xFF with (Z.ones 8).
  rewrite band_low by (change (2 ^ 31) with 2147483648; lia).
  rewrite sshr_small by (change (2 ^ 31) with 2147483648; lia).
  change (2 ^ 8) with 256. unfold ToUint8.
  assert (0 <= c mod 256 < 256) by (apply Z.mod_pos_bound; lia).
  assert (0 <= c / 256 < 256) by (split; [apply Z.div_pos | apply Z.div_lt_upper_bound]; lia).
  rewrite (Z.mod_small (c mod 256)), (Z.mod_small (c / 256)) by lia. lia.
Qed.

Lemma ucs2Slice_loop_bytes (s : jsstring) :
  wf_string s -> ucs2Slice_loop (ucs2_bytes s) = s.
Proof.
  induction 1 as [|c s Hc _ IH]; [reflexivity|].
  cbn [ucs2_bytes map concat app ucs2Slice_loop]. fold (ucs2_bytes s). rewrite IH. f_equal.
  destruct (ucs2_unit_bytes c Hc) as (_ & _ & Hlo & Hhi).
  rewrite shl_small by (change (2 ^ 31) with 2147483648; change (2 ^ 8) with 256; lia).
  change (2 ^ 8) with 256. unfold fromCharCode, ToUint16.
  pose proof (Z.div_mod c 256 ltac:(lia)). rewrite Z.mod_small; lia.
Qed.

Lemma len_ucs2_bytes (s : jsstring) : len (ucs2_bytes s) = 2 * len s.
Proof.
  induction s as [|c s IH]; [reflexivity|].
  cbn [ucs2_bytes map concat]. fold (ucs2_bytes s).
  rewrite len_app, IH. change (len [c mod 256; c / 256]) with 2. rewrite len_cons. lia.
Qed.

(** The loop of [ucs2Write] stores the bytes of as many whole units as
    [length] has room for, and touches nothing else. *)
Lemma ucs2Write_loop_spec (s : jsstring) :
  wf_string s ->
  forall (offset length written m : Z) (buf : bytes),
    0 <= offset -> 0 <= length -> offset + length <= len buf ->
    m = Z.min (len s) (length / 2) ->
    exists buf',
      ucs2Write_loop s offset length written buf = (buf', inr (written + 2 * m))
      /\ len buf' = len buf
      /\ (forall j, j < offset -> elem_get buf' j = elem_get buf j)
      /\ (forall j, offset + 2 * m <= j -> elem_get buf' j = elem_get buf j)
      /\ (forall k, 0 <= k < len (ucs2_bytes (take (Z.to_nat m) s)) ->
                    elem_get buf' (offset + k)
                    = elem_get (ucs2_bytes (take (Z.to_nat m) s)) k).
Proof.
  induction 1 as [|c s Hc Hs IH]; intros offset length written m buf Ho Hl Hfit Hm.
  - assert (m = 0) as ->.
    { change (len []) with 0 in Hm. pose proof (Z.div_pos length 2 Hl ltac:(lia)). lia. }
    exists buf. cbn. rewrite Z.add_0_r. repeat split; try reflexivity. intros k Hk.
    rewrite take_nil in Hk. change (len (ucs2_bytes [])) with 0 in Hk. lia.
  - cbn [ucs2Write_loop]. rewrite len_cons in Hm. pose proof (len_nonneg s) as Hls.
    destruct (decide (length - 2 < 0)) as [Hshort|Hroom].
    + assert (m = 0) as ->.
      { assert (length / 2 = 0) by (apply Z.div_small; lia). lia. }
      exists buf. cbn. rewrite Z.add_0_r. repeat split; try reflexivity. intros k Hk.
      change (Z.to_nat 0) with 0%nat in Hk. rewrite take_0 in Hk.
      change (len (ucs2_bytes [])) with 0 in Hk. lia.
    + assert (Hdiv : (length - 2) / 2 = length / 2 - 1).
      { replace (length - 2) with (length + (-1) * 2) by lia.
        rewrite Z.div_add by lia. lia. }
      assert (1 <= length / 2) by (apply Z.div_le_lower_bound; lia).
      unfold mbind, M_bind, store. cbv beta iota.
      set (buf1 := elem_put (elem_put buf offset (band c 255)) (offset + 1) (sshr c 8)).
      destruct (IH (offset + 2) (length - 2) (written + 2) (m - 1) buf1)
        as (buf' & Hrun & Hl' & Hleft & Hright & Hc');
        [lia | lia | subst buf1; rewrite !len_elem_put; lia | lia |].
      destruct (ucs2_unit_bytes c Hc) as (Hb0 & Hb1 & _ & _).
      assert (Htake : take (Z.to_nat m) (c :: s) = c :: take (Z.to_nat (m - 1)) s).
      { replace (Z.to_nat m) with (S (Z.to_nat (m - 1))) by lia. reflexivity. }
      rewrite Htake. cbn [ucs2_bytes map concat]. fold (ucs2_bytes (take (Z.to_nat (m - 1)) s)).
      exists buf'. rewrite Hrun. split; [do 2 f_equal; lia|].
      assert (Hl1 : len buf1 = len buf) by (subst buf1; now rewrite !len_elem_put).
      destruct (written_prefix [c mod 256; c / 256] (ucs2_bytes (take (Z.to_nat (m - 1)) s))
                  buf buf1 buf' offset) as (H1 & H2 & H3);
        [exact Ho | exact Hl1 | | | exact Hl' | | |].
      * intros j Hj. subst buf1. now rewrite !elem_get_put_ne by lia.
      * intros k Hk. change (len [c mod 256; c / 256]) with 2 in Hk.
        assert (k = 0 \/ k = 1) as [-> | ->] by lia; subst buf1.
        -- rewrite Z.add_0_r, elem_get_put_ne, elem_get_put_eq by lia.
           now rewrite Hb0.
        -- rewrite elem_get_put_eq by (rewrite len_elem_put; lia). now rewrite Hb1.
      * intros j Hj. change (len [c mod 256; c / 256]) with 2 in Hj. apply Hleft. lia.
      * intros k Hk. change (len [c mod 256; c / 256]) with 2. exact (Hc' k Hk).
      * split; [exact H1|]. split; [exact H2|]. split; [|exact H3].
        intros j Hj. rewrite Hright by lia. subst buf1.
        now rewrite !elem_get_put_ne by lia.
Qed.



(** ** The one-byte codecs: round trips *)

Lemma map_id_on (f : Z -> Z) (l : list Z) :
  Forall (fun x => f x = x) l -> map f l = l.
Proof. induction 1 as [|x l Hx _ IH]; cbn; [reflexivity | now rewrite Hx, IH]. Qed.

(** A string whose units are below [2^n] is stored unit for unit by the
    masked write loop. *)
Lemma write_masked_small (s : jsstring) (offset n : Z) (buf : bytes) :
  0 <= n <= 8 -> Forall (fun c => 0 <= c < 2 ^ n) s ->
  0 <= offset -> offset + len s <= len buf ->
  exists buf', write_masked s offset (len s) 0xFF buf = (buf', inr tt)
               /\ len buf' = len buf
               /\ window buf' offset (offset + len s) = s
               /\ (forall k, ~ offset <= k < offset + len s ->
                     elem_get buf' k = elem_get buf k).
Proof.
  intros Hn Hs Ho Hfit. pose proof (len_nonneg s) as Hls.
  pose proof (Z.pow_le_mono_r 2 n 8 ltac:(lia) ltac:(lia)) as Hpow.
  change (2 ^ 8) with 256 in Hpow.
  assert (Hwf : wf_string s).
  { eapply Forall_impl; [|exact Hs]. cbv beta. intros c Hc. lia. }
  destruct (write_masked_spec s offset (len s) 8 buf) as (buf' & Hrun & Hlen & Hin & Hout);
    try assumption; try lia.
  exists buf'. change 255 with (Z.ones 8). split; [exact Hrun|]. split; [exact Hlen|].
  split; [|exact Hout].
  apply window_content; [lia | lia |]. intros k Hk.
  destruct (Hin k Hk) as (c & Hc & Hg). rewrite Hg.
  change (charCodeAt s k) with (elem_get s k) in Hc. rewrite Hc. f_equal.
  pose proof (wf_elem_get_gen _ s k c Hs Hc) as Hr. cbv beta in Hr.
  rewrite Z.land_ones by lia. change (2 ^ 8) with 256. apply Z.mod_small. lia.
Qed.

(** Round trip of the one-byte codecs. A string of units below 256,
    written with [latin1Write] where it fits, is stored unit for unit and
    read back unchanged by [latin1Slice]; a string of units below 128,
    written with [asciiWrite] of either edition, is read back unchanged by
    [asciiSlice]. No byte outside the window changes. *)
Theorem one_byte_codecs_round_trip (s : jsstring) (offset : Z) (buf : bytes) :
  0 <= offset -> offset + len s <= len buf ->
  (Forall (fun c => 0 <= c < 256) s ->
   exists buf',
     latin1Write s (Some offset) None buf = (buf', inr (len s))
     /\ window buf' offset (offset + len s) = s
     /\ (forall k, ~ offset <= k < offset + len s -> elem_get buf' k = elem_get buf k)
     /\ latin1Slice buf' (Some offset) (Some (offset + len s)) = inr s)
  /\ (Forall (fun c => 0 <= c < 128) s ->
      exists buf',
        Ed1.asciiWrite s (Some offset) None buf = (buf', inr (len s))
        /\ Ed2.asciiWrite s (Some offset) None buf = (buf', inr (len s))
        /\ window buf' offset (offset + len s) = s
        /\ (forall k, ~ offset <= k < offset + len s -> elem_get buf' k = elem_get buf k)
        /\ Ed1.asciiSlice buf' (Some offset) (Some (offset + len s)) = inr s
        /\ Ed2.asciiSlice buf' (Some offset) (Some (offset + len s)) = inr s).
Proof.
  intros Ho Hfit. pose proof (len_nonneg s) as Hls.
  assert (Hmin : Z.min (Z.min (len buf - offset) (len s)) (len s) = len s) by lia.
  split; intros Hs.
  - destruct (write_masked_small s offset 8 buf) as (buf' & Hrun & Hlen & Hwin & Hout);
      try assumption; try lia.
    exists buf'. split; [|split; [exact Hwin|split; [exact Hout|]]].
    + unfold latin1Write. cbn [from_option id default].
      destruct (decide _); [lia|].
      cbv beta iota delta [mbind M_bind mret M_ret this_length throw].
      destruct (decide _); [lia|]. rewrite Hmin, Hrun. reflexivity.
    + unfold latin1Slice. rewrite slice_window_in_range by lia. rewrite Hwin.
      f_equal. apply map_id_on. eapply Forall_impl; [|exact Hs]. cbv beta.
      intros c Hc. unfold fromCharCode, ToUint16. apply Z.mod_small. lia.
  - destruct (write_masked_small s offset 7 buf) as (buf' & Hrun & Hlen & Hwin & Hout);
      try assumption; try lia.
    assert (Hslice : map (fun b => fromCharCode (band b 0x7F)) s = s).
    { apply (map_id_on (fun b => fromCharCode (band b 0x7F))).
      eapply Forall_impl; [|exact Hs]. cbv beta. intros c Hc.
      change 127 with (Z.ones 7).
      rewrite band_low by (change (2 ^ 31) with 2147483648; lia).
      change (2 ^ 7) with 128. rewrite (Z.mod_small c 128) by lia.
      unfold fromCharCode, ToUint16. apply Z.mod_small. lia. }
    exists buf'.
    assert (Hw : forall aw : jsstring -> option Z -> option Z -> M Z,
               aw = Ed1.asciiWrite \/ aw = Ed2.asciiWrite ->
               aw s (Some offset) None buf = (buf', inr (len s))).
    { intros aw [-> | ->]; unfold Ed1.asciiWrite, Ed2.asciiWrite;
        cbn [from_option id default];
        (destruct (decide _); [lia|]);
        cbv beta iota delta [mbind M_bind mret M_ret this_length throw];
        (destruct (decide _); [lia|]); rewrite Hmin, Hrun; reflexivity. }
    split; [apply Hw; now left|]. split; [apply Hw; now right|].
    split; [exact Hwin|]. split; [exact Hout|].
    unfold Ed1.asciiSlice, Ed2.asciiSlice. rewrite slice_window_in_range by lia.
    rewrite Hwin. change 0x7f with 0x7F. rewrite Hslice. split; reflexivity.
Qed.

Lemma one_byte_codecs_round_trip_witness :
  exists buf',
    latin1Write [0x68; 0xE9] (Some 1) None [0; 0; 0; 0] = (buf', inr (len [0x68; 0xE9]))
    /\ window buf' 1 (1 + len [0x68; 0xE9]) = [0x68; 0xE9]
    /\ (forall k, ~ 1 <= k < 1 + len [0x68; 0xE9] -> elem_get buf' k = elem_get [0; 0; 0; 0] k)
    /\ latin1Slice buf' (Some 1) (Some (1 + len [0x68; 0xE9])) = inr [0x68; 0xE9].
Proof.
  apply (one_byte_codecs_round_trip [0x68; 0xE9] 1 [0; 0; 0; 0]).
  - lia.
  - unfold len; cbn; lia.
  - repeat constructor; lia.
Defined.

(** ** Base64: the round trip of the second edition's codec *)

(** Every symbol of the encoding table is in the alphabet that the decoder
    accepts, and the decoding table sends it back to its index. *)
Lemma enc_dec (x : Z) :
  0 <= x < 64 ->
  Ed2.is_symbol (Ed2.enc x) = true /\ Ed2.enc x <> 61
  /\ default 0 (elem_get Ed2.kBase64DecMap (Ed2.enc x)) = x
  /\ 0 <= Ed2.enc x < 128.
Proof.
  intros Hx.
  assert (forallb (fun x => bool_decide
            (Ed2.is_symbol (Ed2.enc x) = true /\ Ed2.enc x <> 61
             /\ default 0 (elem_get Ed2.kBase64DecMap (Ed2.enc x)) = x
             /\ 0 <= Ed2.enc x < 128))
            (map Z.of_nat (seq 0 64)) = true) as Hall by (vm_compute; reflexivity).
  pose proof (check_below _ _ Hall x ltac:(lia)) as H. cbv beta in H.
  now apply bool_decide_eq_true in H.
Qed.

(** The bit fields that the encoder cuts out of a byte. *)
Lemma byte_fields (c : Z) :
  0 <= c < 256 ->
  band (sshr c 2) 63 = c / 4 /\ band (shl c 4) 63 = c mod 4 * 16
  /\ band (sshr c 4) 15 = c / 16 /\ band (shl c 2) 63 = c mod 16 * 4
  /\ band (sshr c 6) 3 = c / 64 /\ band c 63 = c mod 64.
Proof.
  intros Hc.
  assert (forallb (fun c => bool_decide
            (band (sshr c 2) 63 = c / 4 /\ band (shl c 4) 63 = c mod 4 * 16
             /\ band (sshr c 4) 15 = c / 16 /\ band (shl c 2) 63 = c mod 16 * 4
             /\ band (sshr c 6) 3 = c / 64 /\ band c 63 = c mod 64))
            (map Z.of_nat (seq 0 256)) = true) as Hall by (vm_compute; reflexivity).
  pose proof (check_below _ _ Hall c ltac:(lia)) as H. cbv beta in H.
  now apply bool_decide_eq_true in H.
Qed.

(** The bit fields that the decoder cuts out of a 6-bit group. *)
Lemma sextet_fields (a : Z) :
  0 <= a < 64 ->
  band (shl a 2) 255 = a * 2 ^ 2 /\ band (sshr a 4) 3 = a / 16
  /\ band (shl a 4) 255 = a mod 16 * 2 ^ 4 /\ band (sshr a 2) 15 = a / 4
  /\ band (shl a 6) 255 = a mod 4 * 2 ^ 6 /\ band a 63 = a.
Proof.
  intros Ha.
  assert (forallb (fun a => bool_decide
            (band (shl a 2) 255 = a * 2 ^ 2 /\ band (sshr a 4) 3 = a / 16
             /\ band (shl a 4) 255 = a mod 16 * 2 ^ 4 /\ band (sshr a 2) 15 = a / 4
             /\ band (shl a 6) 255 = a mod 4 * 2 ^ 6 /\ band a 63 = a))
            (map Z.of_nat (seq 0 64)) = true) as Hall by (vm_compute; reflexivity).
  pose proof (check_below _ _ Hall a ltac:(lia)) as H. cbv beta in H.
  now apply bool_decide_eq_true in H.
Qed.

Lemma bor_comm (a b : Z) : bor a b = bor b a.
Proof. unfold bor. now rewrite Z.lor_comm. Qed.

(** The three bytes that the decoder puts together from four 6-bit
    groups. *)
Lemma decode_byte_0 (a b : Z) :
  0 <= a < 64 -> 0 <= b < 64 ->
  bor (band (shl a 2) 255) (band (sshr b 4) 3) = a * 4 + b / 16.
Proof.
  intros Ha Hb. destruct (sextet_fields a Ha) as (-> & _).
  destruct (sextet_fields b Hb) as (_ & -> & _).
  rewrite bor_disjoint; change (2 ^ 2) with 4; change (2 ^ 31) with 2147483648;
    try lia; Z.div_mod_to_equations; lia.
Qed.

Lemma decode_byte_1 (a b : Z) :
  0 <= a < 64 -> 0 <= b < 64 ->
  bor (band (shl a 4) 255) (band (sshr b 2) 15) = a mod 16 * 16 + b / 4.
Proof.
  intros Ha Hb. destruct (sextet_fields a Ha) as (_ & _ & -> & _).
  destruct (sextet_fields b Hb) as (_ & _ & _ & -> & _).
  rewrite bor_disjoint; change (2 ^ 4) with 16; change (2 ^ 31) with 2147483648;
    try lia; Z.div_mod_to_equations; lia.
Qed.

Lemma decode_byte_2 (a b : Z) :
  0 <= a < 64 -> 0 <= b < 64 ->
  bor (band (shl a 6) 255) (band b 63) = a mod 4 * 64 + b.
Proof.
  intros Ha Hb. destruct (sextet_fields a Ha) as (_ & _ & _ & _ & -> & _).
  destruct (sextet_fields b Hb) as (_ & _ & _ & _ & _ & ->).
  rewrite bor_disjoint; change (2 ^ 6) with 64; change (2 ^ 31) with 2147483648;
    try lia; Z.div_mod_to_equations; lia.
Qed.

(** Induction over a list three elements at a time. *)
Lemma list_ind3 (P : list Z -> Prop) :
  P [] -> (forall a, P [a]) -> (forall a b, P [a; b]) ->
  (forall a b c l, P l -> P (a :: b :: c :: l)) ->
  forall l, P l.
Proof.
  intros H0 H1 H2 H3.
  assert (forall n l, (length l <= n)%nat -> P l) as H.
  { induction n as [|n IH]; intros l Hl.
    - destruct l; [exact H0 | cbn in Hl; lia].
    - destruct l as [|a [|b [|c l]]]; auto. apply H3, IH. cbn in Hl. lia. }
  intros l. exact (H (length l) l (le_n _)).
Qed.

(** The encoder emits the symbol of each 6-bit group. *)
Lemma base64Encode_loop_sextets (s : bytes) :
  wf_bytes s -> Ed2.base64Encode_loop s = map Ed2.enc (sextets s).
Proof.
  unfold wf_bytes. induction s as [| a | a b | a b c l IH] using list_ind3; intros Hwf.
  - reflexivity.
  - apply Forall_cons_1 in Hwf as [Ha _].
    destruct (byte_fields a Ha) as (E1 & E2 & _).
    cbn [Ed2.base64Encode_loop sextets map]. now rewrite E1, E2.
  - apply Forall_cons_1 in Hwf as [Ha Hwf]. apply Forall_cons_1 in Hwf as [Hb _].
    destruct (byte_fields a Ha) as (E1 & E2 & _).
    destruct (byte_fields b Hb) as (_ & _ & E3 & E4 & _).
    cbn [Ed2.base64Encode_loop sextets map]. rewrite E1, E2, E3, E4.
    rewrite bor_comm. change (a mod 4 * 16) with (a mod 4 * 2 ^ 4).
    rewrite bor_disjoint; change (2 ^ 4) with 16; change (2 ^ 31) with 2147483648;
      try lia; try (Z.div_mod_to_equations; lia). reflexivity.
  - apply Forall_cons_1 in Hwf as [Ha Hwf]. apply Forall_cons_1 in Hwf as [Hb Hwf].
    apply Forall_cons_1 in Hwf as [Hc Hwf].
    destruct (byte_fields a Ha) as (E1 & E2 & _).
    destruct (byte_fields b Hb) as (_ & _ & E3 & E4 & _).
    destruct (byte_fields c Hc) as (_ & _ & _ & _ & E5 & E6).
    cbn [Ed2.base64Encode_loop sextets map]. rewrite E1, E2, E3, E4, E5, E6, IH by exact Hwf.
    rewrite (bor_comm (b / 16)), (bor_comm (c / 64)).
    change (a mod 4 * 16) with (a mod 4 * 2 ^ 4).
    change (b mod 16 * 4) with (b mod 16 * 2 ^ 2).
    rewrite !bor_disjoint; change (2 ^ 4) with 16; change (2 ^ 2) with 4;
      change (2 ^ 31) with 2147483648;
      try lia; try (Z.div_mod_to_equations; lia). reflexivity.
Qed.

Lemma sextets_range (s : bytes) :
  wf_bytes s -> Forall (fun x => 0 <= x < 64) (sextets s).
Proof.
  unfold wf_bytes. induction s as [| a | a b | a b c l IHl] using list_ind3; intros Hwf;
    cbn [sextets]; repeat (apply Forall_cons_1 in Hwf as [? Hwf]);
    repeat (constructor; [Z.div_mod_to_equations; lia|]);
    match goal with
    | H : _ -> Forall _ (sextets _) |- _ => apply H; exact Hwf
    | _ => constructor
    end.
Qed.

(** The number of 6-bit groups of [s]: four for every three bytes, two or
    three for a last group of one or two bytes. *)
Lemma sextets_count (s : bytes) :
  let n := len (sextets s) in
  n - (n + 3) / 4 = len s /\ n mod 4 <> 1
  /\ Z.of_nat (length (padding (length (sextets s)))) = (4 - n mod 4) mod 4
  /\ (4 - n mod 4) mod 4 <= 2.
Proof.
  cbv zeta. unfold padding. rewrite length_replicate.
  induction s as [| a | a b | a b c l IH] using list_ind3.
  - repeat split; vm_compute; congruence.
  - repeat split; vm_compute; congruence.
  - repeat split; vm_compute; congruence.
  - cbn [sextets]. unfold len in *. cbn [length].
    destruct IH as (IH1 & IH2 & IH3 & IH4).
    set (n := length (sextets l)) in *. set (m := length l) in *.
    replace (Z.of_nat (S (S (S (S n))))) with (Z.of_nat n + 1 * 4) by lia.
    replace (S (S (S (S n))) mod 4)%nat with (n mod 4)%nat
      by (replace (S (S (S (S n)))) with (n + 1 * 4)%nat by lia;
          now rewrite Nat.Div0.mod_add).
    rewrite Z.mod_add by lia.
    replace (Z.of_nat n + 1 * 4 + 3) with (Z.of_nat n + 3 + 1 * 4) by lia.
    rewrite Z.div_add by lia. repeat split; try assumption; lia.
Qed.

Lemma array_get_nth (l : list Z) (j : Z) :
  0 <= j -> Ed2.array_get l j = nth (Z.to_nat j) l 0.
Proof.
  intros Hj. unfold Ed2.array_get, elem_get. destruct (decide (0 <= j)); [|lia].
  generalize (Z.to_nat j). clear. intros n. revert l.
  induction n as [|n IH]; intros [|x l]; cbn; try reflexivity. apply IH.
Qed.

(** The 6-bit groups that come from the bytes [3k], [3k + 1], [3k + 2];
    a byte past the end counts as 0. *)
Lemma sextets_nth (k : nat) :
  forall s : bytes,
    (3 * k < length s)%nat ->
    nth (4 * k) (sextets s) 0 = nth (3 * k) s 0 / 4
    /\ nth (4 * k + 1) (sextets s) 0
       = nth (3 * k) s 0 mod 4 * 16 + nth (3 * k + 1) s 0 / 16
    /\ ((3 * k + 1 < length s)%nat ->
        nth (4 * k + 2) (sextets s) 0
        = nth (3 * k + 1) s 0 mod 16 * 4 + nth (3 * k + 2) s 0 / 64)
    /\ ((3 * k + 2 < length s)%nat ->
        nth (4 * k + 3) (sextets s) 0 = nth (3 * k + 2) s 0 mod 64).
Proof.
  induction k as [|k IH]; intros s Hlen.
  - destruct s as [|a [|b [|c rest]]]; cbn [length] in *; try lia;
      cbn [Nat.mul Nat.add nth sextets];
      repeat split; intros; try reflexivity; try lia;
      change (0 / 16) with 0; change (0 / 64) with 0; lia.
  - destruct s as [|a [|b [|c rest]]]; cbn [length] in *; try lia.
    replace (4 * S k)%nat with (S (S (S (S (4 * k))))) by lia.
    replace (3 * S k)%nat with (S (S (S (3 * k)))) by lia.
    cbn [sextets nth Nat.add].
    destruct (IH rest) as (H0 & H1 & H2 & H3); [lia|].
    split; [exact H0|]. split; [exact H1|].
    split; intros; [apply H2 | apply H3]; lia.
Qed.

Lemma sextets_group (s : bytes) (k : Z) :
  let S := Ed2.array_get s in
  let E := Ed2.array_get (sextets s) in
  0 <= k -> 3 * k < len s ->
  E (4 * k) = S (3 * k) / 4
  /\ E (4 * k + 1) = S (3 * k) mod 4 * 16 + S (3 * k + 1) / 16
  /\ (3 * k + 1 < len s -> E (4 * k + 2) = S (3 * k + 1) mod 16 * 4 + S (3 * k + 2) / 64)
  /\ (3 * k + 2 < len s -> E (4 * k + 3) = S (3 * k + 2) mod 64).
Proof.
  cbv zeta. intros Hk Hlen. unfold len in *.
  destruct (sextets_nth (Z.to_nat k) s) as (H0 & H1 & H2 & H3); [lia|].
  rewrite !array_get_nth by lia.
  replace (Z.to_nat (4 * k)) with (4 * Z.to_nat k)%nat by lia.
  replace (Z.to_nat (4 * k + 1)) with (4 * Z.to_nat k + 1)%nat by lia.
  replace (Z.to_nat (4 * k + 2)) with (4 * Z.to_nat k + 2)%nat by lia.
  replace (Z.to_nat (4 * k + 3)) with (4 * Z.to_nat k + 3)%nat by lia.
  replace (Z.to_nat (3 * k)) with (3 * Z.to_nat k)%nat by lia.
  replace (Z.to_nat (3 * k + 1)) with (3 * Z.to_nat k + 1)%nat by lia.
  replace (Z.to_nat (3 * k + 2)) with (3 * Z.to_nat k + 2)%nat by lia.
  split; [exact H0|]. split; [exact H1|].
  split; intros; [apply H2 | apply H3]; lia.
Qed.

Lemma array_get_range (s : bytes) (j : Z) :
  wf_bytes s -> 0 <= Ed2.array_get s j < 256.
Proof.
  intros Hwf. unfold Ed2.array_get. destruct (elem_get s j) as [v|] eqn:E; cbn; [|lia].
  exact (wf_elem_get s j v Hwf E).
Qed.

Lemma array_get_sextet (s : bytes) (j : Z) :
  wf_bytes s -> 0 <= Ed2.array_get (sextets s) j < 64.
Proof.
  intros Hwf. unfold Ed2.array_get.
  destruct (elem_get (sextets s) j) as [v|] eqn:E; cbn; [|lia].
  exact (wf_elem_get_gen _ _ j v (sextets_range s Hwf) E).
Qed.

(** The bytes that the decoder computes from the 6-bit groups of [s] are
    the bytes of [s]. *)
Lemma decoded_bytes (s : bytes) (k : Z) :
  wf_bytes s -> 0 <= k -> 3 * k < len s ->
  let S := Ed2.array_get s in
  let E := Ed2.array_get (sextets s) in
  bor (band (shl (E (4 * k)) 2) 255) (band (sshr (E (4 * k + 1)) 4) 3) = S (3 * k)
  /\ (3 * k + 1 < len s ->
      bor (band (shl (E (4 * k + 1)) 4) 255) (band (sshr (E (4 * k + 2)) 2) 15)
      = S (3 * k + 1))
  /\ (3 * k + 2 < len s ->
      bor (band (shl (E (4 * k + 2)) 6) 255) (band (E (4 * k + 3)) 63) = S (3 * k + 2)).
Proof.
  intros Hwf Hk Hlen. cbv zeta.
  destruct (sextets_group s k Hk Hlen) as (H0 & H1 & H2 & H3).
  pose proof (array_get_range s (3 * k) Hwf) as R0.
  pose proof (array_get_range s (3 * k + 1) Hwf) as R1.
  pose proof (array_get_range s (3 * k + 2) Hwf) as R2.
  pose proof (array_get_sextet s (4 * k) Hwf) as Q0.
  pose proof (array_get_sextet s (4 * k + 1) Hwf) as Q1.
  pose proof (array_get_sextet s (4 * k + 2) Hwf) as Q2.
  pose proof (array_get_sextet s (4 * k + 3) Hwf) as Q3.
  rewrite decode_byte_0, decode_byte_1, decode_byte_2 by assumption.
  split; [|split].
  - rewrite H0, H1. Z.div_mod_to_equations. lia.
  - intros Hl. rewrite H1, (H2 Hl). Z.div_mod_to_equations. lia.
  - intros Hl. rewrite (H2 ltac:(lia)), (H3 Hl). Z.div_mod_to_equations. lia.
Qed.

Lemma array_put_spec (out : list Z) (i v : Z) :
  0 <= i < len out ->
  len (Ed2.array_put out i v) = len out
  /\ forall j, Ed2.array_get (Ed2.array_put out i v) j
               = if decide (j = i) then v else Ed2.array_get out j.
Proof.
  intros Hi. unfold Ed2.array_put, Ed2.array_get. destruct (decide (i < len out)); [|lia].
  split.
  - unfold len. now rewrite length_insert.
  - intros j. unfold elem_get, len in *. destruct (decide (0 <= j)) as [Hj|Hj].
    + destruct (decide (j = i)) as [->|Hne].
      * rewrite list_lookup_insert_eq by lia. reflexivity.
      * rewrite list_lookup_insert_ne by lia. reflexivity.
    + destruct (decide (j = i)); [lia | reflexivity].
Qed.

Lemma sextets_room (s : bytes) (k i : Z) :
  0 <= k -> 0 <= i <= 2 -> 3 * k + i < len s -> 4 * k + i + 1 < len (sextets s).
Proof.
  intros Hk Hi Hlen. destruct (sextets_count s) as (Hc & _). cbv zeta in Hc.
  pose proof (len_nonneg (sextets s)). Z.div_mod_to_equations. lia.
Qed.

(** The three stores of one group, one after the other. *)
Lemma decoding_put_0 (s out : list Z) (k : Z) :
  wf_bytes s -> 0 <= k -> 3 * k < len s -> decoding s out (3 * k) (4 * k) ->
  decoding s
    (Ed2.array_put out (3 * k)
       (bor (band (shl (Ed2.array_get out (4 * k)) 2) 255)
            (band (sshr (Ed2.array_get out (4 * k + 1)) 4) 3)))
    (3 * k + 1) (4 * k + 1).
Proof.
  intros Hwf Hk Hlen (Hl & Hd & He).
  pose proof (sextets_room s k 0 Hk ltac:(lia) ltac:(lia)) as Hroom.
  destruct (decoded_bytes s k Hwf Hk Hlen) as (H0 & _). cbv zeta in H0.
  rewrite !He by lia. rewrite H0.
  destruct (array_put_spec out (3 * k) (Ed2.array_get s (3 * k))) as [Hl' Hg]; [lia|].
  split; [lia|]. split; intros j Hj; rewrite Hg; destruct (decide (j = 3 * k)) as [->|];
    try reflexivity; try lia; [apply Hd | apply He]; lia.
Qed.

Lemma decoding_put_1 (s out : list Z) (k : Z) :
  wf_bytes s -> 0 <= k -> 3 * k + 1 < len s -> decoding s out (3 * k + 1) (4 * k + 1) ->
  decoding s
    (Ed2.array_put out (3 * k + 1)
       (bor (band (shl (Ed2.array_get out (4 * k + 1)) 4) 255)
            (band (sshr (Ed2.array_get out (4 * k + 2)) 2) 15)))
    (3 * k + 2) (4 * k + 2).
Proof.
  intros Hwf Hk Hlen (Hl & Hd & He).
  pose proof (sextets_room s k 1 Hk ltac:(lia) ltac:(lia)) as Hroom.
  destruct (decoded_bytes s k Hwf Hk ltac:(lia)) as (_ & H1 & _). cbv zeta in H1.
  rewrite !He by lia. rewrite (H1 Hlen).
  destruct (array_put_spec out (3 * k + 1) (Ed2.array_get s (3 * k + 1))) as [Hl' Hg]; [lia|].
  split; [lia|].
  split; intros j Hj; rewrite Hg; destruct (decide (j = 3 * k + 1)) as [->|];
    try reflexivity; try lia; [apply Hd | apply He]; lia.
Qed.

Lemma decoding_put_2 (s out : list Z) (k : Z) :
  wf_bytes s -> 0 <= k -> 3 * k + 2 < len s -> decoding s out (3 * k + 2) (4 * k + 2) ->
  decoding s
    (Ed2.array_put out (3 * k + 2)
       (bor (band (shl (Ed2.array_get out (4 * k + 2)) 6) 255)
            (band (Ed2.array_get out (4 * k + 3)) 63)))
    (3 * (k + 1)) (4 * (k + 1)).
Proof.
  intros Hwf Hk Hlen (Hl & Hd & He).
  pose proof (sextets_room s k 2 Hk ltac:(lia) ltac:(lia)) as Hroom.
  destruct (decoded_bytes s k Hwf Hk ltac:(lia)) as (_ & _ & H2). cbv zeta in H2.
  rewrite !He by lia. rewrite (H2 Hlen).
  destruct (array_put_spec out (3 * k + 2) (Ed2.array_get s (3 * k + 2))) as [Hl' Hg]; [lia|].
  split; [lia|].
  split; intros j Hj; rewrite Hg; destruct (decide (j = 3 * k + 2)) as [->|];
    try reflexivity; try lia; [apply Hd | apply He]; lia.
Qed.

(** The loop over whole groups decodes as many groups of three bytes as
    [s] has. *)
Lemma decode_groups_spec (s : bytes) (fuel : nat) :
  wf_bytes s ->
  forall (k : Z) (out : list Z),
    0 <= k -> 3 * k <= len s -> len s - 3 * k <= 3 * Z.of_nat fuel ->
    decoding s out (3 * k) (4 * k) ->
    exists out' q,
      Ed2.decode_groups fuel out (4 * k) (3 * k) (len s) = (out', 4 * q, 3 * q)
      /\ k <= q /\ 3 * q <= len s < 3 * q + 3
      /\ decoding s out' (3 * q) (4 * q).
Proof.
  intros Hwf. induction fuel as [|fuel IH]; intros k out Hk Hle Hfuel Hinv;
    cbn [Ed2.decode_groups]; destruct (decide (3 * k < len s - 2)) as [Hgo|Hstop];
    try (exists out, k; split; [reflexivity|]; split; [lia|]; split; [lia | exact Hinv]).
  pose proof (decoding_put_0 s out k Hwf Hk ltac:(lia) Hinv) as H0.
  pose proof (decoding_put_1 s _ k Hwf Hk ltac:(lia) H0) as H1.
  pose proof (decoding_put_2 s _ k Hwf Hk ltac:(lia) H1) as H2.
  destruct (IH (k + 1) _ ltac:(lia) ltac:(lia) ltac:(lia) H2)
    as (out' & q & Hrun & Hq & Hend & Hinv').
  exists out', q.
  replace (4 * k + 4) with (4 * (k + 1)) by lia.
  replace (3 * k + 3) with (3 * (k + 1)) by lia.
  rewrite Hrun. split; [reflexivity|]. split; [lia|]. split; [lia | exact Hinv'].
Qed.

(** The validating scan over the symbols and the padding that the encoder
    emits. *)
Lemma array_put_end (out : list Z) (v : Z) : Ed2.array_put out (len out) v = out ++ [v].
Proof.
  unfold Ed2.array_put. destruct (decide _); [lia|]. now rewrite Z.sub_diag.
Qed.

Lemma scan_symbols (xs : list Z) :
  Forall (fun x => 0 <= x < 64) xs ->
  forall (rest : jsstring) (out : list Z),
    Ed2.base64Decode_scan (map Ed2.enc xs ++ rest) out 0 (len out)
    = Ed2.base64Decode_scan rest (out ++ xs) 0 (len out + len xs).
Proof.
  induction 1 as [|x xs Hx _ IH]; intros rest out.
  - cbn [map app]. change (len []) with 0. now rewrite app_nil_r, Z.add_0_r.
  - destruct (enc_dec x Hx) as (Hsym & Hne & Hdec & _).
    cbn [map app Ed2.base64Decode_scan].
    destruct (decide (Ed2.enc x = 61)); [contradiction|]. rewrite Hsym.
    destruct (decide (0 <> 0)); [contradiction|].
    rewrite Hdec, array_put_end.
    replace (len out + 1) with (len (out ++ [x])) by (rewrite len_app; reflexivity).
    rewrite IH, <- app_assoc. cbn [app]. f_equal.
    unfold len. rewrite length_app. cbn [length]. lia.
Qed.

Lemma scan_padding_end (p : nat) (out : list Z) (n : Z) :
  (p <= 2)%nat ->
  Ed2.base64Decode_scan (replicate p 61) out 0 n
  = Ed2.Build_scan_state out (Z.of_nat p) n false.
Proof. intros Hp. destruct p as [|[|[|p]]]; [reflexivity.. | lia]. Qed.

Lemma map_fromCharCode_small (l : list Z) :
  Forall (fun c => 0 <= c < 65536) l -> map fromCharCode l = l.
Proof.
  intros H. apply map_id_on. eapply Forall_impl; [|exact H]. cbv beta.
  intros c Hc. unfold fromCharCode, ToUint16. apply Z.mod_small. lia.
Qed.

Lemma sextets_nonempty (s : bytes) : s <> [] -> 2 <= len (sextets s).
Proof.
  intros Hs. destruct s as [|a [|b [|c l]]]; [congruence | ..];
    cbn [sextets]; unfold len; cbn [length]; lia.
Qed.

(** The decoder on the symbols of [s], followed by no padding or by
    padding that fills the symbols up to a multiple of four. *)
Lemma base64Decode_symbols (s : bytes) (p : nat) :
  wf_bytes s -> s <> [] ->
  (p <= 2)%nat ->
  (p <> 0%nat -> (len (sextets s) + Z.of_nat p) mod 4 = 0) ->
  Ed2.base64Decode (map Ed2.enc (sextets s) ++ replicate p 61) = s.
Proof.
  intros Hwf Hne Hp Hfill.
  pose proof (sextets_nonempty s Hne) as Hn.
  destruct (sextets_count s) as (Hcount & Hmod & _). cbv zeta in Hcount, Hmod.
  pose proof (sextets_range s Hwf) as Hrange.
  assert (Hls : 0 < len s) by (destruct s; [congruence | rewrite len_cons; pose proof (len_nonneg s); lia]).
  unfold Ed2.base64Decode.
  destruct (decide (len (map Ed2.enc (sextets s) ++ replicate p 61) = 0)) as [H0|_].
  { rewrite len_app in H0. unfold len in H0, Hn. rewrite length_map in H0. lia. }
  change (Ed2.base64Decode_scan (map Ed2.enc (sextets s) ++ replicate p 61) [] 0 0)
    with (Ed2.base64Decode_scan (map Ed2.enc (sextets s) ++ replicate p 61) [] 0 (len (@nil Z))).
  rewrite (scan_symbols _ Hrange), scan_padding_end by exact Hp.
  cbn [Ed2.scan_out Ed2.scan_equalsSignCount Ed2.scan_outLength Ed2.scan_hadError app].
  change (len []) with 0. rewrite Z.add_0_l.
  destruct (decide (len (sextets s) < len (sextets s))); [lia|].
  destruct (decide (len (sextets s) = 0)); [lia|].
  rewrite !Z.rem_mod_nonneg by lia.
  destruct (decide (Z.of_nat p <> 0 /\ (len (sextets s) + Z.of_nat p) mod 4 <> 0))
    as [[Hp0 Hbad]|_]; [exfalso; apply Hbad, Hfill; lia|].
  destruct (decide (len (sextets s) mod 4 = 1)); [contradiction|].
  rewrite Hcount. destruct (decide (len s = 0)); [lia|].
  assert (Hstart : decoding s (sextets s) (3 * 0) (4 * 0)).
  { split; [reflexivity|]. split; [intros j Hj; lia | reflexivity]. }
  assert (Hgroups : exists out' q,
             (if decide (len s > 1)
              then Ed2.decode_groups (Z.to_nat (len s)) (sextets s) 0 0 (len s)
              else (sextets s, 0, 0)) = (out', 4 * q, 3 * q)
             /\ 0 <= q /\ 3 * q <= len s < 3 * q + 3
             /\ decoding s out' (3 * q) (4 * q)).
  { destruct (decide (len s > 1)).
    - destruct (decode_groups_spec s (Z.to_nat (len s)) Hwf 0 (sextets s))
        as (out' & q & Hrun & Hq & Hend & Hinv); [lia | lia | lia | exact Hstart |].
      exists out', q. split; [exact Hrun|]. split; [lia|]. split; [lia | exact Hinv].
    - exists (sextets s), 0. split; [reflexivity|]. split; [lia|]. split; [lia | exact Hstart]. }
  destruct Hgroups as (out' & q & -> & Hq & Hend & Hinv).
  cbv beta iota zeta.
  match goal with
  | |- context [take _ ?o] => set (final := o)
  end.
  assert (Hdone : len final = len (sextets s)
                  /\ forall j, 0 <= j < len s -> Ed2.array_get final j = Ed2.array_get s j).
  { subst final. destruct (decide (3 * q < len s)) as [Hmore|Hnone].
    - pose proof (decoding_put_0 s out' q Hwf Hq Hmore Hinv) as H0.
      destruct (decide (3 * q + 1 < len s)) as [Hmore'|Hnone'].
      + pose proof (decoding_put_1 s _ q Hwf Hq Hmore' H0) as (Hl1 & Hd1 & _).
        split; [exact Hl1|]. intros j Hj. apply Hd1. lia.
      + destruct H0 as (Hl0 & Hd0 & _).
        split; [exact Hl0|]. intros j Hj. apply Hd0. lia.
    - destruct Hinv as (Hl & Hd & _).
      split; [exact Hl|]. intros j Hj. apply Hd. lia. }
  destruct Hdone as (Hlen & Hbytes). clearbody final.
  destruct (decide (len s < len final)) as [_|Hge];
    [|exfalso; rewrite Hlen in Hge; Z.div_mod_to_equations; lia].
  assert (Htake : take (Z.to_nat (len s)) final = s).
  { apply list_eq. intros i. destruct (decide (i < length s)%nat) as [Hi|Hi].
    - rewrite lookup_take_lt by (unfold len; lia).
      specialize (Hbytes (Z.of_nat i) ltac:(unfold len; lia)).
      unfold Ed2.array_get, elem_get in Hbytes.
      destruct (decide (0 <= Z.of_nat i)); [|lia]. rewrite Nat2Z.id in Hbytes.
      destruct (lookup_lt_is_Some_2 s i Hi) as [v Hv].
      destruct (lookup_lt_is_Some_2 final i) as [v' Hv'];
        [unfold len in *; Z.div_mod_to_equations; lia|].
      rewrite Hv, Hv' in *. cbn in Hbytes. congruence.
    - rewrite lookup_take_ge by (unfold len; lia).
      symmetry. apply lookup_ge_None. lia. }
  rewrite Htake. apply map_fromCharCode_small.
  eapply Forall_impl; [|exact Hwf]. cbv beta. intros c Hc. lia.
Qed.

(** Round trip of base64 in the second edition. [base64Encode] emits the
    table symbol of every 6-bit group of the bytes and pads with ['='] to
    a multiple of four symbols; [base64Decode] of that string, with the
    padding or without it, gives back the bytes. *)
Theorem base64_round_trip (s : bytes) :
  wf_bytes s ->
  Ed2.base64Encode s = map Ed2.enc (sextets s) ++ padding (length (sextets s))
  /\ Ed2.base64Decode (Ed2.base64Encode s) = s
  /\ Ed2.base64Decode (map Ed2.enc (sextets s)) = s.
Proof.
  intros Hwf.
  assert (Henc : Ed2.base64Encode s
                 = map Ed2.enc (sextets s) ++ padding (length (sextets s))).
  { unfold Ed2.base64Encode, padding. rewrite base64Encode_loop_sextets by exact Hwf.
    rewrite length_map. apply map_fromCharCode_small.
    apply Forall_app. split.
    - apply Forall_fmap. eapply Forall_impl; [|exact (sextets_range s Hwf)].
      cbv beta. intros x Hx. destruct (enc_dec x Hx) as (_ & _ & _ & Hr).
      unfold compose. lia.
    - apply Forall_replicate. lia. }
  split; [exact Henc|]. destruct (decide (s = [])) as [->|Hne]; [split; reflexivity|].
  destruct (sextets_count s) as (_ & _ & Hpad & Hle). cbv zeta in Hpad, Hle.
  split.
  - rewrite Henc. unfold padding in *. rewrite length_replicate in Hpad.
    apply base64Decode_symbols; try assumption; [lia|].
    intros _. rewrite Hpad. pose proof (len_nonneg (sextets s)).
    Z.div_mod_to_equations. lia.
  - rewrite <- (app_nil_r (map Ed2.enc (sextets s))).
    apply (base64Decode_symbols s 0 Hwf Hne); [lia | congruence].
Qed.

Lemma base64_round_trip_witness :
  Ed2.base64Encode [0x66; 0x6F] = map Ed2.enc (sextets [0x66; 0x6F]) ++ padding (length (sextets [0x66; 0x6F]))
  /\ Ed2.base64Decode (Ed2.base64Encode [0x66; 0x6F]) = [0x66; 0x6F]
  /\ Ed2.base64Decode (map Ed2.enc (sextets [0x66; 0x6F])) = [0x66; 0x6F].
Proof.
  apply (base64_round_trip [0x66; 0x6F]). repeat constructor; lia.
Defined.

Lemma second_edition_swap_spec_witness :
  exists buf', Ed2.swap16 [1; 2; 3; 4] = (buf', inr tt)
               /\ len buf' = len [1; 2; 3; 4]
               /\ forall j, 0 <= j < len [1; 2; 3; 4] ->
                            elem_get buf' j = elem_get [1; 2; 3; 4] (mirror 2 j).
Proof.
  refine (second_edition_swap_spec [1; 2; 3; 4] _ 2 Ed2.swap16 "16-bits" _).
  - repeat constructor; lia.
  - rewrite elem_of_cons. now left.
Defined.

(** * Views over shared memory: [copy], [concat], [subarray] *)

Lemma length_write_memory (h : heap) (b : nat) (offset : Z) (data : bytes) :
  length (write_memory h b offset data) = length h.
Proof. unfold write_memory. apply length_alter. Qed.

Lemma memory_write_ne (h : heap) (b b' : nat) (offset : Z) (data : bytes) :
  b' ≠ b -> memory (write_memory h b offset data) b' = memory h b'.
Proof.
  intros Hne. unfold memory, write_memory.
  rewrite list_lookup_alter_ne by congruence. reflexivity.
Qed.

Lemma memory_write_eq (h : heap) (b : nat) (offset : Z) (data : bytes) :
  0 <= offset -> offset + len data <= len (memory h b) ->
  memory (write_memory h b offset data) b
  = take (Z.to_nat offset) (memory h b) ++ data
    ++ drop (Z.to_nat offset + length data) (memory h b).
Proof.
  intros Ho Hfit. unfold memory, write_memory in *.
  rewrite list_lookup_alter. destruct (decide (b = b)); [|congruence].
  destruct (h !! b) as [mem|] eqn:E; cbn in *.
  - reflexivity.
  - unfold len in Hfit. cbn in Hfit.
    assert (length data = 0)%nat as Hd by lia.
    destruct data; [|discriminate]. now rewrite take_nil, drop_nil.
Qed.

Lemma len_memory_write (h : heap) (b b' : nat) (offset : Z) (data : bytes) :
  0 <= offset -> offset + len data <= len (memory h b) ->
  len (memory (write_memory h b offset data) b') = len (memory h b').
Proof.
  intros Ho Hfit. destruct (decide (b' = b)) as [->|Hne].
  - rewrite memory_write_eq by assumption. unfold len in *.
    rewrite !length_app, length_take, length_drop. lia.
  - now rewrite memory_write_ne.
Qed.

Lemma elem_get_memory_write (h : heap) (b b' : nat) (offset : Z) (data : bytes) (i : Z) :
  0 <= offset -> offset + len data <= len (memory h b) ->
  elem_get (memory (write_memory h b offset data) b') i
  = if decide (b' = b /\ offset <= i < offset + len data)
    then elem_get data (i - offset)
    else elem_get (memory h b') i.
Proof.
  intros Ho Hfit. destruct (decide (b' = b)) as [->|Hne].
  2: { rewrite memory_write_ne by assumption. destruct (decide _) as [[? _]|_]; [congruence|reflexivity]. }
  rewrite memory_write_eq by assumption.
  unfold elem_get, len in *.
  destruct (decide (0 <= i)) as [Hi|Hi].
  2: { destruct (decide _) as [[_ ?]|_]; [lia|reflexivity]. }
  destruct (decide (i < offset)) as [Hlt|Hge].
  - rewrite lookup_app_l by (rewrite length_take; lia).
    rewrite lookup_take_lt by lia.
    destruct (decide _) as [[_ ?]|_]; [lia|reflexivity].
  - rewrite lookup_app_r by (rewrite length_take; lia).
    rewrite length_take.
    replace (Z.to_nat i - Z.to_nat offset `min` length (memory h b))%nat
      with (Z.to_nat (i - offset)) by lia.
    destruct (decide (i < offset + Z.of_nat (length data))) as [Hin|Hout].
    + rewrite lookup_app_l by lia.
      destruct (decide _) as [_|Hn]; [|lia].
      destruct (decide (0 <= i - offset)); [reflexivity|lia].
    + rewrite lookup_app_r by lia. rewrite lookup_drop.
      destruct (decide _) as [[_ ?]|_]; [lia|].
      f_equal. lia.
Qed.

Lemma len_contents (h : heap) (v : view) :
  wf_view h v -> len (contents h v) = view_length v.
Proof.
  intros (_ & Ho & Hl & Hfit). unfold contents.
  rewrite len_window by lia. lia.
Qed.

Lemma elem_get_contents (h : heap) (v : view) (i : Z) :
  wf_view h v -> 0 <= i < view_length v ->
  elem_get (contents h v) i = elem_get (memory h (view_buffer v)) (view_byteOffset v + i).
Proof.
  intros (_ & Ho & Hl & Hfit) Hi. unfold contents.
  apply elem_get_window; lia.
Qed.

(** [_copyActual] copies [nb] bytes, all read before the first is stored. *)
Lemma _copyActual_spec (h : heap) (source target : view)
    (targetStart sourceStart sourceEnd : Z) :
  wf_view h source -> wf_view h target ->
  0 <= targetStart <= view_length target ->
  0 <= sourceStart <= view_length source -> sourceStart <= sourceEnd ->
  let nb := Z.min (Z.min (sourceEnd - sourceStart) (view_length target - targetStart))
                  (view_length source - sourceStart) in
  _copyActual source target targetStart sourceStart sourceEnd h
  = (write_memory h (view_buffer target) (view_byteOffset target + targetStart)
       (window (memory h (view_buffer source)) (view_byteOffset source + sourceStart)
               (view_byteOffset source + sourceStart + nb)),
     inr nb).
Proof.
  intros Hs Ht Hts Hss Hse nb.
  destruct Hs as (Hsb & Hso & Hsl & Hsfit). destruct Ht as (Htb & Hto & Htl & Htfit).
  unfold _copyActual. cbv zeta.
  set (sourceEnd' := if decide (sourceEnd - sourceStart > view_length target - targetStart)
                     then sourceStart + view_length target - targetStart else sourceEnd).
  set (nb' := if decide (sourceEnd' - sourceStart > view_length source - sourceStart)
              then view_length source - sourceStart else sourceEnd' - sourceStart).
  assert (Hnb : nb' = nb).
  { subst nb' nb sourceEnd'. repeat destruct (decide _); lia. }
  assert (Hend : sourceEnd' - sourceStart <= view_length target - targetStart).
  { subst sourceEnd'. destruct (decide (sourceEnd - sourceStart > _)); lia. }
  assert (Hnb0 : 0 <= nb) by (subst nb; lia).
  assert (Hnb1 : nb <= view_length source - sourceStart
                 /\ nb <= view_length target - targetStart) by (subst nb; lia).
  unfold mbind, H_bind, mret, H_ret. rewrite !Hnb.
  destruct (decide (sourceStart ≠ 0 \/ sourceEnd' < view_length source)) as [Hview|Hwhole].
  - unfold new_Uint8Array.
    destruct (decide (_ \/ _)) as [Hbad|_]; [lia|].
    unfold TypedArray_set. cbn [view_length view_buffer view_byteOffset].
    destruct (decide (_ \/ _)) as [Hbad|_]; [lia|].
    unfold contents. cbn [view_length view_buffer view_byteOffset].
    reflexivity.
  - assert (Hall : sourceStart = 0 /\ nb = view_length source).
    { subst nb. revert Hwhole. unfold sourceEnd'.
      destruct (decide (sourceEnd - sourceStart > _)); intros; lia. }
    destruct Hall as [-> Hall].
    unfold TypedArray_set.
    destruct (decide (_ \/ _)) as [Hbad|_]; [lia|].
    unfold contents. rewrite Hall, !Z.add_0_r. reflexivity.
Qed.

Lemma toInteger_safe (n d : Z) :
  MIN_SAFE_INTEGER <= n <= MAX_SAFE_INTEGER -> toInteger n d = n.
Proof. intros Hn. unfold toInteger. destruct (decide _); [reflexivity|lia]. Qed.

Lemma toInteger_cases (n : Z) : toInteger n 0 = n \/ toInteger n 0 = 0.
Proof. unfold toInteger. destruct (decide _); auto. Qed.

(** The three argument checks of [_copy] in the second edition, then the
    early return, then [_copyActual]. *)
Lemma second_edition_copy_runs (h : heap) (this target : view) (ts ss se : Z)
    (targetStart sourceStart sourceEnd : option Z) :
  ts = from_option (fun t => toInteger t 0) 0 targetStart ->
  ss = from_option (fun s => toInteger s 0) 0 sourceStart ->
  se = from_option (fun e => toInteger e 0) (view_length this) sourceEnd ->
  0 <= ts -> 0 <= ss <= view_length this -> 0 <= se ->
  Ed2.copy this target targetStart sourceStart sourceEnd h
  = if decide (ts >= view_length target \/ ss >= se) then (h, inr 0)
    else _copyActual this target ts ss se h.
Proof.
  intros -> -> -> Hts Hss Hse. unfold Ed2.copy, Ed2._copy, mbind, H_bind, mret, H_ret, raise.
  destruct targetStart as [t|], sourceStart as [s|], sourceEnd as [e|]; cbn [from_option] in *;
    repeat (destruct (decide (_ < 0)) as [?|_]; [lia|]);
    repeat (destruct (decide (_ < 0 \/ _)) as [?|_]; [lia|]);
    destruct (decide (_ \/ _)); reflexivity.
Qed.

Lemma first_edition_copy_runs (h : heap) (this target : view) (ts ss se : Z)
    (targetStart sourceStart sourceEnd : option Z) :
  ts = from_option (fun t => toInteger t 0) 0 targetStart ->
  ss = from_option (fun s => toInteger s 0) 0 sourceStart ->
  se = from_option (fun e => toInteger e 0) (view_length this) sourceEnd ->
  0 <= ts -> 0 <= ss <= view_length this -> 0 <= se ->
  Ed1.copy this target targetStart sourceStart sourceEnd h
  = if decide (ts >= view_length target \/ ss >= se) then (h, inr 0)
    else _copyActual this target ts ss se h.
Proof.
  intros -> -> -> Hts Hss Hse. unfold Ed1.copy, Ed1._copy, mbind, H_bind, mret, H_ret, raise.
  destruct targetStart as [t|], sourceStart as [s|], sourceEnd as [e|]; cbn [from_option] in *;
    repeat (destruct (decide (_ < 0)) as [?|_]; [lia|]);
    (destruct (decide (_ \/ _)); [reflexivity|]);
    (destruct (decide (_ > _)); [lia|reflexivity]).
Qed.

(** What [_copyActual] leaves behind, byte by byte. *)
Lemma _copyActual_bytes (h : heap) (source target : view) (ts ss se : Z) :
  wf_view h source -> wf_view h target ->
  0 <= ts <= view_length target -> 0 <= ss <= view_length source -> ss <= se ->
  let nb := Z.min (Z.min (se - ss) (view_length target - ts)) (view_length source - ss) in
  exists h',
    _copyActual source target ts ss se h = (h', inr nb)
    /\ 0 <= nb
    /\ length h' = length h
    /\ (forall b, len (memory h' b) = len (memory h b))
    /\ forall b i,
         elem_get (memory h' b) i
         = if decide (b = view_buffer target
                      /\ view_byteOffset target + ts <= i < view_byteOffset target + ts + nb)
           then elem_get (memory h (view_buffer source))
                         (view_byteOffset source + ss + (i - (view_byteOffset target + ts)))
           else elem_get (memory h b) i.
Proof.
  intros Hs Ht Hts Hss Hse nb.
  pose proof (_copyActual_spec h source target ts ss se Hs Ht Hts Hss Hse) as Hrun.
  cbv zeta in Hrun. fold nb in Hrun.
  assert (Hnb : 0 <= nb /\ nb <= view_length source - ss /\ nb <= view_length target - ts)
    by (subst nb; lia).
  destruct Hs as (Hsb & Hso & Hsl & Hsfit). destruct Ht as (Htb & Hto & Htl & Htfit).
  set (data := window (memory h (view_buffer source)) (view_byteOffset source + ss)
                      (view_byteOffset source + ss + nb)) in *.
  assert (Hlen : len data = nb).
  { subst data. rewrite len_window by lia. lia. }
  eexists. split; [exact Hrun|]. split; [lia|]. split; [apply length_write_memory|].
  split.
  - intros b. apply len_memory_write; lia.
  - intros b i. rewrite elem_get_memory_write by lia. rewrite Hlen.
    destruct (decide _) as [[-> Hi]|Hout]; [|reflexivity].
    subst data. rewrite elem_get_window by lia. reflexivity.
Qed.

(** [copy]: with arguments in range, [buf.copy(target, targetStart,
    sourceStart, sourceEnd)] returns the number [nb] of bytes that the
    source range, the room in the target and the source itself allow,
    stores the [nb] source bytes from [sourceStart] on at [targetStart] of
    the target, as they were before the call even when the two views
    overlap, and changes no other byte of any buffer. Both editions
    agree. *)
Theorem copy_moves_bytes (h : heap) (this target : view)
    (targetStart sourceStart sourceEnd : option Z) :
  wf_view h this -> wf_view h target ->
  let ts := default 0 targetStart in
  let ss := default 0 sourceStart in
  let se := default (view_length this) sourceEnd in
  0 <= ts <= MAX_SAFE_INTEGER ->
  0 <= ss <= Z.min (view_length this) MAX_SAFE_INTEGER ->
  0 <= se <= MAX_SAFE_INTEGER ->
  let nb := Z.max 0 (Z.min (Z.min (se - ss) (view_length target - ts))
                           (view_length this - ss)) in
  exists h',
    Ed1.copy this target targetStart sourceStart sourceEnd h = (h', inr nb)
    /\ Ed2.copy this target targetStart sourceStart sourceEnd h = (h', inr nb)
    /\ length h' = length h
    /\ (forall b, len (memory h' b) = len (memory h b))
    /\ (forall i, 0 <= i < nb ->
          elem_get (contents h' target) (ts + i) = elem_get (contents h this) (ss + i))
    /\ (forall b i,
          ~ (b = view_buffer target
             /\ view_byteOffset target + ts <= i < view_byteOffset target + ts + nb) ->
          elem_get (memory h' b) i = elem_get (memory h b) i).
Proof.
  intros Hs Ht ts ss se Hts Hss Hse nb.
  assert (Hmin : MIN_SAFE_INTEGER <= 0) by (vm_compute; discriminate).
  assert (Ets : ts = from_option (fun t => toInteger t 0) 0 targetStart).
  { subst ts. destruct targetStart; cbn in *; [|reflexivity].
    symmetry. apply toInteger_safe. lia. }
  assert (Ess : ss = from_option (fun s => toInteger s 0) 0 sourceStart).
  { subst ss. destruct sourceStart; cbn in *; [|reflexivity].
    symmetry. apply toInteger_safe. lia. }
  assert (Ese : se = from_option (fun e => toInteger e 0) (view_length this) sourceEnd).
  { subst se. destruct sourceEnd; cbn in *; [|reflexivity].
    symmetry. apply toInteger_safe. lia. }
  rewrite (first_edition_copy_runs h this target ts ss se) by (assumption || lia).
  rewrite (second_edition_copy_runs h this target ts ss se) by (assumption || lia).
  destruct (decide (ts >= view_length target \/ ss >= se)) as [Hnone|Hsome].
  - assert (nb = 0) as Hz by (subst nb; lia).
    exists h. rewrite Hz. repeat split; try reflexivity. intros i Hi. lia.
  - destruct (_copyActual_bytes h this target ts ss se) as (h' & Hrun & Hnb & Hh & Hlen & Hbytes);
      try assumption; try lia.
    cbv zeta in Hrun, Hnb, Hbytes.
    assert (Enb : nb = Z.min (Z.min (se - ss) (view_length target - ts))
                             (view_length this - ss)) by (subst nb; lia).
    rewrite <- Enb in Hrun, Hnb, Hbytes.
    assert (Hfits : nb <= view_length target - ts /\ nb <= view_length this - ss)
      by (rewrite Enb; lia).
    exists h'. split; [exact Hrun|]. split; [exact Hrun|]. split; [exact Hh|].
    split; [exact Hlen|]. split.
    + intros i Hi.
      assert (Ht' : wf_view h' target).
      { destruct Ht as (? & ? & ? & ?). repeat split; try lia. rewrite Hlen. lia. }
      rewrite elem_get_contents by (assumption || lia).
      rewrite elem_get_contents by (assumption || lia).
      rewrite Hbytes. destruct (decide _) as [_|Hn]; [f_equal; lia|].
      exfalso. apply Hn. split; [reflexivity|lia].
    + intros b i Hout. rewrite Hbytes. destruct (decide _) as [Hin|_]; [tauto|reflexivity].
Qed.

Lemma copy_moves_bytes_witness :
  exists h',
    Ed1.copy (Build_view 0 0 5) (Build_view 0 0 5) (Some 2) (Some 0) (Some 4) [[1; 2; 3; 4; 5]]
    = (h', inr 3)
    /\ Ed2.copy (Build_view 0 0 5) (Build_view 0 0 5) (Some 2) (Some 0) (Some 4) [[1; 2; 3; 4; 5]]
       = (h', inr 3)
    /\ length h' = 1%nat
    /\ (forall b, len (memory h' b) = len (memory [[1; 2; 3; 4; 5]] b))
    /\ (forall i, 0 <= i < 3 ->
          elem_get (contents h' (Build_view 0 0 5)) (2 + i)
          = elem_get (contents [[1; 2; 3; 4; 5]] (Build_view 0 0 5)) (0 + i))
    /\ (forall b i, ~ (b = 0%nat /\ 0 + 2 <= i < 0 + 2 + 3) ->
          elem_get (memory h' b) i = elem_get (memory [[1; 2; 3; 4; 5]] b) i).
Proof.
  refine (copy_moves_bytes [[1; 2; 3; 4; 5]] (Build_view 0 0 5) (Build_view 0 0 5)
            (Some 2) (Some 0) (Some 4) _ _ _ _ _);
    unfold wf_view, memory, len, MAX_SAFE_INTEGER; cbn; lia.
Defined.

(** [copy] is safe on every argument: whatever the three positions are,
    a call in either edition returns a count that neither view falls short
    of and has stored inside the target view only, or raises
    [ERR_OUT_OF_RANGE] and leaves all memory as it was. *)
Theorem copy_stays_in_target (h : heap) (this target : view)
    (targetStart sourceStart sourceEnd : option Z) :
  wf_view h this -> wf_view h target ->
  copy_outcome h this target (Ed1.copy this target targetStart sourceStart sourceEnd h)
  /\ copy_outcome h this target (Ed2.copy this target targetStart sourceStart sourceEnd h).
Proof.
  intros Hs Ht.
  assert (Hslen : 0 <= view_length this) by (destruct Hs as (? & ? & ? & ?); lia).
  assert (Htlen : 0 <= view_length target) by (destruct Ht as (? & ? & ? & ?); lia).
  assert (Hnone : copy_outcome h this target (h, inr 0)).
  { cbn. repeat split; try lia. }
  assert (Hactual : forall ts ss se,
            0 <= ts < view_length target -> 0 <= ss <= view_length this -> ss < se ->
            copy_outcome h this target (_copyActual this target ts ss se h)).
  { intros ts ss se Hts Hss Hse.
    destruct (_copyActual_bytes h this target ts ss se) as (h' & Hrun & Hnb & Hh & Hlen & Hbytes);
      try assumption; try lia.
    cbv zeta in Hrun, Hnb, Hbytes. rewrite Hrun. cbn.
    repeat split; try lia.
    intros b i Hout. rewrite Hbytes. destruct (decide _) as [[-> Hin]|_]; [|reflexivity].
    exfalso. apply Hout. split; [reflexivity|lia]. }
  assert (Hraise : forall name, copy_outcome h this target (h, inl (ERR_OUT_OF_RANGE name))).
  { intros name. cbn. split; [reflexivity|]. now exists name. }
  unfold Ed1.copy, Ed1._copy, Ed2.copy, Ed2._copy, mbind, H_bind, mret, H_ret, raise.
  split;
    destruct targetStart as [t|], sourceStart as [s|], sourceEnd as [e|];
    repeat (cbv beta iota zeta;
            match goal with |- context [decide ?P] => destruct (decide P) end);
    first [apply Hraise | exact Hnone | apply Hactual; lia].
Qed.

Lemma copy_stays_in_target_witness :
  copy_outcome [[1; 2; 3]; [0; 0]] (Build_view 0 1 2) (Build_view 1 0 2)
    (Ed1.copy (Build_view 0 1 2) (Build_view 1 0 2) (Some (-1)) None (Some 9)
              [[1; 2; 3]; [0; 0]])
  /\ copy_outcome [[1; 2; 3]; [0; 0]] (Build_view 0 1 2) (Build_view 1 0 2)
       (Ed2.copy (Build_view 0 1 2) (Build_view 1 0 2) (Some (-1)) None (Some 9)
                 [[1; 2; 3]; [0; 0]]).
Proof.
  refine (copy_stays_in_target [[1; 2; 3]; [0; 0]] (Build_view 0 1 2) (Build_view 1 0 2)
            (Some (-1)) None (Some 9) _ _);
    unfold wf_view, memory, len; cbn; lia.
Defined.

(** * [Buffer.concat] *)

Lemma elem_get_app (a b : bytes) (i : Z) :
  elem_get (a ++ b) i = if decide (i < len a) then elem_get a i else elem_get b (i - len a).
Proof.
  unfold elem_get, len. destruct (decide (0 <= i)) as [Hi|Hi].
  - destruct (decide (i < Z.of_nat (length a))) as [Hlt|Hge].
    + now rewrite lookup_app_l by lia.
    + rewrite lookup_app_r by lia.
      destruct (decide (0 <= i - Z.of_nat (length a))); [|lia]. f_equal. lia.
  - destruct (decide (i < _)); [reflexivity|].
    destruct (decide (0 <= _)); [lia|reflexivity].
Qed.

Lemma elem_get_replicate (n : nat) (v i : Z) :
  elem_get (replicate n v) i = if decide (0 <= i < Z.of_nat n) then Some v else None.
Proof.
  unfold elem_get. destruct (decide (0 <= i)) as [Hi|Hi].
  - destruct (decide (0 <= i < Z.of_nat n)) as [Hin|Hout].
    + apply lookup_replicate_2. lia.
    + apply lookup_replicate_None. lia.
  - destruct (decide _); [lia|reflexivity].
Qed.

Lemma elem_get_take (n : nat) (l : bytes) (i : Z) :
  elem_get (take n l) i = if decide (i < Z.of_nat n) then elem_get l i else None.
Proof.
  unfold elem_get. destruct (decide (0 <= i)) as [Hi|Hi].
  - destruct (decide (i < Z.of_nat n)) as [Hin|Hout].
    + apply lookup_take_lt. lia.
    + apply lookup_take_ge. lia.
  - destruct (decide _); reflexivity.
Qed.

Lemma elem_get_fit (n : Z) (data : bytes) (i : Z) :
  elem_get (fit n data) i
  = if decide (0 <= i < n) then Some (default 0 (elem_get data i)) else None.
Proof.
  unfold fit. rewrite elem_get_take, elem_get_app, elem_get_replicate.
  destruct (decide (0 <= i < n)) as [Hin|Hout].
  - destruct (decide (i < Z.of_nat (Z.to_nat n))); [|lia].
    destruct (decide (i < len data)) as [Hd|Hd].
    + destruct (elem_get_Some data i) as (v & ->); [lia|reflexivity].
    + assert (elem_get data i = None) as -> by (apply elem_get_None; lia).
      unfold len in *. destruct (decide _); [reflexivity|lia].
  - destruct (decide (i < Z.of_nat (Z.to_nat n))) as [Hlt|]; [|reflexivity].
    assert (i < 0) by lia.
    destruct (decide (i < len data)).
    + apply elem_get_None. lia.
    + destruct (decide _); [unfold len in *; lia|reflexivity].
Qed.

Lemma len_fit (n : Z) (data : bytes) : 0 <= n -> len (fit n data) = n.
Proof.
  intros Hn. unfold fit, len. rewrite length_take, length_app, length_replicate. lia.
Qed.

Lemma total_length_sum (list : list view) (acc : Z) :
  foldl (fun length buf =>
           if decide (view_length buf ≠ 0) then length + view_length buf else length)
        acc list
  = acc + foldr (fun buf s => view_length buf + s) 0 list.
Proof.
  revert acc. induction list as [|v rest IH]; intros acc; cbn.
  - lia.
  - rewrite IH. destruct (decide _); lia.
Qed.

Lemma len_concat_contents (h : heap) (list : list view) :
  Forall (wf_view h) list ->
  len (concat (map (contents h) list)) = foldr (fun buf s => view_length buf + s) 0 list.
Proof.
  induction 1 as [|v rest Hv _ IH]; cbn; [reflexivity|].
  rewrite len_app, len_contents by assumption. lia.
Qed.

(** The copying loop of [concat] into a view of all of an [ArrayBuffer]
    that no view of the list looks into. *)
Lemma concat_loop_bytes (bn : nat) (n : Z) (list : list view) :
  forall (h : heap) (pos : Z),
  let buffer := {| view_buffer := bn; view_byteOffset := 0; view_length := n |} in
  wf_view h buffer ->
  Forall (fun v => wf_view h v /\ view_buffer v ≠ bn) list ->
  0 <= pos <= n ->
  let data := concat (map (contents h) list) in
  exists h',
    concat_loop list buffer pos h = (h', inr (Z.min n (pos + len data)))
    /\ length h' = length h
    /\ (forall b, b ≠ bn -> memory h' b = memory h b)
    /\ len (memory h' bn) = len (memory h bn)
    /\ forall i, elem_get (memory h' bn) i
                 = if decide (pos <= i < Z.min n (pos + len data))
                   then elem_get data (i - pos)
                   else elem_get (memory h bn) i.
Proof.
  induction list as [|v rest IH]; intros h pos buffer Hb Hall Hpos data.
  - exists h. subst data. cbn. change (len []) with 0.
    replace (Z.min n (pos + 0)) with pos by lia.
    repeat split; try reflexivity.
    intros i. destruct (decide _); [lia|reflexivity].
  - apply Forall_cons_1 in Hall as [[Hv Hne] Hrest].
    destruct (_copyActual_bytes h v buffer pos 0 (view_length v))
      as (h1 & Hrun & Hnb & Hh1 & Hlen1 & Hbytes1); try assumption.
    { destruct Hv as (? & ? & ? & ?). lia. }
    { destruct Hv as (? & ? & ? & ?). lia. }
    cbv zeta in Hrun, Hnb, Hbytes1. subst buffer. cbn [view_length view_buffer view_byteOffset] in *.
    set (nb := Z.min (Z.min (view_length v - 0) (n - pos)) (view_length v - 0)) in *.
    assert (Hvl : 0 <= view_length v) by (destruct Hv as (? & ? & ? & ?); lia).
    assert (Enb : nb = Z.min (view_length v) (n - pos)) by (subst nb; lia).
    set (buffer := {| view_buffer := bn; view_byteOffset := 0; view_length := n |}) in *.
    assert (Hsame : forall b, b ≠ bn -> memory h1 b = memory h b).
    { intros b Hb'. apply bytes_ext. intros i. rewrite Hbytes1.
      destruct (decide _) as [[? _]|_]; [congruence|reflexivity]. }
    assert (Hb1 : wf_view h1 buffer).
    { destruct Hb as (? & ? & ? & ?). unfold wf_view. rewrite Hh1, Hlen1. auto. }
    assert (Hrest1 : Forall (fun v => wf_view h1 v /\ view_buffer v ≠ bn) rest).
    { eapply Forall_impl; [|exact Hrest]. intros u [(? & ? & ? & ?) Hu]. split; [|exact Hu].
      unfold wf_view. rewrite Hh1, Hlen1. auto. }
    assert (Hdata1 : map (contents h1) rest = map (contents h) rest).
    { apply map_ext_Forall. eapply Forall_impl; [|exact Hrest]. intros u [_ Hu].
      unfold contents. now rewrite Hsame. }
    destruct (IH h1 (pos + nb) Hb1 Hrest1) as (h' & Hloop & Hh' & Hother & Hlen' & Hbytes').
    { lia. }
    cbv zeta in Hloop, Hbytes'. rewrite Hdata1 in Hloop, Hbytes'.
    set (tail := concat (map (contents h) rest)) in *.
    assert (Hdata : data = contents h v ++ tail) by reflexivity.
    assert (Hlv : len (contents h v) = view_length v) by now apply len_contents.
    assert (Hld : len data = view_length v + len tail) by (rewrite Hdata, len_app; lia).
    pose proof (len_nonneg tail) as Htail.
    exists h'. split.
    { cbn [concat_loop]. unfold mbind, H_bind. rewrite Hrun, Hloop. do 2 f_equal. lia. }
    split; [congruence|]. split.
    { intros b Hb'. rewrite Hother by assumption. now apply Hsame. }
    split; [rewrite Hlen'; apply Hlen1|].
    intros i. rewrite Hbytes', Hbytes1.
    destruct (decide (pos + nb <= i < Z.min n (pos + nb + len tail))) as [Hin2|Hout2].
    + destruct (decide (pos <= i < Z.min n (pos + len data))) as [_|Hn]; [|lia].
      rewrite Hdata, elem_get_app. destruct (decide (i - pos < _)); [lia|].
      f_equal. lia.
    + destruct (decide (bn = bn /\ 0 + pos <= i < 0 + pos + nb)) as [[_ Hin1]|Hout1].
      * destruct (decide (pos <= i < Z.min n (pos + len data))) as [_|Hn]; [|lia].
        rewrite Hdata, elem_get_app. destruct (decide (i - pos < _)); [|lia].
        rewrite elem_get_contents by (assumption || lia). f_equal. lia.
      * destruct (decide (pos <= i < Z.min n (pos + len data))) as [Hin|_]; [|reflexivity].
        exfalso. assert (~ (pos <= i < pos + nb)) by (intros ?; apply Hout1; split; [reflexivity|lia]).
        lia.
Qed.

Lemma lookup_memory (h : heap) (b : nat) :
  (b < length h)%nat -> h !! b = Some (memory h b).
Proof.
  intros Hb. unfold memory. destruct (lookup_lt_is_Some_2 h b Hb) as [mem ->]. reflexivity.
Qed.

Lemma memory_app_l (h : heap) (mem : bytes) (b : nat) :
  (b < length h)%nat -> memory (h ++ [mem]) b = memory h b.
Proof. intros Hb. unfold memory. now rewrite lookup_app_l. Qed.

Lemma memory_app_new (h : heap) (mem : bytes) : memory (h ++ [mem]) (length h) = mem.
Proof.
  unfold memory. rewrite lookup_app_r by lia. now rewrite Nat.sub_diag.
Qed.

Lemma heap_ext (h h' : heap) :
  length h' = length h -> (forall b, memory h' b = memory h b) -> h' = h.
Proof.
  intros Hlen Hmem. apply list_eq. intros b.
  destruct (decide (b < length h)%nat) as [Hb|Hb].
  - rewrite !lookup_memory by lia. now rewrite Hmem.
  - rewrite !lookup_ge_None_2 by lia. reflexivity.
Qed.

(** The part of [concat] after the allocation: the loop and the zero
    fill of what it left. *)
Lemma concat_fills (h : heap) (list : list view) (n : Z) :
  Forall (wf_view h) list -> 0 <= n ->
  let buffer := {| view_buffer := length h; view_byteOffset := 0; view_length := n |} in
  (pos ← concat_loop list buffer 0;
   (if decide (pos < n) then on_view buffer (TypedArray_fill 0 pos n) else mret tt);;
   mret buffer) (h ++ [replicate (Z.to_nat n) 0])
  = (h ++ [fit n (concat (map (contents h) list))], inr buffer).
Proof.
  intros Hall Hn buffer.
  set (h0 := h ++ [replicate (Z.to_nat n) 0]).
  set (bn := length h) in *.
  assert (Hnew : memory h0 bn = replicate (Z.to_nat n) 0) by apply memory_app_new.
  assert (Hlen0 : len (memory h0 bn) = n).
  { rewrite Hnew. unfold len. rewrite length_replicate. lia. }
  assert (Hh0 : length h0 = S bn).
  { subst h0. rewrite length_app. cbn. lia. }
  assert (Hb : wf_view h0 buffer).
  { unfold wf_view. cbn. rewrite Hlen0, Hh0. lia. }
  assert (Hall0 : Forall (fun v => wf_view h0 v /\ view_buffer v ≠ bn) list).
  { eapply Forall_impl; [|exact Hall]. intros v (Hv & ? & ? & ?).
    split; [|lia]. unfold wf_view. subst h0. rewrite memory_app_l by exact Hv.
    rewrite length_app. cbn. repeat split; lia. }
  assert (Hdata0 : map (contents h0) list = map (contents h) list).
  { apply map_ext_Forall. eapply Forall_impl; [|exact Hall]. intros v (Hv & _).
    unfold contents. subst h0. now rewrite memory_app_l. }
  destruct (concat_loop_bytes bn n list h0 0 Hb Hall0) as (h1 & Hloop & Hh1 & Hother & Hlen1 & Hbytes);
    [lia|].
  cbv zeta in Hloop, Hbytes. rewrite Hdata0 in Hloop, Hbytes.
  set (data := concat (map (contents h) list)) in *.
  pose proof (len_nonneg data) as Hdata.
  fold buffer in Hloop. unfold mbind, H_bind. rewrite Hloop.
  set (pos := Z.min n (0 + len data)) in *.
  assert (Hcontents : contents h1 buffer = memory h1 bn).
  { unfold contents. cbn. rewrite <- Hlen0, <- Hlen1.
    apply window_content; [lia|lia|]. intros k _. f_equal. }
  assert (Hresult : forall h2, length h2 = length h1 ->
            (forall b, b ≠ bn -> memory h2 b = memory h1 b) ->
            (forall i, elem_get (memory h2 bn) i
                       = if decide (0 <= i < n)
                         then Some (default 0 (elem_get data i)) else None) ->
            h2 = h ++ [fit n data]).
  { intros h2 Hh2 Hother2 Hbytes2. apply heap_ext.
    - rewrite Hh2, Hh1, Hh0, length_app. cbn. lia.
    - intros b. destruct (decide (b = bn)) as [->|Hne].
      + subst bn. rewrite memory_app_new. apply bytes_ext. intros i.
        now rewrite Hbytes2, elem_get_fit.
      + rewrite Hother2, Hother by assumption.
        destruct (decide (b < bn)%nat) as [Hlt|Hge].
        * subst h0. now rewrite !memory_app_l.
        * unfold memory. subst h0. rewrite !lookup_ge_None_2; [reflexivity| |];
            rewrite length_app; cbn; lia. }
  assert (Hzero : forall i, elem_get (memory h0 bn) i
                            = if decide (0 <= i < n) then Some 0 else None).
  { intros i. rewrite Hnew, elem_get_replicate.
    destruct (decide (0 <= i < Z.of_nat (Z.to_nat n))), (decide (0 <= i < n)); try lia; reflexivity. }
  destruct (decide (pos < n)) as [Hshort|Hfull].
  - unfold on_view, mret, H_ret. rewrite Hcontents.
    destruct (TypedArray_fill_spec 0 pos n (memory h1 bn)) as (buf' & Hfill & Hlenf & Hbytesf);
      [lia|lia|].
    rewrite Hfill. unfold buffer at 1 2. cbn [view_buffer view_byteOffset]. f_equal.
    assert (Hfit : 0 + len buf' <= len (memory h1 bn)) by lia.
    apply Hresult.
    + apply length_write_memory.
    + intros b Hne. now apply memory_write_ne.
    + intros i. rewrite elem_get_memory_write by lia.
      destruct (decide (0 <= i < n)) as [Hin|Hout].
      * destruct (decide _) as [_|Hbad]; [|lia].
        rewrite Z.sub_0_r, Hbytesf.
        destruct (decide (pos <= i < n)) as [Hpad|Hcopied].
        -- assert (elem_get data i = None) as -> by (apply elem_get_None; lia).
           reflexivity.
        -- rewrite Hbytes. destruct (decide _) as [_|Hbad]; [|lia].
           rewrite Z.sub_0_r. destruct (elem_get_Some data i) as (v & ->); [lia|reflexivity].
      * destruct (decide _) as [[_ Hbad]|_]; [lia|].
        rewrite Hbytes. destruct (decide _) as [Hbad|_]; [lia|].
        rewrite Hzero. destruct (decide _); [lia|reflexivity].
  - unfold mret, H_ret. f_equal. apply Hresult; [reflexivity|reflexivity|].
    intros i. rewrite Hbytes.
    destruct (decide (0 <= i < n)) as [Hin|Hout].
    + destruct (decide _) as [_|Hbad]; [|lia].
      rewrite Z.sub_0_r. destruct (elem_get_Some data i) as (v & ->); [lia|reflexivity].
    + destruct (decide _) as [Hbad|_]; [lia|].
      rewrite Hzero. destruct (decide _); [lia|reflexivity].
Qed.

(** [Buffer.concat]: for a list of buffers and a [totalLength] that is
    absent or a safe non-negative integer, both editions return a new
    buffer over fresh memory that holds the bytes of the list in order,
    cut to [totalLength] bytes or filled up with zeros to it; without
    [totalLength] it holds them all. The buffers of the list, and all
    memory there was, stay as they were. An empty list gives an empty
    buffer whatever [totalLength] is. *)
Theorem concat_joins (h : heap) (list : list view) (totalLength : option Z) :
  Forall (wf_view h) list ->
  let data := concat (map (contents h) list) in
  let n := match list with
           | [] => 0
           | _ => default (len data) totalLength
           end in
  0 <= n <= MAX_SAFE_INTEGER ->
  let result := (h ++ [fit n data],
                 inr {| view_buffer := length h; view_byteOffset := 0; view_length := n |}) in
  Ed1.concat list totalLength h = result /\ Ed2.concat list totalLength h = result.
Proof.
  intros Hall data n Hn result.
  destruct list as [|v rest].
  - subst result n data. cbn. unfold Ed1.concat, Ed2.concat. cbn. 
    unfold new_FastBuffer. cbn. split; reflexivity.
  - set (list := v :: rest) in *.
    assert (Htotal : total_length list = len data).
    { unfold total_length. rewrite total_length_sum. subst data.
      rewrite len_concat_contents by assumption. lia. }
    assert (Hmin : MIN_SAFE_INTEGER <= 0) by (vm_compute; discriminate).
    assert (Halloc : allocate n h
                     = (h ++ [replicate (Z.to_nat n) 0],
                        inr {| view_buffer := length h; view_byteOffset := 0;
                               view_length := n |})).
    { unfold allocate, new_FastBuffer.
      destruct (decide (n <= 0)) as [Hz|Hpos].
      - assert (n = 0) as -> by lia. reflexivity.
      - destruct (decide (n < 0)); [lia|reflexivity]. }
    pose proof (concat_fills h list n Hall (proj1 Hn)) as Hfill. cbv zeta in Hfill.
    assert (Hlength : n = default (len data) totalLength) by reflexivity.
    clearbody n.
    assert (Hlt : (n <? 0) = false) by (apply Z.ltb_ge; lia).
    assert (Hgt : (n >? MAX_SAFE_INTEGER) = false) by (rewrite Z.gtb_ltb; apply Z.ltb_ge; lia).
    split.
    + unfold Ed1.concat. destruct (decide (Z.of_nat (length list) = 0)) as [Hbad|_];
        [subst list; cbn in Hbad; lia|].
      unfold result, data. rewrite <- Hfill. fold data.
      unfold Ed1.allocUnsafe, check, validateNumber, validateInteger.
      destruct totalLength as [t|]; cbn [from_option id] in Hlength;
        subst t || rewrite Htotal, <- Hlength.
      * rewrite bool_decide_eq_false_2 by (cbn; lia).
        unfold mbind, H_bind, mret, H_ret, M_ret. cbn [snd orb from_option].
        now rewrite Halloc.
      * unfold mbind, H_bind, mret, H_ret, M_ret. cbn [snd orb from_option].
        now rewrite Halloc.
    + unfold Ed2.concat. destruct (decide (Z.of_nat (length list) = 0)) as [Hbad|_];
        [subst list; cbn in Hbad; lia|].
      unfold result, data. rewrite <- Hfill. fold data.
      unfold Ed2.allocUnsafe, check, validateNumber, Ed2.validateOffset, validateInteger.
      destruct totalLength as [t|]; cbn [from_option id] in Hlength;
        subst t || rewrite Htotal, <- Hlength.
      * rewrite bool_decide_eq_false_2 by (cbn; lia).
        unfold mbind, H_bind, mret, H_ret, M_ret. cbn [snd orb from_option].
        rewrite Hlt, Hgt. cbn [snd orb]. now rewrite Halloc.
      * unfold mbind, H_bind, mret, H_ret, M_ret. cbn [snd orb from_option].
        rewrite Hlt, Hgt. cbn [snd orb]. now rewrite Halloc.
Qed.

Lemma concat_joins_witness :
  Ed1.concat [Build_view 0 1 2; Build_view 1 0 2] (Some 5) [[1; 2; 3]; [7; 8]]
  = ([[1; 2; 3]; [7; 8]]
       ++ [fit 5 (concat (map (contents [[1; 2; 3]; [7; 8]])
                              [Build_view 0 1 2; Build_view 1 0 2]))],
     inr (Build_view 2 0 5))
  /\ Ed2.concat [Build_view 0 1 2; Build_view 1 0 2] (Some 5) [[1; 2; 3]; [7; 8]]
     = ([[1; 2; 3]; [7; 8]]
          ++ [fit 5 (concat (map (contents [[1; 2; 3]; [7; 8]])
                                 [Build_view 0 1 2; Build_view 1 0 2]))],
        inr (Build_view 2 0 5)).
Proof.
  refine (concat_joins [[1; 2; 3]; [7; 8]] [Build_view 0 1 2; Build_view 1 0 2] (Some 5) _ _).
  - repeat constructor; unfold memory, len; cbn; lia.
  - unfold MAX_SAFE_INTEGER. cbn. lia.
Defined.

(** * [subarray] and [slice] *)

Lemma elem_get_drop (n : nat) (l : bytes) (i : Z) :
  0 <= i -> elem_get (drop n l) i = elem_get l (Z.of_nat n + i).
Proof.
  intros Hi. unfold elem_get.
  destruct (decide (0 <= i)); [|lia]. destruct (decide (0 <= Z.of_nat n + i)); [|lia].
  rewrite lookup_drop. f_equal. lia.
Qed.

Lemma elem_get_window_all (buf : bytes) (start end_ i : Z) :
  0 <= start ->
  elem_get (window buf start end_) i
  = if decide (0 <= i < end_ - start) then elem_get buf (start + i) else None.
Proof.
  intros Hs. unfold window. rewrite elem_get_take.
  destruct (decide (0 <= i < end_ - start)) as [Hin|Hout].
  - destruct (decide (i < _)); [|lia]. rewrite elem_get_drop by lia. f_equal. lia.
  - destruct (decide (i < _)) as [Hlt|]; [|reflexivity].
    apply elem_get_None. left. lia.
Qed.

Lemma adjustOffset_clamp (n : Z) (offset : option Z) :
  0 <= n -> adjustOffset offset n = clamp_index n offset 0.
Proof.
  intros Hn. unfold adjustOffset, clamp_index. destruct offset as [o|]; [|reflexivity].
  repeat destruct (decide _); lia.
Qed.

(** [subarray], [slice]: on a buffer of [n] bytes, [buf.subarray(start,
    end)] and [buf.slice(start, end)] return a view of the same memory,
    not a copy, without an exception for any [start] and [end]: a negative
    index counts from the end, both are kept within [0, n], [end]
    defaults to [n], and whatever the memory holds later, the view shows
    the bytes of [buf] from [start] up to [end] (none when [end] is not
    above [start]). *)
Theorem subarray_is_a_window (h : heap) (this : view) (start end_ : option Z) :
  wf_view h this ->
  let n := view_length this in
  let s := clamp_index n start 0 in
  let e := clamp_index n end_ n in
  exists v,
    subarray this start end_ h = (h, inr v)
    /\ slice this start end_ h = (h, inr v)
    /\ view_buffer v = view_buffer this
    /\ view_length v = Z.max 0 (e - s)
    /\ forall h', wf_view h' this ->
         wf_view h' v /\ contents h' v = window (contents h' this) s e.
Proof.
  intros Hwf n s e.
  assert (En : n = view_length this) by reflexivity.
  assert (Hn : 0 <= n) by (destruct Hwf as (? & ? & ? & ?); subst n; lia).
  assert (Hs : 0 <= s <= n).
  { subst s. unfold clamp_index. destruct start; [destruct (decide _)|]; lia. }
  assert (He : 0 <= e <= n).
  { subst e. unfold clamp_index. destruct end_; [destruct (decide _)|]; lia. }
  assert (Hend : match end_ with
                 | Some _ => adjustOffset end_ n
                 | None => n
                 end = e).
  { subst e. destruct end_; [now apply adjustOffset_clamp|reflexivity]. }
  exists {| view_buffer := view_buffer this;
            view_byteOffset := view_byteOffset this + s;
            view_length := if decide (e > s) then e - s else 0 |}.
  assert (Hrun : subarray this start end_ h
                 = (h, inr {| view_buffer := view_buffer this;
                              view_byteOffset := view_byteOffset this + s;
                              view_length := if decide (e > s) then e - s else 0 |})).
  { unfold subarray. fold n. rewrite Hend, adjustOffset_clamp by exact Hn. fold s.
    unfold new_Uint8Array.
    destruct Hwf as (? & ? & ? & ?).
    destruct (decide (_ \/ _)) as [Hbad|_]; [|reflexivity].
    destruct (decide (e > s)); lia. }
  split; [exact Hrun|]. split; [exact Hrun|]. split; [reflexivity|].
  split; [cbn; destruct (decide _); lia|].
  intros h' (Hb' & Ho' & Hl' & Hfit'). split.
  - unfold wf_view. cbn. repeat split; try lia; destruct (decide _); lia.
  - apply bytes_ext. intros i. unfold contents. cbn [view_buffer view_byteOffset view_length].
    fold n. rewrite !elem_get_window_all by lia.
    destruct (decide (e > s)) as [Hgt|Hle].
    + destruct (decide (0 <= i < e - s)) as [Hin|Hout].
      * destruct (decide _) as [_|Hbad]; [|lia].
        destruct (decide _) as [_|Hbad]; [|lia]. f_equal. lia.
      * destruct (decide _) as [Hbad|_]; [lia|reflexivity].
    + destruct (decide _) as [Hbad|_]; [lia|].
      destruct (decide _) as [Hbad|_]; [lia|reflexivity].
Qed.

Lemma subarray_is_a_window_witness :
  exists v,
    subarray (Build_view 0 1 4) (Some (-3)) None [[9; 1; 2; 3; 4; 9]] = ([[9; 1; 2; 3; 4; 9]], inr v)
    /\ slice (Build_view 0 1 4) (Some (-3)) None [[9; 1; 2; 3; 4; 9]]
       = ([[9; 1; 2; 3; 4; 9]], inr v)
    /\ view_buffer v = 0%nat
    /\ view_length v = Z.max 0 (clamp_index 4 None 4 - clamp_index 4 (Some (-3)) 0)
    /\ forall h', wf_view h' (Build_view 0 1 4) ->
         wf_view h' v
         /\ contents h' v
            = window (contents h' (Build_view 0 1 4))
                     (clamp_index 4 (Some (-3)) 0) (clamp_index 4 None 4).
Proof.
  refine (subarray_is_a_window [[9; 1; 2; 3; 4; 9]] (Build_view 0 1 4) (Some (-3)) None _).
  unfold wf_view, memory, len; cbn; lia.
Defined.

(** * [equals] and the symmetry of [compare] *)

Lemma first_edition_compare_loop_zero (a : bytes) :
  forall b, length a = length b -> (Ed1._compare_loop a b = 0 <-> a = b).
Proof.
  induction a as [|x a IH]; intros [|y b] Hlen; try discriminate; cbn.
  - tauto.
  - destruct (decide (x < y)); [split; [discriminate|intros [= ? ?]; lia]|].
    destruct (decide (x > y)); [split; [discriminate|intros [= ? ?]; lia]|].
    assert (x = y) as -> by lia. rewrite IH by (cbn in Hlen; lia).
    split; [now intros ->|now intros [= ?]].
Qed.

Lemma first_edition_compare_loop_flip (a : bytes) :
  forall b, Ed1._compare_loop b a = - Ed1._compare_loop a b.
Proof.
  induction a as [|x a IH]; intros [|y b]; cbn; try reflexivity.
  repeat destruct (decide _); try lia. apply IH.
Qed.

Lemma second_edition_compare_loop_flip (a b : bytes) (n : nat) :
  forall i, 0 <= i -> i + Z.of_nat n <= Z.min (len a) (len b) ->
  Ed2.compare_loop n b a 0 0 i = Z.opp <$> Ed2.compare_loop n a b 0 0 i.
Proof.
  induction n as [|n IH]; intros i Hi Hn; cbn [Ed2.compare_loop]; [reflexivity|].
  rewrite !Z.add_0_r.
  destruct (elem_get_Some a i) as (x & Hx); [lia|].
  destruct (elem_get_Some b i) as (y & Hy); [lia|].
  rewrite Hx, Hy.
  destruct (decide (Some y ≠ Some x)) as [Hne|Heq].
  - destruct (decide (Some x ≠ Some y)) as [_|Hbad];
      [|apply dec_stable in Hbad; exfalso; apply Hne; congruence].
    assert (x <> y) by congruence.
    destruct (decide (y > x)), (decide (x > y)); try lia; reflexivity.
  - apply dec_stable in Heq.
    destruct (decide (Some x ≠ Some y)) as [Hbad|_]; [exfalso; apply Hbad; congruence|].
    apply IH; lia.
Qed.

(** [equals], [compare]: in both editions [a.equals(b)] is true exactly
    when the two buffers hold the same bytes, [compare] answers 0 exactly
    then, and exchanging the arguments of [compare] negates its answer, so
    that it can serve as the comparator of a sort. *)
Theorem equals_iff_same_bytes (a b : bytes) :
  (Ed1.equals a b = true <-> a = b)
  /\ (Ed2.equals a b = true <-> a = b)
  /\ (Ed1.compare a b = 0 <-> a = b)
  /\ Ed1.compare b a = - Ed1.compare a b
  /\ Ed2.compare_static b a = - Ed2.compare_static a b.
Proof.
  assert (H1 : Ed1._compare a b = 0 <-> a = b).
  { unfold Ed1._compare.
    destruct (decide (len a < len b)) as [Hlt|Hge];
      [split; [discriminate|intros ->; lia]|].
    destruct (decide (len a > len b)) as [Hgt|Hle];
      [split; [discriminate|intros ->; lia]|].
    apply first_edition_compare_loop_zero. unfold len in *. lia. }
  assert (H2 : len a = len b -> (Ed2._compare a b = 0 <-> a = b)).
  { intros Hlen. unfold Ed2._compare.
    destruct (Ed2.compare_loop _ a b 0 0 0) as [r|] eqn:E.
    - assert (r <> 0 /\ a <> b) as [Hr Hab].
      { split.
        - clear -E. revert E. generalize 0 at 3. generalize (Z.to_nat (Z.min (len a) (len b))).
          intros n. induction n as [|n IH]; intros i; cbn [Ed2.compare_loop]; [discriminate|].
          destruct (decide _); [|apply IH].
          destruct (elem_get a _), (elem_get b _); try destruct (decide _);
            intros [= <-]; discriminate.
        - intros ->. assert (Ed2.compare_loop (Z.to_nat (Z.min (len b) (len b))) b b 0 0 0 = None)
            as Hnone by (apply compare_loop_None; reflexivity).
          congruence. }
      tauto.
    - unfold Ed2.normalizeCompareVal. destruct (decide (0 = 0)); [|lia].
      destruct (decide (len a > len b)); [lia|]. destruct (decide (len a < len b)); [lia|].
      split; [intros _|reflexivity].
      apply bytes_ext. intros j. destruct (decide (0 <= j < len a)) as [Hj|Hj].
      + apply (proj1 (compare_loop_None a b _ 0) E). lia.
      + rewrite (proj2 (elem_get_None a j)), (proj2 (elem_get_None b j)) by lia.
        reflexivity. }
  split; [|split; [|split; [exact H1|split]]].
  - unfold Ed1.equals. destruct (decide (len a ≠ len b)) as [Hne|Heq].
    + split; [discriminate|intros ->; congruence].
    + rewrite orb_true_iff, !bool_decide_eq_true. rewrite H1. split; [|tauto].
      intros [Hz|?]; [|assumption].
      apply dec_stable in Heq. unfold len in *.
      destruct a, b; try discriminate; reflexivity.
  - unfold Ed2.equals. destruct (decide (len a ≠ len b)) as [Hne|Heq].
    + split; [discriminate|intros ->; congruence].
    + apply dec_stable in Heq.
      rewrite orb_true_iff, !bool_decide_eq_true. rewrite (H2 Heq). split; [|tauto].
      intros [Hz|?]; [|assumption].
      unfold len in *. destruct a, b; try discriminate; reflexivity.
  - unfold Ed1.compare, Ed1._compare.
    rewrite first_edition_compare_loop_flip.
    repeat destruct (decide _); lia.
  - unfold Ed2.compare_static, Ed2._compare.
    rewrite (Z.min_comm (len b) (len a)).
    rewrite second_edition_compare_loop_flip
      by (pose proof (len_nonneg a); pose proof (len_nonneg b); lia).
    destruct (Ed2.compare_loop _ a b 0 0 0) as [r|]; cbn; [reflexivity|].
    unfold Ed2.normalizeCompareVal. repeat destruct (decide _); lia.
Qed.

(** * [compare] on ranges *)

Lemma compare_loop_window (source target : bytes) (ss se ts te : Z) (n : nat) :
  forall i, 0 <= i -> 0 <= ss -> 0 <= ts -> se <= len source -> te <= len target ->
  i + Z.of_nat n <= Z.min (se - ss) (te - ts) ->
  Ed2.compare_loop n source target ss ts i
  = Ed2.compare_loop n (window source ss se) (window target ts te) 0 0 i.
Proof.
  induction n as [|n IH]; intros i Hi Hss Hts Hse Hte Hn; cbn [Ed2.compare_loop];
    [reflexivity|].
  rewrite !Z.add_0_r, !elem_get_window by lia.
  rewrite (Z.add_comm ss i), (Z.add_comm ts i).
  destruct (decide _); [reflexivity|]. apply IH; lia.
Qed.

Lemma validateOffset_passes (value : Z) (name : string) (max : option Z) :
  0 <= value <= default MAX_SAFE_INTEGER max ->
  Ed2.validateOffset value name None max = mret tt.
Proof.
  intros Hv. unfold Ed2.validateOffset, validateInteger.
  rewrite bool_decide_eq_false_2; [reflexivity|]. cbn. lia.
Qed.

(** [compare] with ranges: when the four positions are absent or within
    their bounds, [buf.compare(target, targetStart, targetEnd, sourceStart,
    sourceEnd)] of the second edition is the comparison of the two ranges
    as buffers of their own, an empty range for an end that is not above
    its start. *)
Theorem second_edition_compare_ranges (this target : bytes)
    (targetStart targetEnd sourceStart sourceEnd : option Z) :
  let ts := default 0 targetStart in
  let te := default (len target) targetEnd in
  let ss := default 0 sourceStart in
  let se := default (len this) sourceEnd in
  0 <= ts <= MAX_SAFE_INTEGER -> 0 <= te <= len target ->
  0 <= ss <= MAX_SAFE_INTEGER -> 0 <= se <= len this ->
  Ed2.compare this target (Some (targetStart, targetEnd, sourceStart, sourceEnd))
  = inr (Ed2._compare (window this ss se) (window target ts te)).
Proof.
  intros ts te ss se Hts Hte Hss Hse.
  assert (Hchecks :
    (let check (v : option Z) (name : string) (max : option Z) (dflt : Z) : M Z :=
       match v with
       | None => mret dflt
       | Some x => Ed2.validateOffset x name None max;; mret x
       end in
     targetStart ← check targetStart "targetStart"%string None 0;
     targetEnd ← check targetEnd "targetEnd"%string (Some (len target)) (len target);
     sourceStart ← check sourceStart "sourceStart"%string None 0;
     sourceEnd ← check sourceEnd "sourceEnd"%string (Some (len this)) (len this);
     mret (targetStart, targetEnd, sourceStart, sourceEnd)) this
    = (this, inr (ts, te, ss, se))).
  { subst ts te ss se. cbv zeta.
    destruct targetStart as [a|], targetEnd as [b|], sourceStart as [c|], sourceEnd as [d|];
      cbn [default from_option id] in *;
      rewrite ?validateOffset_passes by (cbn; lia); reflexivity. }
  unfold Ed2.compare. cbv zeta in Hchecks. rewrite Hchecks.
  pose proof (len_nonneg this) as Hlt. pose proof (len_nonneg target) as Hlg.
  unfold Ed2._compare.
  destruct (decide (ss >= se)) as [Hsempty|Hsome].
  - assert (window this ss se = []) as ->.
    { unfold window. replace (Z.to_nat (se - ss)) with 0%nat by lia. apply take_0. }
    change (len []) with 0. rewrite Z.min_l by (pose proof (len_nonneg (window target ts te)); lia).
    cbn [Z.to_nat Ed2.compare_loop]. unfold Ed2.normalizeCompareVal.
    destruct (decide (0 = 0)); [|lia].
    destruct (decide (ts >= te)) as [Htempty|Htsome].
    + assert (window target ts te = []) as ->.
      { unfold window. replace (Z.to_nat (te - ts)) with 0%nat by lia. apply take_0. }
      reflexivity.
    + rewrite len_window by lia.
      destruct (decide (0 > te - ts)); [lia|]. destruct (decide (0 < te - ts)); [reflexivity|lia].
  - rewrite (len_window this) by lia.
    destruct (decide (ts >= te)) as [Htempty|Htsome].
    + assert (window target ts te = []) as ->.
      { unfold window. replace (Z.to_nat (te - ts)) with 0%nat by lia. apply take_0. }
      change (len []) with 0. rewrite Z.min_r by lia.
      cbn [Z.to_nat Ed2.compare_loop]. unfold Ed2.normalizeCompareVal.
      destruct (decide (0 = 0)); [|lia]. destruct (decide (se - ss > 0)); [reflexivity|lia].
    + rewrite (len_window target) by lia.
      unfold Ed2.compareOffset.
      replace (Z.min (Z.min (se - ss) (te - ts)) (len this - ss))
        with (Z.min (se - ss) (te - ts)) by lia.
      rewrite (compare_loop_window this target ss se ts te) by lia.
      reflexivity.
Qed.

Lemma second_edition_compare_ranges_witness :
  Ed2.compare [1; 2; 3; 4] [9; 2; 3; 5] (Some (Some 1, Some 3, Some 1, None))
  = inr (Ed2._compare (window [1; 2; 3; 4] 1 (len [1; 2; 3; 4])) (window [9; 2; 3; 5] 1 3)).
Proof.
  refine (second_edition_compare_ranges [1; 2; 3; 4] [9; 2; 3; 5]
            (Some 1) (Some 3) (Some 1) None _ _ _ _);
    unfold MAX_SAFE_INTEGER, len; cbn; lia.
Defined.

(** * Base64 through a buffer (second edition) *)

Lemma base64Encode_symbols (s : bytes) :
  wf_bytes s ->
  Ed2.base64Encode s = map Ed2.enc (sextets s) ++ padding (length (sextets s)).
Proof.
  intros Hwf. unfold Ed2.base64Encode, padding.
  rewrite base64Encode_loop_sextets by exact Hwf.
  rewrite length_map. apply map_fromCharCode_small.
  apply Forall_app. split.
  - apply Forall_fmap. eapply Forall_impl; [|exact (sextets_range s Hwf)].
    intros x Hx. cbn. destruct (enc_dec x Hx) as (_ & _ & _ & ?). lia.
  - apply Forall_replicate. lia.
Qed.

Lemma symbol_is_no_space (c : Z) :
  Ed2.is_symbol c = true \/ c = 61 -> is_js_space c = false.
Proof.
  intros Hc. unfold is_js_space. apply bool_decide_eq_false.
  assert (Hr : 43 <= c <= 122).
  { destruct Hc as [Hc| ->]; [|lia]. unfold Ed2.is_symbol in Hc.
    apply bool_decide_eq_true in Hc. lia. }
  rewrite !elem_of_cons, elem_of_nil. lia.
Qed.

Lemma trimStart_id (s : jsstring) :
  Forall (fun c => is_js_space c = false) s -> trimStart s = s.
Proof. destruct 1 as [|c r Hc _]; cbn; [reflexivity|]. now rewrite Hc. Qed.

Lemma trim_id (s : jsstring) :
  Forall (fun c => is_js_space c = false) s -> trim s = s.
Proof.
  intros Hs. unfold trim. rewrite (trimStart_id s Hs).
  rewrite trimStart_id by now apply Forall_reverse.
  apply reverse_involutive.
Qed.

Lemma keep_alphabet_id (s : jsstring) :
  Forall (fun c => Ed2.is_symbol c = true \/ c = 61) s -> Ed2.keep_alphabet s = s.
Proof.
  unfold Ed2.keep_alphabet. induction 1 as [|c r Hc _ IH]; [reflexivity|].
  rewrite filter_cons_True by exact Hc. now rewrite IH.
Qed.

Lemma cut_at_equals_padding (syms : jsstring) (p : nat) :
  Forall (fun c => c <> 61) syms ->
  Ed2.cut_at_equals (syms ++ replicate p 61) = syms.
Proof.
  induction 1 as [|c r Hc _ IH]; cbn.
  - destruct p; cbn; [reflexivity|]. destruct (decide (61 = 61)); [reflexivity|lia].
  - destruct (decide (c = 61)); [contradiction|]. now rewrite IH.
Qed.

Lemma charCodeAt_padded (syms : jsstring) (p : nat) (i : Z) :
  Forall (fun c => c <> 61) syms -> 0 <= i ->
  (charCodeAt (syms ++ replicate p 61) i = Some 61 <-> len syms <= i < len syms + Z.of_nat p).
Proof.
  intros Hs Hi. unfold charCodeAt, len. destruct (decide (0 <= i)); [|lia].
  destruct (decide (i < Z.of_nat (length syms))) as [Hin|Hout].
  - rewrite lookup_app_l by lia. split; [|lia]. intros Hc.
    exfalso. exact (Forall_lookup_1 _ _ _ _ Hs Hc eq_refl).
  - rewrite lookup_app_r by lia. split.
    + intros Hc. apply lookup_lt_Some in Hc. rewrite length_replicate in Hc. lia.
    + intros Hp. apply lookup_replicate_2. lia.
Qed.

Lemma base64ByteLength_padded (syms : jsstring) (p : nat) :
  Forall (fun c => c <> 61) syms -> (p <= 2)%nat -> 2 <= len syms ->
  3 * len syms < 2 ^ 32 ->
  Ed2.base64ByteLength (syms ++ replicate p 61) (len (syms ++ replicate p 61))
  = 3 * len syms / 4.
Proof.
  intros Hs Hp Hn Hsmall.
  unfold Ed2.base64ByteLength, Ed1.base64ByteLength.
  rewrite len_app. assert (len (replicate p 61) = Z.of_nat p) as ->
    by (unfold len; now rewrite length_replicate).
  set (n := len syms) in *.
  assert (Hpad : forall i, 0 <= i ->
            (charCodeAt (syms ++ replicate p 61) i = Some 61 <-> n <= i < n + Z.of_nat p))
    by (intros i Hi; now apply charCodeAt_padded).
  assert (Hushr : ushr (n * 3) 2 = 3 * n / 4).
  { unfold ushr, ToUint32. rewrite Z.mod_small by lia.
    rewrite Z.shiftr_div_pow2 by lia. f_equal. lia. }
  destruct (decide (charCodeAt _ (n + Z.of_nat p - 1) = Some 61)) as [H1|H1].
  - apply Hpad in H1; [|lia].
    destruct (decide (_ /\ charCodeAt _ (n + Z.of_nat p - 1 - 1) = Some 61)) as [[_ H2]|H2].
    + apply Hpad in H2; [|lia]. replace (n + Z.of_nat p - 1 - 1) with n by lia. exact Hushr.
    + assert (~ (n <= n + Z.of_nat p - 1 - 1 < n + Z.of_nat p)).
      { intros Hbad. apply H2. split; [lia|]. apply Hpad; lia. }
      replace (n + Z.of_nat p - 1) with n by lia. exact Hushr.
  - assert (~ (n <= n + Z.of_nat p - 1 < n + Z.of_nat p)).
    { intros Hbad. apply H1. apply Hpad; lia. }
    assert (Z.of_nat p = 0) as Hp0 by lia. rewrite Hp0, Z.add_0_r.
    destruct (decide (_ /\ charCodeAt _ (n - 1) = Some 61)) as [[_ H2]|_].
    + apply Hpad in H2; lia.
    + exact Hushr.
Qed.

Lemma toString_whole (buf : bytes) (ops : EncodingOps) :
  0 < len buf -> toString buf (Some ops) None None = ops_slice ops buf 0 (len buf).
Proof.
  intros Hpos. unfold toString. cbn [default from_option id].
  destruct (decide (0 > 0 /\ _)) as [[? _]|_]; [lia|].
  destruct (decide (0 <= 0)); [|lia].
  destruct (decide (len buf <= 0)); [lia|reflexivity].
Qed.

Lemma base64Slice_whole (buf : bytes) :
  wf_bytes buf -> 0 < len buf < 2 ^ 31 ->
  Ed2.base64Slice buf (Some 0) (Some (len buf)) = inr (Ed2.base64Encode buf).
Proof.
  intros Hwf Hlen. unfold Ed2.base64Slice, slice_window.
  cbn [default from_option id].
  destruct (decide (0 < 0 \/ _)) as [?|_]; [lia|].
  destruct (decide (len buf < 0)); [lia|].
  unfold toString. cbn [default from_option id].
  destruct (decide (0 > 0 /\ _)) as [[? _]|_]; [lia|].
  destruct (decide (0 <= 0)); [|lia].
  destruct (decide (len buf > len buf)); [lia|].
  rewrite ToInt32_small by lia.
  destruct (decide (len buf <= 0)); [lia|].
  cbn [ops_slice Ed2.latin1]. unfold latin1Slice, slice_window.
  cbn [default from_option id].
  destruct (decide (0 < 0 \/ _)) as [?|_]; [lia|].
  destruct (decide (len buf < 0)); [lia|].
  assert (window buf 0 (len buf) = buf) as ->.
  { unfold window. rewrite drop_0, Z.sub_0_r. apply take_ge. unfold len. lia. }
  rewrite map_fromCharCode_small; [reflexivity|].
  eapply Forall_impl; [|exact Hwf]. cbn. lia.
Qed.

(** What the encoder gives for a buffer that is not empty. *)
Lemma base64Encode_shape (buf : bytes) :
  wf_bytes buf -> buf <> [] -> len buf < 2 ^ 30 ->
  exists (syms : jsstring) (p : nat),
    Ed2.base64Encode buf = syms ++ replicate p 61
    /\ (p <= 2)%nat /\ 2 <= len syms /\ 3 * len syms / 4 = len buf
    /\ 3 * len syms < 2 ^ 32
    /\ len syms + Z.of_nat p = 4 * ((len buf + 2) / 3)
    /\ Forall (fun c => Ed2.is_symbol c = true /\ c <> 61) syms
    /\ Ed2.base64Decode syms = buf.
Proof.
  intros Hwf Hne Hsmall. pose proof (len_nonneg buf) as Hlen.
  exists (map Ed2.enc (sextets buf)), ((4 - length (sextets buf) mod 4) mod 4)%nat.
  set (syms := map Ed2.enc (sextets buf)).
  set (p := ((4 - length (sextets buf) mod 4) mod 4)%nat).
  pose proof (sextets_count buf) as (Hcount & Hmod & Hpad & Hp2). cbv zeta in *.
  pose proof (sextets_nonempty buf Hne) as Hn2.
  assert (Hlsyms : len syms = len (sextets buf))
    by (subst syms; unfold len; now rewrite length_map).
  assert (Hp : Z.of_nat p = (4 - len (sextets buf) mod 4) mod 4).
  { rewrite <- Hpad. unfold padding. f_equal. symmetry. apply length_replicate. }
  rewrite Hlsyms. set (n := len (sextets buf)) in *.
  split; [rewrite base64Encode_symbols by exact Hwf; reflexivity|].
  split; [lia|]. split; [lia|].
  split; [clear -Hcount Hn2; Z.div_mod_to_equations; lia|].
  split; [clear -Hcount Hn2 Hsmall; Z.div_mod_to_equations; lia|].
  split; [rewrite Hp; clear -Hcount Hmod Hn2 Hlen; Z.div_mod_to_equations; lia|].
  split.
  - subst syms. apply Forall_fmap. eapply Forall_impl; [|exact (sextets_range buf Hwf)].
    intros x Hx. cbn. destruct (enc_dec x Hx) as (? & ? & _ & ?). auto.
  - pose proof (base64Decode_symbols buf 0 Hwf Hne ltac:(lia) ltac:(congruence)) as Hd.
    cbn [replicate] in Hd. now rewrite app_nil_r in Hd.
Qed.

(** [base64Write] of symbols and padding into a fresh buffer of the size
    of the decoded bytes. *)
Lemma base64Write_symbols (syms : jsstring) (p : nat) (buf : bytes) (length : Z) :
  Forall (fun c => Ed2.is_symbol c = true /\ c <> 61) syms ->
  Ed2.base64Decode syms = buf -> wf_bytes buf -> 0 <= length ->
  Ed2.base64Write (syms ++ replicate p 61) (Some 0) (Some length)
                  (replicate (Z.to_nat (len buf)) 0)
  = (buf, inr (len buf)).
Proof.
  intros Hsyms Hdec Hwf Hlength. pose proof (len_nonneg buf) as Hlen.
  unfold Ed2.base64Write. cbn [default from_option id].
  destruct (decide (0 < 0 \/ length < 0)) as [?|_]; [lia|].
  set (zeros := replicate (Z.to_nat (len buf)) 0).
  assert (Hzeros : len zeros = len buf).
  { subst zeros. unfold len. rewrite length_replicate. lia. }
  unfold mbind, M_bind, this_length. rewrite Hzeros.
  destruct (decide (0 > len buf)); [lia|].
  assert (Halpha : Forall (fun c => Ed2.is_symbol c = true \/ c = 61) (syms ++ replicate p 61)).
  { apply Forall_app. split.
    - eapply Forall_impl; [|exact Hsyms]. cbn. tauto.
    - apply Forall_replicate. now right. }
  rewrite trim_id.
  2: { eapply Forall_impl; [|exact Halpha]. intros c Hc. now apply symbol_is_no_space. }
  rewrite keep_alphabet_id by exact Halpha.
  rewrite cut_at_equals_padding by (eapply Forall_impl; [|exact Hsyms]; cbn; tauto).
  rewrite Hdec.
  unfold latin1Write. cbn [default from_option id].
  destruct (decide (0 < 0 \/ len buf < 0)) as [?|_]; [lia|].
  unfold mbind, M_bind, this_length. rewrite Hzeros.
  destruct (decide (0 > len buf)); [lia|].
  replace (Z.min (Z.min (len buf - 0) (len buf)) (len buf)) with (len buf) by lia.
  destruct (write_masked_small buf 0 8 zeros) as (buf' & Hrun & Hlen' & Hwin & _);
    [lia| |lia|lia|].
  { eapply Forall_impl; [|exact Hwf]. cbn. lia. }
  rewrite Hrun.
  assert (buf' = buf) as ->; [|reflexivity].
  etransitivity; [|exact Hwin]. unfold window.
  rewrite drop_0, Z.add_0_l, Z.sub_0_r. symmetry. apply take_ge. unfold len in *. lia.
Qed.

(** Base64 through a buffer: in the second edition, for a buffer of fewer
    than 2^30 bytes, [buf.toString('base64')] is a string of
    [4 * ceil(n / 3)] units for which [Buffer.byteLength(s, 'base64')] is
    the length of the buffer, and [Buffer.from(s, 'base64')] holds the
    bytes of the buffer again. *)
Theorem second_edition_base64_buffer_round_trip (buf : bytes) :
  wf_bytes buf -> len buf < 2 ^ 30 ->
  exists s,
    toString buf (Some Ed2.base64) None None = inr s
    /\ len s = 4 * ((len buf + 2) / 3)
    /\ ops_byteLength Ed2.base64 s = len buf
    /\ Ed2.fromString s Ed2.base64 = inr buf.
Proof.
  intros Hwf Hsmall. pose proof (len_nonneg buf) as Hlen.
  exists (Ed2.base64Encode buf).
  destruct (decide (buf = [])) as [->|Hne].
  { repeat split. }
  assert (Hpos : 0 < len buf).
  { unfold len in *. destruct buf; [congruence|cbn; lia]. }
  destruct (base64Encode_shape buf Hwf Hne Hsmall)
    as (syms & p & Henc & Hp & Hn2 & Hcount & H32 & Htotal & Hsyms & Hdec).
  assert (Hno61 : Forall (fun c => c <> 61) syms)
    by (eapply Forall_impl; [|exact Hsyms]; cbn; tauto).
  assert (Hlens : len (Ed2.base64Encode buf) = 4 * ((len buf + 2) / 3)).
  { rewrite Henc, len_app.
    assert (len (replicate p 61) = Z.of_nat p) as ->
      by (unfold len; f_equal; apply length_replicate).
    exact Htotal. }
  assert (Hbytes : Ed2.base64ByteLength (Ed2.base64Encode buf) (len (Ed2.base64Encode buf))
                   = len buf).
  { rewrite Henc, base64ByteLength_padded; assumption. }
  split; [|split; [exact Hlens|split; [exact Hbytes|]]].
  - rewrite toString_whole by exact Hpos. cbn [ops_slice Ed2.base64].
    apply base64Slice_whole; [exact Hwf|lia].
  - unfold Ed2.fromString.
    destruct (decide (len (Ed2.base64Encode buf) = 0)) as [Hz|_].
    { exfalso. rewrite Hlens in Hz. clear -Hz Hpos. Z.div_mod_to_equations. lia. }
    unfold Ed2.fromStringFast. cbn [ops_byteLength ops_write Ed2.base64].
    rewrite Hbytes, Henc.
    rewrite (base64Write_symbols syms p buf (len buf)) by (assumption || lia).
    destruct (decide (len buf ≠ len buf)); [congruence|reflexivity].
Qed.

Lemma second_edition_base64_buffer_round_trip_witness :
  exists s,
    toString [102; 111] (Some Ed2.base64) None None = inr s
    /\ len s = 4 * ((len [102; 111] + 2) / 3)
    /\ ops_byteLength Ed2.base64 s = len [102; 111]
    /\ Ed2.fromString s Ed2.base64 = inr [102; 111].
Proof.
  refine (second_edition_base64_buffer_round_trip [102; 111] _ _).
  - repeat constructor; lia.
  - unfold len. cbn. lia.
Defined.

(** * [hexSlice] (second edition) *)

Lemma hex_pair (b : Z) :
  0 <= b < 256 ->
  length (padStart2 (toString16 b)) = 2%nat
  /\ parseInt16 (padStart2 (toString16 b)) = Some b
  /\ Forall (fun c => 48 <= c <= 57 \/ 97 <= c <= 102) (padStart2 (toString16 b)).
Proof.
  intros Hb.
  pose proof (check_below 256
    (fun b => Nat.eqb (length (padStart2 (toString16 b))) 2
              && match parseInt16 (padStart2 (toString16 b)) with
                 | Some v => Z.eqb v b
                 | None => false
                 end
              && forallb (fun c => (48 <=? c) && (c <=? 57) || (97 <=? c) && (c <=? 102))
                         (padStart2 (toString16 b)))
    ltac:(vm_compute; reflexivity) b Hb) as H.
  cbv beta in H. rewrite !andb_true_iff in H.
  destruct H as [[H1 H2] H3]. split; [now apply Nat.eqb_eq|]. split.
  - destruct (parseInt16 _) as [v|]; [|discriminate]. f_equal. now apply Z.eqb_eq.
  - apply Forall_forall. intros c Hc. rewrite forallb_forall in H3.
    apply H3 in Hc. lia.
Qed.

Lemma concat_pairs (f : Z -> jsstring) (l : bytes) :
  Forall (fun b => length (f b) = 2%nat) l ->
  length (concat (map f l)) = (2 * length l)%nat
  /\ forall (i : nat) (b : Z), l !! i = Some b ->
       take 2 (drop (2 * i) (concat (map f l))) = f b.
Proof.
  induction 1 as [|a r Ha _ [IHlen IH]]; cbn [map concat].
  - split; [reflexivity|]. intros i b Hb. now rewrite lookup_nil in Hb.
  - split; [rewrite length_app, Ha, IHlen; cbn; lia|].
    intros [|i] b Hb; cbn in Hb.
    + injection Hb as <-. cbn [Nat.mul drop]. now apply take_app_length'.
    + replace (2 * S i)%nat with (2 + 2 * i)%nat by lia.
      rewrite drop_app_add' by now symmetry. now apply IH.
Qed.

(** [hexSlice]: in the second edition [buf.toString('hex')] has two units
    for each byte, both of them digits [0-9a-f], and the two units of byte
    [i] read as a hexadecimal number are that byte; so the string
    determines the bytes. The first edition leaves out the leading zero of
    a byte below 16, and two different buffers can print alike. *)
Theorem second_edition_hexSlice_digits (buf : bytes) :
  wf_bytes buf ->
  (exists s,
      Ed2.hexSlice buf None None = inr s
      /\ len s = 2 * len buf
      /\ Forall (fun c => 48 <= c <= 57 \/ 97 <= c <= 102) s
      /\ forall i, 0 <= i < len buf ->
           parseInt16 (string_slice s (2 * i) (2 * i + 2)) = elem_get buf i)
  /\ (forall other, wf_bytes other ->
        Ed2.hexSlice other None None = Ed2.hexSlice buf None None -> other = buf)
  /\ Ed1.hexSlice [0x0a; 0x01] None None = Ed1.hexSlice [0xa1] None None.
Proof.
  intros Hwf.
  assert (Hslice : forall b : bytes,
            Ed2.hexSlice b None None
            = inr (concat (map (fun x => padStart2 (toString16 x)) b))).
  { intros b. pose proof (len_nonneg b). unfold Ed2.hexSlice, slice_window.
    cbn [default from_option id].
    destruct (decide (0 < 0 \/ _)) as [?|_]; [lia|].
    destruct (decide (len b < 0)); [lia|].
    assert (window b 0 (len b) = b) as ->; [|reflexivity].
    unfold window. rewrite drop_0, Z.sub_0_r. apply take_ge. unfold len. lia. }
  assert (Hpairs : forall b : bytes, wf_bytes b ->
            Forall (fun x => length (padStart2 (toString16 x)) = 2%nat) b).
  { intros b Hb. eapply Forall_impl; [|exact Hb]. intros x Hx. now apply hex_pair. }
  assert (Hread : forall (b : bytes) i, wf_bytes b -> 0 <= i < len b ->
            parseInt16 (string_slice (concat (map (fun x => padStart2 (toString16 x)) b))
                                     (2 * i) (2 * i + 2))
            = elem_get b i).
  { intros b i Hb Hi.
    destruct (concat_pairs (fun x => padStart2 (toString16 x)) b (Hpairs b Hb)) as [_ Hchunk].
    destruct (elem_get_Some b i Hi) as (x & Hx). rewrite Hx.
    unfold elem_get in Hx. destruct (decide (0 <= i)); [|lia].
    unfold string_slice. replace (Z.to_nat (2 * i + 2 - 2 * i)) with 2%nat by lia.
    replace (Z.to_nat (2 * i)) with (2 * Z.to_nat i)%nat by lia.
    rewrite (Hchunk _ _ Hx). apply hex_pair.
    exact (Forall_lookup_1 _ _ _ _ Hb Hx). }
  split; [|split; [|vm_compute; reflexivity]].
  - eexists. split; [apply Hslice|]. split; [|split].
    + destruct (concat_pairs _ buf (Hpairs buf Hwf)) as [Hlen _].
      unfold len. rewrite Hlen. lia.
    + apply Forall_concat, Forall_fmap. eapply Forall_impl; [|exact Hwf].
      intros x Hx. cbn. now apply hex_pair.
    + intros i Hi. now apply Hread.
  - intros other Hother Heq. rewrite !Hslice in Heq. injection Heq as Heq.
    assert (Hlen : len other = len buf).
    { destruct (concat_pairs _ buf (Hpairs buf Hwf)) as [H1 _].
      destruct (concat_pairs _ other (Hpairs other Hother)) as [H2 _].
      rewrite Heq in H2. unfold len. lia. }
    apply bytes_ext. intros i. destruct (decide (0 <= i < len buf)) as [Hi|Hi].
    + rewrite <- (Hread other i Hother) by lia. rewrite Heq. now apply Hread.
    + rewrite (proj2 (elem_get_None other i)), (proj2 (elem_get_None buf i)) by lia.
      reflexivity.
Qed.

Lemma second_edition_hexSlice_digits_witness :
  (exists s,
      Ed2.hexSlice [10; 1; 255] None None = inr s
      /\ len s = 2 * len [10; 1; 255]
      /\ Forall (fun c => 48 <= c <= 57 \/ 97 <= c <= 102) s
      /\ forall i, 0 <= i < len [10; 1; 255] ->
           parseInt16 (string_slice s (2 * i) (2 * i + 2)) = elem_get [10; 1; 255] i)
  /\ (forall other, wf_bytes other ->
        Ed2.hexSlice other None None = Ed2.hexSlice [10; 1; 255] None None ->
        other = [10; 1; 255])
  /\ Ed1.hexSlice [0x0a; 0x01] None None = Ed1.hexSlice [0xa1] None None.
Proof.
  refine (second_edition_hexSlice_digits [10; 1; 255] _).
  repeat constructor; lia.
Defined.

(** * What the search of the second edition does find *)

Lemma forward_scan_spec (buffer val : bytes) (fuel : nat) :
  forall i, i <= len buffer - len val ->
  (Z.to_nat (len buffer - len val - i) <= fuel)%nat ->
  exists j, i <= j <= len buffer - len val
    /\ (forall k, i <= k < j -> elem_get buffer k <> elem_get val 0)
    /\ ((j < len buffer - len val /\ elem_get buffer j = elem_get val 0
         /\ Ed2.forward_scan fuel buffer val i = Some (j, j))
        \/ (j = len buffer - len val
            /\ Ed2.forward_scan fuel buffer val i = Some (j, -1))).
Proof.
  induction fuel as [|fuel IH]; intros i Hi Hfuel.
  - exists i. split; [lia|]. split; [intros k Hk; lia|]. right. split; [lia|].
    cbn. destruct (decide _); [lia|reflexivity].
  - cbn [Ed2.forward_scan]. destruct (decide (i ≠ len buffer - len val)) as [Hne|Heq].
    + destruct (decide (elem_get buffer i = elem_get val 0)) as [Hm|Hm].
      * exists i. split; [lia|]. split; [intros k Hk; lia|]. left. auto with lia.
      * destruct (IH (i + 1)) as (j & Hj & Hbefore & Hres); [lia|lia|].
        exists j. split; [lia|]. split; [|exact Hres].
        intros k Hk. destruct (decide (k = i)) as [->|]; [exact Hm|apply Hbefore; lia].
    + exists i. split; [lia|]. split; [intros k Hk; lia|]. right. split; [lia|reflexivity].
Qed.

Lemma forward_check_spec (buffer val : bytes) (i found : Z) (fuel : nat) :
  forall j, j <= len val -> (Z.to_nat (len val - j) <= fuel)%nat ->
  (Ed2.forward_check fuel buffer val i j found = Some found
   /\ forall k, j <= k < len val -> elem_get buffer (i + k) = elem_get val k)
  \/ (Ed2.forward_check fuel buffer val i j found = Some (-1)
      /\ exists k, j <= k < len val /\ elem_get buffer (i + k) <> elem_get val k).
Proof.
  induction fuel as [|fuel IH]; intros j Hj Hfuel.
  - left. split; [|intros k Hk; lia]. cbn. destruct (decide _); [lia|reflexivity].
  - cbn [Ed2.forward_check]. destruct (decide (j ≠ len val)) as [Hne|Heq].
    + destruct (decide (elem_get buffer (i + j) ≠ elem_get val j)) as [Hm|Hm].
      * right. split; [reflexivity|]. exists j. split; [lia|exact Hm].
      * apply dec_stable in Hm.
        destruct (IH (j + 1)) as [[Hrun Hall]|[Hrun (k & Hk & Hbad)]]; [lia|lia| |].
        -- left. split; [exact Hrun|]. intros k Hk.
           destruct (decide (k = j)) as [->|]; [exact Hm|apply Hall; lia].
        -- right. split; [exact Hrun|]. exists k. split; [lia|exact Hbad].
    + left. split; [reflexivity|]. intros k Hk. lia.
Qed.

Lemma backward_match_spec (buffer val : bytes) (i : Z) (fuel : nat) :
  forall j, j <= len val -> (Z.to_nat (len val - j) <= fuel)%nat ->
  (Ed2.backward_match fuel buffer val i j = Some true
   /\ forall k, j <= k < len val -> elem_get buffer (i + k) = elem_get val k)
  \/ (Ed2.backward_match fuel buffer val i j = Some false
      /\ exists k, j <= k < len val /\ elem_get buffer (i + k) <> elem_get val k).
Proof.
  induction fuel as [|fuel IH]; intros j Hj Hfuel.
  - left. split; [|intros k Hk; lia]. cbn. destruct (decide _); [lia|reflexivity].
  - cbn [Ed2.backward_match]. destruct (decide (j ≠ len val)) as [Hne|Heq].
    + destruct (decide (elem_get buffer (i + j) ≠ elem_get val j)) as [Hm|Hm].
      * right. split; [reflexivity|]. exists j. split; [lia|exact Hm].
      * apply dec_stable in Hm.
        destruct (IH (j + 1)) as [[Hrun Hall]|[Hrun (k & Hk & Hbad)]]; [lia|lia| |].
        -- left. split; [exact Hrun|]. intros k Hk.
           destruct (decide (k = j)) as [->|]; [exact Hm|apply Hall; lia].
        -- right. split; [exact Hrun|]. exists k. split; [lia|exact Hbad].
    + left. split; [reflexivity|]. intros k Hk. lia.
Qed.

(** A full match at [i] of a needle that is not empty is an occurrence. *)
Lemma match_is_occurrence (buffer val : bytes) (i : Z) :
  1 <= len val ->
  (forall k, 0 <= k < len val -> elem_get buffer (i + k) = elem_get val k) ->
  occurs_at buffer val i.
Proof.
  intros Hval Hall.
  assert (Hdef : forall k, 0 <= k < len val -> 0 <= i + k < len buffer).
  { intros k Hk. destruct (elem_get_Some val k Hk) as (v & Hv).
    pose proof (Hall k Hk) as Hb. rewrite Hv in Hb.
    destruct (decide (0 <= i + k < len buffer)) as [?|Hout]; [assumption|].
    rewrite (proj2 (elem_get_None buffer (i + k))) in Hb by lia. discriminate. }
  pose proof (Hdef 0 ltac:(lia)). pose proof (Hdef (len val - 1) ltac:(lia)).
  repeat split; try lia. exact Hall.
Qed.

Lemma backward_scan_spec (buffer val : bytes) (fuel : nat) :
  1 <= len val ->
  forall i, 0 <= i -> (Z.to_nat (i + len val) <= fuel)%nat ->
  exists r, Ed2.backward_scan fuel buffer val i = Some r
    /\ ((r = -1 /\ forall k, 0 < k <= i -> ~ occurs_at buffer val k)
        \/ (0 < r <= i /\ occurs_at buffer val r
            /\ forall k, r < k <= i -> ~ occurs_at buffer val k)).
Proof.
  intros Hval. induction fuel as [|fuel IH]; intros i Hi Hfuel; [lia|].
  cbn [Ed2.backward_scan]. destruct (decide (i ≠ 0)) as [Hne|Heq].
  - destruct (backward_match_spec buffer val i fuel 0)
      as [[Hrun Hall]|[Hrun (k & Hk & Hbad)]]; [lia|lia| |]; rewrite Hrun; cbn.
    + exists (i * 1). split; [reflexivity|]. right. rewrite Z.mul_1_r.
      split; [lia|]. split; [|intros k Hk; lia].
      apply match_is_occurrence; [exact Hval|]. intros k Hk. apply Hall. lia.
    + destruct (IH (i - 1)) as (r & Hr & Hspec); [lia|lia|].
      exists r. split; [exact Hr|].
      assert (Hnot : ~ occurs_at buffer val i).
      { intros (_ & _ & Hall). apply Hbad, Hall. lia. }
      destruct Hspec as [[-> Hnone]|(Hrange & Hocc & Hafter)].
      * left. split; [reflexivity|]. intros k' Hk'.
        destruct (decide (k' = i)) as [->|]; [exact Hnot|apply Hnone; lia].
      * right. split; [lia|]. split; [exact Hocc|]. intros k' Hk'.
        destruct (decide (k' = i)) as [->|]; [exact Hnot|apply Hafter; lia].
  - apply dec_stable in Heq. subst i. exists (-1). split; [reflexivity|].
    left. split; [reflexivity|]. intros k Hk. lia.
Qed.

(** The search of the second edition, for a needle of one byte or more
    given as bytes. When the start position is at most [length - needle
    length], [indexOf] returns, and what it returns is -1 or the first
    occurrence of the needle from the start position on, below
    [length - needle length]: an answer that is not -1 is never wrong.
    When the position that the backward search starts from is not
    negative, [lastIndexOf] returns the last occurrence of the needle in
    the positions from 1 up to it, or -1 when there is none: it is right
    except that it never looks at position 0. *)
Theorem second_edition_search_sound (buf val : bytes) (byteOffset : Z) :
  1 <= len val -> - 0x80000000 <= byteOffset <= 0x7fffffff ->
  (byteOffset <= len buf - len val ->
     exists r, (forall fuel, (Z.to_nat (len buf + len val - byteOffset) <= fuel)%nat ->
                  Ed2.indexOf fuel buf (NBytes val) (Some byteOffset) = inr (Some r))
       /\ (r = -1
           \/ (byteOffset <= r < len buf - len val /\ occurs_at buf val r
               /\ forall k, byteOffset <= k < r -> ~ occurs_at buf val k)))
  /\ (let start := Z.min byteOffset (len buf - len val) in
      0 <= start ->
      exists r, (forall fuel, (Z.to_nat (start + len val) <= fuel)%nat ->
                   Ed2.lastIndexOf fuel buf (NBytes val) (Some byteOffset) = inr (Some r))
        /\ ((r = -1 /\ forall k, 0 < k <= start -> ~ occurs_at buf val k)
            \/ (0 < r <= start /\ occurs_at buf val r
                /\ forall k, r < k <= start -> ~ occurs_at buf val k))).
Proof.
  intros Hval Hrange.
  assert (Hoff : search_offset buf (Some byteOffset) true = byteOffset
                 /\ search_offset buf (Some byteOffset) false = byteOffset).
  { unfold search_offset. repeat destruct (decide _); lia. }
  destruct Hoff as [Hfwd Hbwd]. split.
  - intros Hstart.
    destruct (forward_scan_spec buf val (Z.to_nat (len buf + len val - byteOffset)) byteOffset)
      as (j & Hj & Hbefore & Hres); [lia|lia|].
    assert (Hnone : forall k, byteOffset <= k < j -> ~ occurs_at buf val k).
    { intros k Hk (_ & _ & Hall). apply (Hbefore k Hk).
      rewrite <- (Hall 0) by lia. f_equal. lia. }
    destruct Hres as [(Hlt & Hfirst & _)|[-> _]].
    + destruct (forward_check_spec buf val j j (Z.to_nat (len val)) 1)
        as [[_ Hall]|[_ (k & Hk & Hbad)]]; [lia|lia| |].
      * exists j. split.
        -- intros fuel Hfuel.
           unfold Ed2.indexOf, Ed2.bidirectionalIndexOf, Ed2.indexOfBuffer. rewrite Hfwd.
           destruct (forward_scan_spec buf val fuel byteOffset)
             as (j' & Hj' & Hbefore' & [(Hlt' & Hfirst' & Hrun)|[-> Hrun]]); [lia|lia| |].
           ++ assert (j' = j) as ->.
              { destruct (Z.lt_trichotomy j' j) as [?|[?|?]]; [|assumption|].
                - exfalso. apply (Hbefore j'); [lia|exact Hfirst'].
                - exfalso. apply (Hbefore' j); [lia|exact Hfirst]. }
              rewrite Hrun. cbn [mbind option_bind].
              assert (0 <= j).
              { destruct (elem_get_Some val 0 ltac:(lia)) as (v & Hv).
                rewrite Hv in Hfirst.
                destruct (decide (0 <= j)); [assumption|].
                rewrite (proj2 (elem_get_None buf j)) in Hfirst by lia. discriminate. }
              destruct (decide (j >= 0)); [|lia].
              destruct (forward_check_spec buf val j j fuel 1)
                as [[Hrun2 _]|[_ (k & Hk & Hbad)]]; [lia|lia| |].
              ** rewrite Hrun2. cbn [mbind option_bind].
                 destruct (decide (j >= 0)); [|lia]. now rewrite Z.mul_1_r.
              ** exfalso. apply Hbad, Hall. lia.
           ++ exfalso. apply (Hbefore' j); [lia|exact Hfirst].
        -- right. split; [lia|]. split; [|exact Hnone].
           apply match_is_occurrence; [exact Hval|]. intros k Hk.
           destruct (decide (k = 0)) as [->|]; [|apply Hall; lia].
           rewrite Z.add_0_r. exact Hfirst.
      * exists (-1). split; [|now left].
        intros fuel Hfuel.
        unfold Ed2.indexOf, Ed2.bidirectionalIndexOf, Ed2.indexOfBuffer. rewrite Hfwd.
        destruct (forward_scan_spec buf val fuel byteOffset)
          as (j' & Hj' & Hbefore' & [(Hlt' & Hfirst' & Hrun)|[-> Hrun]]); [lia|lia| |].
        -- assert (j' = j) as ->.
           { destruct (Z.lt_trichotomy j' j) as [?|[?|?]]; [|assumption|].
             - exfalso. apply (Hbefore j'); [lia|exact Hfirst'].
             - exfalso. apply (Hbefore' j); [lia|exact Hfirst]. }
           rewrite Hrun. cbn [mbind option_bind].
           destruct (decide (j >= 0)); [|reflexivity].
           destruct (forward_check_spec buf val j j fuel 1)
             as [[_ Hall]|[Hrun2 _]]; [lia|lia| |].
           ++ exfalso. apply Hbad, Hall. lia.
           ++ rewrite Hrun2. cbn [mbind option_bind].
              destruct (decide (-1 >= 0)); [lia|reflexivity].
        -- exfalso. apply (Hbefore' j); [lia|exact Hfirst].
    + exists (-1). split; [|now left].
      intros fuel Hfuel.
      unfold Ed2.indexOf, Ed2.bidirectionalIndexOf, Ed2.indexOfBuffer. rewrite Hfwd.
      destruct (forward_scan_spec buf val fuel byteOffset)
        as (j' & Hj' & Hbefore' & [(Hlt' & Hfirst' & Hrun)|[-> Hrun]]); [lia|lia| |].
      * exfalso. apply (Hbefore j'); [lia|exact Hfirst'].
      * rewrite Hrun. cbn [mbind option_bind].
        destruct (decide (-1 >= 0)); [lia|reflexivity].
  - intros start Hstart.
    destruct (backward_scan_spec buf val (Z.to_nat (start + len val)) Hval start Hstart)
      as (r & _ & Hspec); [lia|].
    exists r. split; [|exact Hspec].
    intros fuel Hfuel.
    unfold Ed2.lastIndexOf, Ed2.bidirectionalIndexOf, Ed2.indexOfBuffer. rewrite Hbwd.
    assert ((if decide (byteOffset + len val > len buf) then len buf - len val else byteOffset)
            = start) as -> by (subst start; destruct (decide _); lia).
    destruct (backward_scan_spec buf val fuel Hval start Hstart) as (r' & Hrun & Hspec');
      [lia|].
    rewrite Hrun. do 2 f_equal.
    destruct Hspec as [[-> Hnone]|(Hr & Hocc & Hafter)],
             Hspec' as [[-> Hnone']|(Hr' & Hocc' & Hafter')]; try reflexivity.
    + exfalso. apply (Hnone r'); [lia|exact Hocc'].
    + exfalso. apply (Hnone' r); [lia|exact Hocc].
    + destruct (Z.lt_trichotomy r' r) as [?|[?|?]]; [|assumption|].
      * exfalso. apply (Hafter' r); [lia|exact Hocc].
      * exfalso. apply (Hafter r'); [lia|exact Hocc'].
Qed.

Lemma second_edition_search_sound_witness :
  (1 <= len [1; 2; 3; 2; 3; 9] - len [2; 3] ->
     exists r, (forall fuel, (Z.to_nat (len [1; 2; 3; 2; 3; 9] + len [2; 3] - 1)%Z <= fuel)%nat ->
                  Ed2.indexOf fuel [1; 2; 3; 2; 3; 9] (NBytes [2; 3]) (Some 1) = inr (Some r))
       /\ (r = -1
           \/ (1 <= r < len [1; 2; 3; 2; 3; 9] - len [2; 3]
               /\ occurs_at [1; 2; 3; 2; 3; 9] [2; 3] r
               /\ forall k, 1 <= k < r -> ~ occurs_at [1; 2; 3; 2; 3; 9] [2; 3] k)))
  /\ (let start := Z.min 1 (len [1; 2; 3; 2; 3; 9] - len [2; 3]) in
      0 <= start ->
      exists r, (forall fuel, (Z.to_nat (start + len [2; 3])%Z <= fuel)%nat ->
                   Ed2.lastIndexOf fuel [1; 2; 3; 2; 3; 9] (NBytes [2; 3]) (Some 1)
                   = inr (Some r))
        /\ ((r = -1 /\ forall k, 0 < k <= start -> ~ occurs_at [1; 2; 3; 2; 3; 9] [2; 3] k)
            \/ (0 < r <= start /\ occurs_at [1; 2; 3; 2; 3; 9] [2; 3] r
                /\ forall k, r < k <= start -> ~ occurs_at [1; 2; 3; 2; 3; 9] [2; 3] k))).
Proof.
  refine (second_edition_search_sound [1; 2; 3; 2; 3; 9] [2; 3] 1 _ _); unfold len; cbn; lia.
Defined.

(** * [utf8Write] against the Unicode Standard *)

Lemma stored_nil (buf : bytes) (offset : Z) : stored buf buf offset [].
Proof.
  split; [reflexivity|]. intros j. change (len []) with 0.
  destruct (decide _); [lia|reflexivity].
Qed.

Lemma stored_app (buf buf1 buf' : bytes) (offset : Z) (bs rest : bytes) :
  stored buf buf1 offset bs -> stored buf1 buf' (offset + len bs) rest ->
  stored buf buf' offset (bs ++ rest).
Proof.
  intros [Hl1 H1] [Hl2 H2]. split; [congruence|]. intros j.
  pose proof (len_nonneg bs). pose proof (len_nonneg rest).
  rewrite H2, H1, len_app, elem_get_app.
  repeat destruct (decide _); try lia; try reflexivity. f_equal. lia.
Qed.

Lemma stored_put (buf : bytes) (offset v : Z) :
  0 <= offset < len buf -> stored buf (elem_put buf offset v) offset [ToUint8 v].
Proof.
  intros Ho. split; [apply len_elem_put|]. intros j. change (len [ToUint8 v]) with 1.
  rewrite elem_get_put by lia.
  destruct (decide (offset = j)) as [->|], (decide (_ <= j < _)); try lia; try reflexivity.
  now rewrite Z.sub_diag.
Qed.

Lemma stored_put_after (buf buf1 : bytes) (offset v : Z) (bs : bytes) :
  stored buf buf1 offset bs -> 0 <= offset -> offset + len bs < len buf ->
  stored buf (elem_put buf1 (offset + len bs) v) offset (bs ++ [ToUint8 v]).
Proof.
  intros Hs Ho Hfit. apply stored_app with (buf1 := buf1); [exact Hs|].
  apply stored_put. destruct Hs as [Hl _]. pose proof (len_nonneg bs). lia.
Qed.

(** The bit patterns of the encoder are the arithmetic of the standard. *)
Lemma bor_marker (m n x : Z) :
  (m, n) = (0xC0, 32) \/ (m, n) = (0xE0, 16) \/ (m, n) = (0xF0, 8) \/ (m, n) = (0x80, 64) ->
  0 <= x < n -> ToUint8 (bor x m) = m + x.
Proof.
  intros Hm Hx.
  assert (H : forall k, (k <= 64)%nat -> forall m, (m =? 0xC0) || (m =? 0xE0) || (m =? 0xF0)
               || (m =? 0x80) = true -> 0 <= x < Z.of_nat k ->
               forallb (fun x => ToUint8 (bor x m) =? m + x) (map Z.of_nat (seq 0 k)) = true ->
               ToUint8 (bor x m) = m + x).
  { intros k _ m' _ Hk Hall. apply Z.eqb_eq.
    exact (check_below k (fun x => ToUint8 (bor x m') =? m' + x) Hall x Hk). }
  destruct Hm as [[= -> ->]|[[= -> ->]|[[= -> ->]|[= -> ->]]]].
  - apply (H 32%nat); [lia|reflexivity|lia|vm_compute; reflexivity].
  - apply (H 16%nat); [lia|reflexivity|lia|vm_compute; reflexivity].
  - apply (H 8%nat); [lia|reflexivity|lia|vm_compute; reflexivity].
  - apply (H 64%nat); [lia|reflexivity|lia|vm_compute; reflexivity].
Qed.

Lemma band_fc00 (c : Z) : 0 <= c < 65536 -> band c 0xfc00 = c / 1024 * 1024.
Proof.
  intros Hc. unfold band.
  rewrite (ToInt32_small c) by lia. change (ToInt32 0xfc00) with (Z.shiftl (Z.ones 6) 10).
  rewrite land_shifted_mask by lia.
  rewrite Z.land_ones, Z.shiftr_div_pow2, Z.shiftl_mul_pow2 by lia.
  change (2 ^ 10) with 1024. change (2 ^ 6) with 64.
  assert (0 <= c / 1024 < 64) as Hq
    by (split; [apply Z.div_pos; lia | apply Z.div_lt_upper_bound; lia]).
  rewrite (Z.mod_small (c / 1024)) by lia.
  apply ToInt32_small. lia.
Qed.

Lemma surrogate_classes (c : Z) :
  0 <= c < 65536 ->
  isLeadSurrogate c = bool_decide (0xD800 <= c < 0xDC00)
  /\ isTrailSurrogate c = bool_decide (0xDC00 <= c < 0xE000).
Proof.
  intros Hc. unfold isLeadSurrogate, isTrailSurrogate. rewrite band_fc00 by exact Hc.
  split.
  - destruct (Z.eqb_spec (c / 1024 * 1024) 0xd800) as [He|Hn].
    + symmetry. apply bool_decide_eq_true. Z.div_mod_to_equations. lia.
    + symmetry. apply bool_decide_eq_false. Z.div_mod_to_equations. lia.
  - destruct (Z.eqb_spec (c / 1024 * 1024) 0xdc00) as [He|Hn].
    + symmetry. apply bool_decide_eq_true. Z.div_mod_to_equations. lia.
    + symmetry. apply bool_decide_eq_false. Z.div_mod_to_equations. lia.
Qed.

Lemma surrogate_pair_code (cp : Z) :
  0x10000 <= cp < 0x110000 ->
  let l := 0xD800 + (cp - 0x10000) / 0x400 in
  let t := 0xDC00 + (cp - 0x10000) mod 0x400 in
  0xD800 <= l < 0xDC00 /\ 0xDC00 <= t < 0xE000
  /\ 0x10000 + shl (band l 0x3ff) 10 + band t 0x3ff = cp.
Proof.
  intros Hcp l t.
  assert (Hl : 0xD800 <= l < 0xDC00) by (subst l; Z.div_mod_to_equations; lia).
  assert (Ht : 0xDC00 <= t < 0xE000) by (subst t; Z.div_mod_to_equations; lia).
  split; [exact Hl|]. split; [exact Ht|].
  change 0x3ff with (Z.ones 10).
  rewrite (band_low l 10), (band_low t 10) by lia.
  change (2 ^ 10) with 1024.
  assert (l mod 1024 = (cp - 0x10000) / 0x400) as -> by (subst l; Z.div_mod_to_equations; lia).
  assert (t mod 1024 = (cp - 0x10000) mod 0x400) as -> by (subst t; Z.div_mod_to_equations; lia).
  rewrite shl_small by (try (Z.div_mod_to_equations; lia)).
  Z.div_mod_to_equations. lia.
Qed.

Lemma len_utf8_encoding (cp : Z) :
  len (utf8_encoding cp)
  = if decide (cp < 0x80) then 1 else if decide (cp < 0x800) then 2
    else if decide (cp < 0x10000) then 3 else 4.
Proof. unfold utf8_encoding. repeat destruct (decide _); reflexivity. Qed.

(** [byteLengthUtf8] counts the bytes of the UTF-8 form. *)
Lemma byteLengthUtf8_loop_encoding (cps : list Z) :
  Forall scalar_value cps ->
  forall previous byteLength,
    byteLengthUtf8_loop (concat (map utf16_units cps)) previous byteLength
    = byteLength + len (concat (map utf8_encoding cps)).
Proof.
  induction 1 as [|cp cps Hcp _ IH]; intros previous byteLength.
  - cbn. unfold len. cbn. lia.
  - cbn [map concat]. rewrite len_app, len_utf8_encoding. unfold utf16_units at 1.
    unfold scalar_value in Hcp.
    destruct (decide (cp < 0x10000)) as [Hbmp|Hastral]; cbn [app byteLengthUtf8_loop].
    + rewrite IH.
      destruct (surrogate_classes cp ltac:(lia)) as [_ Ht].
      rewrite bool_decide_eq_false_2 in Ht by lia.
      repeat destruct (decide _); try lia;
        destruct previous; rewrite ?Ht, ?andb_false_r; lia.
    + rewrite IH.
      destruct (surrogate_pair_code cp ltac:(lia)) as (Hl & Ht & _). cbv zeta in Hl, Ht.
      set (l := 0xD800 + (cp - 0x10000) / 0x400) in *.
      set (t := 0xDC00 + (cp - 0x10000) mod 0x400) in *.
      destruct (surrogate_classes l ltac:(lia)) as [Hll Hlt].
      destruct (surrogate_classes t ltac:(lia)) as [_ Htt].
      rewrite bool_decide_eq_true_2 in Hll by lia.
      rewrite bool_decide_eq_false_2 in Hlt by lia.
      rewrite bool_decide_eq_true_2 in Htt by lia.
      rewrite Hll, Htt. cbn [andb].
      repeat destruct (decide _); try lia;
        destruct previous; rewrite ?Hlt, ?andb_false_r; lia.
Qed.

(** The loop of [utf8Write] on the UTF-16 form of scalar values, with
    room for all their bytes. *)
Lemma utf8Write_loop_encoding (cps : list Z) :
  Forall scalar_value cps ->
  forall (offset length written : Z) (buf : bytes),
    0 <= offset ->
    len (concat (map utf8_encoding cps)) <= length ->
    offset + len (concat (map utf8_encoding cps)) <= len buf ->
    exists buf',
      utf8Write_loop (concat (map utf16_units cps)) offset length written None buf
      = (buf', inr (written + len (concat (map utf8_encoding cps))))
      /\ stored buf buf' offset (concat (map utf8_encoding cps)).
Proof.
  induction 1 as [|cp cps Hcp _ IH]; intros offset length written buf Ho Hlen Hfit.
  - exists buf. cbn [utf8Write_loop map concat]. unfold mret, M_ret.
    change (len []) with 0. rewrite Z.add_0_r. split; [reflexivity|apply stored_nil].
  - cbn [map concat] in *. rewrite len_app in Hlen, Hfit.
    pose proof (len_nonneg (concat (map utf8_encoding cps))) as Hrest.
    pose proof (len_utf8_encoding cp) as Hlc.
    assert (Henc : utf8_encoding cp = utf8_encoding cp) by reflexivity.
    unfold utf8_encoding at 2 in Henc.
    unfold scalar_value in Hcp. unfold utf16_units at 1.
    assert (Hmark := bor_marker).
    revert Hlen Hfit Hlc Henc. generalize (utf8_encoding cp). intros enc Hlen Hfit Hlc Henc.
    destruct (decide (cp < 0x10000)) as [Hbmp|Hastral]; cbn [app utf8Write_loop].
    + destruct (decide (cp > 0xD7FF /\ cp < 0xE000)); [lia|].
      destruct (decide (cp < 0x80)); [|destruct (decide (cp < 0x800))]; subst enc.
      * destruct (decide (length - 1 < 0)); [lia|].
        unfold mbind, M_bind, store. cbv beta iota.
        destruct (IH (offset + 1) (length - 1) (written + 1) (elem_put buf offset cp))
          as (buf' & Hrun & Hst); [lia | lia | rewrite len_elem_put; lia |].
        exists buf'. rewrite Hrun. split; [do 2 f_equal; rewrite len_app; lia|].
        apply stored_app with (buf1 := elem_put buf offset cp); [|exact Hst].
        replace cp with (ToUint8 cp) at 2 by (unfold ToUint8; apply Z.mod_small; lia).
        apply stored_put. lia.
      * destruct (decide (length - 2 < 0)); [lia|].
        unfold mbind, M_bind, store. cbv beta iota.
        set (b0 := bor (sshr cp 6) 192). set (b1 := bor (band cp 63) 128).
        destruct (IH (offset + 2) (length - 2) (written + 2)
                    (elem_put (elem_put buf offset b0) (offset + 1) b1))
          as (buf' & Hrun & Hst); [lia | lia | rewrite !len_elem_put; lia |].
        exists buf'. rewrite Hrun. split; [do 2 f_equal; rewrite len_app; lia|].
        apply stored_app with (buf1 := elem_put (elem_put buf offset b0) (offset + 1) b1);
          [|exact Hst].
        assert (E0 : ToUint8 b0 = 192 + cp / 64).
        { subst b0. rewrite sshr_small by lia. change (2 ^ 6) with 64.
          apply (Hmark 192 32); [auto|]. Z.div_mod_to_equations. lia. }
        assert (E1 : ToUint8 b1 = 128 + cp mod 64).
        { subst b1. rewrite band_3F by lia.
          apply (Hmark 128 64); [auto 10|]. Z.div_mod_to_equations. lia. }
        rewrite <- E0, <- E1.
        apply (stored_put_after buf _ offset b1 [ToUint8 b0]); [|lia|change (len [_]) with 1; lia].
        apply stored_put. lia.
      * destruct (decide (cp < 0x10000)); [|lia].
        destruct (decide (length - 3 < 0)); [lia|].
        unfold mbind, M_bind, store. cbv beta iota.
        set (b0 := bor (sshr cp 12) 224).
        set (b1 := bor (band (sshr cp 6) 63) 128).
        set (b2 := bor (band cp 63) 128).
        destruct (IH (offset + 3) (length - 3) (written + 3)
                    (elem_put (elem_put (elem_put buf offset b0) (offset + 1) b1)
                              (offset + 2) b2))
          as (buf' & Hrun & Hst); [lia | lia | rewrite !len_elem_put; lia |].
        exists buf'. rewrite Hrun. split; [do 2 f_equal; rewrite len_app; lia|].
        eapply stored_app; [|exact Hst].
        assert (E0 : ToUint8 b0 = 224 + cp / 4096).
        { subst b0. rewrite sshr_small by lia. change (2 ^ 12) with 4096.
          apply (Hmark 224 16); [auto|]. Z.div_mod_to_equations. lia. }
        assert (E1 : ToUint8 b1 = 128 + cp / 64 mod 64).
        { subst b1. rewrite sshr_small by lia. change (2 ^ 6) with 64.
          rewrite band_3F by (Z.div_mod_to_equations; lia).
          apply (Hmark 128 64); [auto 10|]. Z.div_mod_to_equations. lia. }
        assert (E2 : ToUint8 b2 = 128 + cp mod 64).
        { subst b2. rewrite band_3F by lia.
          apply (Hmark 128 64); [auto 10|]. Z.div_mod_to_equations. lia. }
        rewrite <- E0, <- E1, <- E2.
        apply (stored_put_after buf _ offset b2 [ToUint8 b0; ToUint8 b1]);
          [|lia|change (len [_; _]) with 2; lia].
        apply (stored_put_after buf _ offset b1 [ToUint8 b0]); [|lia|change (len [_]) with 1; lia].
        apply stored_put. lia.
    + destruct (surrogate_pair_code cp ltac:(lia)) as (Hl & Ht & Hcode).
      cbv zeta in Hl, Ht, Hcode.
      set (l := 0xD800 + (cp - 0x10000) / 0x400) in *.
      set (t := 0xDC00 + (cp - 0x10000) mod 0x400) in *.
      destruct (decide (l > 0xD7FF /\ l < 0xE000)); [|lia].
      destruct (decide (l > 0xDBFF \/ _)) as [[?|?]|_]; [lia|discriminate|].
      destruct (decide (t > 0xD7FF /\ t < 0xE000)); [|lia].
      destruct (decide (t < 0xDC00)); [lia|].
      rewrite Hcode.
      destruct (decide (cp < 0x80)); [lia|]. destruct (decide (cp < 0x800)); [lia|].
      destruct (decide (cp < 0x10000)); [lia|]. destruct (decide (cp < 0x110000)); [|lia].
      subst enc.
      destruct (decide (length - 4 < 0)); [lia|].
      unfold mbind, M_bind, store. cbv beta iota.
      set (b0 := bor (sshr cp 18) 240).
      set (b1 := bor (band (sshr cp 12) 63) 128).
      set (b2 := bor (band (sshr cp 6) 63) 128).
      set (b3 := bor (band cp 63) 128).
      destruct (IH (offset + 4) (length - 4) (written + 4)
                  (elem_put (elem_put (elem_put (elem_put buf offset b0) (offset + 1) b1)
                                      (offset + 2) b2) (offset + 3) b3))
        as (buf' & Hrun & Hst); [lia | lia | rewrite !len_elem_put; lia |].
      exists buf'. rewrite Hrun. split; [do 2 f_equal; rewrite len_app; lia|].
      eapply stored_app; [|exact Hst].
      assert (E0 : ToUint8 b0 = 240 + cp / 262144).
      { subst b0. rewrite sshr_small by lia. change (2 ^ 18) with 262144.
        apply (Hmark 240 8); [auto|]. Z.div_mod_to_equations. lia. }
      assert (E1 : ToUint8 b1 = 128 + cp / 4096 mod 64).
      { subst b1. rewrite sshr_small by lia. change (2 ^ 12) with 4096.
        rewrite band_3F by (Z.div_mod_to_equations; lia).
        apply (Hmark 128 64); [auto 10|]. Z.div_mod_to_equations. lia. }
      assert (E2 : ToUint8 b2 = 128 + cp / 64 mod 64).
      { subst b2. rewrite sshr_small by lia. change (2 ^ 6) with 64.
        rewrite band_3F by (Z.div_mod_to_equations; lia).
        apply (Hmark 128 64); [auto 10|]. Z.div_mod_to_equations. lia. }
      assert (E3 : ToUint8 b3 = 128 + cp mod 64).
      { subst b3. rewrite band_3F by lia.
        apply (Hmark 128 64); [auto 10|]. Z.div_mod_to_equations. lia. }
      rewrite <- E0, <- E1, <- E2, <- E3.
      apply (stored_put_after buf _ offset b3 [ToUint8 b0; ToUint8 b1; ToUint8 b2]);
        [|lia|change (len [_; _; _]) with 3; lia].
      apply (stored_put_after buf _ offset b2 [ToUint8 b0; ToUint8 b1]);
        [|lia|change (len [_; _]) with 2; lia].
      apply (stored_put_after buf _ offset b1 [ToUint8 b0]); [|lia|change (len [_]) with 1; lia].
      apply stored_put. lia.
Qed.

Lemma stored_whole (buf buf' bs : bytes) :
  stored buf buf' 0 bs -> len buf = len bs -> buf' = bs.
Proof.
  intros [Hl Hget] Hlen. apply bytes_ext. intros j. rewrite Hget.
  destruct (decide (0 <= j < 0 + len bs)); [f_equal; lia|].
  rewrite (proj2 (elem_get_None buf j)), (proj2 (elem_get_None bs j)) by lia.
  reflexivity.
Qed.

(** [utf8Write] on well-formed text: for every sequence of Unicode
    scalar values, characters above U+FFFF included, the string of their
    UTF-16 form is written as their UTF-8 form as the Unicode Standard
    defines it, when the buffer has room from [offset] on; the call returns
    the number of these bytes, which is [byteLengthUtf8] of the string, and
    changes nothing else in the buffer; [Buffer.from(s, 'utf8')] holds
    exactly these bytes in both editions. On text that is not well formed
    the two can part: of two lead surrogates in a row at the end of a
    string, which [byteLengthUtf8] counts as six bytes, [utf8Write] stores
    three. *)
Theorem utf8Write_encodes_unicode (cps : list Z) (offset : Z) (buf : bytes) :
  Forall scalar_value cps -> 0 <= offset ->
  let s := concat (map utf16_units cps) in
  let bs := concat (map utf8_encoding cps) in
  offset + len bs <= len buf ->
  byteLengthUtf8 s = len bs
  /\ (exists buf', utf8Write s (Some offset) None buf = (buf', inr (len bs))
                   /\ stored buf buf' offset bs)
  /\ Ed1.fromString s Ed1.utf8 = inr bs
  /\ Ed2.fromString s Ed2.utf8 = inr bs
  /\ byteLengthUtf8 [0xD800; 0xD800] = 6
  /\ utf8Write [0xD800; 0xD800] None None [0; 0; 0; 0; 0; 0]
     = ([0xEF; 0xBF; 0xBD; 0; 0; 0], inr 3).
Proof.
  intros Hcps Ho s bs Hfit.
  assert (Hlen : byteLengthUtf8 s = len bs).
  { unfold byteLengthUtf8. subst s bs. rewrite byteLengthUtf8_loop_encoding by exact Hcps. lia. }
  pose proof (len_nonneg bs) as Hbs.
  assert (Hwrite : forall (o : Z) (length : option Z) (b : bytes),
            0 <= o -> o + len bs <= len b -> length = None \/ length = Some (len bs) ->
            exists b', utf8Write s (Some o) length b = (b', inr (len bs))
                       /\ stored b b' o bs).
  { intros o length b Ho' Hfit' Hdflt.
    destruct (utf8Write_loop_encoding cps Hcps o (len bs) 0 b) as (b' & Hrun & Hst);
      [lia|subst bs; lia|exact Hfit'|].
    exists b'. split; [|exact Hst].
    unfold utf8Write, write_guard. fold s. rewrite Hlen.
    assert (default (len bs) length = len bs) as -> by (destruct Hdflt as [-> | ->]; reflexivity).
    cbn [default from_option id].
    destruct (decide (o < 0)); [lia|].
    cbv beta iota delta [mbind M_bind mret M_ret this_length throw].
    destruct (decide (o > len b)); [lia|]. destruct (decide (len bs < 0)); [lia|].
    replace (Z.min (Z.min (len b - o) (len bs)) (len bs)) with (len bs) by lia.
    fold s in Hrun. rewrite Hrun. reflexivity. }
  assert (Hzeros : len (replicate (Z.to_nat (len bs)) 0) = len bs).
  { unfold len. rewrite length_replicate. unfold len in Hbs. lia. }
  destruct (Hwrite 0 (Some (len bs)) (replicate (Z.to_nat (len bs)) 0))
    as (b' & Hrun0 & Hst0); [lia|lia|now right|].
  apply stored_whole in Hst0; [|exact Hzeros]. subst b'.
  split; [exact Hlen|]. split; [apply Hwrite; [exact Ho|exact Hfit|now left]|].
  split; [|split; [|split; vm_compute; reflexivity]].
  - unfold Ed1.fromString. destruct (decide (s = [])) as [Hs|_].
    + assert (len bs = 0) as Hz by (rewrite <- Hlen, Hs; reflexivity).
      unfold len in Hz. destruct bs; [reflexivity|discriminate].
    + cbn [ops_byteLength ops_write Ed1.utf8]. rewrite Hlen, Hzeros, Hrun0. reflexivity.
  - unfold Ed2.fromString. destruct (decide (len s = 0)) as [Hs|_].
    + assert (len bs = 0) as Hz.
      { rewrite <- Hlen. unfold len in Hs. destruct s; [reflexivity|discriminate]. }
      unfold len in Hz. destruct bs; [reflexivity|discriminate].
    + unfold Ed2.fromStringFast. cbn [ops_byteLength ops_write Ed2.utf8].
      rewrite Hlen, Hrun0. destruct (decide (len bs ≠ len bs)); [congruence|reflexivity].
Qed.

Lemma utf8Write_encodes_unicode_witness :
  byteLengthUtf8 (concat (map utf16_units [0x41; 0xE9; 0x20AC; 0x1F600]))
  = len (concat (map utf8_encoding [0x41; 0xE9; 0x20AC; 0x1F600]))
  /\ (exists buf',
        utf8Write (concat (map utf16_units [0x41; 0xE9; 0x20AC; 0x1F600])) (Some 1) None
                  [0; 0; 0; 0; 0; 0; 0; 0; 0; 0; 0; 0]
        = (buf', inr (len (concat (map utf8_encoding [0x41; 0xE9; 0x20AC; 0x1F600]))))
        /\ stored [0; 0; 0; 0; 0; 0; 0; 0; 0; 0; 0; 0] buf' 1
                  (concat (map utf8_encoding [0x41; 0xE9; 0x20AC; 0x1F600])))
  /\ Ed1.fromString (concat (map utf16_units [0x41; 0xE9; 0x20AC; 0x1F600])) Ed1.utf8
     = inr (concat (map utf8_encoding [0x41; 0xE9; 0x20AC; 0x1F600]))
  /\ Ed2.fromString (concat (map utf16_units [0x41; 0xE9; 0x20AC; 0x1F600])) Ed2.utf8
     = inr (concat (map utf8_encoding [0x41; 0xE9; 0x20AC; 0x1F600]))
  /\ byteLengthUtf8 [0xD800; 0xD800] = 6
  /\ utf8Write [0xD800; 0xD800] None None [0; 0; 0; 0; 0; 0]
     = ([0xEF; 0xBF; 0xBD; 0; 0; 0], inr 3).
Proof.
  refine (utf8Write_encodes_unicode [0x41; 0xE9; 0x20AC; 0x1F600] 1
            [0; 0; 0; 0; 0; 0; 0; 0; 0; 0; 0; 0] _ _ _).
  - repeat constructor; unfold scalar_value; lia.
  - lia.
  - vm_compute. discriminate.
Defined.

(** * [fill] with a pattern of bytes *)

Lemma wf_view_same (h h1 : heap) (v : view) :
  length h1 = length h -> (forall b, len (memory h1 b) = len (memory h b)) ->
  wf_view h v -> wf_view h1 v.
Proof.
  intros Hl Hm (H1 & H2 & H3 & H4). unfold wf_view. rewrite Hl, Hm. auto.
Qed.

(** A store into a view changes the one byte it names. *)
Lemma view_store_spec (h : heap) (v : view) (i x : Z) :
  wf_view h v -> 0 <= i < view_length v ->
  exists h', view_store v i x h = (h', inr tt)
    /\ length h' = length h
    /\ (forall b, len (memory h' b) = len (memory h b))
    /\ forall b p, elem_get (memory h' b) p
         = if decide (b = view_buffer v /\ p = view_byteOffset v + i)
           then Some (ToUint8 x)
           else elem_get (memory h b) p.
Proof.
  intros Hwf Hi. pose proof Hwf as (Hb & Ho & Hn & Hfit).
  pose proof (len_contents h v Hwf) as Hlc.
  assert (Hld : len (elem_put (contents h v) i x) = view_length v)
    by (now rewrite len_elem_put).
  eexists. split; [reflexivity|]. cbn [fst snd]. split; [apply length_write_memory|].
  split.
  - intros b. apply len_memory_write; lia.
  - intros b p. rewrite elem_get_memory_write by lia. rewrite Hld.
    destruct (decide (b = view_buffer v
                      /\ view_byteOffset v <= p < view_byteOffset v + view_length v))
      as [[-> Hp]|Hout].
    + destruct (decide (p = view_byteOffset v + i)) as [->|Hne].
      * replace (view_byteOffset v + i - view_byteOffset v) with i by lia.
        rewrite elem_get_put_eq by lia.
        destruct (decide (_ /\ _)) as [_|H]; [reflexivity|]. exfalso. apply H. auto.
      * rewrite elem_get_put_ne by lia.
        rewrite elem_get_contents by (try assumption; lia).
        replace (view_byteOffset v + (p - view_byteOffset v)) with p by lia.
        destruct (decide (_ /\ _)) as [[_ H]|_]; [lia|reflexivity].
    + destruct (decide (_ /\ _)) as [[-> H]|_]; [|reflexivity].
      exfalso. apply Hout. split; [reflexivity|lia].
Qed.

(** The loop of [_fill], from a state that its first [i] iterations have
    left, when the bytes of the pattern lie outside the range that is
    filled. *)
Lemma fill_buffer_loop_spec (h : heap) (buf value : view) (o : Z) (n : nat) :
  wf_view h buf -> wf_view h value -> 0 <= o ->
  let m := view_length value in
  let start := view_byteOffset buf + o in
  let pat := fun k => if decide (m = 0) then 0
                      else ToUint8 (default 0 (elem_get (contents h value) (k mod m))) in
  forall i h1,
    0 <= i -> o + i + Z.of_nat n <= view_length buf ->
    (view_buffer value <> view_buffer buf
     \/ view_byteOffset value + m <= start
     \/ start + i + Z.of_nat n <= view_byteOffset value) ->
    length h1 = length h -> (forall b, len (memory h1 b) = len (memory h b)) ->
    (forall b p, elem_get (memory h1 b) p
       = if decide (b = view_buffer buf /\ start <= p < start + i)
         then Some (pat (p - start)) else elem_get (memory h b) p) ->
    exists h',
      heap_loop n i (fun i =>
        x ← (if decide (view_length value = 0) then mret None
             else view_load value (Z.rem i (view_length value)));
        view_store buf (o + i) (default 0 x)) h1 = (h', inr tt)
      /\ length h' = length h
      /\ (forall b, len (memory h' b) = len (memory h b))
      /\ forall b p, elem_get (memory h' b) p
           = if decide (b = view_buffer buf /\ start <= p < start + i + Z.of_nat n)
             then Some (pat (p - start)) else elem_get (memory h b) p.
Proof.
  intros Hbuf Hval Ho m start pat.
  induction n as [|n IH]; intros i h1 Hi Hroom Hsep Hl Hm Hinv; cbn [heap_loop].
  - exists h1. split; [reflexivity|]. split; [exact Hl|]. split; [exact Hm|].
    intros b p. rewrite Hinv. rewrite Z.add_0_r. reflexivity.
  - pose proof (wf_view_same h h1 buf Hl Hm Hbuf) as Hbuf1.
    pose proof (wf_view_same h h1 value Hl Hm Hval) as Hval1.
    pose proof Hval as (_ & Hvo & Hvn & _). fold m in Hvn.
    assert (Hx : (if decide (view_length value = 0) then mret None
                  else view_load value (Z.rem i (view_length value))) h1
                 = (h1, inr (if decide (m = 0) then None
                             else elem_get (contents h value) (i mod m)))).
    { fold m. destruct (decide (m = 0)) as [Hz|Hnz]; [reflexivity|].
      unfold view_load. rewrite Z.rem_mod_nonneg by lia.
      assert (0 <= i mod m < m) as Hq by (apply Z.mod_pos_bound; lia).
      rewrite !elem_get_contents by (try assumption; fold m; lia).
      rewrite Hinv. destruct (decide (_ /\ _)) as [[E Hp]|_]; [|reflexivity].
      exfalso. destruct Hsep as [Hs|[Hs|Hs]]; [congruence|lia|lia]. }
    unfold mbind at 1, H_bind at 1. unfold mbind at 1, H_bind at 1. rewrite Hx.
    destruct (view_store_spec h1 buf (o + i)
                (default 0 (if decide (m = 0) then None
                            else elem_get (contents h value) (i mod m)))
                Hbuf1 ltac:(lia)) as (h2 & Hrun & Hl2 & Hm2 & Hget2).
    rewrite Hrun.
    destruct (IH (i + 1) h2 ltac:(lia) ltac:(lia)) as (h' & Hrun' & Hl' & Hm' & Hget').
    + destruct Hsep as [Hs|[Hs|Hs]]; [left; exact Hs | right; left; exact Hs | right; right; lia].
    + congruence.
    + intros b. rewrite Hm2. apply Hm.
    + intros b p. rewrite Hget2, Hinv.
      destruct (decide (b = view_buffer buf /\ p = view_byteOffset buf + (o + i)))
        as [[-> ->]|Hne].
      * destruct (decide (_ /\ _ <= _ < start + (i + 1))) as [_|H];
          [|exfalso; apply H; subst start; split; [reflexivity|lia]].
        f_equal. subst pat. cbv beta.
        replace (view_byteOffset buf + (o + i) - start) with i by (subst start; lia).
        destruct (decide (m = 0)); reflexivity.
      * destruct (decide (b = view_buffer buf /\ start <= p < start + i)) as [H1|H1],
                 (decide (b = view_buffer buf /\ start <= p < start + (i + 1))) as [H2|H2];
          try reflexivity.
        -- exfalso. apply H2. split; [apply H1|lia].
        -- exfalso. destruct H2 as [E Hp']. apply Hne. split; [exact E|].
           assert (~ (start <= p < start + i)) by (intros ?; apply H1; auto).
           subst start. lia.
    + exists h'. split; [exact Hrun'|]. split; [exact Hl'|]. split; [exact Hm'|].
      intros b p. rewrite Hget'.
      replace (start + (i + 1) + Z.of_nat n) with (start + i + Z.of_nat (S n)) by lia.
      reflexivity.
Qed.

(** [fill] with a [Buffer] as value, in the second edition:
    [buf.fill(value, offset, end)], when the bytes of [value] lie outside
    the range that is filled (in another [ArrayBuffer], or before or after
    the range), stores the bytes of [value] over and over from [offset] up
    to [end], cut off at [end], and zeros when [value] is empty; it changes
    nothing outside the range, and without an [offset] the range is the
    whole buffer whatever [end] is. [value] is read from the memory as the
    loop has left it: with the view [buf.subarray(1, 3)] of the buffer
    1 2 3 4 as value, the buffer becomes 2 3 3 3, not 2 3 2 3. In the first
    edition the call raises a [ReferenceError] as soon as the range holds a
    byte, and leaves the memory as it was. *)
Theorem fill_repeats_pattern (h : heap) (buf value : view) (offset end_ : option Z) :
  wf_view h buf -> wf_view h value ->
  let n := view_length buf in
  let o := default 0 offset in
  let e := match offset with
           | Some _ => default n end_
           | None => n
           end in
  let pattern := contents h value in
  0 <= o <= MAX_SAFE_INTEGER -> 0 <= e <= n ->
  (view_buffer value <> view_buffer buf
   \/ view_byteOffset value + view_length value <= view_byteOffset buf + o
   \/ view_byteOffset buf + e <= view_byteOffset value) ->
  (exists h',
      Ed2._fill_buffer buf value offset end_ h = (h', inr tt)
      /\ length h' = length h
      /\ (forall b, len (memory h' b) = len (memory h b))
      /\ (forall j, 0 <= j < n ->
            elem_get (contents h' buf) j
            = if decide (o <= j < e)
              then Some (if decide (pattern = []) then 0
                         else ToUint8 (default 0 (elem_get pattern
                                                    ((j - o) mod len pattern))))
              else elem_get (contents h buf) j)
      /\ (forall b i,
            ~ (b = view_buffer buf
               /\ view_byteOffset buf + o <= i < view_byteOffset buf + e) ->
            elem_get (memory h' b) i = elem_get (memory h b) i))
  /\ Ed1._fill_buffer buf value offset end_ h
     = (if decide (o < e) then (h, inl (ReferenceError "start")) else (h, inr tt))
  /\ Ed2._fill_buffer {| view_buffer := 0; view_byteOffset := 0; view_length := 4 |}
                      {| view_buffer := 0; view_byteOffset := 1; view_length := 2 |}
                      None None [[1; 2; 3; 4]]
     = ([[2; 3; 3; 3]], inr tt).
Proof.
  intros Hbuf Hval n o e pattern Ho He Hsep.
  pose proof Hbuf as (_ & Hbo & Hbn & _). fold n in Hbn.
  assert (Hmin : MIN_SAFE_INTEGER <= 0) by (vm_compute; discriminate).
  assert (H2 : (let range : H (option (Z * Z)) :=
                  match offset with
                  | None => mret (Some (0, n))
                  | Some offset =>
                    check (Ed2.validateOffset offset "offset" None None);;
                    end_ ← match end_ with
                           | None => mret n
                           | Some e => check (Ed2.validateOffset e "end" (Some 0) (Some n));;
                                       mret e
                           end;
                    if decide (offset >= end_) then mret None else mret (Some (offset, end_))
                  end in range h)
               = (h, inr (if decide (o < e) then Some (o, e)
                          else match offset with None => Some (o, e) | Some _ => None end))).
  { subst o e. cbv zeta. destruct offset as [a|]; cbn [default from_option id] in *.
    - unfold check, Ed2.validateOffset, validateInteger.
      rewrite bool_decide_eq_false_2 by (cbn; lia).
      destruct end_ as [b|]; cbn [default from_option id] in *.
      + unfold mbind, H_bind, mret, H_ret, M_ret. cbn [snd].
        rewrite bool_decide_eq_false_2 by (cbn; lia). cbn [snd].
        destruct (decide (a >= b)), (decide (a < b)); try lia; reflexivity.
      + unfold mbind, H_bind, mret, H_ret, M_ret. cbn [snd].
        destruct (decide (a >= n)), (decide (a < n)); try lia; reflexivity.
    - unfold mret, H_ret. destruct (decide _); reflexivity. }
  assert (H1 : (let range : H (option (Z * Z)) :=
                  match offset with
                  | None => mret (Some (0, n))
                  | Some offset =>
                    check (validateInteger offset "offset" None None);;
                    end_ ← match end_ with
                           | None => mret n
                           | Some e => check (validateInteger e "end" (Some 0) (Some n));;
                                       mret e
                           end;
                    if decide (offset >= end_) then mret None else mret (Some (offset, end_))
                  end in range h)
               = (h, inr (if decide (o < e) then Some (o, e)
                          else match offset with None => Some (o, e) | Some _ => None end))).
  { subst o e. cbv zeta. destruct offset as [a|]; cbn [default from_option id] in *.
    - unfold check, validateInteger.
      rewrite bool_decide_eq_false_2 by (cbn; lia).
      destruct end_ as [b|]; cbn [default from_option id] in *.
      + unfold mbind, H_bind, mret, H_ret, M_ret. cbn [snd].
        rewrite bool_decide_eq_false_2 by (cbn; lia). cbn [snd].
        destruct (decide (a >= b)), (decide (a < b)); try lia; reflexivity.
      + unfold mbind, H_bind, mret, H_ret, M_ret. cbn [snd].
        destruct (decide (a >= n)), (decide (a < n)); try lia; reflexivity.
    - unfold mret, H_ret. destruct (decide _); reflexivity. }
  cbv zeta in H1, H2. split; [|split; [|vm_compute; reflexivity]].
  - unfold Ed2._fill_buffer. cbv zeta. fold n.
    unfold mbind at 1, H_bind at 1. rewrite H2.
    pose proof (len_contents h value Hval) as Hlp. fold pattern in Hlp.
    assert (Hpat : forall k,
              (if decide (view_length value = 0) then 0
               else ToUint8 (default 0 (elem_get (contents h value)
                                          (k mod view_length value))))
              = if decide (pattern = []) then 0
                else ToUint8 (default 0 (elem_get pattern (k mod len pattern)))).
    { intros k. rewrite Hlp. fold pattern.
      destruct (decide (pattern = [])) as [E|Hne].
      - rewrite E in Hlp. change (len []) with 0 in Hlp.
        destruct (decide (view_length value = 0)); [reflexivity|lia].
      - destruct (decide (view_length value = 0)) as [Hz|]; [|reflexivity].
        exfalso. apply Hne. rewrite Hz in Hlp. unfold len in Hlp.
        destruct pattern; [reflexivity|discriminate]. }
    destruct (decide (o < e)) as [Hlt|Hge].
    + destruct (fill_buffer_loop_spec h buf value o (Z.to_nat (e - o)) Hbuf Hval ltac:(lia)
                  0 h ltac:(lia) ltac:(lia)) as (h' & Hrun & Hl & Hm & Hget).
      * destruct Hsep as [Hs|[Hs|Hs]]; [left; exact Hs | right; left; exact Hs
                                       | right; right; lia].
      * reflexivity.
      * reflexivity.
      * intros b p. destruct (decide (_ /\ _)) as [[_ Hp]|_]; [lia|reflexivity].
      * exists h'. split; [exact Hrun|]. split; [exact Hl|]. split; [exact Hm|]. split.
        -- intros j Hj.
           rewrite !elem_get_contents
             by (try assumption; try lia; apply (wf_view_same h h' buf Hl Hm Hbuf)).
           rewrite Hget.
           destruct (decide (view_buffer buf = view_buffer buf
                             /\ view_byteOffset buf + o <= view_byteOffset buf + j
                                < view_byteOffset buf + o + 0 + Z.of_nat (Z.to_nat (e - o))))
             as [[_ Hp]|Hout], (decide (o <= j < e)) as [Hin|Hnin]; try lia.
           ++ replace (view_byteOffset buf + j - (view_byteOffset buf + o)) with (j - o)
                by lia.
              now rewrite Hpat.
           ++ reflexivity.
        -- intros b i Hout. rewrite Hget.
           destruct (decide (_ /\ _)) as [[E Hp]|_]; [|reflexivity].
           exfalso. apply Hout. split; [exact E|lia].
    + exists h. split.
      * destruct offset; [reflexivity|].
        replace (Z.to_nat (e - o)) with 0%nat by lia. reflexivity.
      * split; [reflexivity|]. split; [reflexivity|]. split; [|reflexivity].
        intros j Hj. destruct (decide (o <= j < e)); [lia|reflexivity].
  - unfold Ed1._fill_buffer. cbv zeta. fold n.
    unfold mbind at 1, H_bind at 1. rewrite H1.
    destruct (decide (o < e)) as [Hlt|Hge].
    + replace (Z.to_nat (e - o)) with (S (Z.to_nat (e - o - 1))) by lia. reflexivity.
    + destruct offset; [reflexivity|].
      replace (Z.to_nat (e - o)) with 0%nat by lia. reflexivity.
Qed.

Lemma fill_repeats_pattern_witness :
  exists h',
    Ed2._fill_buffer {| view_buffer := 0; view_byteOffset := 1; view_length := 6 |}
                     {| view_buffer := 0; view_byteOffset := 0; view_length := 2 |}
                     (Some 1) (Some 6) [[1; 2; 0; 0; 0; 0; 0; 0]] = (h', inr tt)
    /\ length h' = 1%nat
    /\ memory h' 0 = [1; 2; 1; 2; 1; 2; 1; 0].
Proof.
  destruct (fill_repeats_pattern [[1; 2; 0; 0; 0; 0; 0; 0]]
              {| view_buffer := 0; view_byteOffset := 1; view_length := 6 |}
              {| view_buffer := 0; view_byteOffset := 0; view_length := 2 |}
              (Some 1) (Some 6)) as [(h' & Hrun & Hl & _) _].
  - unfold wf_view, memory, len; cbn; lia.
  - unfold wf_view, memory, len; cbn; lia.
  - cbn. unfold MAX_SAFE_INTEGER. lia.
  - cbn. lia.
  - right. left. cbn. lia.
  - exists h'. split; [exact Hrun|]. split; [exact Hl|].
    vm_compute in Hrun. injection Hrun as <-. reflexivity.
Defined.

(** * Base64url through a buffer (second edition) *)

Lemma url_symbols (syms : jsstring) (p : nat) :
  Forall (fun c => Ed2.is_symbol c = true /\ c <> 61) syms ->
  let u := map (fun c => if decide (c = 47) then 95 else c)
             (map (fun c => if decide (c = 43) then 45 else c) syms) in
  filter (fun c => c ≠ 61)
    (map (fun c => if decide (c = 47) then 95 else c)
       (map (fun c => if decide (c = 43) then 45 else c) (syms ++ replicate p 61))) = u
  /\ len u = len syms
  /\ Forall (fun c => 48 <= c <= 57 \/ 65 <= c <= 90 \/ 97 <= c <= 122 \/ c = 45 \/ c = 95) u
  /\ map (fun c => if decide (c = 95) then 47 else c)
       (map (fun c => if decide (c = 45) then 43 else c) u) = syms.
Proof.
  intros Hsyms u. subst u. split; [|split; [|split]].
  - rewrite !map_app, list.filter_app.
    assert (filter (fun c => c ≠ 61)
              (map (fun c => if decide (c = 47) then 95 else c)
                 (map (fun c => if decide (c = 43) then 45 else c) (replicate p 61))) = []) as ->.
    { induction p as [|p IH]; [reflexivity|]. cbn [replicate map].
      destruct (decide (61 = 43)); [lia|]. destruct (decide (61 = 47)); [lia|].
      rewrite filter_cons_False by (intros Hn; apply Hn; reflexivity). exact IH. }
    rewrite app_nil_r.
    induction Hsyms as [|c r [Hc Hne] _ IH]; [reflexivity|]. cbn [map].
    rewrite filter_cons_True; [now rewrite IH|].
    repeat destruct (decide _); lia.
  - unfold len. now rewrite !length_map.
  - rewrite <- list_fmap_compose. apply Forall_fmap.
    eapply Forall_impl; [|exact Hsyms]. intros c [Hc _]. cbn.
    unfold Ed2.is_symbol in Hc. apply bool_decide_eq_true in Hc.
    repeat destruct (decide _); lia.
  - rewrite <- !list_fmap_compose. etransitivity; [|apply list_fmap_id].
    apply Forall_fmap_ext_1. eapply Forall_impl; [|exact Hsyms]. intros c [Hc _]. cbn.
    unfold Ed2.is_symbol in Hc. apply bool_decide_eq_true in Hc.
    repeat destruct (decide _); lia.
Qed.

(** Base64url through a buffer: in the second edition, for a buffer of
    fewer than 2^30 bytes, [buf.toString('base64url')] consists of letters,
    digits, ['-'] and ['_'] only, without padding, and
    [Buffer.from(s, 'base64url')] holds the bytes of the buffer again. *)
Theorem second_edition_base64url_round_trip (buf : bytes) :
  wf_bytes buf -> len buf < 2 ^ 30 ->
  exists s,
    toString buf (Some Ed2.base64url) None None = inr s
    /\ Forall (fun c => 48 <= c <= 57 \/ 65 <= c <= 90 \/ 97 <= c <= 122
                        \/ c = 45 \/ c = 95) s
    /\ ops_byteLength Ed2.base64url s = len buf
    /\ Ed2.fromString s Ed2.base64url = inr buf.
Proof.
  intros Hwf Hsmall. pose proof (len_nonneg buf) as Hlen.
  destruct (decide (buf = [])) as [->|Hne].
  { exists []. repeat split. constructor. }
  assert (Hpos : 0 < len buf).
  { unfold len in *. destruct buf; [congruence|cbn; lia]. }
  destruct (base64Encode_shape buf Hwf Hne Hsmall)
    as (syms & p & Henc & Hp & Hn2 & Hcount & H32 & Htotal & Hsyms & Hdec).
  destruct (url_symbols syms p Hsyms) as (Hfilter & Hlu & Hsafe & Hback).
  cbv zeta in Hfilter, Hlu, Hsafe, Hback.
  set (u := map (fun c => if decide (c = 47) then 95 else c)
              (map (fun c => if decide (c = 43) then 45 else c) syms)) in *.
  assert (Hno61 : Forall (fun c => c <> 61) u).
  { eapply Forall_impl; [|exact Hsafe]. cbn. lia. }
  assert (Hbytes : Ed2.base64ByteLength u (len u) = len buf).
  { pose proof (base64ByteLength_padded u 0 Hno61 ltac:(lia)) as Hb.
    cbn [replicate] in Hb. rewrite app_nil_r, Hlu in Hb. rewrite Hlu, Hb; lia. }
  exists u. split; [|split; [exact Hsafe|split; [exact Hbytes|]]].
  - rewrite toString_whole by exact Hpos. cbn [ops_slice Ed2.base64url].
    unfold Ed2.base64urlSlice. rewrite base64Slice_whole by (assumption || lia).
    now rewrite Henc, Hfilter.
  - unfold Ed2.fromString. destruct (decide (len u = 0)) as [Hz|_]; [lia|].
    unfold Ed2.fromStringFast. cbn [ops_byteLength ops_write Ed2.base64url].
    rewrite Hbytes. unfold Ed2.base64urlWrite. cbn [default from_option id].
    rewrite Hback.
    pose proof (base64Write_symbols syms 0 buf (len buf) Hsyms Hdec Hwf Hlen) as Hw.
    cbn [replicate] in Hw. rewrite app_nil_r in Hw. rewrite Hw.
    destruct (decide (len buf ≠ len buf)); [congruence|reflexivity].
Qed.

Lemma second_edition_base64url_round_trip_witness :
  exists s,
    toString [251; 255] (Some Ed2.base64url) None None = inr s
    /\ Forall (fun c => 48 <= c <= 57 \/ 65 <= c <= 90 \/ 97 <= c <= 122
                        \/ c = 45 \/ c = 95) s
    /\ ops_byteLength Ed2.base64url s = len [251; 255]
    /\ Ed2.fromString s Ed2.base64url = inr [251; 255].
Proof.
  refine (second_edition_base64url_round_trip [251; 255] _ _).
  - repeat constructor; lia.
  - unfold len. cbn. lia.
Defined.

(** * Strings through buffers: [Buffer.from] and [toString] *)

Lemma window_whole (buf : bytes) : window buf 0 (len buf) = buf.
Proof. unfold window. rewrite drop_0, Z.sub_0_r. apply take_ge. unfold len. lia. Qed.

Lemma len_zeros (n : Z) : 0 <= n -> len (replicate (Z.to_nat n) 0) = n.
Proof. intros Hn. unfold len. rewrite length_replicate. lia. Qed.

Lemma round_trips_from_codec (ops1 ops2 : EncodingOps) (s : jsstring) (bs : bytes) :
  0 < len s -> 0 < len bs ->
  (forall ops, ops = ops1 \/ ops = ops2 ->
     ops_byteLength ops s = len bs
     /\ ops_write ops s 0 (len bs) (replicate (Z.to_nat (len bs)) 0) = (bs, inr (len bs))
     /\ ops_slice ops bs 0 (len bs) = inr s) ->
  round_trips ops1 ops2 s bs.
Proof.
  intros Hs Hbs Hops.
  destruct (Hops ops1 (or_introl eq_refl)) as (Hl1 & Hw1 & Hs1).
  destruct (Hops ops2 (or_intror eq_refl)) as (Hl2 & Hw2 & Hs2).
  repeat split.
  - unfold Ed1.fromString. destruct (decide (s = [])) as [->|_]; [change (len []) with 0 in Hs; lia|].
    rewrite Hl1, len_zeros by lia. now rewrite Hw1.
  - unfold Ed2.fromString. destruct (decide (len s = 0)); [lia|].
    unfold Ed2.fromStringFast. rewrite Hl2, Hw2.
    destruct (decide (len bs ≠ len bs)); [congruence|reflexivity].
  - rewrite toString_whole by exact Hbs. exact Hs1.
  - rewrite toString_whole by exact Hbs. exact Hs2.
Qed.

Lemma round_trips_empty (ops1 ops2 : EncodingOps) : round_trips ops1 ops2 [] [].
Proof. repeat split. Qed.

(** Strings through buffers. For every string [s], in both editions: [Buffer.from(s, 'utf16le')] holds the units of
    [s], low byte first, and [toString('utf16le')] of it is [s]; when all
    units are below 256, [Buffer.from(s, 'latin1')] holds one byte for each
    unit and [toString('latin1')] gives [s] back; the same for ['ascii']
    when all units are below 128; and when no unit is a surrogate,
    [Buffer.from(s, 'utf8')] holds the UTF-8 bytes of the units and
    [toString('utf8')] gives [s] back. *)
Theorem strings_round_trip_through_buffers (s : jsstring) :
  wf_string s ->
  round_trips Ed1.utf16le Ed2.utf16le s (ucs2_bytes s)
  /\ (Forall (fun c => 0 <= c < 256) s -> round_trips Ed1.latin1 Ed2.latin1 s s)
  /\ (Forall (fun c => 0 <= c < 128) s -> round_trips Ed1.ascii Ed2.ascii s s)
  /\ (Forall bmp_scalar s -> round_trips Ed1.utf8 Ed2.utf8 s (concat (map utf8_bytes s))).
Proof.
  intros Hwf. pose proof (len_nonneg s) as Hls.
  destruct (decide (s = [])) as [->|Hne].
  { repeat split. }
  assert (Hpos : 0 < len s) by (unfold len in *; destruct s; [congruence|cbn; lia]).
  split; [|split; [|split]].
  - (* utf16le *)
    pose proof (len_ucs2_bytes s) as Hlb.
    apply round_trips_from_codec; [exact Hpos|lia|].
    set (zeros := replicate (Z.to_nat (len (ucs2_bytes s))) 0).
    assert (Hz : len zeros = len (ucs2_bytes s)) by (apply len_zeros; lia).
    destruct (ucs2Write_loop_spec s Hwf 0 (len (ucs2_bytes s)) 0 (len s) zeros)
      as (buf' & Hrun & Hlen & _ & _ & Hc); [lia|lia|lia| |].
    { rewrite Hlb. rewrite Z.mul_comm, Z.div_mul by lia. lia. }
    replace (Z.to_nat (len s)) with (length s) in Hc by (unfold len; lia).
    rewrite take_ge in Hc by lia.
    assert (Hbuf : buf' = ucs2_bytes s).
    { rewrite <- (window_whole buf'). rewrite Hlen, Hz.
      apply (window_content buf' (ucs2_bytes s) 0); [lia|lia|exact Hc]. }
    intros ops [-> | ->]; cbn [ops_byteLength ops_write ops_slice Ed1.utf16le Ed2.utf16le];
      (split; [lia|]);
      (split;
       [unfold ucs2Write, write_guard; cbn [from_option id default];
        destruct (decide (0 < 0)); [lia|];
        cbv beta iota delta [mbind M_bind mret M_ret this_length throw];
        fold zeros; rewrite Hz;
        destruct (decide (0 > _)); [lia|]; destruct (decide (_ < 0)); [lia|];
        cbv beta iota; rewrite ?Hz;
        replace (Z.min (Z.min (len (ucs2_bytes s) - 0) (len s * 2)) (len (ucs2_bytes s)))
          with (len (ucs2_bytes s)) by lia;
        rewrite Hrun, Hbuf; do 2 f_equal; lia
       |unfold ucs2Slice; rewrite slice_window_in_range by lia;
        rewrite window_whole; f_equal; now apply ucs2Slice_loop_bytes]).
  - (* latin1 *)
    intros Hs. apply round_trips_from_codec; [exact Hpos|exact Hpos|].
    set (zeros := replicate (Z.to_nat (len s)) 0).
    assert (Hz : len zeros = len s) by (apply len_zeros; lia).
    destruct (write_masked_small s 0 8 zeros) as (buf' & Hrun & Hlen & Hwin & _);
      [lia|exact Hs|lia|lia|].
    assert (Hbuf : buf' = s).
    { rewrite <- (window_whole buf'). rewrite Hlen, Hz. exact Hwin. }
    intros ops [-> | ->]; cbn [ops_byteLength ops_write ops_slice Ed1.latin1 Ed2.latin1];
      (split; [reflexivity|]);
      (split;
       [unfold latin1Write; cbn [from_option id default];
        destruct (decide (0 < 0 \/ _)); [lia|];
        cbv beta iota delta [mbind M_bind mret M_ret this_length throw];
        fold zeros; rewrite Hz;
        destruct (decide (0 > _)); [lia|];
        cbv beta iota; rewrite ?Hz;
        replace (Z.min (Z.min (len s - 0) (len s)) (len s)) with (len s) by lia;
        rewrite Hrun, Hbuf; reflexivity
       |unfold latin1Slice; rewrite slice_window_in_range by lia;
        rewrite window_whole; f_equal; apply map_id_on;
        eapply Forall_impl; [|exact Hs]; cbv beta;
        intros c Hc; unfold fromCharCode, ToUint16; apply Z.mod_small; lia]).
  - (* ascii *)
    intros Hs. apply round_trips_from_codec; [exact Hpos|exact Hpos|].
    set (zeros := replicate (Z.to_nat (len s)) 0).
    assert (Hz : len zeros = len s) by (apply len_zeros; lia).
    destruct (write_masked_small s 0 7 zeros) as (buf' & Hrun & Hlen & Hwin & _);
      [lia|exact Hs|lia|lia|].
    assert (Hbuf : buf' = s).
    { rewrite <- (window_whole buf'). rewrite Hlen, Hz. exact Hwin. }
    assert (Hslice : map (fun b => fromCharCode (band b 0x7F)) s = s).
    { apply (map_id_on (fun b => fromCharCode (band b 0x7F))).
      eapply Forall_impl; [|exact Hs]. cbv beta. intros c Hc.
      change 127 with (Z.ones 7).
      rewrite band_low by (change (2 ^ 31) with 2147483648; lia).
      change (2 ^ 7) with 128. rewrite (Z.mod_small c 128) by lia.
      unfold fromCharCode, ToUint16. apply Z.mod_small. lia. }
    intros ops [-> | ->]; cbn [ops_byteLength ops_write ops_slice Ed1.ascii Ed2.ascii];
      (split; [reflexivity|]);
      (split;
       [unfold Ed1.asciiWrite, Ed2.asciiWrite; cbn [from_option id default];
        destruct (decide (0 < 0 \/ _)); [lia|];
        cbv beta iota delta [mbind M_bind mret M_ret this_length throw];
        fold zeros; rewrite Hz;
        destruct (decide (0 > _)); [lia|];
        cbv beta iota; rewrite ?Hz;
        replace (Z.min (Z.min (len s - 0) (len s)) (len s)) with (len s) by lia;
        rewrite Hrun, Hbuf; reflexivity
       |unfold Ed1.asciiSlice, Ed2.asciiSlice; rewrite slice_window_in_range by lia;
        rewrite window_whole; change 0x7f with 0x7F; now rewrite Hslice]).
  - (* utf8 *)
    intros Hs. set (bs := concat (map utf8_bytes s)).
    assert (Hbl : byteLengthUtf8 s = len bs).
    { unfold byteLengthUtf8. rewrite byteLengthUtf8_loop_scalars by exact Hs.
      rewrite Z.add_0_l. reflexivity. }
    assert (Hbpos : 0 < len bs).
    { subst bs. destruct s as [|c r]; [congruence|]. cbn [map concat].
      rewrite len_app, len_utf8_bytes.
      pose proof (len_nonneg (concat (map utf8_bytes r))). repeat destruct (decide _); lia. }
    apply round_trips_from_codec; [exact Hpos|exact Hbpos|].
    set (zeros := replicate (Z.to_nat (len bs)) 0).
    assert (Hz : len zeros = len bs) by (apply len_zeros; lia).
    destruct (utf8Write_loop_scalars s Hs 0 (len bs) 0 zeros)
      as (buf' & Hrun & Hlen & _ & Hc); [lia|subst bs; lia|subst bs; lia|].
    fold bs in Hrun, Hc.
    assert (Hbuf : buf' = bs).
    { rewrite <- (window_whole buf'). rewrite Hlen, Hz.
      apply (window_content buf' bs 0); [lia|lia|exact Hc]. }
    intros ops [-> | ->]; cbn [ops_byteLength ops_write ops_slice Ed1.utf8 Ed2.utf8];
      (split; [exact Hbl|]);
      (split;
       [unfold utf8Write, write_guard; cbn [from_option id default];
        destruct (decide (0 < 0)); [lia|];
        cbv beta iota delta [mbind M_bind mret M_ret this_length throw];
        fold zeros; rewrite Hz;
        destruct (decide (0 > _)); [lia|]; destruct (decide (_ < 0)); [lia|];
        cbv beta iota; rewrite ?Hz;
        rewrite Hbl;
        replace (Z.min (Z.min (len bs - 0) (len bs)) (len bs)) with (len bs) by lia;
        rewrite Hrun, Hbuf; reflexivity
       |unfold utf8Slice; rewrite slice_window_in_range by lia;
        rewrite window_whole; f_equal; now apply utf8Slice_units]).
Qed.

Lemma strings_round_trip_through_buffers_witness :
  round_trips Ed1.utf16le Ed2.utf16le [104; 105] (ucs2_bytes [104; 105])
  /\ (Forall (fun c => 0 <= c < 256) [104; 105] ->
      round_trips Ed1.latin1 Ed2.latin1 [104; 105] [104; 105])
  /\ (Forall (fun c => 0 <= c < 128) [104; 105] ->
      round_trips Ed1.ascii Ed2.ascii [104; 105] [104; 105])
  /\ (Forall bmp_scalar [104; 105] ->
      round_trips Ed1.utf8 Ed2.utf8 [104; 105] (concat (map utf8_bytes [104; 105]))).
Proof.
  refine (strings_round_trip_through_buffers [104; 105] _).
  repeat constructor; lia.
Defined.

(** * Encoding names *)

Lemma len_ascii_lower (s : jsstring) : len (ascii_lower s) = len s.
Proof. unfold ascii_lower, len. now rewrite length_map. Qed.

Lemma ascii_lower_idem (s : jsstring) : ascii_lower (ascii_lower s) = ascii_lower s.
Proof.
  unfold ascii_lower. rewrite <- list_fmap_compose. apply list_fmap_ext.
  intros _ c _. cbn. repeat destruct (decide _); lia.
Qed.

Lemma ascii_lower_ascii (s : jsstring) :
  Forall (fun c => 0 <= c < 128) s -> Forall (fun c => 0 <= c < 128) (ascii_lower s).
Proof.
  intros Hs. unfold ascii_lower. apply Forall_fmap. eapply Forall_impl; [|exact Hs].
  intros c Hc. cbv beta in *. unfold compose. destruct (decide (65 <= c <= 90)); lia.
Qed.

(** A lower-case name is not a string with a capital letter in it. *)
Lemma ascii_lower_fixed (s : jsstring) :
  ascii_lower s = s <-> Forall (fun c => ~ 65 <= c <= 90) s.
Proof.
  unfold ascii_lower. induction s as [|c s IH]; cbn.
  - split; [constructor|reflexivity].
  - split.
    + intros [= Hc Hs]. constructor; [destruct (decide _); lia|now apply IH].
    + intros H. apply Forall_cons_1 in H as [Hc Hs]. f_equal; [|now apply IH].
      destruct (decide _); [contradiction|reflexivity].
Qed.

(** The case analysis over the tests of a name against literals. [l] is
    the name in lower case; a test that holds fixes the name or [l], and
    the two sides are computed; at the end of a chain of failed tests a
    literal is excluded by its length or by the test that failed. *)
Ltac split_ors :=
  repeat match goal with
         | H : _ \/ _ |- _ => destruct H as [H|H]
         end.

Ltac literal_length H :=
  match type of H with
  | ?l = str ?s =>
    let k := eval vm_compute in (len (str s)) in
    assert (len l = k) by (rewrite H; vm_compute; reflexivity)
  end.

Ltac literal_clash :=
  match goal with
  | H : ?l = str ?s |- _ =>
    first [ match goal with
            | N : l <> str s |- _ => exact (N H)
            | N : ~ (_ \/ _) |- _ => apply N; tauto
            end
          | literal_length H; lia ]
  end.

Ltac decided :=
  match goal with
  | El : ?l = ascii_lower ?enc, H : ?enc = str ?s |- _ =>
    subst enc; vm_compute in El; subst l; vm_compute; reflexivity
  | H : ?l = str ?s |- _ => rewrite ?H; vm_compute; reflexivity
  end.

Ltac names_step enc l :=
  match goal with
  | |- context [decide (len enc = ?k)] =>
    destruct (decide (len enc = k))
  | |- context [decide (?x = str ?s)] =>
    destruct (decide (x = str s)); [decided|]
  | |- context [decide (?a \/ ?b)] =>
    destruct (decide (a \/ b)) as [Hor|?]; [split_ors; decided|]
  end.

Ltac names_leaf :=
  repeat match goal with
         | |- context [decide (?x = str ?s)] =>
           destruct (decide (x = str s)); [exfalso; literal_clash|]
         | |- context [decide (?a \/ ?b)] =>
           destruct (decide (a \/ b)) as [Hor|?]; [exfalso; split_ors; literal_clash|]
         end;
  reflexivity.

Lemma first_edition_normalizeEncoding_table (toLowerCase : jsstring -> jsstring)
    (enc : jsstring) :
  lowers_ascii toLowerCase -> Forall (fun c => 0 <= c < 128) enc ->
  Ed1.normalizeEncoding toLowerCase (Some enc) = canonical_name (ascii_lower enc).
Proof.
  intros Htl Hascii. unfold Ed1.normalizeEncoding, Ed1.slowCases.
  rewrite (Htl enc Hascii). cbv zeta.
  pose proof (len_ascii_lower enc) as Hll.
  remember (ascii_lower enc) as l eqn:El.
  assert (Hnil : l = str "" -> enc = str "").
  { intros H. rewrite H in Hll. unfold len in Hll. destruct enc; [reflexivity|discriminate]. }
  repeat names_step enc l; unfold canonical_name; rewrite <- ?Hll in *; names_leaf.
Qed.

Lemma second_edition_normalizeEncoding_table (toLowerCase : jsstring -> jsstring)
    (enc : jsstring) :
  lowers_ascii toLowerCase -> Forall (fun c => 0 <= c < 128) enc ->
  Ed2.normalizeEncoding toLowerCase (Some enc) = canonical_name (ascii_lower enc).
Proof.
  intros Htl Hascii. unfold Ed2.normalizeEncoding, Ed2.slowCases.
  rewrite (Htl enc Hascii). cbv zeta.
  pose proof (len_ascii_lower enc) as Hll.
  remember (ascii_lower enc) as l eqn:El.
  repeat names_step enc l; unfold canonical_name; names_leaf.
Qed.

Lemma first_edition_getEncodingOps_table (toLowerCase : jsstring -> jsstring)
    (enc : jsstring) :
  lowers_ascii toLowerCase -> Forall (fun c => 0 <= c < 128) enc ->
  Ed1.getEncodingOps toLowerCase enc = named_key (ascii_lower enc).
Proof.
  intros Htl Hascii. unfold Ed1.getEncodingOps.
  rewrite (Htl enc Hascii). cbv zeta.
  pose proof (len_ascii_lower enc) as Hll.
  remember (ascii_lower enc) as l eqn:El.
  repeat names_step enc l; unfold named_key; rewrite <- ?Hll in *; names_leaf.
Qed.

Lemma second_edition_getEncodingOps_table (enc : jsstring) :
  Ed2.getEncodingOps enc
  = match named_key enc with
    | Some Kucs2 => Some Kutf16le
    | r => r
    end.
Proof.
  unfold Ed2.getEncodingOps.
  repeat match goal with
         | |- context [decide (?a \/ ?b)] =>
           destruct (decide (a \/ b)) as [Hor|?];
           [split_ors; subst enc; vm_compute; reflexivity|]
         | |- context [decide (enc = str ?s)] =>
           destruct (decide (enc = str s)); [subst enc; vm_compute; reflexivity|]
         end.
  unfold named_key. names_leaf.
Qed.

Lemma named_key_lower_case (enc : jsstring) :
  enc <> ascii_lower enc -> named_key enc = None.
Proof.
  intros Hne. unfold named_key.
  repeat match goal with
         | |- context [decide (?a \/ ?b)] =>
           destruct (decide (a \/ b)) as [Hor|?];
           [exfalso; split_ors; subst enc; apply Hne; vm_compute; reflexivity|]
         | |- context [decide (enc = str ?s)] =>
           destruct (decide (enc = str s));
           [exfalso; subst enc; apply Hne; vm_compute; reflexivity|]
         end.
  reflexivity.
Qed.

(** Encoding names and letter case. For a name of ASCII characters, on
    a host whose [toLowerCase] puts ASCII capitals into lower case:
    [normalizeEncoding] and [isEncoding] of both editions, and
    [getEncodingOps] of the first edition, look the name up in lower case
    in the table of names. [getEncodingOps] of the second edition looks the
    name up as it is written, and the table has lower-case names only: with
    a capital letter in the name, [Buffer.from(value, name)] raises
    [ERR_UNKNOWN_ENCODING] in the second edition, also for a name that
    [Buffer.isEncoding] accepts. *)
Theorem encoding_names_and_case (toLowerCase : jsstring -> jsstring) (enc : jsstring) :
  lowers_ascii toLowerCase -> Forall (fun c => 0 <= c < 128) enc ->
  let l := ascii_lower enc in
  Ed1.normalizeEncoding toLowerCase (Some enc) = canonical_name l
  /\ Ed2.normalizeEncoding toLowerCase (Some enc) = canonical_name l
  /\ Ed1.isEncoding toLowerCase enc = bool_decide (enc <> [] /\ canonical_name l <> None)
  /\ Ed2.isEncoding toLowerCase enc = bool_decide (enc <> [] /\ canonical_name l <> None)
  /\ Ed1.getEncodingOps toLowerCase enc = named_key l
  /\ Ed2.getEncodingOps enc = match named_key enc with
                              | Some Kucs2 => Some Kutf16le
                              | r => r
                              end
  /\ (enc <> l ->
      Ed2.getEncodingOps enc = None
      /\ forall value, Ed2.from value (Some enc) = inl ERR_UNKNOWN_ENCODING).
Proof.
  intros Htl Hascii l.
  pose proof (first_edition_normalizeEncoding_table toLowerCase enc Htl Hascii) as H1.
  pose proof (second_edition_normalizeEncoding_table toLowerCase enc Htl Hascii) as H2.
  assert (Hlen : len enc ≠ 0 <-> enc <> []).
  { unfold len. destruct enc; cbn; split; intros H; try congruence; lia. }
  split; [exact H1|]. split; [exact H2|]. split; [|split; [|split; [|split]]].
  - unfold Ed1.isEncoding. rewrite H1. fold l.
    destruct (decide (len enc ≠ 0)) as [Hn|Hn], (decide (canonical_name l <> None)) as [Hc|Hc].
    + rewrite !bool_decide_eq_true_2; [reflexivity|tauto|assumption|assumption].
    + rewrite (bool_decide_eq_false_2 (canonical_name l ≠ None)) by assumption.
      rewrite andb_false_r. symmetry. apply bool_decide_eq_false_2. tauto.
    + rewrite (bool_decide_eq_false_2 (len enc ≠ 0)) by assumption.
      symmetry. apply bool_decide_eq_false_2. tauto.
    + rewrite (bool_decide_eq_false_2 (len enc ≠ 0)) by assumption.
      symmetry. apply bool_decide_eq_false_2. tauto.
  - unfold Ed2.isEncoding. rewrite H2. fold l.
    destruct (decide (len enc ≠ 0)) as [Hn|Hn], (decide (canonical_name l <> None)) as [Hc|Hc].
    + rewrite !bool_decide_eq_true_2; [reflexivity|tauto|assumption|assumption].
    + rewrite (bool_decide_eq_false_2 (canonical_name l ≠ None)) by assumption.
      rewrite andb_false_r. symmetry. apply bool_decide_eq_false_2. tauto.
    + rewrite (bool_decide_eq_false_2 (len enc ≠ 0)) by assumption.
      symmetry. apply bool_decide_eq_false_2. tauto.
    + rewrite (bool_decide_eq_false_2 (len enc ≠ 0)) by assumption.
      symmetry. apply bool_decide_eq_false_2. tauto.
  - now apply first_edition_getEncodingOps_table.
  - apply second_edition_getEncodingOps_table.
  - intros Hne.
    assert (Hnone : Ed2.getEncodingOps enc = None).
    { rewrite second_edition_getEncodingOps_table, named_key_lower_case; [reflexivity|exact Hne]. }
    split; [exact Hnone|]. intros value. unfold Ed2.from.
    destruct (decide (len enc = 0)) as [Hz|_].
    + exfalso. apply Hne. unfold len in Hz. destruct enc; [reflexivity|discriminate].
    + now rewrite Hnone.
Qed.

Lemma encoding_names_and_case_witness :
  Ed1.normalizeEncoding ascii_lower (Some (str "UTF8")) = canonical_name (ascii_lower (str "UTF8"))
  /\ Ed2.normalizeEncoding ascii_lower (Some (str "UTF8"))
     = canonical_name (ascii_lower (str "UTF8"))
  /\ Ed1.isEncoding ascii_lower (str "UTF8")
     = bool_decide (str "UTF8" <> [] /\ canonical_name (ascii_lower (str "UTF8")) <> None)
  /\ Ed2.isEncoding ascii_lower (str "UTF8")
     = bool_decide (str "UTF8" <> [] /\ canonical_name (ascii_lower (str "UTF8")) <> None)
  /\ Ed1.getEncodingOps ascii_lower (str "UTF8") = named_key (ascii_lower (str "UTF8"))
  /\ Ed2.getEncodingOps (str "UTF8") = match named_key (str "UTF8") with
                                       | Some Kucs2 => Some Kutf16le
                                       | r => r
                                       end
  /\ (str "UTF8" <> ascii_lower (str "UTF8") ->
      Ed2.getEncodingOps (str "UTF8") = None
      /\ forall value, Ed2.from value (Some (str "UTF8")) = inl ERR_UNKNOWN_ENCODING).
Proof.
  refine (encoding_names_and_case ascii_lower (str "UTF8") _ _).
  - intros s _. reflexivity.
  - repeat constructor; cbn; lia.
Defined.
